(** * Content-selection engine: a shallow embedding and its verified properties

    The development follows the Python package [cs_module]:

    - [PyDict]            insertion-ordered dictionaries (Python [dict])
    - [ProcessBinder]     [cs_module/utils/process_binder.py]
    - [BernoulliBetaTS]   [cs_module/multi_armed_bandit/bernoulli_beta_ts.py]
    - [LogisticLaplaceTS] [cs_module/multi_armed_bandit/logistic_laplace_ts.py]
    - [Encoding]          [cs_module/utils/encoding.py] with [cs_module/config.py]
                          and [cs_module/utils/get_pillar.py]
    - [HistoryTracker]    [cs_module/utils/recommendation_history_tracker.py]
    - [UserState]         [cs_module/content_selection/user.py], [user_manager.py]
    - [Core]              the event merge of [ContentSelection.update] and the
                          mission choice of [_select_contents] ([core.py])
    - [Engine]            [frequency_updaters.py], [selector.py], [engine.py]

    Python exceptions are modelled by [option] ([None] = the call raised).
    Floating-point numbers are modelled by exact rationals ([Q]), except in
    [LogisticLaplaceTS], which is generic in its scalar type. *)

From Stdlib Require Import QArith Qminmax Reals Lra Lia List Sorting.Sorted Permutation.
From stdpp Require Import gmap strings list.

Set Default Proof Using "Type".
Open Scope string_scope.
Open Scope list_scope.

(** ** Insertion-ordered dictionaries

    A Python [dict] iterates in insertion order; assigning to an existing key
    keeps the key's position, assigning to a new key appends it. *)
Module PyDict.
Section Dict.
Context {K V : Type} `{EqDecision K}.

Definition t := list (K * V).

Fixpoint get (k : K) (d : list (K * V)) : option V :=
  match d with
  | [] => None
  | (k', v) :: d' => if decide (k' = k) then Some v else get k d'
  end.

(** [d[k] = v] *)
Fixpoint set (k : K) (v : V) (d : list (K * V)) : list (K * V) :=
  match d with
  | [] => [(k, v)]
  | (k', v') :: d' =>
      if decide (k' = k) then (k', v) :: d' else (k', v') :: set k v d'
  end.

(** [d.pop(k, None)] *)
Fixpoint pop (k : K) (d : list (K * V)) : list (K * V) :=
  match d with
  | [] => []
  | (k', v') :: d' => if decide (k' = k) then d' else (k', v') :: pop k d'
  end.

Definition keys (d : list (K * V)) : list K := map fst d.

Definition mem (k : K) (d : list (K * V)) : bool :=
  match get k d with Some _ => true | None => false end.

(** A well-formed dictionary holds every key once. *)
Definition wf (d : list (K * V)) : Prop := NoDup (keys d).

Lemma get_None_keys k d : get k d = None <-> k ∉ keys d.
Proof.
  induction d as [|[k' v'] d IH]; simpl.
  - split; [intros _; apply not_elem_of_nil | done].
  - destruct (decide (k' = k)) as [->|Hne].
    + split; [done | intros H; exfalso; apply H; left].
    + rewrite IH, not_elem_of_cons. split; [intros Hn; split; congruence | intros [_ Hn]; exact Hn].
Qed.

Lemma get_Some_keys k v d : get k d = Some v -> k ∈ keys d.
Proof.
  intros H. destruct (decide (k ∈ keys d)) as [|Hn]; [done|].
  apply get_None_keys in Hn. congruence.
Qed.

Lemma get_set_eq k v d : get k (set k v d) = Some v.
Proof.
  induction d as [|[k' v'] d IH]; simpl.
  - by rewrite decide_True.
  - destruct (decide (k' = k)) as [->|Hne]; simpl.
    + by rewrite decide_True.
    + by rewrite decide_False.
Qed.

Lemma get_set_ne k k' v d : k ≠ k' -> get k' (set k v d) = get k' d.
Proof.
  intros Hne. induction d as [|[k0 v0] d IH]; simpl.
  - by rewrite decide_False.
  - destruct (decide (k0 = k)) as [->|Hne0]; simpl.
    + by rewrite !decide_False.
    + destruct (decide (k0 = k')); [done | apply IH].
Qed.

Lemma keys_set_mem k v d : k ∈ keys d -> keys (set k v d) = keys d.
Proof.
  induction d as [|[k0 v0] d IH]; simpl.
  - intros H. by apply elem_of_nil in H.
  - intros H. destruct (decide (k0 = k)) as [->|Hne]; simpl; [done|].
    f_equal. apply IH. apply elem_of_cons in H as [H|H]; [congruence | done].
Qed.

Lemma keys_set_fresh k v d : k ∉ keys d -> keys (set k v d) = keys d ++ [k].
Proof.
  induction d as [|[k0 v0] d IH]; simpl; [done|].
  intros H. apply not_elem_of_cons in H as [Hne Hn].
  rewrite decide_False by done. simpl. f_equal. by apply IH.
Qed.

Lemma length_set_mem k v d : k ∈ keys d -> length (set k v d) = length d.
Proof.
  intros H. rewrite <- !(length_map fst). fold (keys (set k v d)) (keys d).
  by rewrite keys_set_mem.
Qed.

Lemma length_set_fresh k v d : k ∉ keys d -> length (set k v d) = S (length d).
Proof.
  intros H. rewrite <- !(length_map fst). fold (keys (set k v d)) (keys d).
  rewrite keys_set_fresh by done. rewrite length_app. simpl. lia.
Qed.

Lemma wf_set k v d : wf d -> wf (set k v d).
Proof.
  unfold wf. intros Hd. destruct (decide (k ∈ keys d)) as [Hin|Hn].
  - by rewrite keys_set_mem.
  - rewrite keys_set_fresh by done. apply NoDup_app. split_and!; [done| |].
    + intros x Hx Hx'. apply list_elem_of_singleton in Hx'. by subst.
    + apply NoDup_singleton.
Qed.

Lemma keys_pop_subseteq k d : keys (pop k d) ⊆ keys d.
Proof.
  induction d as [|[k0 v0] d IH]; simpl; [done|].
  destruct (decide (k0 = k)); simpl.
  - intros x Hx. by right.
  - intros x Hx. apply elem_of_cons in Hx as [->|Hx]; [left | right; by apply IH].
Qed.

Lemma wf_pop k d : wf d -> wf (pop k d).
Proof.
  unfold wf. induction d as [|[k0 v0] d IH]; simpl; [done|].
  intros Hd. apply NoDup_cons in Hd as [Hn Hd].
  destruct (decide (k0 = k)); simpl; [done|].
  apply NoDup_cons. split; [|by apply IH].
  intros Hin. apply Hn. by apply (keys_pop_subseteq k).
Qed.

Lemma get_pop_eq k d : wf d -> get k (pop k d) = None.
Proof.
  unfold wf. induction d as [|[k0 v0] d IH]; simpl; [done|].
  intros Hd. apply NoDup_cons in Hd as [Hn Hd].
  destruct (decide (k0 = k)) as [->|Hne]; simpl.
  - by apply get_None_keys.
  - rewrite decide_False by done. by apply IH.
Qed.

Lemma get_pop_ne k k' d : k ≠ k' -> get k' (pop k d) = get k' d.
Proof.
  intros Hne. induction d as [|[k0 v0] d IH]; simpl; [done|].
  destruct (decide (k0 = k)) as [->|Hne0]; simpl.
  - by rewrite decide_False.
  - destruct (decide (k0 = k')); [done | apply IH].
Qed.

Lemma length_pop_mem k d : k ∈ keys d -> S (length (pop k d)) = length d.
Proof.
  induction d as [|[k0 v0] d IH]; simpl.
  - intros H. by apply elem_of_nil in H.
  - intros H. destruct (decide (k0 = k)) as [->|Hne]; simpl; [done|].
    f_equal. apply IH. apply elem_of_cons in H as [H|H]; [congruence | done].
Qed.

Lemma pop_fresh k d : k ∉ keys d -> pop k d = d.
Proof.
  induction d as [|[k0 v0] d IH]; simpl; [done|].
  intros H. apply not_elem_of_cons in H as [Hne Hn].
  rewrite decide_False by done. f_equal. by apply IH.
Qed.

Lemma set_fresh k v d : k ∉ keys d -> set k v d = d ++ [(k, v)].
Proof.
  induction d as [|[k0 v0] d IH]; simpl; [done|].
  intros H. apply not_elem_of_cons in H as [Hne Hn].
  rewrite decide_False by done. f_equal. by apply IH.
Qed.

Lemma get_elem_of k v d : get k d = Some v -> (k, v) ∈ d.
Proof.
  induction d as [|[k0 v0] d IH]; simpl; [done|].
  destruct (decide (k0 = k)) as [->|Hne].
  - intros [= ->]. left.
  - intros H. right. by apply IH.
Qed.

Lemma elem_of_get k v d : wf d -> (k, v) ∈ d -> get k d = Some v.
Proof.
  unfold wf. induction d as [|[k0 v0] d IH]; simpl; intros Hwf Hin.
  - by apply elem_of_nil in Hin.
  - apply NoDup_cons in Hwf as [Hn Hwf].
    apply elem_of_cons in Hin as [[= <- <-]|Hin].
    + by rewrite decide_True.
    + destruct (decide (k0 = k)) as [->|Hne]; [|by apply IH].
      exfalso. apply Hn. change k with (fst (k, v)). by apply list_elem_of_fmap_2.
Qed.

Lemma keys_set_subseteq k v d : keys d ⊆ keys (set k v d).
Proof.
  destruct (decide (k ∈ keys d)) as [Hin|Hn].
  - by rewrite keys_set_mem.
  - rewrite keys_set_fresh by done. intros x Hx. apply elem_of_app. by left.
Qed.

Lemma keys_set_elem k v d : k ∈ keys (set k v d).
Proof. apply (get_Some_keys k v). apply get_set_eq. Qed.
End Dict.
Arguments t : clear implicits.
End PyDict.

(** ** [cs_module/utils/process_binder.py] *)
Module ProcessBinder.

(** A planned-decision snapshot (a Python dict with these keys).
    [enqueue_decision] receives all five keys; [set_snapshot] builds a
    snapshot without [content_count]. *)
Record snapshot := Snapshot {
  content_count : option nat;
  rec_id : string;
  mission_id : option string;
  feature_vector : option (list Q);
  selection_time : option Z
}.

(** [ProcessBinder]: [pending[user_id][plan_id]] is a FIFO of snapshots (a
    [defaultdict], so a missing queue reads as empty), [proc_map] is an
    insertion-ordered dict from process id to bound snapshot. *)
Record t := Binder {
  pending : gmap (string * string) (list snapshot);
  proc_map : list (string * snapshot);
  _cap : Z
}.

(** [__init__]: [self._cap = proc_cap or int(os.getenv("BINDER_PROC_CAP", "200000"))];
    [env_cap] is the value read from the environment. *)
Definition default_env_cap : Z := 200000.

Definition init (proc_cap : option Z) (env_cap : Z) : t :=
  {| pending := ∅;
     proc_map := [];
     _cap := match proc_cap with
             | Some c => if (c =? 0)%Z then env_cap else c
             | None => env_cap
             end |}.

Definition pending_queue (b : t) (user_id plan_id : string) : list snapshot :=
  default [] (pending b !! (user_id, plan_id)).

Definition enqueue_decision (b : t) (user_id plan_id : string) (snap : snapshot) : t :=
  {| pending := <[(user_id, plan_id) := pending_queue b user_id plan_id ++ [snap]]> (pending b);
     proc_map := proc_map b;
     _cap := _cap b |}.

(** [snap["rec_id"] == rec_id and (mission_id is None or snap["mission_id"] == mission_id)] *)
Definition snap_matches (rid : string) (mid : option string) (snap : snapshot) : bool :=
  bool_decide (rec_id snap = rid) &&
  match mid with
  | None => true
  | Some m => bool_decide (mission_id snap = Some m)
  end.

(** The [while dq:] loop of [bind_on_sent]: pop from the left; the first
    matching snapshot is kept in [bound], every other one is appended to
    [new_dq]. *)
Fixpoint scan (rid : string) (mid : option string) (dq : list snapshot)
    (bound : option snapshot) (new_dq : list snapshot) : option snapshot * list snapshot :=
  match dq with
  | [] => (bound, new_dq)
  | snap :: dq' =>
      match bound with
      | None =>
          if snap_matches rid mid snap
          then scan rid mid dq' (Some snap) new_dq
          else scan rid mid dq' bound (new_dq ++ [snap])
      | Some _ => scan rid mid dq' bound (new_dq ++ [snap])
      end
  end.

Definition bind_on_sent (b : t) (user_id plan_id rid : string) (mid : option string)
    (process_id : string) : t * option snapshot :=
  let dq := pending_queue b user_id plan_id in
  let '(bound, new_dq) := scan rid mid dq None [] in
  let pending' := <[(user_id, plan_id) := new_dq]> (pending b) in
  match bound with
  | Some snap =>
      ({| pending := pending';
          proc_map := PyDict.set process_id snap (proc_map b);
          _cap := _cap b |}, Some snap)
  | None =>
      ({| pending := pending'; proc_map := proc_map b; _cap := _cap b |}, None)
  end.

(** [_remember]: store, then evict the oldest-inserted key when over the cap. *)
Definition _remember (b : t) (process_id : string) (snap : snapshot) : t :=
  let pm := PyDict.set process_id snap (proc_map b) in
  let pm' :=
    if (Z.of_nat (length pm) >? _cap b)%Z then
      match pm with
      | (oldest_key, _) :: _ =>
          if bool_decide (oldest_key ≠ process_id) then PyDict.pop oldest_key pm else pm
      | [] => pm
      end
    else pm in
  {| pending := pending b; proc_map := pm'; _cap := _cap b |}.

(** [set_snapshot] (replay path); no caller passes [extra]. *)
Definition set_snapshot (b : t) (process_id rid : string) (mid : option string)
    (fv : option (list Q)) (sel_time : option Z) : t :=
  _remember b process_id
    {| content_count := None; rec_id := rid; mission_id := mid;
       feature_vector := fv; selection_time := sel_time |}.

Definition lookup (b : t) (process_id : string) : option snapshot :=
  PyDict.get process_id (proc_map b).

Definition release (b : t) (process_id : string) : t :=
  {| pending := pending b;
     proc_map := PyDict.pop process_id (proc_map b);
     _cap := _cap b |}.

(** *** The scan removes the first match *)

Lemma scan_bound rid mid dq s acc :
  scan rid mid dq (Some s) acc = (Some s, acc ++ dq).
Proof.
  revert acc. induction dq as [|x dq IH]; intros acc; simpl.
  - by rewrite app_nil_r.
  - rewrite IH. by rewrite <- app_assoc.
Qed.

Lemma scan_no_match rid mid dq acc :
  Forall (fun x => snap_matches rid mid x = false) dq ->
  scan rid mid dq None acc = (None, acc ++ dq).
Proof.
  revert acc. induction dq as [|x dq IH]; intros acc Hall; simpl.
  - by rewrite app_nil_r.
  - apply Forall_cons in Hall as [Hx Hall]. rewrite Hx.
    rewrite IH by done. by rewrite <- app_assoc.
Qed.

Lemma scan_first_match rid mid l1 s l2 acc :
  Forall (fun x => snap_matches rid mid x = false) l1 ->
  snap_matches rid mid s = true ->
  scan rid mid (l1 ++ s :: l2) None acc = (Some s, acc ++ l1 ++ l2).
Proof.
  revert acc. induction l1 as [|x l1 IH]; intros acc Hall Hs; simpl.
  - by rewrite Hs, scan_bound.
  - apply Forall_cons in Hall as [Hx Hall]. rewrite Hx.
    rewrite IH by done. by rewrite <- app_assoc.
Qed.

Lemma pending_queue_enqueue b u p s :
  pending_queue (enqueue_decision b u p s) u p = pending_queue b u p ++ [s].
Proof. unfold pending_queue at 1, enqueue_decision; simpl. by rewrite lookup_insert_eq. Qed.

Lemma bind_on_sent_hit b u p rid mid pid l1 s l2 :
  pending_queue b u p = l1 ++ s :: l2 ->
  Forall (fun x => snap_matches rid mid x = false) l1 ->
  snap_matches rid mid s = true ->
  exists b',
    bind_on_sent b u p rid mid pid = (b', Some s) /\
    pending_queue b' u p = l1 ++ l2 /\
    proc_map b' = PyDict.set pid s (proc_map b) /\
    (forall u' p', (u', p') ≠ (u, p) -> pending_queue b' u' p' = pending_queue b u' p').
Proof.
  intros Hq Hall Hs. unfold bind_on_sent. rewrite Hq.
  rewrite scan_first_match by done. simpl. eexists. split; [done|].
  unfold pending_queue; simpl. split_and!; [by rewrite lookup_insert_eq | done |].
  intros u' p' Hne. by rewrite lookup_insert_ne.
Qed.

Lemma bind_on_sent_miss b u p rid mid pid :
  Forall (fun x => snap_matches rid mid x = false) (pending_queue b u p) ->
  exists b',
    bind_on_sent b u p rid mid pid = (b', None) /\
    proc_map b' = proc_map b /\
    (forall u' p', pending_queue b' u' p' = pending_queue b u' p').
Proof.
  intros Hall. unfold bind_on_sent. rewrite scan_no_match by done. simpl.
  eexists. split; [done|]. split; [done|].
  intros u' p'. unfold pending_queue at 1; simpl.
  destruct (decide ((u, p) = (u', p'))) as [[= <- <-]|Hne].
  - by rewrite lookup_insert_eq.
  - by rewrite lookup_insert_ne.
Qed.

Lemma snap_matches_spec rid mid s :
  snap_matches rid mid s = true <->
  rec_id s = rid /\ (forall m, mid = Some m -> mission_id s = Some m).
Proof.
  unfold snap_matches. rewrite andb_true_iff, bool_decide_eq_true.
  destruct mid as [m|]; [rewrite bool_decide_eq_true|]; split.
  - intros [-> Hm]. split; [done|]. by intros ? [= <-].
  - intros [-> Hm]. split; [done|]. by apply Hm.
  - intros [-> _]. split; [done|]. by intros.
  - by intros [-> _].
Qed.

(** The event of item [rid] (and of mission [mid], when it names one) is
    for the snapshot [s]: the snapshot was planned for that item, and for
    that mission if the event names a mission. *)
Definition event_for (rid : string) (mid : option string) (s : snapshot) : Prop :=
  rec_id s = rid /\ (forall m, mid = Some m -> mission_id s = Some m).

(** The event is for none of the snapshots of [l]. *)
Definition none_for (rid : string) (mid : option string) (l : list snapshot) : Prop :=
  Forall (fun x => ~ event_for rid mid x) l.

Lemma none_for_no_match rid mid l :
  none_for rid mid l -> Forall (fun x => snap_matches rid mid x = false) l.
Proof.
  intros Hall. eapply Forall_impl; [exact Hall|]. intros x Hx.
  destruct (snap_matches rid mid x) eqn:Hm; [|done].
  exfalso. by apply Hx, snap_matches_spec.
Qed.

(** C3. For every (user, plan) queue, [bind_on_sent] consumes exactly the
    first pending snapshot whose [rec_id] is the event's item id (and whose
    [mission_id] is the event's, when the event names a mission) and returns
    it, keeping the others in order; a bind for which no pending snapshot is
    of that item (and mission) returns not-found and leaves every queue and
    the cache as they were; and three decisions for one item enqueued in the
    order 1, 2, 3 are resolved by three successive binds to snapshots 1, 2
    and 3, whatever the process ids, after which a fourth bind finds nothing. *)
Theorem bind_on_sent_fifo (b : t) (u p rid : string) (mid : option string) :
  (forall pid l1 s l2,
      pending_queue b u p = l1 ++ s :: l2 ->
      none_for rid mid l1 ->
      event_for rid mid s ->
      exists b',
        bind_on_sent b u p rid mid pid = (b', Some s) /\
        pending_queue b' u p = l1 ++ l2 /\
        lookup b' pid = Some s /\
        (forall u' p', (u', p') ≠ (u, p) -> pending_queue b' u' p' = pending_queue b u' p')) /\
  (forall pid,
      none_for rid mid (pending_queue b u p) ->
      exists b',
        bind_on_sent b u p rid mid pid = (b', None) /\
        proc_map b' = proc_map b /\
        (forall u' p', pending_queue b' u' p' = pending_queue b u' p')) /\
  (forall s1 s2 s3 pid1 pid2 pid3 pid4,
      none_for rid mid (pending_queue b u p) ->
      event_for rid mid s1 ->
      event_for rid mid s2 ->
      event_for rid mid s3 ->
      let b0 := enqueue_decision (enqueue_decision (enqueue_decision b u p s1) u p s2) u p s3 in
      exists b1 b2 b3 b4,
        bind_on_sent b0 u p rid mid pid1 = (b1, Some s1) /\
        bind_on_sent b1 u p rid mid pid2 = (b2, Some s2) /\
        bind_on_sent b2 u p rid mid pid3 = (b3, Some s3) /\
        bind_on_sent b3 u p rid mid pid4 = (b4, None) /\
        pending_queue b4 u p = pending_queue b u p).
Proof.
  split_and!.
  - intros pid l1 s l2 Hq Hl1 Hs.
    apply none_for_no_match in Hl1. apply snap_matches_spec in Hs.
    destruct (bind_on_sent_hit b u p rid mid pid l1 s l2 Hq Hl1 Hs)
      as (b' & Hb & Hq' & Hpm & Hother).
    exists b'. split_and!; [done | done | | done].
    unfold lookup. rewrite Hpm. apply PyDict.get_set_eq.
  - intros pid Hq. by apply bind_on_sent_miss, none_for_no_match.
  - intros s1 s2 s3 pid1 pid2 pid3 pid4 Hq H1 H2 H3 b0.
    apply none_for_no_match in Hq.
    apply snap_matches_spec in H1. apply snap_matches_spec in H2.
    apply snap_matches_spec in H3.
    set (q := pending_queue b u p) in *.
    assert (Hq0 : pending_queue b0 u p = q ++ s1 :: [s2; s3]).
    { unfold b0. rewrite !pending_queue_enqueue. fold q. by rewrite <- !app_assoc. }
    destruct (bind_on_sent_hit b0 u p rid mid pid1 q s1 [s2; s3] Hq0 Hq H1)
      as (b1 & Hb1 & Hq1 & _ & _).
    destruct (bind_on_sent_hit b1 u p rid mid pid2 q s2 [s3] Hq1 Hq H2)
      as (b2 & Hb2 & Hq2 & _ & _).
    destruct (bind_on_sent_hit b2 u p rid mid pid3 q s3 [] Hq2 Hq H3)
      as (b3 & Hb3 & Hq3 & _ & _).
    rewrite app_nil_r in Hq3.
    assert (Hq3' : Forall (fun x => snap_matches rid mid x = false) (pending_queue b3 u p))
      by (by rewrite Hq3).
    destruct (bind_on_sent_miss b3 u p rid mid pid4 Hq3') as (b4 & Hb4 & _ & Hq4).
    exists b1, b2, b3, b4. split_and!; try done. by rewrite Hq4.
Qed.

(** The [n]-th decision for item "SRc1" of mission "SM1". *)
Definition example_snapshot (n : nat) : snapshot :=
  {| content_count := Some n; rec_id := "SRc1"; mission_id := Some "SM1";
     feature_vector := None; selection_time := Some 0%Z |}.

(** Decisions of other items and missions, pending before and between the
    three: one for item "SRc2" of mission "SM1", one for item "SRc1" of
    mission "SM2". *)
Definition other_item : snapshot :=
  {| content_count := Some 7%nat; rec_id := "SRc2"; mission_id := Some "SM1";
     feature_vector := None; selection_time := Some 0%Z |}.

Definition other_mission : snapshot :=
  {| content_count := Some 8%nat; rec_id := "SRc1"; mission_id := Some "SM2";
     feature_vector := None; selection_time := Some 0%Z |}.

Definition mixed_binder : t :=
  enqueue_decision
    (enqueue_decision
       (enqueue_decision
          (enqueue_decision (init (Some 2%Z) default_env_cap) "u1" "plan-1" other_item)
          "u1" "plan-1" other_mission)
       "u1" "plan-1" (example_snapshot 1))
    "u1" "plan-1" (example_snapshot 2).

Lemma other_item_differs mid : ~ event_for "SRc1" mid other_item.
Proof. by intros [Hrid _]. Qed.

Lemma other_mission_differs : ~ event_for "SRc1" (Some "SM1") other_mission.
Proof. intros [_ Hmid]. by specialize (Hmid "SM1" eq_refl). Qed.

Lemma example_snapshot_for n mid :
  mid = None \/ mid = Some "SM1" -> event_for "SRc1" mid (example_snapshot n).
Proof. intros [->| ->]; (split; [done|]); [done | by intros m [= <-]]. Qed.

Lemma mixed_binder_queue :
  pending_queue mixed_binder "u1" "plan-1"
  = [other_item; other_mission] ++ example_snapshot 1 :: [example_snapshot 2].
Proof. vm_compute. reflexivity. Qed.

Lemma other_item_queue :
  pending_queue (enqueue_decision (init (Some 2%Z) default_env_cap) "u1" "plan-1" other_item)
    "u1" "plan-1" = [other_item].
Proof. vm_compute. reflexivity. Qed.

Lemma bind_on_sent_fifo_witness :
  (exists b',
     bind_on_sent mixed_binder "u1" "plan-1" "SRc1" (Some "SM1") "proc-x"
     = (b', Some (example_snapshot 1)) /\
     pending_queue b' "u1" "plan-1" = [other_item; other_mission] ++ [example_snapshot 2] /\
     lookup b' "proc-x" = Some (example_snapshot 1)) /\
  (exists b',
     bind_on_sent mixed_binder "u1" "plan-1" "SRc1" None "proc-y"
     = (b', Some other_mission) /\
     pending_queue b' "u1" "plan-1"
     = [other_item] ++ [example_snapshot 1; example_snapshot 2]) /\
  (exists b1 b2 b3 b4,
     bind_on_sent
       (enqueue_decision
          (enqueue_decision
             (enqueue_decision
                (enqueue_decision (init (Some 2%Z) default_env_cap) "u1" "plan-1" other_item)
                "u1" "plan-1" (example_snapshot 1))
             "u1" "plan-1" (example_snapshot 2))
          "u1" "plan-1" (example_snapshot 3))
       "u1" "plan-1" "SRc1" None "proc-c" = (b1, Some (example_snapshot 1)) /\
     bind_on_sent b1 "u1" "plan-1" "SRc1" None "proc-a" = (b2, Some (example_snapshot 2)) /\
     bind_on_sent b2 "u1" "plan-1" "SRc1" None "proc-b" = (b3, Some (example_snapshot 3)) /\
     bind_on_sent b3 "u1" "plan-1" "SRc1" None "proc-d" = (b4, None) /\
     pending_queue b4 "u1" "plan-1" = [other_item]).
Proof.
  split_and!.
  - destruct (bind_on_sent_fifo mixed_binder "u1" "plan-1" "SRc1" (Some "SM1")) as (H & _).
    destruct (H "proc-x" [other_item; other_mission] (example_snapshot 1)
                [example_snapshot 2]) as (b' & H1 & H2 & H3 & _).
    + exact mixed_binder_queue.
    + apply Forall_cons_2; [apply other_item_differs|].
      apply Forall_cons_2; [apply other_mission_differs|]. apply Forall_nil_2.
    + apply example_snapshot_for. by right.
    + by exists b'.
  - destruct (bind_on_sent_fifo mixed_binder "u1" "plan-1" "SRc1" None) as (H & _).
    destruct (H "proc-y" [other_item] other_mission
                [example_snapshot 1; example_snapshot 2]) as (b' & H1 & H2 & _).
    + exact mixed_binder_queue.
    + apply Forall_cons_2; [apply other_item_differs | apply Forall_nil_2].
    + by split.
    + by exists b'.
  - destruct (bind_on_sent_fifo
                (enqueue_decision (init (Some 2%Z) default_env_cap) "u1" "plan-1" other_item)
                "u1" "plan-1" "SRc1" None) as (_ & _ & H).
    destruct (H (example_snapshot 1) (example_snapshot 2) (example_snapshot 3)
                "proc-c" "proc-a" "proc-b" "proc-d")
      as (b1 & b2 & b3 & b4 & H1 & H2 & H3 & H4 & H5).
    + rewrite other_item_queue.
      apply Forall_cons_2; [apply other_item_differs | apply Forall_nil_2].
    + apply example_snapshot_for. by left.
    + apply example_snapshot_for. by left.
    + apply example_snapshot_for. by left.
    + exists b1, b2, b3, b4. rewrite other_item_queue in H5. by split_and!.
Defined.

(** *** The capacity bound of [proc_map] *)

Ltac case_gtb :=
  match goal with
  | |- context [(?a >? ?c)%Z] => destruct (Z.gtb_spec a c)
  end.

(** [_remember] keeps the cache within a positive cap. *)
Lemma remember_within_cap b pid snap :
  PyDict.wf (proc_map b) ->
  (1 <= _cap b)%Z ->
  (Z.of_nat (length (proc_map b)) <= _cap b)%Z ->
  (Z.of_nat (length (proc_map (_remember b pid snap))) <= _cap b)%Z.
Proof.
  intros Hwf Hcap Hlen. unfold _remember; simpl.
  destruct (decide (pid ∈ PyDict.keys (proc_map b))) as [Hin|Hfresh].
  - pose proof (PyDict.length_set_mem pid snap _ Hin) as Hl.
    case_gtb; lia.
  - rewrite (PyDict.set_fresh pid snap _ Hfresh).
    destruct (proc_map b) as [|[k0 v0] d] eqn:Hpm; simpl in *.
    + case_gtb; simpl; lia.
    + apply not_elem_of_cons in Hfresh as [Hne _].
      case_gtb; simpl.
      * rewrite bool_decide_eq_true_2 by congruence.
        rewrite decide_True by done. rewrite length_app in *. simpl in *. lia.
      * lia.
Qed.

(** At the cap, storing a new process id evicts exactly the oldest entry. *)
Lemma remember_evicts_oldest b pid snap k0 v0 d :
  proc_map b = (k0, v0) :: d ->
  Z.of_nat (length (proc_map b)) = _cap b ->
  pid ∉ PyDict.keys (proc_map b) ->
  proc_map (_remember b pid snap) = d ++ [(pid, snap)].
Proof.
  intros Hpm Hlen Hfresh. unfold _remember; simpl.
  rewrite (PyDict.set_fresh pid snap _ Hfresh). rewrite Hpm in *.
  apply not_elem_of_cons in Hfresh as [Hne _]. simpl in *.
  case_gtb; [|rewrite length_app in *; simpl in *; lia].
  rewrite bool_decide_eq_true_2 by congruence.
  by rewrite decide_True.
Qed.

(** [release] drops the entry whatever the size of the cache. *)
Lemma release_removes b pid :
  PyDict.wf (proc_map b) ->
  lookup (release b pid) pid = None /\
  (forall pid', pid ≠ pid' -> lookup (release b pid) pid' = lookup b pid') /\
  pending (release b pid) = pending b.
Proof.
  intros Hwf. unfold lookup, release; simpl. split_and!; [|intros pid' Hne|done].
  - by apply PyDict.get_pop_eq.
  - by apply PyDict.get_pop_ne.
Qed.

(** [bind_on_sent] stores the bound snapshot with a plain assignment. *)
Lemma bind_on_sent_grows b u p rid mid pid b' s :
  bind_on_sent b u p rid mid pid = (b', Some s) ->
  pid ∉ PyDict.keys (proc_map b) ->
  length (proc_map b') = S (length (proc_map b)) /\ _cap b' = _cap b.
Proof.
  unfold bind_on_sent. destruct (scan rid mid (pending_queue b u p) None []) as [[s'|] q].
  - intros [= <- <-] Hfresh; simpl. split; [|done]. by apply PyDict.length_set_fresh.
  - intros [= ].
Qed.

(** A binder capped at one entry whose cache is full, with one pending
    decision for item "SRc1". *)
Definition full_binder : t :=
  enqueue_decision
    (set_snapshot (init (Some 1%Z) default_env_cap) "proc-old" "SRc9" (Some "SM1") None None)
    "u1" "plan-1" (example_snapshot 1).

(** C4 (the code misses the bound on the live path). On a binder capped at
    one entry and already holding one, the replay path [set_snapshot] evicts
    the oldest entry and stays at the cap, [release] removes its entry, but
    [bind_on_sent] adds the bound snapshot without any eviction: the cache
    then holds two entries, one more than its cap. *)
Theorem bind_on_sent_exceeds_cap :
  _cap full_binder = 1%Z /\
  PyDict.keys (proc_map full_binder) = ["proc-old"] /\
  PyDict.keys (proc_map (set_snapshot full_binder "proc-new" "SRc1" (Some "SM1") None None))
    = ["proc-new"] /\
  PyDict.keys (proc_map (release full_binder "proc-old")) = [] /\
  snd (bind_on_sent full_binder "u1" "plan-1" "SRc1" (Some "SM1") "proc-new")
    = Some (example_snapshot 1) /\
  PyDict.keys (proc_map (fst (bind_on_sent full_binder "u1" "plan-1" "SRc1" (Some "SM1") "proc-new")))
    = ["proc-old"; "proc-new"] /\
  _cap (fst (bind_on_sent full_binder "u1" "plan-1" "SRc1" (Some "SM1") "proc-new")) = 1%Z.
Proof. repeat split; reflexivity. Qed.

(** *** The replay cache over a run *)

Lemma remember_lookup b pid snap :
  PyDict.wf (proc_map b) ->
  (Z.of_nat (length (proc_map b)) <= _cap b)%Z ->
  PyDict.wf (proc_map (_remember b pid snap)) /\
  lookup (_remember b pid snap) pid = Some snap.
Proof.
  intros Hwf Hlen. unfold lookup, _remember; simpl.
  pose proof (PyDict.wf_set pid snap _ Hwf) as Hwf'.
  case_gtb; [|split; [exact Hwf' | apply PyDict.get_set_eq]].
  pose proof (PyDict.get_set_eq pid snap (proc_map b)) as Hget.
  destruct (PyDict.set pid snap (proc_map b)) as [|[k0 v0] d] eqn:Hpm; [done|].
  destruct (decide (k0 = pid)) as [->|Hne].
  - rewrite bool_decide_eq_false_2 by (by intros ?). done.
  - rewrite bool_decide_eq_true_2 by done. split; [by apply PyDict.wf_pop|].
    by rewrite PyDict.get_pop_ne.
Qed.

(** A call on the replay cache. *)
Inductive cache_op :=
| Store (process_id rid : string) (mid : option string) (fv : option (list Q))
        (sel_time : option Z)
| Release (process_id : string).

Definition apply_cache_op (b : t) (op : cache_op) : t :=
  match op with
  | Store pid rid mid fv sel_time => set_snapshot b pid rid mid fv sel_time
  | Release pid => release b pid
  end.

Definition run_cache_ops (b : t) (ops : list cache_op) : t := foldl apply_cache_op b ops.

(** The cache holds every key once and no more entries than its cap. *)
Definition within_cap (b : t) : Prop :=
  PyDict.wf (proc_map b) /\ (Z.of_nat (length (proc_map b)) <= _cap b)%Z.

Lemma apply_cache_op_within_cap b op :
  (1 <= _cap b)%Z -> within_cap b ->
  within_cap (apply_cache_op b op) /\ _cap (apply_cache_op b op) = _cap b /\
  pending (apply_cache_op b op) = pending b.
Proof.
  intros Hcap [Hwf Hlen]. destruct op as [pid rid mid fv sel_time|pid]; simpl.
  - unfold set_snapshot. split_and!; [split| |]; try done.
    + by apply remember_lookup.
    + by apply (remember_within_cap b).
  - split_and!; [split| |]; try done; simpl.
    + by apply PyDict.wf_pop.
    + destruct (decide (pid ∈ PyDict.keys (proc_map b))) as [Hin|Hin].
      * pose proof (PyDict.length_pop_mem pid _ Hin). lia.
      * by rewrite PyDict.pop_fresh.
Qed.

(** X1. On a binder with a positive cap, any run of [set_snapshot] and
    [release] calls keeps the cache within the cap (at most [_cap] entries,
    every process id once) and leaves the cap and the pending queues as they
    were; and right after [set_snapshot] the process id resolves to the
    snapshot just stored, which is never the entry evicted. *)
Theorem replay_cache_within_cap (b : t) (ops : list cache_op) :
  (1 <= _cap b)%Z -> within_cap b ->
  within_cap (run_cache_ops b ops) /\
  _cap (run_cache_ops b ops) = _cap b /\
  pending (run_cache_ops b ops) = pending b /\
  (forall pid rid mid fv sel_time,
     lookup (set_snapshot (run_cache_ops b ops) pid rid mid fv sel_time) pid
     = Some {| content_count := None; rec_id := rid; mission_id := mid;
               feature_vector := fv; selection_time := sel_time |}).
Proof.
  intros Hcap Hin.
  assert (Hrun : within_cap (run_cache_ops b ops) /\
                 _cap (run_cache_ops b ops) = _cap b /\
                 pending (run_cache_ops b ops) = pending b).
  { revert b Hcap Hin. unfold run_cache_ops.
    induction ops as [|op ops IH]; intros b Hcap Hin; simpl; [done|].
    destruct (apply_cache_op_within_cap b op Hcap Hin) as (Hin1 & Hcap1 & Hp1).
    destruct (IH (apply_cache_op b op)) as (Hin' & Hcap' & Hp'); [lia | done|].
    split_and!; [done | congruence | congruence]. }
  destruct Hrun as ([Hwf Hlen] & Hc & Hp). split_and!; try done.
  intros pid rid mid fv sel_time. unfold set_snapshot. by apply remember_lookup.
Qed.

Lemma replay_cache_within_cap_witness :
  within_cap (run_cache_ops (init (Some 2%Z) default_env_cap)
                [Store "p1" "SRc1" (Some "SM1") None None;
                 Store "p2" "SRc2" (Some "SM1") None None;
                 Release "p9";
                 Store "p3" "SRc3" None None None]) /\
  PyDict.keys (proc_map (run_cache_ops (init (Some 2%Z) default_env_cap)
                [Store "p1" "SRc1" (Some "SM1") None None;
                 Store "p2" "SRc2" (Some "SM1") None None;
                 Release "p9";
                 Store "p3" "SRc3" None None None])) = ["p2"; "p3"].
Proof.
  split; [|reflexivity].
  apply (replay_cache_within_cap (init (Some 2%Z) default_env_cap)).
  - simpl. lia.
  - split; [apply NoDup_nil_2 | simpl; lia].
Defined.

(** X2. [release] forgets exactly the given process id: afterwards the id
    resolves to nothing, every other id resolves as before, the cache never
    grows, and releasing an id that is not cached changes nothing. *)
Theorem release_forgets (b : t) (pid : string) :
  PyDict.wf (proc_map b) ->
  lookup (release b pid) pid = None /\
  (forall pid', pid' ≠ pid -> lookup (release b pid) pid' = lookup b pid') /\
  (length (proc_map (release b pid)) <= length (proc_map b))%nat /\
  (lookup b pid = None -> release b pid = b).
Proof.
  intros Hwf. unfold lookup, release; simpl. split_and!.
  - by apply PyDict.get_pop_eq.
  - intros pid' Hne. by apply PyDict.get_pop_ne.
  - destruct (decide (pid ∈ PyDict.keys (proc_map b))) as [Hin|Hin].
    + pose proof (PyDict.length_pop_mem pid _ Hin). lia.
    + by rewrite PyDict.pop_fresh.
  - intros Hnone. apply PyDict.get_None_keys in Hnone.
    rewrite PyDict.pop_fresh by done. by destruct b.
Qed.

Lemma release_forgets_witness :
  lookup (release full_binder "proc-old") "proc-old" = None /\
  release full_binder "proc-unknown" = full_binder.
Proof.
  destruct (release_forgets full_binder "proc-old") as (H1 & _).
  { apply NoDup_singleton. }
  destruct (release_forgets full_binder "proc-unknown") as (_ & _ & _ & H4).
  { apply NoDup_singleton. }
  split; [exact H1 | apply H4; reflexivity].
Defined.
End ProcessBinder.

(** ** [cs_module/multi_armed_bandit/bernoulli_beta_ts.py] *)
Module BernoulliBetaTS.

(** Per-action Beta parameters, kept in the two dicts [alpha] and [beta]. *)
Record t := Bandit {
  alpha_0 : Q;
  beta_0 : Q;
  alpha : gmap string Q;
  beta : gmap string Q
}.

Definition init (a0 b0 : Q) : t :=
  {| alpha_0 := a0; beta_0 := b0; alpha := ∅; beta := ∅ |}.

(** [if action not in self.alpha: self.alpha[action] = ...; self.beta[action] = ...] *)
Definition _initialize_action (s : t) (action : string) : t :=
  match alpha s !! action with
  | Some _ => s
  | None =>
      {| alpha_0 := alpha_0 s; beta_0 := beta_0 s;
         alpha := <[action := alpha_0 s]> (alpha s);
         beta := <[action := beta_0 s]> (beta s) |}
  end.

(** The record returned by [update]. *)
Record params := Params { p_action : string; p_alpha : Q; p_beta : Q }.

(** [update]: register the action, then [alpha[action] += 1] when
    [reward == 1], else [beta[action] += 1]. Reading a missing key raises
    [KeyError] ([None]). *)
Definition update (s : t) (action : string) (reward : Q) : option (t * params) :=
  let s1 := _initialize_action s action in
  s2 ← (if Qeq_bool reward 1
        then a ← alpha s1 !! action;
             Some {| alpha_0 := alpha_0 s1; beta_0 := beta_0 s1;
                     alpha := <[action := (a + 1)%Q]> (alpha s1); beta := beta s1 |}
        else b ← beta s1 !! action;
             Some {| alpha_0 := alpha_0 s1; beta_0 := beta_0 s1;
                     alpha := alpha s1; beta := <[action := (b + 1)%Q]> (beta s1) |});
  a ← alpha s2 !! action;
  b ← beta s2 !! action;
  Some (s2, {| p_action := action; p_alpha := a; p_beta := b |}).

(** [max(sampled, key=...)]: the first key holding the largest sample. *)
Fixpoint max_from (best : string * Q) (l : list (string * Q)) : string * Q :=
  match l with
  | [] => best
  | x :: l' => if Qlt_le_dec (snd best) (snd x) then max_from x l' else max_from best l'
  end.

Definition max_sampled (sampled : list (string * Q)) : option string :=
  match sampled with
  | [] => None
  | x :: l => Some (fst (max_from x l))
  end.

Section Sampling.
(** [np.random.beta(a, b)] at the [n]-th draw of the run. *)
Variable random_beta : nat -> Q -> Q -> Q.

(** The [for action in actions:] loop of [select_action]. *)
Fixpoint sample_loop (s : t) (tick : nat) (actions : list string)
    (sampled : list (string * Q)) : option (t * nat * list (string * Q)) :=
  match actions with
  | [] => Some (s, tick, sampled)
  | action :: rest =>
      let s1 := _initialize_action s action in
      a ← alpha s1 !! action;
      b ← beta s1 !! action;
      sample_loop s1 (S tick) rest (PyDict.set action (random_beta tick a b) sampled)
  end.

(** [select_action]: [max] of an empty dict raises [ValueError]. *)
Definition select_action (s : t) (tick : nat) (actions : list string)
    : option (t * nat * string * list (string * Q)) :=
  '(s', tick', sampled) ← sample_loop s tick actions [];
  best ← max_sampled sampled;
  Some (s', tick', best, sampled).
End Sampling.

(** The class sets [alpha] and [beta] together: both hold the same actions. *)
Definition wf (s : t) : Prop := forall a, alpha s !! a = None <-> beta s !! a = None.

Lemma wf_init a0 b0 : wf (init a0 b0).
Proof. intros a. unfold init; simpl. by rewrite !lookup_empty. Qed.

Lemma wf_initialize_action s action : wf s -> wf (_initialize_action s action).
Proof.
  intros Hwf a. unfold _initialize_action.
  destruct (alpha s !! action) eqn:Ha; [apply Hwf|]. simpl.
  destruct (decide (action = a)) as [->|Hne].
  - by rewrite !lookup_insert_eq.
  - rewrite !lookup_insert_ne by done. apply Hwf.
Qed.

(** What registering does to the parameters of any action [a]. *)
Lemma initialize_action_lookup s action a :
  wf s ->
  let s1 := _initialize_action s action in
  alpha_0 s1 = alpha_0 s /\ beta_0 s1 = beta_0 s /\
  (alpha s !! a = None -> a = action ->
     alpha s1 !! a = Some (alpha_0 s) /\ beta s1 !! a = Some (beta_0 s)) /\
  ((a ≠ action \/ is_Some (alpha s !! a)) ->
     alpha s1 !! a = alpha s !! a /\ beta s1 !! a = beta s !! a).
Proof.
  intros Hwf. unfold _initialize_action. simpl.
  destruct (alpha s !! action) eqn:Ha; simpl.
  - split_and!; try done. intros Hn ->. congruence.
  - split_and!; try done.
    + intros _ ->. by rewrite !lookup_insert_eq.
    + intros [Hne | [x Hx]].
      * by rewrite !lookup_insert_ne.
      * assert (a ≠ action) by congruence. by rewrite !lookup_insert_ne.
Qed.

(** The parameter an action holds after [actions] were registered: its own
    value when it had one, the prior when it is a new candidate. *)
Definition registered (m : gmap string Q) (prior : Q) (actions : list string)
    (a : string) : option Q :=
  match m !! a with
  | Some x => Some x
  | None => if bool_decide (a ∈ actions) then Some prior else None
  end.

Lemma sample_loop_frame random_beta actions : forall s tick sampled,
  wf s ->
  exists s' sampled',
    sample_loop random_beta s tick actions sampled = Some (s', (tick + length actions)%nat, sampled') /\
    wf s' /\ alpha_0 s' = alpha_0 s /\ beta_0 s' = beta_0 s /\
    (forall a, alpha s' !! a = registered (alpha s) (alpha_0 s) actions a /\
               beta s' !! a = registered (beta s) (beta_0 s) actions a) /\
    PyDict.keys sampled ⊆ PyDict.keys sampled' /\
    (forall a, a ∈ actions -> a ∈ PyDict.keys sampled').
Proof.
  induction actions as [|action rest IH]; intros s tick sampled Hwf; simpl.
  - exists s, sampled. rewrite Nat.add_0_r. split_and!; try done.
    + intros a. unfold registered. rewrite bool_decide_eq_false_2 by apply not_elem_of_nil.
      by destruct (alpha s !! a), (beta s !! a).
    + intros a Ha. by apply elem_of_nil in Ha.
  - pose proof (wf_initialize_action s action Hwf) as Hwf1.
    pose proof (fun a => initialize_action_lookup s action a Hwf) as Hreg. simpl in Hreg.
    set (s1 := _initialize_action s action) in *.
    assert (Hsome : exists x y, alpha s1 !! action = Some x /\ beta s1 !! action = Some y).
    { destruct (Hreg action) as (_ & _ & Hnew & Hold).
      destruct (alpha s !! action) as [x|] eqn:Ha.
      - destruct Hold as [-> Hb]; [right; eauto|].
        destruct (beta s !! action) as [y|] eqn:Hb'; [rewrite Hb; eauto|].
        apply Hwf in Hb'. congruence.
      - destruct Hnew as [-> ->]; eauto. }
    destruct Hsome as (x & y & -> & ->). simpl.
    destruct (IH s1 (S tick) (PyDict.set action (random_beta tick x y) sampled) Hwf1)
      as (s' & sampled' & Hloop & Hwf' & Ha0 & Hb0 & Hframe & Hsub & Hin).
    exists s', sampled'. replace (tick + S (length rest))%nat with (S tick + length rest)%nat by lia.
    destruct (Hreg action) as (Ha1 & Hb1 & _).
    split_and!; try done; try congruence.
    + intros a. destruct (Hframe a) as [-> ->]. unfold registered.
      destruct (Hreg a) as (_ & _ & Hnew & Hold). rewrite Ha1, Hb1.
      destruct (alpha s !! a) as [xa|] eqn:Ha.
      * destruct Hold as [-> ->]; [right; eauto|].
        destruct (beta s !! a) as [ya|] eqn:Hb; [done|]. apply Hwf in Hb. congruence.
      * assert (Hb : beta s !! a = None) by (by apply Hwf).
        destruct (decide (a = action)) as [->|Hne].
        -- destruct Hnew as [-> ->]; try done. rewrite Hb.
           by rewrite (bool_decide_eq_true_2 (action ∈ action :: rest)) by left.
        -- destruct Hold as [-> ->]; [by left|]. rewrite Hb.
           destruct (decide (a ∈ rest)) as [Hin'|Hnin].
           ++ rewrite !bool_decide_eq_true_2; try done. by right.
           ++ rewrite !bool_decide_eq_false_2; try done.
              rewrite not_elem_of_cons. done.
    + intros k Hk. apply Hsub.
      destruct (decide (k ∈ PyDict.keys sampled)) as [Hks|Hks]; [|done].
      destruct (decide (action ∈ PyDict.keys sampled)) as [Has|Has].
      * by rewrite PyDict.keys_set_mem.
      * rewrite PyDict.keys_set_fresh by done. apply elem_of_app. by left.
    + intros a Ha. apply elem_of_cons in Ha as [->|Ha]; [|by apply Hin].
      apply Hsub. destruct (decide (action ∈ PyDict.keys sampled)) as [Has|Has].
      * by rewrite PyDict.keys_set_mem.
      * rewrite PyDict.keys_set_fresh by done. apply elem_of_app. right. left.
Qed.

Lemma sample_loop_keys random_beta actions : forall s tick sampled s' tick' sampled',
  sample_loop random_beta s tick actions sampled = Some (s', tick', sampled') ->
  forall k, k ∈ PyDict.keys sampled' -> k ∈ PyDict.keys sampled \/ k ∈ actions.
Proof.
  induction actions as [|action rest IH]; intros s tick sampled s' tick' sampled'; simpl.
  - intros [= <- <- <-] k Hk. by left.
  - destruct (alpha (_initialize_action s action) !! action) as [x|]; [simpl|done].
    destruct (beta (_initialize_action s action) !! action) as [y|]; [simpl|done].
    intros Hloop k Hk. destruct (IH _ _ _ _ _ _ Hloop k Hk) as [Hk'|Hk'].
    + destruct (decide (action ∈ PyDict.keys sampled)) as [Has|Has].
      * rewrite PyDict.keys_set_mem in Hk' by done. by left.
      * rewrite PyDict.keys_set_fresh in Hk' by done.
        apply elem_of_app in Hk' as [Hk'|Hk']; [by left|].
        apply list_elem_of_singleton in Hk' as ->. right. left.
    + right. by right.
Qed.

Lemma max_from_elem best l : max_from best l ∈ best :: l.
Proof.
  revert best. induction l as [|x l IH]; intros best; simpl; [left|].
  destruct (Qlt_le_dec (snd best) (snd x)).
  - right. apply IH.
  - specialize (IH best). apply elem_of_cons in IH as [->|IH]; [left | right; by right].
Qed.

Lemma max_sampled_key sampled best :
  max_sampled sampled = Some best -> best ∈ PyDict.keys sampled.
Proof.
  destruct sampled as [|x l]; simpl; [done|]. intros [= <-].
  change (fst x :: PyDict.keys l) with (PyDict.keys (x :: l)).
  unfold PyDict.keys. apply list_elem_of_fmap_2. apply max_from_elem.
Qed.

Lemma update_registered s a r :
  wf s ->
  exists s' p,
    update s a r = Some (s', p) /\ wf s' /\
    alpha_0 s' = alpha_0 s /\ beta_0 s' = beta_0 s /\
    p_action p = a /\ alpha s' !! a = Some (p_alpha p) /\ beta s' !! a = Some (p_beta p) /\
    (Qeq_bool r 1 = true ->
       alpha s' !! a = Some (default (alpha_0 s) (alpha s !! a) + 1)%Q /\
       beta s' !! a = Some (default (beta_0 s) (beta s !! a))) /\
    (Qeq_bool r 1 = false ->
       alpha s' !! a = Some (default (alpha_0 s) (alpha s !! a)) /\
       beta s' !! a = Some (default (beta_0 s) (beta s !! a) + 1)%Q) /\
    (forall a', a' ≠ a -> alpha s' !! a' = alpha s !! a' /\ beta s' !! a' = beta s !! a').
Proof.
  intros Hwf. unfold update.
  pose proof (wf_initialize_action s a Hwf) as Hwf1.
  pose proof (fun a' => initialize_action_lookup s a a' Hwf) as Hreg. simpl in Hreg.
  set (s1 := _initialize_action s a) in *.
  assert (Hsome : alpha s1 !! a = Some (default (alpha_0 s) (alpha s !! a)) /\
                  beta s1 !! a = Some (default (beta_0 s) (beta s !! a))).
  { destruct (Hreg a) as (_ & _ & Hnew & Hold).
    destruct (alpha s !! a) as [x|] eqn:Ha.
    - destruct Hold as [-> Hb]; [right; eauto|]. split; [done|].
      destruct (beta s !! a) as [y|] eqn:Hb'; [by rewrite Hb|].
      apply Hwf in Hb'. congruence.
    - assert (Hb : beta s !! a = None) by (by apply Hwf). rewrite Hb.
      by destruct Hnew as [-> ->]. }
  destruct Hsome as [Ha Hb]. destruct (Hreg a) as (Ha0 & Hb0 & _).
  assert (Hother : forall a', a' ≠ a ->
            alpha s1 !! a' = alpha s !! a' /\ beta s1 !! a' = beta s !! a').
  { intros a' Hne. destruct (Hreg a') as (_ & _ & _ & Hold). apply Hold. by left. }
  destruct (Qeq_bool r 1); rewrite ?Ha, ?Hb; simpl;
    rewrite ?lookup_insert_eq, ?Ha, ?Hb; simpl;
    eexists _, _; (split; [reflexivity|]); simpl;
    rewrite ?lookup_insert_eq; split_and!; try done.
  - intros k; simpl. destruct (decide (a = k)) as [<-|Hne].
    + rewrite lookup_insert_eq, Hb. done.
    + rewrite lookup_insert_ne by done. apply Hwf1.
  - intros a' Hne. rewrite lookup_insert_ne by done. by apply Hother.
  - intros k; simpl. destruct (decide (a = k)) as [<-|Hne].
    + rewrite lookup_insert_eq, Ha. done.
    + rewrite lookup_insert_ne by done. apply Hwf1.
  - intros a' Hne. rewrite lookup_insert_ne by done. by apply Hother.
Qed.

Lemma Qplus_one_changes (x : Q) : ~ (x + 1 == x)%Q.
Proof.
  intros H. assert (H' : (x + 1 == x + 0)%Q) by (rewrite H; ring).
  apply Qplus_inj_l in H'. discriminate H'.
Qed.

(** C10. On a bandit whose two dicts hold the same actions, [update a r]
    returns, registers [a] at the prior when it is new, then adds 1 to
    [alpha[a]] when [r == 1] and to [beta[a]] otherwise (leaving the other
    parameter of [a] as registered), and changes no parameter of any other
    action nor the priors; [select_action] on a non-empty candidate list
    returns one of the candidates and leaves every registered parameter as it
    was, its only effect being to register the unseen candidates at the prior. *)
Theorem update_frame (random_beta : nat -> Q -> Q -> Q) (s : t) :
  wf s ->
  (forall a r,
     exists s' p,
       update s a r = Some (s', p) /\ wf s' /\
       alpha_0 s' = alpha_0 s /\ beta_0 s' = beta_0 s /\
       (Qeq_bool r 1 = true ->
          alpha s' !! a = Some (default (alpha_0 s) (alpha s !! a) + 1)%Q /\
          beta s' !! a = Some (default (beta_0 s) (beta s !! a))) /\
       (Qeq_bool r 1 = false ->
          alpha s' !! a = Some (default (alpha_0 s) (alpha s !! a)) /\
          beta s' !! a = Some (default (beta_0 s) (beta s !! a) + 1)%Q) /\
       (forall x : Q, ~ (x + 1 == x)%Q) /\
       (forall a', a' ≠ a -> alpha s' !! a' = alpha s !! a' /\ beta s' !! a' = beta s !! a')) /\
  (forall tick actions,
     actions ≠ [] ->
     exists s' tick' best sampled,
       select_action random_beta s tick actions = Some (s', tick', best, sampled) /\
       best ∈ actions /\ wf s' /\
       alpha_0 s' = alpha_0 s /\ beta_0 s' = beta_0 s /\
       (forall a, alpha s' !! a = registered (alpha s) (alpha_0 s) actions a /\
                  beta s' !! a = registered (beta s) (beta_0 s) actions a)).
Proof.
  intros Hwf. split.
  - intros a r.
    destruct (update_registered s a r Hwf)
      as (s' & p & Hu & Hwf' & Ha0 & Hb0 & _ & _ & _ & Hone & Hzero & Hother).
    exists s', p. split_and!; try done. apply Qplus_one_changes.
  - intros tick actions Hne.
    destruct (sample_loop_frame random_beta actions s tick [] Hwf)
      as (s' & sampled & Hloop & Hwf' & Ha0 & Hb0 & Hframe & _ & Hin).
    unfold select_action. rewrite Hloop. simpl.
    destruct (max_sampled sampled) as [best|] eqn:Hmax; simpl.
    + exists s', (tick + length actions)%nat, best, sampled. split_and!; try done.
      apply max_sampled_key in Hmax.
      destruct (sample_loop_keys _ _ _ _ _ _ _ _ Hloop best Hmax) as [Hk|Hk]; [|done].
      by apply elem_of_nil in Hk.
    + destruct actions as [|a0 rest]; [done|].
      assert (Ha : a0 ∈ PyDict.keys sampled) by (apply Hin; left).
      destruct sampled; [by apply elem_of_nil in Ha | done].
Qed.

(** A bandit with the default priors in which "SRc1" was rewarded once. *)
Definition example_bandit : t :=
  {| alpha_0 := 1; beta_0 := 1; alpha := {["SRc1" := 2%Q]}; beta := {["SRc1" := 1%Q]} |}.

Lemma wf_example_bandit : wf example_bandit.
Proof.
  intros a. unfold example_bandit; simpl. destruct (decide (a = "SRc1")) as [->|Hne].
  - by rewrite !lookup_singleton_eq.
  - by rewrite !lookup_singleton_ne.
Qed.

Lemma update_frame_witness :
  (exists s' p,
     update example_bandit "SRc2" 0 = Some (s', p) /\
     alpha s' !! "SRc2" = Some 1%Q /\ beta s' !! "SRc2" = Some (1 + 1)%Q /\
     alpha s' !! "SRc1" = Some 2%Q /\ beta s' !! "SRc1" = Some 1%Q) /\
  (exists s' tick' best sampled,
     select_action (fun _ a b => (a / (a + b))%Q) example_bandit 0 ["SRc1"; "SRc2"]
       = Some (s', tick', best, sampled) /\
     alpha s' !! "SRc1" = Some 2%Q /\ beta s' !! "SRc1" = Some 1%Q /\
     alpha s' !! "SRc2" = Some 1%Q /\ beta s' !! "SRc2" = Some 1%Q /\
     alpha s' !! "SRc3" = None).
Proof.
  destruct (update_frame (fun _ a b => (a / (a + b))%Q) example_bandit wf_example_bandit)
    as [Hup Hsel].
  split.
  - destruct (Hup "SRc2" 0%Q) as (s' & p & Hu & _ & _ & _ & _ & Hzero & _ & Hother).
    exists s', p. split; [exact Hu|].
    destruct (Hzero eq_refl) as [Ha Hb]. destruct (Hother "SRc1") as [Ha1 Hb1]; [discriminate|].
    rewrite Ha, Hb, Ha1, Hb1. repeat split; reflexivity.
  - destruct (Hsel 0%nat ["SRc1"; "SRc2"]) as (s' & tick' & best & sampled & Hs & _ & _ & _ & _ & Hframe);
      [discriminate|].
    exists s', tick', best, sampled. split; [exact Hs|].
    destruct (Hframe "SRc1") as [-> ->]. destruct (Hframe "SRc2") as [-> ->].
    destruct (Hframe "SRc3") as [-> _]. repeat split; reflexivity.
Defined.

(** *** The action chosen holds the largest sample *)

(** [max_from] returns the first entry holding the largest sample of
    [best :: l]. *)
Lemma max_from_first_max (l : list (string * Q)) : forall best,
  exists l1 l2,
    best :: l = l1 ++ max_from best l :: l2 /\
    Forall (fun x => (snd x < snd (max_from best l))%Q) l1 /\
    Forall (fun x => (snd x <= snd (max_from best l))%Q) l2.
Proof.
  induction l as [|x l IH]; intros best; simpl.
  - exists [], []. by split_and!.
  - destruct (Qlt_le_dec (snd best) (snd x)) as [Hlt|Hle].
    + destruct (IH x) as (l1 & l2 & Heq & H1 & H2).
      exists (best :: l1), l2. split_and!; [simpl; f_equal; exact Heq | | done].
      constructor; [|done].
      assert (Hx : (snd x <= snd (max_from x l))%Q).
      { destruct l1 as [|y l1]; simpl in Heq.
        - injection Heq as Heq _. rewrite <- Heq. apply Qle_refl.
        - injection Heq as <- _. apply Forall_cons in H1 as [Hy _]. by apply Qlt_le_weak. }
      by eapply Qlt_le_trans.
    + destruct (IH best) as (l1 & l2 & Heq & H1 & H2).
      destruct l1 as [|y l1]; simpl in Heq.
      * injection Heq as Heq <-. exists [], (x :: l). rewrite <- Heq in *.
        split_and!; [done | done |]. by constructor.
      * injection Heq as <- Heq. apply Forall_cons in H1 as [Hy H1].
        exists (best :: x :: l1), l2. split_and!; [simpl; do 2 f_equal; exact Heq | | done].
        constructor; [done|]. constructor; [|done]. by eapply Qle_lt_trans.
Qed.

(** X3. [select_action] returns the candidate that holds the largest value
    sampled, the first one in sampling order when several hold it; on an
    empty candidate list it raises ([max] of an empty dict). *)
Theorem select_action_argmax (random_beta : nat -> Q -> Q -> Q) (s : t) (tick : nat)
    (actions : list string) (s' : t) (tick' : nat) (best : string)
    (sampled : list (string * Q)) :
  select_action random_beta s tick actions = Some (s', tick', best, sampled) ->
  select_action random_beta s tick [] = None /\
  exists l1 v l2,
    sampled = l1 ++ (best, v) :: l2 /\
    Forall (fun x => (snd x < v)%Q) l1 /\
    Forall (fun x => (snd x <= v)%Q) l2.
Proof.
  intros Hsel. split; [done|]. revert Hsel. unfold select_action.
  destruct (sample_loop random_beta s tick actions []) as [[[s1 n1] smp]|]; [|done]. simpl.
  destruct smp as [|x l]; [done|]. simpl. intros [= <- <- <- <-].
  destruct (max_from_first_max l x) as (l1 & l2 & Heq & H1 & H2).
  exists l1, (snd (max_from x l)), l2. split_and!; [|done | done].
  rewrite Heq. by destruct (max_from x l).
Qed.

(** Draws in which the first and the third candidate tie. *)
Definition example_draw (n : nat) (a b : Q) : Q :=
  if (n =? 1)%nat then (1 # 2)%Q else (2 # 3)%Q.

Lemma select_action_argmax_witness :
  select_action example_draw example_bandit 0 [] = None /\
  exists l1 v l2,
    [("SRc1", (2 # 3)%Q); ("SRc2", (1 # 2)%Q); ("SRc3", (2 # 3)%Q)]
    = l1 ++ ("SRc1", v) :: l2 /\
    Forall (fun x => (snd x < v)%Q) l1 /\
    Forall (fun x => (snd x <= v)%Q) l2.
Proof.
  eapply (select_action_argmax example_draw example_bandit 0 ["SRc1"; "SRc2"; "SRc3"]).
  vm_compute. reflexivity.
Defined.

(** *** The pseudo-counts count the feedback *)

(** [update] over a list of (action, reward) feedbacks, in order. *)
Fixpoint update_all (s : t) (feedback : list (string * Q)) : option t :=
  match feedback with
  | [] => Some s
  | (a, r) :: rest => '(s', _) ← update s a r; update_all s' rest
  end.

(** The feedbacks of [feedback] on action [a] whose reward is (not) 1. *)
Definition successes (a : string) (feedback : list (string * Q)) : nat :=
  length (filter (fun x => fst x = a /\ Qeq_bool (snd x) 1 = true) feedback).

Definition failures (a : string) (feedback : list (string * Q)) : nat :=
  length (filter (fun x => fst x = a /\ Qeq_bool (snd x) 1 = false) feedback).

Lemma inject_S (n : nat) : (inject_Z (Z.of_nat (S n)) == 1 + inject_Z (Z.of_nat n))%Q.
Proof. rewrite Nat2Z.inj_succ, <- Z.add_1_l, inject_Z_plus. reflexivity. Qed.

(** X4. Feedback is counted exactly: after any list of updates, the
    [alpha] (resp. [beta]) of every action that was registered or received
    feedback is its starting value (the prior for a new action) plus the
    number of its feedbacks with reward 1 (resp. with any other reward); an
    action that was never seen stays unregistered. *)
Theorem update_all_counts (feedback : list (string * Q)) : forall s : t,
  wf s ->
  exists s',
    update_all s feedback = Some s' /\ wf s' /\
    alpha_0 s' = alpha_0 s /\ beta_0 s' = beta_0 s /\
    forall a,
      if bool_decide (a ∈ map fst feedback \/ is_Some (alpha s !! a)) then
        exists x y,
          alpha s' !! a = Some x /\ beta s' !! a = Some y /\
          (x == default (alpha_0 s) (alpha s !! a)
                + inject_Z (Z.of_nat (successes a feedback)))%Q /\
          (y == default (beta_0 s) (beta s !! a)
                + inject_Z (Z.of_nat (failures a feedback)))%Q
      else alpha s' !! a = None /\ beta s' !! a = None.
Proof.
  induction feedback as [|[a0 r] rest IH]; intros s Hwf.
  - exists s. split_and!; try done. intros a. destruct (bool_decide _) eqn:Hb.
    + apply bool_decide_eq_true in Hb as [Hb|[x Hx]]; [by apply elem_of_nil in Hb|].
      destruct (beta s !! a) as [y|] eqn:Hy; [|apply Hwf in Hy; congruence].
      exists x, y. rewrite Hx. unfold successes, failures. simpl.
      split_and!; try done; ring.
    + apply bool_decide_eq_false in Hb.
      destruct (alpha s !! a) as [x|] eqn:Hx; [exfalso; apply Hb; right; eauto|].
      split; [done|]. by apply Hwf.
  - destruct (update_registered s a0 r Hwf)
      as (s1 & p & Hu & Hwf1 & Ha0 & Hb0 & _ & _ & _ & Hone & Hzero & Hother).
    destruct (IH s1 Hwf1) as (s' & Hall & Hwf' & Ha0' & Hb0' & Hcount).
    exists s'. simpl. rewrite Hu. simpl. split_and!; [done | done | congruence | congruence |].
    intros a. specialize (Hcount a). rewrite Ha0, Hb0 in Hcount.
    unfold successes, failures in *. rewrite !filter_cons. simpl.
    destruct (decide (a = a0)) as [->|Hne].
    + rewrite bool_decide_eq_true_2 by (left; left).
      destruct (Qeq_bool r 1) eqn:Hr.
      * destruct (Hone eq_refl) as [Hx1 Hy1]. rewrite Hx1, Hy1 in Hcount.
        rewrite bool_decide_eq_true_2 in Hcount by (right; eauto).
        destruct Hcount as (x & y & Hx & Hy & Hxe & Hye). exists x, y.
        rewrite decide_True by done. rewrite decide_False by (intros [_ ?]; done).
        cbn [length]. simpl in Hxe, Hye. split_and!; [done | done | | done].
        rewrite Hxe, inject_S. ring.
      * destruct (Hzero eq_refl) as [Hx1 Hy1]. rewrite Hx1, Hy1 in Hcount.
        rewrite bool_decide_eq_true_2 in Hcount by (right; eauto).
        destruct Hcount as (x & y & Hx & Hy & Hxe & Hye). exists x, y.
        rewrite decide_False by (intros [_ ?]; done). rewrite decide_True by done.
        cbn [length]. simpl in Hxe, Hye. split_and!; [done | done | done |].
        rewrite Hye, inject_S. ring.
    + destruct (Hother a Hne) as [Hx1 Hy1]. rewrite Hx1, Hy1 in Hcount.
      rewrite !decide_False by (intros [? _]; congruence).
      destruct (bool_decide (a ∈ map fst rest \/ is_Some (alpha s !! a))) eqn:Hb.
      * rewrite bool_decide_eq_true_2; [done|].
        apply bool_decide_eq_true in Hb as [Hb|Hb]; [left; by right | by right].
      * rewrite bool_decide_eq_false_2; [done|].
        apply bool_decide_eq_false in Hb. intros [Hin|Hs]; apply Hb; [|by right].
        apply elem_of_cons in Hin as [?|?]; [done | by left].
Qed.

Lemma update_all_counts_witness :
  exists s',
    update_all example_bandit [("SRc1", 1%Q); ("SRc2", 0%Q); ("SRc1", 0%Q)] = Some s' /\
    exists x y,
      alpha s' !! "SRc1" = Some x /\ beta s' !! "SRc1" = Some y /\
      (x == 2 + 1)%Q /\ (y == 1 + 1)%Q.
Proof.
  destruct (update_all_counts [("SRc1", 1%Q); ("SRc2", 0%Q); ("SRc1", 0%Q)]
              example_bandit wf_example_bandit) as (s' & Hall & _ & _ & _ & Hcount).
  exists s'. split; [exact Hall|]. exact (Hcount "SRc1").
Defined.
End BernoulliBetaTS.

(** ** [cs_module/multi_armed_bandit/logistic_laplace_ts.py] *)
Module LogisticLaplaceTS.

(** The float operations [update] uses. The model is generic in them, so
    that what is proved about the order of the steps holds for any
    arithmetic, NumPy's float64 included. *)
Class Scalar (F : Type) := {
  zero : F;
  one : F;
  add : F -> F -> F;
  sub : F -> F -> F;
  mul : F -> F -> F;
  div : F -> F -> F;
  neg : F -> F;
  exp : F -> F;
  fmax : F -> F -> F;
  ltb : F -> F -> bool
}.

Section Generic.
Context {F : Type} `{Scalar F}.

Record t := State {
  feature_dim : nat;
  mu : list F;
  Pd : list F;
  discount : F;
  _P0_diag : list F
}.

(** [__init__]: prior N(0, I). *)
Definition init (dim : nat) (disc : F) : t :=
  {| feature_dim := dim;
     mu := replicate dim zero;
     Pd := replicate dim one;
     discount := disc;
     _P0_diag := replicate dim one |}.

(** The record returned by [update]. *)
Record params := Params { p_mu : list F; p_Pd : list F }.

(** An elementwise operation on two 1-D arrays; arrays of different
    lengths raise [ValueError] (all arrays of the class have length
    [feature_dim], so NumPy's broadcasting of a length-1 array never applies). *)
Definition elementwise (f : F -> F -> F) (a b : list F) : option (list F) :=
  if decide (length a = length b) then Some (zip_with f a b) else None.

(** [x @ mu] *)
Definition dot (x m : list F) : option F :=
  v ← elementwise mul x m; Some (foldl add zero v).

(** [update(feature_vector, reward)]: the new state and the returned
    parameters; [None] when the call raised, the state keeping what was
    assigned before. *)
Definition update (s : t) (x : list F) (reward : F) : t * option params :=
  (* forgetting step *)
  let Pd1 :=
    if ltb zero (discount s) && ltb (discount s) one
    then elementwise fmax (map (fun p => mul p (discount s)) (Pd s)) (_P0_diag s)
    else Some (Pd s) in
  match Pd1 with
  | None =>
      ({| feature_dim := feature_dim s; mu := mu s;
          Pd := map (fun p => mul p (discount s)) (Pd s);
          discount := discount s; _P0_diag := _P0_diag s |}, None)
  | Some Pd1 =>
      let s1 := {| feature_dim := feature_dim s; mu := mu s; Pd := Pd1;
                   discount := discount s; _P0_diag := _P0_diag s |} in
      match dot x (mu s1) with
      | None => (s1, None)
      | Some z =>
          let sigmoid := div one (add one (exp (neg z))) in
          let incr :=
            map (fun v => mul v (sub one sigmoid))
              (map (fun v => mul v sigmoid) (map (fun xi => mul xi xi) x)) in
          match elementwise add Pd1 incr with
          | None => (s1, None)
          | Some Pd2 =>
              let s2 := {| feature_dim := feature_dim s; mu := mu s; Pd := Pd2;
                           discount := discount s; _P0_diag := _P0_diag s |} in
              let grad := map (fun xi => mul (sub sigmoid reward) xi) x in
              match elementwise div grad Pd2 with
              | None => (s2, None)
              | Some step =>
                  match elementwise sub (mu s) step with
                  | None => (s2, None)
                  | Some mu' =>
                      ({| feature_dim := feature_dim s; mu := mu'; Pd := Pd2;
                          discount := discount s; _P0_diag := _P0_diag s |},
                       Some {| p_mu := mu'; p_Pd := Pd2 |})
                  end
              end
          end
      end
  end.

(** *** The four steps, as the specification words them *)

(** (1) with [0 < discount < 1], each precision entry is multiplied by the
    discount and floored at the prior precision. *)
Definition decay_entry (disc prior p : F) : F :=
  if ltb zero disc && ltb disc one then fmax (mul p disc) prior else p.

(** (2) the sigmoid of the logit [z = x · mu]. *)
Definition sigmoid_of (z : F) : F := div one (add one (exp (neg z))).

(** (3) [precision += x²·σ·(1−σ)] on one coordinate. *)
Definition precision_entry (sigma xi p : F) : F :=
  add p (mul (mul (mul xi xi) sigma) (sub one sigma)).

(** (4) [mu -= (σ − reward)·x / precision] on one coordinate, with the
    precision of step (3). *)
Definition mean_entry (sigma reward xi p_new m : F) : F :=
  sub m (div (mul (sub sigma reward) xi) p_new).

(** The logit of step (2), from the mean before the update. *)
Definition logit (s : t) (x : list F) : F := foldl add zero (zip_with mul x (mu s)).

(** Entry [i] of the precision after steps (1) and (3). *)
Definition spec_Pd (s : t) (x : list F) (i : nat) : option F :=
  p ← Pd s !! i; prior ← _P0_diag s !! i; xi ← x !! i;
  Some (precision_entry (sigmoid_of (logit s x)) xi (decay_entry (discount s) prior p)).

(** Entry [i] of the mean after step (4). *)
Definition spec_mu (s : t) (x : list F) (reward : F) (i : nat) : option F :=
  p_new ← spec_Pd s x i; xi ← x !! i; m ← mu s !! i;
  Some (mean_entry (sigmoid_of (logit s x)) reward xi p_new m).

(** Every array of the state has length [feature_dim]. *)
Definition shaped (s : t) : Prop :=
  length (mu s) = feature_dim s /\ length (Pd s) = feature_dim s /\
  length (_P0_diag s) = feature_dim s.

Lemma shaped_init dim disc : shaped (init dim disc).
Proof. unfold shaped, init; simpl. by rewrite !length_replicate. Qed.

Lemma elementwise_Some (f : F -> F -> F) (a b : list F) :
  length a = length b -> elementwise f a b = Some (zip_with f a b).
Proof. intros Hl. unfold elementwise. by rewrite decide_True. Qed.

Lemma lookup_zip_with_Some (f : F -> F -> F) (a b : list F) (i : nat) (x y : F) :
  a !! i = Some x -> b !! i = Some y -> zip_with f a b !! i = Some (f x y).
Proof. intros Ha Hb. rewrite lookup_zip_with, Ha. simpl. by rewrite Hb. Qed.

(** C5. On a state whose arrays have length [feature_dim] and a feature
    vector of that length, [update] returns, stores what it returns, and the
    returned precision and mean are, coordinate by coordinate, the values of
    the four steps taken in this order: decay floored at the prior (only when
    [0 < discount < 1]), sigmoid of [x · mu] with the mean before the update,
    [precision += x²·σ·(1−σ)], and [mu -= (σ − reward)·x / precision] with the
    precision just updated. *)
Theorem update_steps (s : t) (x : list F) (reward : F) :
  shaped s ->
  length x = feature_dim s ->
  exists (s' : t) (p : params),
    update s x reward = (s', Some p) /\
    mu s' = p_mu p /\ Pd s' = p_Pd p /\
    discount s' = discount s /\ _P0_diag s' = _P0_diag s /\ shaped s' /\
    length (p_mu p) = feature_dim s /\ length (p_Pd p) = feature_dim s /\
    (forall i, (i < feature_dim s)%nat ->
       is_Some (p_Pd p !! i) /\ is_Some (p_mu p !! i) /\
       p_Pd p !! i = spec_Pd s x i /\
       p_mu p !! i = spec_mu s x reward i).
Proof.
  intros (Hmu & HPd & HP0) Hx. unfold update.
  set (disc_on := ltb zero (discount s) && ltb (discount s) one).
  set (Pd1 := if disc_on
              then zip_with fmax (map (fun p => mul p (discount s)) (Pd s)) (_P0_diag s)
              else Pd s).
  assert (HPd1 : (if disc_on
                  then elementwise fmax (map (fun p => mul p (discount s)) (Pd s)) (_P0_diag s)
                  else Some (Pd s)) = Some Pd1).
  { unfold Pd1. destruct disc_on; [|done].
    apply elementwise_Some. rewrite length_map. congruence. }
  rewrite HPd1.
  assert (Hlen1 : length Pd1 = feature_dim s).
  { unfold Pd1. destruct disc_on; [|done].
    rewrite length_zip_with, length_map. lia. }
  cbn [mu]. unfold dot. rewrite elementwise_Some by congruence. cbn [mbind option_bind].
  fold (logit s x). fold (sigmoid_of (logit s x)).
  set (sigma := sigmoid_of (logit s x)).
  set (incr := map (fun v => mul v (sub one sigma))
                 (map (fun v => mul v sigma) (map (fun xi => mul xi xi) x))).
  assert (Hincr : length incr = feature_dim s) by (unfold incr; by rewrite !length_map).
  rewrite (elementwise_Some add Pd1 incr) by congruence.
  set (Pd2 := zip_with add Pd1 incr).
  assert (Hlen2 : length Pd2 = feature_dim s).
  { unfold Pd2. rewrite length_zip_with. lia. }
  set (grad := map (fun xi => mul (sub sigma reward) xi) x).
  assert (Hgrad : length grad = feature_dim s) by (unfold grad; by rewrite length_map).
  rewrite (elementwise_Some div grad Pd2) by congruence.
  assert (Hstep : length (zip_with div grad Pd2) = feature_dim s).
  { rewrite length_zip_with. lia. }
  rewrite (elementwise_Some sub (mu s)) by congruence.
  set (mu' := zip_with sub (mu s) (zip_with div grad Pd2)).
  assert (Hmu' : length mu' = feature_dim s).
  { unfold mu'. rewrite length_zip_with. lia. }
  eexists _, _. split; [reflexivity|]. cbn [mu Pd discount _P0_diag p_mu p_Pd feature_dim].
  split_and!; try done.
  intros i Hi.
  destruct (lookup_lt_is_Some_2 (Pd s) i) as [p Hp]; [lia|].
  destruct (lookup_lt_is_Some_2 (_P0_diag s) i) as [prior Hprior]; [lia|].
  destruct (lookup_lt_is_Some_2 x i) as [xi Hxi]; [lia|].
  destruct (lookup_lt_is_Some_2 (mu s) i) as [m Hm]; [lia|].
  assert (HPd1i : Pd1 !! i = Some (decay_entry (discount s) prior p)).
  { unfold Pd1, decay_entry. fold disc_on. destruct disc_on; [|done].
    apply lookup_zip_with_Some; [|done]. by rewrite list_lookup_fmap, Hp. }
  assert (Hincri : incr !! i = Some (mul (mul (mul xi xi) sigma) (sub one sigma))).
  { unfold incr. by rewrite !list_lookup_fmap, Hxi. }
  assert (HPd2i : Pd2 !! i = Some (precision_entry sigma xi (decay_entry (discount s) prior p))).
  { unfold Pd2, precision_entry. by apply lookup_zip_with_Some. }
  assert (Hmui : mu' !! i = Some (mean_entry sigma reward xi
                   (precision_entry sigma xi (decay_entry (discount s) prior p)) m)).
  { unfold mu', mean_entry. apply lookup_zip_with_Some; [done|].
    apply lookup_zip_with_Some; [|done]. unfold grad. by rewrite list_lookup_fmap, Hxi. }
  unfold spec_mu, spec_Pd. rewrite Hp, Hprior, Hxi, Hm. cbn [mbind option_bind].
  fold sigma. rewrite HPd2i, Hmui. split_and!; eauto.
Qed.
End Generic.
Arguments t F : clear implicits.
Arguments params F : clear implicits.

(** *** The real-number instance *)

#[export] Instance R_scalar : Scalar R := {|
  zero := 0%R;
  one := 1%R;
  add := Rplus;
  sub := Rminus;
  mul := Rmult;
  div := Rdiv;
  neg := Ropp;
  exp := Rtrigo_def.exp;
  fmax := Rmax;
  ltb := fun a b => if Rlt_dec a b then true else false
|}.

Lemma update_steps_witness :
  exists (s' : t R) (p : params R),
    update (init 2 1%R) [1%R; 2%R] 1%R = (s', Some p) /\
    mu s' = p_mu p /\ Pd s' = p_Pd p /\
    length (p_mu p) = 2%nat /\ length (p_Pd p) = 2%nat.
Proof.
  destruct (update_steps (init 2 1%R) [1%R; 2%R] 1%R (shaped_init 2 1%R) eq_refl)
    as (s' & p & Hu & Hm & HP & _ & _ & _ & Hlm & HlP & _).
  exists s', p. repeat split; assumption.
Defined.

(** From the prior, with [x = (1)], [reward = 1] and no forgetting: the
    sigmoid is 1/2, the precision becomes 1 + 1/4, and the mean moves by
    (1/2) / (5/4) = 2/5; the step divides by the updated precision. *)
Example update_from_prior :
  snd (update (init 1 1%R) [1%R] 1%R) = Some {| p_mu := [(2 / 5)%R]; p_Pd := [(5 / 4)%R] |}.
Proof.
  unfold update, init, dot, elementwise; simpl.
  destruct (Rlt_dec 0 1) as [_|Hn]; [|exfalso; lra].
  destruct (Rlt_dec 1 1) as [Hlt|_]; [exfalso; lra|]. simpl.
  replace (- (0 + 1 * 0))%R with 0%R by lra. rewrite exp_0.
  do 2 f_equal; f_equal; field.
Qed.

(** With forgetting ([discount = 1/2]) the decayed precision 1/2 is floored
    at the prior 1 before the observation is added. *)
Example update_with_forgetting :
  snd (update (init 1 (1 / 2)%R) [1%R] 1%R)
    = Some {| p_mu := [(2 / 5)%R]; p_Pd := [(5 / 4)%R] |}.
Proof.
  unfold update, init, dot, elementwise; simpl.
  destruct (Rlt_dec 0 (1 / 2)) as [_|Hn]; [|exfalso; lra].
  destruct (Rlt_dec (1 / 2) 1) as [_|Hn]; [|exfalso; lra]. simpl.
  replace (Rmax (1 * (1 / 2)) 1) with 1%R by (rewrite Rmax_right; lra).
  replace (- (0 + 1 * 0))%R with 0%R by lra. rewrite exp_0.
  do 2 f_equal; f_equal; field.
Qed.

(** *** A feature vector of the wrong length *)

Section WrongLength.
Context {F : Type} `{Scalar F}.

(** The precision after the forgetting step alone. *)
Definition decayed (s : t F) : list F :=
  if ltb zero (discount s) && ltb (discount s) one
  then zip_with fmax (map (fun p => mul p (discount s)) (Pd s)) (_P0_diag s)
  else Pd s.

(** X5. A feature vector whose length is not [feature_dim] makes [update]
    raise (at [x @ self.mu]) without touching the mean; but the forgetting
    step has already been applied, so with [0 < discount < 1] the precision
    that is kept is the decayed one. *)
Theorem update_wrong_length (s : t F) (x : list F) (reward : F) :
  shaped s -> length x ≠ feature_dim s ->
  snd (update s x reward) = None /\
  mu (fst (update s x reward)) = mu s /\
  Pd (fst (update s x reward)) = decayed s /\
  discount (fst (update s x reward)) = discount s /\
  _P0_diag (fst (update s x reward)) = _P0_diag s.
Proof.
  intros (Hmu & HPd & HP0) Hx. unfold update, decayed.
  destruct (ltb zero (discount s) && ltb (discount s) one).
  - rewrite elementwise_Some by (rewrite length_map; congruence).
    unfold dot, elementwise. cbn [mu]. rewrite decide_False by congruence. done.
  - unfold dot, elementwise. cbn [mu]. rewrite decide_False by congruence. done.
Qed.

Lemma decayed_length (s : t F) : shaped s -> length (decayed s) = feature_dim s.
Proof.
  intros (Hmu & HPd & HP0). unfold decayed. destruct (_ && _); [|done].
  rewrite length_zip_with, length_map. lia.
Qed.
End WrongLength.

Lemma update_wrong_length_witness :
  snd (update (init 2 (1 / 2)%R) [1%R] 1%R) = None /\
  mu (fst (update (init 2 (1 / 2)%R) [1%R] 1%R)) = [0%R; 0%R] /\
  Pd (fst (update (init 2 (1 / 2)%R) [1%R] 1%R)) = decayed (init 2 (1 / 2)%R).
Proof.
  destruct (update_wrong_length (init 2 (1 / 2)%R) [1%R] 1%R (shaped_init 2 (1 / 2)%R))
    as (H1 & H2 & H3 & _); [discriminate|].
  split; [exact H1|]. split; [exact H2 | exact H3].
Defined.

(** *** The precision stays at or above the prior *)

(** Every precision entry is at least the prior entry of its coordinate. *)
Definition above_prior (s : t R) : Prop :=
  forall i p0 p, _P0_diag s !! i = Some p0 -> Pd s !! i = Some p -> (p0 <= p)%R.

Lemma sigmoid_range (z : R) : (0 < sigmoid_of z < 1)%R.
Proof.
  unfold sigmoid_of. simpl. pose proof (exp_pos (- z)) as He.
  split.
  - apply Rdiv_lt_0_compat; lra.
  - apply (Rmult_lt_reg_r (1 + Rtrigo_def.exp (- z))); [lra|].
    unfold Rdiv. rewrite Rmult_assoc, Rinv_l by lra. lra.
Qed.

(** What a well-shaped [update] stores, array by array. *)
Lemma update_arrays (s : t R) (x : list R) (reward : R) :
  shaped s -> length x = feature_dim s ->
  let sigma := sigmoid_of (logit s x) in
  let Pd2 := zip_with Rplus (decayed s)
               (map (fun xi => (xi * xi * sigma * (1 - sigma))%R) x) in
  let mu' := zip_with Rminus (mu s)
               (zip_with Rdiv (map (fun xi => ((sigma - reward) * xi)%R) x) Pd2) in
  update s x reward =
    ({| feature_dim := feature_dim s; mu := mu'; Pd := Pd2;
        discount := discount s; _P0_diag := _P0_diag s |},
     Some {| p_mu := mu'; p_Pd := Pd2 |}).
Proof.
  intros Hs Hx sigma Pd2 mu'. pose proof (decayed_length s Hs) as Hdec.
  destruct Hs as (Hmu & HPd & HP0). unfold update.
  assert (HPd1 : (if ltb zero (discount s) && ltb (discount s) one
                  then elementwise fmax (map (fun p => mul p (discount s)) (Pd s)) (_P0_diag s)
                  else Some (Pd s)) = Some (decayed s)).
  { unfold decayed. destruct (_ && _); [|done].
    apply elementwise_Some. rewrite length_map. congruence. }
  rewrite HPd1. cbn [mu]. unfold dot. rewrite elementwise_Some by congruence.
  cbn [mbind option_bind]. fold (logit s x). fold (sigmoid_of (logit s x)). fold sigma.
  rewrite !map_map.
  assert (HPd2 : length Pd2 = feature_dim s).
  { unfold Pd2. rewrite length_zip_with, length_map. lia. }
  rewrite (elementwise_Some add (decayed s)) by (rewrite length_map; congruence).
  rewrite (elementwise_Some div) by (rewrite length_map, length_zip_with, length_map; lia).
  rewrite (elementwise_Some sub (mu s))
    by (rewrite !length_zip_with, !length_map; lia).
  reflexivity.
Qed.

Lemma update_above_prior (s : t R) (x : list R) (reward : R) :
  shaped s -> length x = feature_dim s ->
  above_prior s \/ ((0 < discount s)%R /\ (discount s < 1)%R) ->
  above_prior (fst (update s x reward)).
Proof.
  intros Hs Hx Hor. rewrite (update_arrays s x reward Hs Hx). cbn [fst].
  intros i p0 p Hp0 Hp. cbn [_P0_diag Pd] in *.
  rewrite lookup_zip_with in Hp.
  destruct (decayed s !! i) as [d|] eqn:Hd; [|done]. simpl in Hp.
  rewrite list_lookup_fmap in Hp. destruct (x !! i) as [xi|]; [|done]. simpl in Hp.
  injection Hp as <-.
  pose proof (sigmoid_range (logit s x)) as [Hs0 Hs1].
  assert (Hinc : (0 <= xi * xi * sigmoid_of (logit s x) * (1 - sigmoid_of (logit s x)))%R).
  { apply Rmult_le_pos; [apply Rmult_le_pos|]; [apply Rle_0_sqr | lra | lra]. }
  assert (Hfloor : (p0 <= d)%R).
  { unfold decayed in Hd. simpl in Hd.
    destruct (Rlt_dec 0 (discount s)) as [H0|H0];
      destruct (Rlt_dec (discount s) 1) as [H1|H1]; simpl in Hd.
    - rewrite lookup_zip_with in Hd.
      destruct (map (fun p => (p * discount s)%R) (Pd s) !! i) as [q|]; [|done].
      simpl in Hd. rewrite Hp0 in Hd. simpl in Hd. injection Hd as <-. apply Rmax_r.
    - destruct Hor as [Habove|[_ ?]]; [by apply (Habove i) | lra].
    - destruct Hor as [Habove|[? _]]; [by apply (Habove i) | lra].
    - destruct Hor as [Habove|[? _]]; [by apply (Habove i) | lra]. }
  unfold sigmoid_of in Hinc. simpl in Hinc. lra.
Qed.

(** X6. The precision never falls below the prior: when every precision
    entry is at or above its prior entry, or forgetting is on
    ([0 < discount < 1], which floors the decayed precision at the prior),
    every entry is at or above its prior entry after [update]. *)
Theorem update_keeps_above_prior (s : t R) (x : list R) (reward : R) :
  shaped s -> length x = feature_dim s ->
  above_prior s \/ ((0 < discount s)%R /\ (discount s < 1)%R) ->
  above_prior (fst (update s x reward)).
Proof. apply update_above_prior. Qed.

Lemma above_prior_init (dim : nat) (disc : R) : above_prior (init dim disc).
Proof.
  intros i p0 p. unfold init; simpl. intros H0 H1.
  apply lookup_replicate in H0 as [-> _]. apply lookup_replicate in H1 as [-> _]. lra.
Qed.

Lemma update_keeps_above_prior_witness :
  above_prior (fst (update (init 2 1%R) [1%R; 2%R] 1%R)).
Proof.
  apply update_keeps_above_prior.
  - apply shaped_init.
  - reflexivity.
  - left. apply above_prior_init.
Defined.

(** X7. The mean moves towards the reward: on a state whose precision is
    at or above a positive prior (or with forgetting on), an update with
    reward 1 or more changes each coordinate of the mean by an amount of the
    sign of the feature's coordinate (or by nothing), and an update with
    reward 0 or less by an amount of the opposite sign (or by nothing). *)
Theorem update_moves_towards_reward (s : t R) (x : list R) (reward : R) :
  shaped s -> length x = feature_dim s ->
  above_prior s \/ ((0 < discount s)%R /\ (discount s < 1)%R) ->
  (forall i p0, _P0_diag s !! i = Some p0 -> (0 < p0)%R) ->
  forall i m m' xi,
    mu s !! i = Some m -> mu (fst (update s x reward)) !! i = Some m' ->
    x !! i = Some xi ->
    ((1 <= reward)%R -> (0 <= (m' - m) * xi)%R) /\
    ((reward <= 0)%R -> ((m' - m) * xi <= 0)%R).
Proof.
  intros Hs Hx Hor Hpos i m m' xi Hm Hm' Hxi.
  pose proof (update_above_prior s x reward Hs Hx Hor) as Habove.
  rewrite (update_arrays s x reward Hs Hx) in Hm', Habove. cbn [fst mu] in Hm'.
  cbn [fst] in Habove.
  set (sigma := sigmoid_of (logit s x)) in *.
  set (Pd2 := zip_with Rplus (decayed s)
                (map (fun xi => (xi * xi * sigma * (1 - sigma))%R) x)) in *.
  rewrite lookup_zip_with, Hm in Hm'. simpl in Hm'.
  rewrite lookup_zip_with, list_lookup_fmap, Hxi in Hm'. simpl in Hm'.
  destruct (Pd2 !! i) as [p2|] eqn:Hp2; [|done]. simpl in Hm'. injection Hm' as <-.
  destruct Hs as (_ & _ & HP0).
  destruct (lookup_lt_is_Some_2 (_P0_diag s) i) as [p0 Hp0].
  { rewrite HP0, <- Hx. by eapply lookup_lt_Some. }
  assert (Hp2pos : (0 < p2)%R).
  { pose proof (Hpos i p0 Hp0). pose proof (Habove i p0 p2 Hp0 Hp2). lra. }
  pose proof (sigmoid_range (logit s x)) as [Hs0 Hs1]. fold sigma in Hs0, Hs1.
  replace ((m - (sigma - reward) * xi / p2 - m) * xi)%R
    with ((reward - sigma) * (xi * xi) / p2)%R by (field; lra).
  pose proof (Rle_0_sqr xi) as Hsq. unfold Rsqr in Hsq.
  split; intros Hr.
  - apply Rmult_le_pos; [apply Rmult_le_pos; lra|].
    apply Rlt_le, Rinv_0_lt_compat, Hp2pos.
  - assert (0 <= (sigma - reward) * (xi * xi) / p2)%R.
    { apply Rmult_le_pos; [apply Rmult_le_pos; lra|].
      apply Rlt_le, Rinv_0_lt_compat, Hp2pos. }
    replace ((reward - sigma) * (xi * xi) / p2)%R
      with (- ((sigma - reward) * (xi * xi) / p2))%R by (field; lra).
    lra.
Qed.

Lemma update_moves_towards_reward_witness :
  exists m', mu (fst (update (init 2 1%R) [1%R; 2%R] 1%R)) !! 1%nat = Some m' /\
             (0 <= (m' - 0) * 2)%R.
Proof.
  destruct (lookup_lt_is_Some_2 (mu (fst (update (init 2 1%R) [1%R; 2%R] 1%R))) 1)
    as [m' Hm'].
  { rewrite (update_arrays (init 2 1%R) [1%R; 2%R] 1%R (shaped_init 2 1%R) eq_refl).
    cbn [fst mu]. rewrite !length_zip_with, !length_map.
    rewrite (decayed_length _ (shaped_init 2 1%R)). simpl. lia. }
  exists m'. split; [exact Hm'|].
  apply (update_moves_towards_reward (init 2 1%R) [1%R; 2%R] 1%R
           (shaped_init 2 1%R) eq_refl (or_introl (above_prior_init 2 1%R))) with (i := 1%nat).
  - intros i p0 Hp0. apply lookup_replicate in Hp0 as [-> _]. simpl. lra.
  - reflexivity.
  - exact Hm'.
  - reflexivity.
  - lra.
Defined.
End LogisticLaplaceTS.

(** ** [cs_module/config.py] and [cs_module/utils/encoding.py] *)
Module Encoding.

(** *** Configuration constants *)

Definition PERSONAL_DATA_FEATURES : list string :=
  ["gender"; "userAge"; "education"; "recruitmentCenter"].

Definition PERSONAL_DATA_CATEGORICAL_FEATURES : list (string * list string) :=
  [("gender", ["female"; "male"; "decline"; "other"]);
   ("recruitmentCenter", ["IEO"; "ICO"; "UMFCD"; "UNIPA"]);
   ("education", ["no-education"; "primary"; "secondary"; "vocational"; "university";
                  "postgraduate"; "other"])].

Definition CATEGORICAL_TO_NUMERIC : list string := ["education"; "gender"].

Definition CATEGORICAL_TO_NUMERIC_EXPLICIT : list (string * list (string * Q)) :=
  [("gender", [("female", 0%Q); ("decline", (1 # 2)%Q); ("other", (1 # 2)%Q); ("male", 1%Q)])].

Definition NUMERIC_FEATURES_MIN_MAX : list (string * (Q * Q)) := [("userAge", (45%Q, 80%Q))].

Definition PILLARS : list string :=
  ["smoking"; "alcohol"; "nutrition"; "physical_activity"; "emotional_wellbeing"].

Definition INTERVENTION_TYPES : list string :=
  ["Education"; "Enablement"; "Environmental Restructuring"; "Incentivisation";
   "Modelling"; "Training"; "Persuasion"; "Restrictions"].

Definition LEAVE_OUT_VARS : list (string * list string) :=
  [("recruitmentCenter", ["IEO"]); ("education", ["other"]); ("pillar", ["smoking"])].

Definition MAX_SAME_REC_SENT_PER_MISSION : nat := 3.
Definition MAX_NUM_REC_PER_MISSION : nat := 10.
Definition MIN_NUM_REC_PER_MISSION : nat := 3.
Definition MAX_DISTINCT_REC_PER_MISSION : nat := 4.

Definition FREQUENCY_FEATURE_DEGREES : list (string * nat) :=
  [("MF", 1%nat); ("TF", 1%nat); ("IF", 1%nat); ("RF", 1%nat)].

Definition INTERVENTION_MAB_FEATURES : list (string * bool) :=
  [("D", true); ("H", true); ("ND", true); ("P", true); ("MF", true); ("TF", true);
   ("IT", true); ("NIT", true); ("IF", true); ("RF", true); ("ER", false); ("PR", true);
   ("MS", false);
   ("MF_x_TF_sched", false); ("MF_x_RF_sched", true); ("MF_x_IF_sched", true);
   ("AGEc_x_RF_sched", true); ("AGEc_x_IT", true); ("H_c_x_RF_sched", false);
   ("H_c_x_IT", false); ("NIT_x_IF_sched", false)].

(** *** Values and small helpers *)

(** A value of the [personal_data] dict: [None], a string or a number. *)
Inductive pd_value := PNone | PStr (s : string) | PNum (q : Q).

(** [d.get(k, default)] on a config table. *)
Definition get_or {V : Type} (k : string) (dflt : V) (d : list (string * V)) : V :=
  default dflt (PyDict.get k d).

(** [x in l] *)
Definition mem (x : string) (l : list string) : bool := bool_decide (x ∈ l).

(** [l.index(x)] *)
Fixpoint index (x : string) (l : list string) : option nat :=
  match l with
  | [] => None
  | y :: l' => if decide (y = x) then Some 0%nat else S <$> index x l'
  end.

Definition Qclip (lo hi v : Q) : Q := Qmax lo (Qmin hi v).

Definition sumQ (l : list Q) : Q := foldl Qplus 0%Q l.

(** [one_hot_encode(value, all_values)] *)
Definition one_hot_encode (value : string) (all_values : list string) : list Q :=
  map (fun v => if decide (value = v) then 1%Q else 0%Q) all_values.

(** [encode_frequency]: the value is clipped to [[min_val, max_val]]; a zero
    denominator raises [ZeroDivisionError]. *)
Definition encode_frequency (value : Q) (degree : nat) (min_val max_val : Q)
    : option (list Q) :=
  let v := Qmax min_val (Qmin max_val value) in
  mapM (fun d : nat =>
          let den := (max_val ^ Z.of_nat d - min_val ^ Z.of_nat d)%Q in
          if Qeq_bool den 0 then None
          else Some ((v ^ Z.of_nat d - min_val ^ Z.of_nat d) / den)%Q)
       (seq 1 degree).

(** [_center] *)
Definition _center (x : Q) : Q := (x - (1 # 2))%Q.

(** [_split_pairs]: [block[0], block[1]]. *)
Definition _split_pairs (block : list Q) : option (Q * Q) :=
  a ← block !! 0%nat; b ← block !! 1%nat; Some (a, b).

(** Modelled from the spec: [min_max_norm] (its module is not part of the
    sources): "numeric attributes are min-max normalized against fixed bounds
    and clipped to [0,1]". A value that is not a number raises. *)
Definition min_max_norm (val : pd_value) (a b : Q) : option Q :=
  match val with
  | PNum q => Some (Qclip 0 1 ((q - a) / (b - a)))%Q
  | _ => None
  end.

(** *** Personal data *)

(** The values of a categorical feature that are kept:
    [[v for v in PERSONAL_DATA_CATEGORICAL_FEATURES[feature]
         if v not in LEAVE_OUT_VARS.get(feature, [])]] *)
Definition kept_values (feature : string) (present : list string) : list string :=
  filter (fun v => ¬ Is_true (mem v (get_or feature [] LEAVE_OUT_VARS))) present.

(** [get_personal_data_labels] *)
Definition get_personal_data_labels : list string :=
  foldl (fun labels feature =>
           match PyDict.get feature PERSONAL_DATA_CATEGORICAL_FEATURES with
           | Some present =>
               if mem feature CATEGORICAL_TO_NUMERIC then labels ++ [feature]
               else labels ++ kept_values feature present
           | None => labels ++ [feature]
           end)
        [] PERSONAL_DATA_FEATURES.

(** One feature of [get_personal_data_encoding]: the scalar or list that is
    appended to the encoding ([None] when the feature raises). *)
Definition encode_personal_feature (personal_data : list (string * pd_value))
    (feature : string) : option (list Q) :=
  match PyDict.get feature PERSONAL_DATA_CATEGORICAL_FEATURES with
  | Some present =>
      let values := kept_values feature present in
      if mem feature CATEGORICAL_TO_NUMERIC then
        match PyDict.get feature personal_data with
        | None | Some PNone => Some [(1 # 2)%Q]
        | Some v =>
            match PyDict.get feature CATEGORICAL_TO_NUMERIC_EXPLICIT with
            | Some table =>
                match v with
                | PStr s => Some [get_or s (1 # 2)%Q table]
                | _ => Some [(1 # 2)%Q]
                end
            | None =>
                match v with
                | PStr s =>
                    match index s values with
                    | Some i =>
                        Some [(inject_Z (Z.of_nat i) / inject_Z (Z.of_nat (length values) - 1))%Q]
                    | None => Some [(1 # 2)%Q]
                    end
                | _ => Some [(1 # 2)%Q]
                end
            end
        end
      else
        match PyDict.get feature personal_data with
        | Some (PStr s) =>
            if mem s values then Some (one_hot_encode s values)
            else Some (replicate (length values) 0%Q)
        | _ => Some (replicate (length values) 0%Q)
        end
  | None =>
      match PyDict.get feature personal_data with
      | None | Some PNone => Some [(1 # 2)%Q]
      | Some v =>
          match PyDict.get feature NUMERIC_FEATURES_MIN_MAX with
          | Some (a, b) => q ← min_max_norm v a b; Some [q]
          | None =>
              (* the raw value is appended; every non-categorical feature of
                 the configuration has bounds, so this is reached with no
                 feature of [PERSONAL_DATA_FEATURES] *)
              match v with PNum q => Some [q] | _ => None end
          end
      end
  end.

(** [get_personal_data_encoding] *)
Definition get_personal_data_encoding (personal_data : list (string * pd_value))
    : option (list Q) :=
  foldl (fun enc feature =>
           e ← enc; val ← encode_personal_feature personal_data feature; Some (e ++ val))
        (Some []) PERSONAL_DATA_FEATURES.

(** *** Base blocks *)

Definition BASE_LABELS : list (string * list string) :=
  [("D", get_personal_data_labels);
   ("H", PILLARS);
   ("Hc", ["hhs_current"]);
   ("ND", ["num_intervention_days"]);
   ("P", map (fun p => "pillar_" +:+ p) (kept_values "pillar" PILLARS));
   ("MF", ["mission_frequency"]);
   ("TF", ["TF_past"; "TF_sched"]);
   ("IT", map (fun t => "IT_" +:+ t) INTERVENTION_TYPES);
   ("NIT", ["num_int_types"]);
   ("IF", ["IF_past"; "IF_sched"]);
   ("RF", ["RF_past"; "RF_sched"]);
   ("ER", ["engagement_rate_past"]);
   ("PR", ["prompted"]);
   ("MS", ["prev_mission_score"])].

Definition BASE_DIMENSIONS : list (string * nat) :=
  map (fun kv => (fst kv, length (snd kv))) BASE_LABELS.

(** [hhs.get(p, 50) / 100.0] *)
Definition get_hhs_encoding (hhs : list (string * Q)) : list Q :=
  map (fun p => (get_or p 50%Q hhs / 100)%Q) PILLARS.

Definition get_hhs_current_encoding (hhs : list (string * Q)) (pillar : string) : list Q :=
  [(get_or pillar 50%Q hhs / 100)%Q].

Definition get_num_intervention_days_encoding (days : option Z) : list Q :=
  match days with
  | None => [0%Q]
  | Some d => [Qmax 0 (Qmin 1 (inject_Z d / inject_Z (12 * 7)))%Q]
  end.

(** [get_pillar_encoding]: an unknown pillar raises [ValueError]. *)
Definition get_pillar_encoding (pillar : string) : option (list Q) :=
  if mem pillar PILLARS then Some (one_hot_encode pillar (kept_values "pillar" PILLARS))
  else None.

Definition degree_of (key : string) : option nat := PyDict.get key FREQUENCY_FEATURE_DEGREES.

Definition get_mission_frequency_encoding (mf : Q) : option (list Q) :=
  d ← degree_of "MF"; encode_frequency mf d 1 7.

Definition get_total_frequency_encoding (x : Q) (scheduled : bool) : option (list Q) :=
  let cap := if scheduled then (MAX_NUM_REC_PER_MISSION - 1)%nat else MAX_NUM_REC_PER_MISSION in
  d ← degree_of "TF"; encode_frequency x d 0 (inject_Z (Z.of_nat cap)).

(** [get_intervention_encoding]: [intervention or []]; a type outside
    [INTERVENTION_TYPES] raises [ValueError]; the multi-hot vector is divided
    by its sum unless it is all zero. *)
Definition get_intervention_encoding (intervention : option (list string))
    : option (list Q) :=
  let intervention := default [] intervention in
  if forallb (fun i => mem i INTERVENTION_TYPES) intervention then
    let mh := map (fun i => if mem i intervention then 1%Q else 0%Q) INTERVENTION_TYPES in
    let s := sumQ mh in
    if Qeq_bool s 0 then Some (replicate (length INTERVENTION_TYPES) 0%Q)
    else Some (map (fun x => (x / s)%Q) mh)
  else None.

Definition get_num_int_types_encoding (intervention : option (list string)) : list Q :=
  let k := length (default [] intervention) in
  [(inject_Z (Z.of_nat k) / inject_Z (Z.of_nat (length INTERVENTION_TYPES)))%Q].

Definition get_intervention_frequency_encoding (x : Q) (scheduled : bool) : option (list Q) :=
  let cap := if scheduled then (MAX_NUM_REC_PER_MISSION - 1)%nat else MAX_NUM_REC_PER_MISSION in
  d ← degree_of "IF"; encode_frequency x d 0 (inject_Z (Z.of_nat cap)).

Definition get_recommendation_frequency_encoding (x : Q) (scheduled : bool)
    : option (list Q) :=
  let cap := if scheduled then (MAX_SAME_REC_SENT_PER_MISSION - 1)%nat
             else MAX_SAME_REC_SENT_PER_MISSION in
  d ← degree_of "RF"; encode_frequency x d 0 (inject_Z (Z.of_nat cap)).

Definition get_engagement_rate_encoding (er_value : option Q) : list Q :=
  match er_value with
  | None => [(1 # 2)%Q]
  | Some v => [Qmax 0 (Qmin 1 v)]
  end.

Definition get_prompted_encoding (prompted : bool) : list Q :=
  [if prompted then 1%Q else 0%Q].

(** *** The feature vector *)

(** The arguments of [get_intervention_feature_vector]. *)
Record fv_input := FvInput {
  personal_data : list (string * pd_value);
  hhs : list (string * Q);
  num_intervention_days : option Z;
  pillar : string;
  mission_frequency : Q;
  total_frequency_past_week : Q;
  total_frequency_scheduled : Q;
  intervention : option (list string);
  intervention_frequency_past_week : Q;
  intervention_frequency_scheduled : Q;
  recommendation_frequency_past_week : Q;
  recommendation_frequency_scheduled : Q;
  er_past_value : option Q;
  prompted : bool;
  prev_mission_score : Q
}.

(** The tuple returned by [get_encodings]. *)
Record encodings := Encodings {
  e_D : list Q; e_H : list Q; e_Hc : list Q; e_ND : list Q; e_P : list Q;
  e_MF : list Q; e_TF : list Q; e_IT : list Q; e_NIT : list Q; e_IF : list Q;
  e_RF : list Q; e_ER : list Q; e_PR : list Q; e_MS : list Q
}.

Definition get_encodings (i : fv_input) : option encodings :=
  D ← get_personal_data_encoding (personal_data i);
  let H := get_hhs_encoding (hhs i) in
  let Hc := get_hhs_current_encoding (hhs i) (pillar i) in
  let ND := get_num_intervention_days_encoding (num_intervention_days i) in
  P ← get_pillar_encoding (pillar i);
  MF ← get_mission_frequency_encoding (mission_frequency i);
  TF1 ← get_total_frequency_encoding (total_frequency_past_week i) false;
  TF2 ← get_total_frequency_encoding (total_frequency_scheduled i) true;
  IT ← get_intervention_encoding (intervention i);
  let NIT := get_num_int_types_encoding (intervention i) in
  IF1 ← get_intervention_frequency_encoding (intervention_frequency_past_week i) false;
  IF2 ← get_intervention_frequency_encoding (intervention_frequency_scheduled i) true;
  RF1 ← get_recommendation_frequency_encoding (recommendation_frequency_past_week i) false;
  RF2 ← get_recommendation_frequency_encoding (recommendation_frequency_scheduled i) true;
  let ER := get_engagement_rate_encoding (Some (default 0%Q (er_past_value i))) in
  let PR := get_prompted_encoding (prompted i) in
  let MS := [Qmax 0 (Qmin 1 (prev_mission_score i))] in
  Some {| e_D := D; e_H := H; e_Hc := Hc; e_ND := ND; e_P := P; e_MF := MF;
          e_TF := TF1 ++ TF2; e_IT := IT; e_NIT := NIT; e_IF := IF1 ++ IF2;
          e_RF := RF1 ++ RF2; e_ER := ER; e_PR := PR; e_MS := MS |}.

(** [base_parts] *)
Definition base_parts (e : encodings) : list (string * list Q) :=
  [("D", e_D e); ("H", e_H e); ("Hc", e_Hc e); ("ND", e_ND e); ("P", e_P e);
   ("MF", e_MF e); ("TF", e_TF e); ("IT", e_IT e); ("NIT", e_NIT e); ("IF", e_IF e);
   ("RF", e_RF e); ("ER", e_ER e); ("PR", e_PR e); ("MS", e_MS e)].

(** [blockvals] *)
Definition blockvals (e : encodings) : list (string * list Q) :=
  [("D", e_D e); ("H", e_H e); ("P", e_P e); ("MF", e_MF e); ("TF", e_TF e);
   ("IT", e_IT e); ("IF", e_IF e); ("RF", e_RF e)].

Definition INTERACTION_PAIRS : list (string * (string * string)) :=
  [("D_H", ("D", "H")); ("D_P", ("D", "P")); ("D_IT", ("D", "IT")); ("D_MF", ("D", "MF"));
   ("D_TF", ("D", "TF")); ("D_IF", ("D", "IF")); ("D_RF", ("D", "RF")); ("P_IT", ("P", "IT"));
   ("P_MF", ("P", "MF")); ("P_TF", ("P", "TF")); ("P_IF", ("P", "IF")); ("I_IF", ("IT", "IF"));
   ("I_RF", ("IT", "RF"))].

(** [features.get(key, False)] *)
Definition flag (features : list (string * bool)) (key : string) : bool :=
  get_or key false features.

(** [for key in keys: if flag: fv.extend(base_parts[key])] *)
Definition extend_base_over (keys : list string) (features : list (string * bool))
    (parts : list (string * list Q)) (fv : list Q) : option (list Q) :=
  foldl (fun acc key =>
           fv ← acc;
           if flag features key then block ← PyDict.get key parts; Some (fv ++ block)
           else Some fv)
        (Some fv) keys.

(** The loop over [BASE_LABELS]. *)
Definition extend_base (features : list (string * bool)) (parts : list (string * list Q))
    (fv : list Q) : option (list Q) :=
  extend_base_over (PyDict.keys BASE_LABELS) features parts fv.

(** [if flag: fv.append(x)], where computing [x] may raise. *)
Definition append_if (b : bool) (x : option Q) (fv : list Q) : option (list Q) :=
  if b then v ← x; Some (fv ++ [v]) else Some fv.

(** [if flag: fv.extend(xs)] *)
Definition extend_if (b : bool) (xs : option (list Q)) (fv : list Q) : option (list Q) :=
  if b then l ← xs; Some (fv ++ l) else Some fv.

(** [[x * y for x, y in product(A, B)]] *)
Definition product_mul (A B : list Q) : list Q :=
  concat (map (fun x => map (fun y => (x * y)%Q) B) A).

(** [for inter_key, (a, b) in pairs.items(): if flag: fv.extend(products)] *)
Definition extend_pairs_over (pairs : list (string * (string * string)))
    (features : list (string * bool)) (vals : list (string * list Q))
    (fv : list Q) : option (list Q) :=
  foldl (fun acc '(inter_key, (a, b)) =>
           fv ← acc;
           extend_if (flag features inter_key)
             (A ← PyDict.get a vals; B ← PyDict.get b vals; Some (product_mul A B)) fv)
        (Some fv) pairs.

(** The loop over [INTERACTION_PAIRS]. *)
Definition extend_pairs (features : list (string * bool)) (vals : list (string * list Q))
    (fv : list Q) : option (list Q) :=
  extend_pairs_over INTERACTION_PAIRS features vals fv.

(** [_get_age_centered] *)
Definition _get_age_centered (D : list Q) : option Q :=
  labels ← PyDict.get "D" BASE_LABELS; age_idx ← index "userAge" labels;
  x ← D !! age_idx; Some (_center x).

(** [_get_hhs_current_centered] *)
Definition _get_hhs_current_centered (H : list Q) (pillar : string) : option Q :=
  idx ← index pillar PILLARS; x ← H !! idx; Some (_center x).

(** [get_intervention_feature_vector], with the flag table as an argument
    (the module-level [INTERVENTION_MAB_FEATURES] in the source). *)
Definition get_intervention_feature_vector (features : list (string * bool)) (i : fv_input)
    : option (list Q) :=
  e ← get_encodings i;
  fv ← extend_base features (base_parts e) [1%Q];
  '(TF_past, TF_sched) ← _split_pairs (e_TF e);
  '(RF_past, RF_sched) ← _split_pairs (e_RF e);
  '(IF_past, IF_sched) ← _split_pairs (e_IF e);
  let MF0 := e_MF e !! 0%nat in
  let NIT0 := e_NIT e !! 0%nat in
  fv ← append_if (flag features "MF_x_TF_sched") (m ← MF0; Some (m * TF_sched)%Q) fv;
  fv ← append_if (flag features "MF_x_RF_sched") (m ← MF0; Some (m * RF_sched)%Q) fv;
  fv ← append_if (flag features "MF_x_IF_sched") (m ← MF0; Some (m * IF_sched)%Q) fv;
  fv ← append_if (flag features "NIT_x_IF_sched") (n ← NIT0; Some (n * IF_sched)%Q) fv;
  age_c ← _get_age_centered (e_D e);
  fv ← append_if (flag features "AGEc_x_RF_sched") (Some (age_c * RF_sched)%Q) fv;
  fv ← extend_if (flag features "AGEc_x_IT")
         (Some (map (fun w => (age_c * w)%Q) (e_IT e))) fv;
  fv ← append_if (flag features "HHS_c_x_RF_sched")
         (h ← _get_hhs_current_centered (e_H e) (pillar i); Some (h * RF_sched)%Q) fv;
  fv ← extend_if (flag features "HHS_c_x_IT")
         (h ← _get_hhs_current_centered (e_H e) (pillar i);
          Some (map (fun w => (h * w)%Q) (e_IT e))) fv;
  extend_pairs features (blockvals e) fv.

Definition b2n (b : bool) (n : nat) : nat := if b then n else 0%nat.

(** [for key in keys: if flag: dim += BASE_DIMENSIONS[key]]; a missing key
    raises [KeyError]. *)
Definition dim_base_over (keys : list string) (features : list (string * bool))
    (dim : nat) : option nat :=
  foldl (fun acc key =>
           dim ← acc;
           if flag features key then d ← PyDict.get key BASE_DIMENSIONS; Some (dim + d)%nat
           else Some dim)
        (Some dim) keys.

(** [for inter_key, (a, b) in pairs.items():
       if flag: dim += BASE_DIMENSIONS[a] * BASE_DIMENSIONS[b]] *)
Definition dim_pairs_over (pairs : list (string * (string * string)))
    (features : list (string * bool)) (dim : nat) : option nat :=
  foldl (fun acc '(inter_key, (a, b)) =>
           dim ← acc;
           if flag features inter_key
           then da ← PyDict.get a BASE_DIMENSIONS; db ← PyDict.get b BASE_DIMENSIONS;
                Some (dim + da * db)%nat
           else Some dim)
        (Some dim) pairs.

(** [get_dim_intervention_feature_vector], with the flag table as an argument. *)
Definition get_dim_intervention_feature_vector (features : list (string * bool))
    (include_bias : bool) : option nat :=
  let dim := if include_bias then 1%nat else 0%nat in
  dim ← dim_base_over (PyDict.keys BASE_LABELS) features dim;
  let dim := (dim + b2n (flag features "MF_x_TF_sched") 1)%nat in
  let dim := (dim + b2n (flag features "MF_x_RF_sched") 1)%nat in
  let dim := (dim + b2n (flag features "MF_x_IF_sched") 1)%nat in
  let dim := (dim + b2n (flag features "NIT_x_IF_sched") 1)%nat in
  let dim := (dim + b2n (flag features "AGEc_x_RF_sched") 1)%nat in
  let dim := (dim + b2n (flag features "AGEc_x_IT") (length INTERVENTION_TYPES))%nat in
  let dim := (dim + b2n (flag features "HHS_c_x_RF_sched") 1)%nat in
  let dim := (dim + b2n (flag features "HHS_c_x_IT") (length INTERVENTION_TYPES))%nat in
  dim_pairs_over INTERACTION_PAIRS features dim.

(** *** Sums of rationals *)

Lemma foldl_Qplus (l : list Q) (a : Q) : (foldl Qplus a l == a + sumQ l)%Q.
Proof.
  unfold sumQ. revert a. induction l as [|x l IH]; intros a; simpl.
  - ring.
  - rewrite (IH (a + x)%Q), (IH (0 + x)%Q). ring.
Qed.

Lemma sumQ_cons (x : Q) (l : list Q) : (sumQ (x :: l) == x + sumQ l)%Q.
Proof. unfold sumQ at 1. simpl. rewrite foldl_Qplus. ring. Qed.

Lemma sumQ_map_div (s : Q) (l : list Q) :
  (sumQ (map (fun x => x / s) l) == sumQ l / s)%Q.
Proof.
  induction l as [|x l IH]; simpl.
  - unfold sumQ; simpl. unfold Qdiv. ring.
  - rewrite !sumQ_cons, IH. unfold Qdiv. ring.
Qed.

(** The multi-hot vector of [l] over the list [types]. *)
Definition multi_hot (l types : list string) : list Q :=
  map (fun i => if mem i l then 1%Q else 0%Q) types.

Lemma sumQ_multi_hot_nonneg (l types : list string) : (0 <= sumQ (multi_hot l types))%Q.
Proof.
  induction types as [|t types IH]; simpl.
  - unfold sumQ; simpl. apply Qle_refl.
  - rewrite sumQ_cons. destruct (mem t l).
    + apply (Qle_trans _ (0 + 0)%Q); [discriminate|]. apply Qplus_le_compat; [discriminate | exact IH].
    + apply (Qle_trans _ (0 + 0)%Q); [discriminate|]. apply Qplus_le_compat; [discriminate | exact IH].
Qed.

Lemma sumQ_multi_hot_pos (l types : list string) (x : string) :
  x ∈ l -> x ∈ types -> (1 <= sumQ (multi_hot l types))%Q.
Proof.
  intros Hl. induction types as [|t types IH]; intros Ht.
  - by apply elem_of_nil in Ht.
  - simpl. rewrite sumQ_cons. apply elem_of_cons in Ht as [<-|Ht].
    + unfold mem. rewrite bool_decide_eq_true_2 by done.
      apply (Qle_trans _ (1 + 0)%Q); [discriminate|].
      apply Qplus_le_compat; [apply Qle_refl | apply sumQ_multi_hot_nonneg].
    + apply (Qle_trans _ (0 + 1)%Q); [discriminate|].
      apply Qplus_le_compat; [destruct (mem t l); discriminate | by apply IH].
Qed.

Lemma sumQ_multi_hot_nil (types : list string) :
  multi_hot [] types = replicate (length types) 0%Q.
Proof.
  induction types as [|t types IH]; simpl; [done|]. by rewrite IH.
Qed.

(** Every type of the list is one of [INTERVENTION_TYPES]. *)
Definition recognized (l : list string) : Prop := forall x, x ∈ l -> x ∈ INTERVENTION_TYPES.

Lemma forallb_recognized (l : list string) :
  forallb (fun i => mem i INTERVENTION_TYPES) l = true <-> recognized l.
Proof.
  unfold recognized. rewrite forallb_forall. split.
  - intros H x Hx. apply list_elem_of_In in Hx. apply H in Hx.
    by apply bool_decide_eq_true in Hx.
  - intros H x Hx. apply list_elem_of_In in Hx. apply bool_decide_eq_true. by apply H.
Qed.

Lemma get_intervention_encoding_recognized (l : list string) :
  recognized l ->
  exists v,
    get_intervention_encoding (Some l) = Some v /\
    length v = 8%nat /\
    (l = [] -> v = replicate 8 0%Q) /\
    (l ≠ [] -> (sumQ v == 1)%Q).
Proof.
  intros Hrec. unfold get_intervention_encoding. change (default [] (Some l)) with l.
  rewrite (proj2 (forallb_recognized l) Hrec).
  fold (multi_hot l INTERVENTION_TYPES).
  destruct (Qeq_bool (sumQ (multi_hot l INTERVENTION_TYPES)) 0) eqn:Hs.
  - eexists. split; [reflexivity|]. split; [reflexivity|]. split; [done|].
    intros Hne. destruct l as [|x l]; [done|]. exfalso.
    apply Qeq_bool_eq in Hs.
    pose proof (sumQ_multi_hot_pos (x :: l) INTERVENTION_TYPES x) as Hpos.
    rewrite Hs in Hpos. apply Hpos; [left | apply Hrec; left | reflexivity].
  - eexists. split; [reflexivity|]. split; [by rewrite length_map|]. split.
    + intros ->. rewrite sumQ_multi_hot_nil in Hs. discriminate Hs.
    + intros _. rewrite sumQ_map_div. apply Qeq_bool_neq in Hs. by field.
Qed.


(** *** Personal data never raises on categorical attributes *)

(** The string a categorical attribute holds, if it holds one. *)
Definition categorical_value (pd : list (string * pd_value)) (feature : string)
    : option string :=
  match PyDict.get feature pd with
  | Some (PStr s) => Some s
  | _ => None
  end.

(** The numeric attribute [userAge] is absent, [None] or a number. *)
Definition age_numeric (pd : list (string * pd_value)) : Prop :=
  categorical_value pd "userAge" = None.

Definition gender_table : list (string * Q) :=
  [("female", 0%Q); ("decline", (1 # 2)%Q); ("other", (1 # 2)%Q); ("male", 1%Q)].
Definition education_values : list string :=
  ["no-education"; "primary"; "secondary"; "vocational"; "university"; "postgraduate"].
Definition centre_values : list string := ["ICO"; "UMFCD"; "UNIPA"].

Lemma encode_gender pd :
  encode_personal_feature pd "gender" =
  Some [match categorical_value pd "gender" with
        | Some s => get_or s (1 # 2)%Q gender_table
        | None => (1 # 2)%Q
        end].
Proof.
  unfold encode_personal_feature, categorical_value.
  change (PyDict.get "gender" PERSONAL_DATA_CATEGORICAL_FEATURES)
    with (Some ["female"; "male"; "decline"; "other"]).
  change (mem "gender" CATEGORICAL_TO_NUMERIC) with true.
  change (PyDict.get "gender" CATEGORICAL_TO_NUMERIC_EXPLICIT) with (Some gender_table).
  cbv iota beta. by destruct (PyDict.get "gender" pd) as [[| |]|].
Qed.

Lemma encode_education pd :
  encode_personal_feature pd "education" =
  Some [match categorical_value pd "education" with
        | Some s =>
            match index s education_values with
            | Some i => (inject_Z (Z.of_nat i) / 5)%Q
            | None => (1 # 2)%Q
            end
        | None => (1 # 2)%Q
        end].
Proof.
  unfold encode_personal_feature, categorical_value.
  change (PyDict.get "education" PERSONAL_DATA_CATEGORICAL_FEATURES)
    with (Some ["no-education"; "primary"; "secondary"; "vocational"; "university";
                "postgraduate"; "other"]).
  change (mem "education" CATEGORICAL_TO_NUMERIC) with true.
  change (PyDict.get "education" CATEGORICAL_TO_NUMERIC_EXPLICIT)
    with (@None (list (string * Q))).
  cbv iota beta zeta.
  change (kept_values "education" _) with education_values.
  destruct (PyDict.get "education" pd) as [[|s|]|]; try done.
  by destruct (index s education_values).
Qed.

Lemma encode_centre pd :
  encode_personal_feature pd "recruitmentCenter" =
  Some match categorical_value pd "recruitmentCenter" with
       | Some s => if mem s centre_values then one_hot_encode s centre_values
                   else replicate 3 0%Q
       | None => replicate 3 0%Q
       end.
Proof.
  unfold encode_personal_feature, categorical_value.
  change (PyDict.get "recruitmentCenter" PERSONAL_DATA_CATEGORICAL_FEATURES)
    with (Some ["IEO"; "ICO"; "UMFCD"; "UNIPA"]).
  change (mem "recruitmentCenter" CATEGORICAL_TO_NUMERIC) with false.
  cbv iota beta zeta.
  change (kept_values "recruitmentCenter" _) with centre_values. destruct (PyDict.get "recruitmentCenter" pd) as [[|s|]|]; try done.
  by destruct (mem s centre_values).
Qed.

Lemma encode_age pd :
  age_numeric pd ->
  encode_personal_feature pd "userAge" =
  Some [match PyDict.get "userAge" pd with
        | Some (PNum q) => Qclip 0 1 ((q - 45) / (80 - 45))%Q
        | _ => (1 # 2)%Q
        end].
Proof.
  unfold age_numeric, encode_personal_feature, categorical_value.
  change (PyDict.get "userAge" PERSONAL_DATA_CATEGORICAL_FEATURES)
    with (@None (list string)).
  change (PyDict.get "userAge" NUMERIC_FEATURES_MIN_MAX) with (Some (45%Q, 80%Q)).
  cbv iota beta. by destruct (PyDict.get "userAge" pd) as [[| |]|].
Qed.

Lemma encode_age_raises pd s :
  PyDict.get "userAge" pd = Some (PStr s) -> encode_personal_feature pd "userAge" = None.
Proof.
  intros Hs. unfold encode_personal_feature.
  change (PyDict.get "userAge" PERSONAL_DATA_CATEGORICAL_FEATURES)
    with (@None (list string)).
  change (PyDict.get "userAge" NUMERIC_FEATURES_MIN_MAX) with (Some (45%Q, 80%Q)).
  by rewrite Hs.
Qed.

Lemma get_personal_data_encoding_total pd :
  age_numeric pd ->
  exists g a e rc,
    get_personal_data_encoding pd = Some ([g; a; e] ++ rc) /\
    length rc = 3%nat /\
    encode_personal_feature pd "gender" = Some [g] /\
    encode_personal_feature pd "education" = Some [e] /\
    encode_personal_feature pd "recruitmentCenter" = Some rc.
Proof.
  intros Hage. unfold get_personal_data_encoding, PERSONAL_DATA_FEATURES. cbn [foldl].
  rewrite encode_gender, (encode_age pd Hage), encode_education, encode_centre.
  cbn [mbind option_bind app]. eexists _, _, _, _. split; [reflexivity|].
  split; [|done].
  destruct (categorical_value pd "recruitmentCenter") as [s|]; [|done].
  destruct (mem s centre_values); [|done]. unfold one_hot_encode. by rewrite length_map.
Qed.

Lemma get_personal_data_encoding_length pd D :
  get_personal_data_encoding pd = Some D -> length D = 6%nat.
Proof.
  destruct (categorical_value pd "userAge") as [s|] eqn:Hage.
  - unfold categorical_value in Hage.
    destruct (PyDict.get "userAge" pd) as [[|s'|]|] eqn:Hget; try done.
    unfold get_personal_data_encoding, PERSONAL_DATA_FEATURES. cbn [foldl].
    rewrite encode_gender, (encode_age_raises pd s' Hget). cbn [mbind option_bind].
    by destruct (encode_personal_feature pd "education"),
                (encode_personal_feature pd "recruitmentCenter").
  - destruct (get_personal_data_encoding_total pd Hage) as (g & a & e & rc & -> & Hrc & _).
    intros [= <-]. simpl. by rewrite Hrc.
Qed.




(** *** The length of the feature vector *)

Lemma encode_frequency_length v d lo hi l :
  encode_frequency v d lo hi = Some l -> length l = d.
Proof.
  unfold encode_frequency. intros Hl. apply length_mapM in Hl.
  rewrite <- Hl. apply length_seq.
Qed.

Lemma encode_frequency_one v lo hi :
  Qeq_bool (hi ^ 1 - lo ^ 1) 0 = false ->
  exists q, encode_frequency v 1 lo hi = Some [q].
Proof.
  intros Hden. unfold encode_frequency. cbn [seq mapM].
  change (Z.of_nat 1) with 1%Z. rewrite Hden. cbn. eauto.
Qed.

Lemma product_mul_length (A B : list Q) :
  length (product_mul A B) = (length A * length B)%nat.
Proof.
  unfold product_mul. induction A as [|x A IH]; simpl; [done|].
  by rewrite length_app, length_map, IH.
Qed.

(** The lengths the static schema gives to the blocks. *)
Definition block_lengths (e : encodings) : Prop :=
  length (e_D e) = 6%nat /\ length (e_H e) = 5%nat /\ length (e_Hc e) = 1%nat /\
  length (e_ND e) = 1%nat /\ length (e_P e) = 4%nat /\ length (e_MF e) = 1%nat /\
  length (e_TF e) = 2%nat /\ length (e_IT e) = 8%nat /\ length (e_NIT e) = 1%nat /\
  length (e_IF e) = 2%nat /\ length (e_RF e) = 2%nat /\ length (e_ER e) = 1%nat /\
  length (e_PR e) = 1%nat /\ length (e_MS e) = 1%nat.

(** A valid input: a known pillar, recognized item types, and an age that is
    a number when present. *)
Definition valid_input (i : fv_input) : Prop :=
  pillar i ∈ PILLARS /\
  recognized (default [] (intervention i)) /\
  age_numeric (personal_data i).

Lemma get_intervention_encoding_length o v :
  get_intervention_encoding o = Some v -> length v = 8%nat.
Proof.
  unfold get_intervention_encoding. destruct (forallb _ _); [|done].
  destruct (Qeq_bool _ _); intros [= <-]; [done | by rewrite ?length_map].
Qed.

Lemma get_encodings_lengths i e : get_encodings i = Some e -> block_lengths e.
Proof.
  unfold get_encodings. intros He.
  destruct (get_personal_data_encoding (personal_data i)) as [D|] eqn:HD; [|done].
  destruct (get_pillar_encoding (pillar i)) as [P|] eqn:HP; [|done].
  destruct (get_mission_frequency_encoding _) as [MF|] eqn:HMF; [|done].
  destruct (get_total_frequency_encoding _ false) as [TF1|] eqn:HTF1; [|done].
  destruct (get_total_frequency_encoding _ true) as [TF2|] eqn:HTF2; [|done].
  destruct (get_intervention_encoding _) as [IT|] eqn:HIT; [|done].
  destruct (get_intervention_frequency_encoding _ false) as [IF1|] eqn:HIF1; [|done].
  destruct (get_intervention_frequency_encoding _ true) as [IF2|] eqn:HIF2; [|done].
  destruct (get_recommendation_frequency_encoding _ false) as [RF1|] eqn:HRF1; [|done].
  destruct (get_recommendation_frequency_encoding _ true) as [RF2|] eqn:HRF2; [|done].
  cbn in He. injection He as <-. unfold block_lengths. cbn [e_D e_H e_Hc e_ND e_P e_MF e_TF
    e_IT e_NIT e_IF e_RF e_ER e_PR e_MS].
  apply get_personal_data_encoding_length in HD.
  apply get_intervention_encoding_length in HIT.
  apply encode_frequency_length in HMF, HTF1, HTF2, HIF1, HIF2, HRF1, HRF2.
  assert (HPl : length P = 4%nat).
  { unfold get_pillar_encoding in HP. destruct (mem _ _); [|done].
    injection HP as <-. unfold one_hot_encode. by rewrite ?length_map. }
  rewrite !length_app, HD, HIT, HMF, HTF1, HTF2, HIF1, HIF2, HRF1, HRF2, HPl.
  by destruct (num_intervention_days i).
Qed.

Lemma get_encodings_total i : valid_input i -> exists e, get_encodings i = Some e.
Proof.
  intros (Hp & Hrec & Hage). unfold get_encodings.
  destruct (get_personal_data_encoding_total _ Hage) as (g & a & ed & rc & -> & _).
  cbn [mbind option_bind].
  unfold get_pillar_encoding, mem. rewrite (bool_decide_eq_true_2 _ Hp).
  cbn [mbind option_bind].
  destruct (encode_frequency_one (mission_frequency i) 1 7 eq_refl) as (mf & Hmf).
  destruct (encode_frequency_one (total_frequency_past_week i) 0 (inject_Z 10) eq_refl)
    as (tf1 & Htf1).
  destruct (encode_frequency_one (total_frequency_scheduled i) 0 (inject_Z 9) eq_refl)
    as (tf2 & Htf2).
  destruct (encode_frequency_one (intervention_frequency_past_week i) 0 (inject_Z 10) eq_refl)
    as (if1 & Hif1).
  destruct (encode_frequency_one (intervention_frequency_scheduled i) 0 (inject_Z 9) eq_refl)
    as (if2 & Hif2).
  destruct (encode_frequency_one (recommendation_frequency_past_week i) 0 (inject_Z 3) eq_refl)
    as (rf1 & Hrf1).
  destruct (encode_frequency_one (recommendation_frequency_scheduled i) 0 (inject_Z 2) eq_refl)
    as (rf2 & Hrf2).
  assert (HIT : exists v, get_intervention_encoding (intervention i) = Some v).
  { destruct (intervention i) as [l|]; [|by eexists].
    destruct (get_intervention_encoding_recognized l Hrec) as (v & Hv & _). eauto. }
  destruct HIT as (IT & HIT).
  unfold get_mission_frequency_encoding, get_total_frequency_encoding,
    get_intervention_frequency_encoding, get_recommendation_frequency_encoding.
  change (degree_of "MF") with (Some 1%nat). change (degree_of "TF") with (Some 1%nat).
  change (degree_of "IF") with (Some 1%nat). change (degree_of "RF") with (Some 1%nat).
  cbn [mbind option_bind].
  change (Z.of_nat MAX_NUM_REC_PER_MISSION) with 10%Z.
  change (Z.of_nat (MAX_NUM_REC_PER_MISSION - 1)) with 9%Z.
  change (Z.of_nat MAX_SAME_REC_SENT_PER_MISSION) with 3%Z.
  change (Z.of_nat (MAX_SAME_REC_SENT_PER_MISSION - 1)) with 2%Z.
  rewrite Hmf, Htf1, Htf2, HIT, Hif1, Hif2, Hrf1, Hrf2. cbn [mbind option_bind]. eauto.
Qed.

Lemma extend_base_over_length keys features parts : forall fv,
  (forall key, key ∈ keys ->
     exists block, PyDict.get key parts = Some block /\
                   PyDict.get key BASE_DIMENSIONS = Some (length block)) ->
  exists fv',
    extend_base_over keys features parts fv = Some fv' /\
    dim_base_over keys features (length fv) = Some (length fv').
Proof.
  unfold extend_base_over, dim_base_over.
  induction keys as [|key keys IH]; intros fv Hkeys; cbn [foldl].
  - eauto.
  - cbn [mbind option_bind].
    destruct (Hkeys key) as (block & -> & ->); [left|]. cbn [mbind option_bind].
    destruct (flag features key).
    + rewrite <- length_app. apply IH. intros k Hk. apply Hkeys. by right.
    + apply IH. intros k Hk. apply Hkeys. by right.
Qed.

Lemma extend_pairs_over_length pairs features vals : forall fv,
  (forall k a b, (k, (a, b)) ∈ pairs ->
     exists A B, PyDict.get a vals = Some A /\ PyDict.get b vals = Some B /\
                 PyDict.get a BASE_DIMENSIONS = Some (length A) /\
                 PyDict.get b BASE_DIMENSIONS = Some (length B)) ->
  exists fv',
    extend_pairs_over pairs features vals fv = Some fv' /\
    dim_pairs_over pairs features (length fv) = Some (length fv').
Proof.
  unfold extend_pairs_over, dim_pairs_over.
  induction pairs as [|[k [a b]] pairs IH]; intros fv Hpairs; cbn [foldl].
  - eauto.
  - cbn [mbind option_bind]. unfold extend_if.
    destruct (Hpairs k a b) as (A & B & -> & -> & -> & ->); [left|].
    cbn [mbind option_bind].
    destruct (flag features k).
    + rewrite <- product_mul_length, <- length_app.
      apply IH. intros k' a' b' Hk. apply (Hpairs k'). by right.
    + apply IH. intros k' a' b' Hk. apply (Hpairs k'). by right.
Qed.

Lemma split_pairs_Some (l : list Q) :
  length l = 2%nat -> exists a b, _split_pairs l = Some (a, b).
Proof. destruct l as [|a [|b [|]]]; try done. intros _. by exists a, b. Qed.

Lemma index_Some_lt (x : string) (l : list string) :
  x ∈ l -> exists i, index x l = Some i /\ (i < length l)%nat.
Proof.
  induction l as [|y l IH]; intros Hx; [by apply elem_of_nil in Hx|]. simpl.
  destruct (decide (y = x)) as [->|Hne].
  - exists 0%nat. split; [done | lia].
  - apply elem_of_cons in Hx as [->|Hx]; [done|].
    destruct (IH Hx) as (i & -> & Hi). exists (S i). split; [done | lia].
Qed.

Lemma append_if_length b v fv :
  exists fv', append_if b (Some v) fv = Some fv' /\
              length fv' = (length fv + b2n b 1)%nat.
Proof.
  destruct b; simpl; eexists; (split; [reflexivity|]).
  - by rewrite length_app.
  - lia.
Qed.

Lemma extend_if_length b l fv :
  exists fv', extend_if b (Some l) fv = Some fv' /\
              length fv' = (length fv + b2n b (length l))%nat.
Proof.
  destruct b; simpl; eexists; (split; [reflexivity|]).
  - by rewrite length_app.
  - lia.
Qed.

Lemma base_parts_dimensions e key :
  block_lengths e ->
  key ∈ PyDict.keys BASE_LABELS ->
  exists block, PyDict.get key (base_parts e) = Some block /\
                PyDict.get key BASE_DIMENSIONS = Some (length block).
Proof.
  intros (HD & HH & HHc & HND & HP & HMF & HTF & HIT & HNIT & HIF & HRF & HER & HPR & HMS) Hkey.
  apply list_elem_of_In in Hkey. cbn in Hkey.
  repeat (destruct Hkey as [<-|Hkey];
          [eexists; split; [reflexivity|]; cbn [e_D];
           first [by rewrite HD | by rewrite HH | by rewrite HHc | by rewrite HND
                 | by rewrite HP | by rewrite HMF | by rewrite HTF | by rewrite HIT
                 | by rewrite HNIT | by rewrite HIF | by rewrite HRF | by rewrite HER
                 | by rewrite HPR | by rewrite HMS]|]).
  destruct Hkey.
Qed.

Lemma blockvals_dimensions e k a b :
  block_lengths e ->
  (k, (a, b)) ∈ INTERACTION_PAIRS ->
  exists A B, PyDict.get a (blockvals e) = Some A /\ PyDict.get b (blockvals e) = Some B /\
              PyDict.get a BASE_DIMENSIONS = Some (length A) /\
              PyDict.get b BASE_DIMENSIONS = Some (length B).
Proof.
  intros (HD & HH & HHc & HND & HP & HMF & HTF & HIT & HNIT & HIF & HRF & HER & HPR & HMS) Hk.
  apply list_elem_of_In in Hk. cbn in Hk.
  repeat (destruct Hk as [[= <- <- <-]|Hk];
          [eexists _, _; split; [reflexivity|]; split; [reflexivity|];
           rewrite ?HD, ?HH, ?HP, ?HMF, ?HTF, ?HIT, ?HIF, ?HRF; by split|]).
  destruct Hk.
Qed.

(** C7. For every flag table and every valid input, the feature builder
    returns a vector and the dimension function returns its length: the
    dimensionality is fixed by the schema alone. *)
Theorem feature_vector_length (features : list (string * bool)) (i : fv_input) :
  valid_input i ->
  exists fv n,
    get_intervention_feature_vector features i = Some fv /\
    get_dim_intervention_feature_vector features true = Some n /\
    length fv = n.
Proof.
  intros Hvalid. destruct (get_encodings_total i Hvalid) as (e & He).
  pose proof (get_encodings_lengths i e He) as Hlen.
  unfold get_intervention_feature_vector, get_dim_intervention_feature_vector.
  rewrite He. cbn [mbind option_bind].
  unfold extend_base, extend_pairs.
  destruct (extend_base_over_length (PyDict.keys BASE_LABELS) features (base_parts e) [1%Q])
    as (fv1 & -> & Hd1).
  { intros key Hkey. by apply base_parts_dimensions. }
  change (length [1%Q]) with 1%nat in Hd1. rewrite Hd1. cbn [mbind option_bind].
  pose proof Hlen as (HD & HH & _ & _ & _ & HMF & HTF & HIT & HNIT & HIF & HRF & _).
  destruct (split_pairs_Some _ HTF) as (TF_past & TF_sched & ->).
  destruct (split_pairs_Some _ HRF) as (RF_past & RF_sched & ->).
  destruct (split_pairs_Some _ HIF) as (IF_past & IF_sched & ->).
  cbn [mbind option_bind].
  destruct (lookup_lt_is_Some_2 (e_MF e) 0) as (m & ->); [lia|].
  destruct (lookup_lt_is_Some_2 (e_NIT e) 0) as (nit & ->); [lia|].
  cbn [mbind option_bind].
  destruct (append_if_length (flag features "MF_x_TF_sched") (m * TF_sched)%Q fv1)
    as (fv2 & -> & H2). cbn [mbind option_bind].
  destruct (append_if_length (flag features "MF_x_RF_sched") (m * RF_sched)%Q fv2)
    as (fv3 & -> & H3). cbn [mbind option_bind].
  destruct (append_if_length (flag features "MF_x_IF_sched") (m * IF_sched)%Q fv3)
    as (fv4 & -> & H4). cbn [mbind option_bind].
  destruct (append_if_length (flag features "NIT_x_IF_sched") (nit * IF_sched)%Q fv4)
    as (fv5 & -> & H5). cbn [mbind option_bind].
  assert (Hage : exists age_c, _get_age_centered (e_D e) = Some age_c).
  { unfold _get_age_centered.
    change (PyDict.get "D" BASE_LABELS) with (Some get_personal_data_labels).
    cbn [mbind option_bind].
    change (index "userAge" get_personal_data_labels) with (Some 1%nat).
    cbn [mbind option_bind].
    destruct (lookup_lt_is_Some_2 (e_D e) 1) as (x & ->); [lia|]. by eexists. }
  destruct Hage as (age_c & ->). cbn [mbind option_bind].
  destruct (append_if_length (flag features "AGEc_x_RF_sched") (age_c * RF_sched)%Q fv5)
    as (fv6 & -> & H6). cbn [mbind option_bind].
  destruct (extend_if_length (flag features "AGEc_x_IT")
              (map (fun w => (age_c * w)%Q) (e_IT e)) fv6) as (fv7 & -> & H7).
  cbn [mbind option_bind].
  assert (Hhhs : exists h, _get_hhs_current_centered (e_H e) (pillar i) = Some h).
  { unfold _get_hhs_current_centered. destruct Hvalid as (Hp & _).
    destruct (index_Some_lt _ _ Hp) as (idx & -> & Hidx). cbn [mbind option_bind].
    change (length PILLARS) with 5%nat in Hidx.
    destruct (lookup_lt_is_Some_2 (e_H e) idx) as (x & ->); [lia|]. by eexists. }
  destruct Hhhs as (h & ->). cbn [mbind option_bind].
  destruct (append_if_length (flag features "HHS_c_x_RF_sched") (h * RF_sched)%Q fv7)
    as (fv8 & -> & H8). cbn [mbind option_bind].
  destruct (extend_if_length (flag features "HHS_c_x_IT")
              (map (fun w => (h * w)%Q) (e_IT e)) fv8) as (fv9 & -> & H9).
  cbn [mbind option_bind].
  destruct (extend_pairs_over_length INTERACTION_PAIRS features (blockvals e) fv9)
    as (fv10 & -> & Hd10).
  { intros k a b Hk. by apply (blockvals_dimensions e k). }
  rewrite length_map, HIT in H7, H9.
  change (length INTERVENTION_TYPES) with 8%nat.
  replace (length fv1 + b2n (flag features "MF_x_TF_sched") 1
           + b2n (flag features "MF_x_RF_sched") 1
           + b2n (flag features "MF_x_IF_sched") 1
           + b2n (flag features "NIT_x_IF_sched") 1
           + b2n (flag features "AGEc_x_RF_sched") 1
           + b2n (flag features "AGEc_x_IT") 8
           + b2n (flag features "HHS_c_x_RF_sched") 1
           + b2n (flag features "HHS_c_x_IT") 8)%nat with (length fv9) by lia.
  rewrite Hd10. by eexists _, _.
Qed.

Lemma valid_example_input :
  valid_input
    {| personal_data := [("gender", PStr "male"); ("userAge", PNum 60%Q)];
       hhs := [("smoking", 40%Q)]; num_intervention_days := Some 10%Z;
       pillar := "smoking"; mission_frequency := 3%Q;
       total_frequency_past_week := 2%Q; total_frequency_scheduled := 1%Q;
       intervention := Some ["Education"; "Training"];
       intervention_frequency_past_week := 1%Q;
       intervention_frequency_scheduled := (1 # 2)%Q;
       recommendation_frequency_past_week := 1%Q;
       recommendation_frequency_scheduled := 0%Q;
       er_past_value := None; prompted := false; prev_mission_score := 0%Q |}.
Proof.
  split_and!; simpl.
  - apply (bool_decide_unpack _). exact I.
  - intros x Hx. apply list_elem_of_In in Hx. simpl in Hx.
    destruct Hx as [<-|[<-|[]]]; apply (bool_decide_unpack _); exact I.
  - reflexivity.
Defined.

Lemma feature_vector_length_witness :
  exists fv n,
    get_intervention_feature_vector INTERVENTION_MAB_FEATURES
      {| personal_data := [("gender", PStr "male"); ("userAge", PNum 60%Q)];
         hhs := [("smoking", 40%Q)]; num_intervention_days := Some 10%Z;
         pillar := "smoking"; mission_frequency := 3%Q;
         total_frequency_past_week := 2%Q; total_frequency_scheduled := 1%Q;
         intervention := Some ["Education"; "Training"];
         intervention_frequency_past_week := 1%Q;
         intervention_frequency_scheduled := (1 # 2)%Q;
         recommendation_frequency_past_week := 1%Q;
         recommendation_frequency_scheduled := 0%Q;
         er_past_value := None; prompted := false; prev_mission_score := 0%Q |} = Some fv /\
    get_dim_intervention_feature_vector INTERVENTION_MAB_FEATURES true = Some n /\
    length fv = n.
Proof. exact (feature_vector_length INTERVENTION_MAB_FEATURES _ valid_example_input). Defined.

(** With the configured flags the vector has 45 components. *)
Example configured_dimension :
  get_dim_intervention_feature_vector INTERVENTION_MAB_FEATURES true = Some 45%nat.
Proof. reflexivity. Qed.

(** *** The frequency blocks are clipped scales *)

(** [enc] is the one-component encoding of [x] on the scale from [lo] to
    [hi]: within [[0, 1]], 0 up to [lo], 1 from [hi] on, linear in between. *)
Definition clipped_scale (lo hi x : Q) (enc : option (list Q)) : Prop :=
  exists v, enc = Some [v] /\ (0 <= v)%Q /\ (v <= 1)%Q /\
            ((x <= lo)%Q -> (v == 0)%Q) /\
            ((hi <= x)%Q -> (v == 1)%Q) /\
            ((lo <= x)%Q -> (x <= hi)%Q -> (v == (x - lo) / (hi - lo))%Q).

Lemma encode_frequency_clipped (x lo hi : Q) :
  (lo < hi)%Q -> clipped_scale lo hi x (encode_frequency x 1 lo hi).
Proof.
  intros Hlt. unfold clipped_scale, encode_frequency. cbn [seq mapM].
  change (Z.of_nat 1) with 1%Z. cbn [Qpower Qpower_positive pow_pos].
  assert (Hpos : (0 < hi - lo)%Q) by (apply Qlt_minus_iff in Hlt; exact Hlt).
  destruct (Qeq_bool (hi - lo) 0) eqn:Hden.
  { apply Qeq_bool_iff in Hden. rewrite Hden in Hpos. by apply Qlt_irrefl in Hpos. }
  cbn. eexists. split; [reflexivity|].
  set (v := Qmax lo (Qmin hi x)).
  assert (Hlo : (lo <= v)%Q) by apply Q.le_max_l.
  assert (Hhi : (v <= hi)%Q).
  { apply Q.max_lub; [by apply Qlt_le_weak | apply Q.le_min_l]. }
  split_and!.
  - apply Qle_shift_div_l; [done|]. rewrite Qmult_0_l.
    apply Qle_minus_iff in Hlo. exact Hlo.
  - apply Qle_shift_div_r; [done|]. rewrite Qmult_1_l.
    apply Qplus_le_l with (z := lo). ring_simplify. exact Hhi.
  - intros Hx. assert (Hv : (v == lo)%Q).
    { unfold v. apply Q.max_l. eapply Qle_trans; [apply Q.le_min_r | done]. }
    rewrite Hv. unfold Qdiv. ring.
  - intros Hx. assert (Hv : (v == hi)%Q).
    { unfold v. rewrite (Q.min_l hi x) by done. apply Q.max_r. by apply Qlt_le_weak. }
    rewrite Hv. apply Qmult_inv_r. intros H0. rewrite H0 in Hpos. by apply Qlt_irrefl in Hpos.
  - intros Hx1 Hx2. assert (Hv : (v == x)%Q).
    { unfold v. rewrite (Q.min_r hi x) by done. by apply Q.max_r. }
    by rewrite Hv.
Qed.

(** X8. The four frequency encoders return one component in [[0, 1]]
    whatever the count: 0 up to the lower bound, 1 from the cap on (10 past
    and 9 scheduled for the total and the per-type frequency, 3 and 2 for
    the same-item frequency, 1 to 7 for the mission frequency), linear in
    between; no count makes them raise. *)
Theorem frequency_encodings_clipped (x : Q) :
  clipped_scale 1 7 x (get_mission_frequency_encoding x) /\
  clipped_scale 0 10 x (get_total_frequency_encoding x false) /\
  clipped_scale 0 9 x (get_total_frequency_encoding x true) /\
  clipped_scale 0 10 x (get_intervention_frequency_encoding x false) /\
  clipped_scale 0 9 x (get_intervention_frequency_encoding x true) /\
  clipped_scale 0 3 x (get_recommendation_frequency_encoding x false) /\
  clipped_scale 0 2 x (get_recommendation_frequency_encoding x true).
Proof.
  split_and!; by apply encode_frequency_clipped.
Qed.

(** *** The pillar of a content *)

(** [get_pillar] ([utils/get_pillar.py]): by [id.startswith]. *)
Definition get_pillar (id : string) : option string :=
  if String.prefix "A" id then Some "alcohol"
  else if String.prefix "N" id then Some "nutrition"
  else if String.prefix "P" id then Some "physical_activity"
  else if String.prefix "S" id then Some "smoking"
  else if String.prefix "E" id then Some "emotional_wellbeing"
  else None.

(** X9. [get_pillar_encoding] raises exactly on a string that is no pillar;
    on a pillar it returns four components, each 0 or 1, all zero for the
    left-out pillar "smoking" and with a single 1 for any other pillar. *)
Theorem pillar_encoding_one_hot (p : string) :
  (p ∉ PILLARS -> get_pillar_encoding p = None) /\
  (p ∈ PILLARS ->
   exists v, get_pillar_encoding p = Some v /\ length v = 4%nat /\
             Forall (fun q => q = 0%Q \/ q = 1%Q) v /\
             sumQ v = if decide (p = "smoking") then 0%Q else 1%Q).
Proof.
  unfold get_pillar_encoding, mem. split.
  - intros Hn. by rewrite bool_decide_eq_false_2.
  - intros Hin. rewrite bool_decide_eq_true_2 by done. eexists. split; [reflexivity|].
    unfold PILLARS in Hin.
    repeat (apply elem_of_cons in Hin as [->|Hin]);
      [..|by apply elem_of_nil in Hin];
      (split_and!; [reflexivity | repeat constructor; by (left + right) | reflexivity]).
Qed.

(** X10. [get_pillar] raises exactly on an id that starts with none of
    the letters A, N, P, S, E (the empty id included); whenever it returns,
    its result is one of [PILLARS], so [get_pillar_encoding] returns on it. *)
Theorem get_pillar_is_pillar (id : string) :
  match get_pillar id with
  | Some p => p ∈ PILLARS /\ is_Some (get_pillar_encoding p) /\
              exists letter, letter ∈ ["A"; "N"; "P"; "S"; "E"] /\
                             String.prefix letter id = true
  | None => forall letter, letter ∈ ["A"; "N"; "P"; "S"; "E"] ->
                           String.prefix letter id = false
  end.
Proof.
  unfold get_pillar.
  destruct (String.prefix "A" id) eqn:HA;
    [split_and!; [set_solver | by eexists | exists "A"; split; [set_solver | done]]|].
  destruct (String.prefix "N" id) eqn:HN;
    [split_and!; [set_solver | by eexists | exists "N"; split; [set_solver | done]]|].
  destruct (String.prefix "P" id) eqn:HP;
    [split_and!; [set_solver | by eexists | exists "P"; split; [set_solver | done]]|].
  destruct (String.prefix "S" id) eqn:HS;
    [split_and!; [set_solver | by eexists | exists "S"; split; [set_solver | done]]|].
  destruct (String.prefix "E" id) eqn:HE;
    [split_and!; [set_solver | by eexists | exists "E"; split; [set_solver | done]]|].
  intros letter Hin. repeat (apply elem_of_cons in Hin as [->|Hin]); try done.
  by apply elem_of_nil in Hin.
Qed.

(** *** Labels and dimension *)

(** [for key in keys: if flag: labs.extend(BASE_LABELS[key])] *)
Definition labels_base_over (keys : list string) (features : list (string * bool))
    (labs : list string) : option (list string) :=
  foldl (fun acc key =>
           labs ← acc;
           if flag features key then l ← PyDict.get key BASE_LABELS; Some (labs ++ l)
           else Some labs)
        (Some labs) keys.

(** [[f"{la}_{lb}" for la in BASE_LABELS[a] for lb in BASE_LABELS[b]]] *)
Definition product_labels (A B : list string) : list string :=
  concat (map (fun la => map (fun lb => la +:+ "_" +:+ lb) B) A).

Definition labels_pairs_over (pairs : list (string * (string * string)))
    (features : list (string * bool)) (labs : list string) : option (list string) :=
  foldl (fun acc '(inter_key, (a, b)) =>
           labs ← acc;
           if flag features inter_key
           then A ← PyDict.get a BASE_LABELS; B ← PyDict.get b BASE_LABELS;
                Some (labs ++ product_labels A B)
           else Some labs)
        (Some labs) pairs.

(** [if flag: labs.append(x)] / [labs.extend(xs)] *)
Definition labels_if (b : bool) (xs : list string) (labs : list string) : list string :=
  if b then labs ++ xs else labs.

(** [get_intervention_feature_vector_labels], with the flag table as an
    argument. *)
Definition get_intervention_feature_vector_labels (features : list (string * bool))
    : option (list string) :=
  labs ← labels_base_over (PyDict.keys BASE_LABELS) features ["bias"];
  let labs := labels_if (flag features "MF_x_TF_sched") ["MF_x_TF_sched"] labs in
  let labs := labels_if (flag features "MF_x_RF_sched") ["MF_x_RF_sched"] labs in
  let labs := labels_if (flag features "MF_x_IF_sched") ["MF_x_IF_sched"] labs in
  let labs := labels_if (flag features "NIT_x_IF_sched") ["NIT_x_IF_sched"] labs in
  let labs := labels_if (flag features "AGEc_x_RF_sched") ["AGEc_x_RF_sched"] labs in
  let labs := labels_if (flag features "AGEc_x_IT")
                (map (fun t => "AGEc_x_IT_" +:+ t) INTERVENTION_TYPES) labs in
  let labs := labels_if (flag features "HHS_c_x_RF_sched") ["HHS_c_x_RF_sched"] labs in
  let labs := labels_if (flag features "HHS_c_x_IT")
                (map (fun t => "HHS_c_x_IT_" +:+ t) INTERVENTION_TYPES) labs in
  labels_pairs_over INTERACTION_PAIRS features labs.

Lemma base_dimension_lookup (key : string) :
  PyDict.get key BASE_DIMENSIONS = length <$> PyDict.get key BASE_LABELS.
Proof.
  unfold BASE_DIMENSIONS. induction BASE_LABELS as [|[k v] l IH]; simpl; [done|].
  destruct (decide (k = key)); [done | exact IH].
Qed.

Lemma labels_base_over_dim keys features : forall (labs : option (list string)),
  length <$> foldl (fun acc key =>
                      labs ← acc;
                      if flag features key
                      then l ← PyDict.get key BASE_LABELS; Some (labs ++ l)
                      else Some labs) labs keys
  = foldl (fun acc key =>
             dim ← acc;
             if flag features key
             then d ← PyDict.get key BASE_DIMENSIONS; Some (dim + d)%nat
             else Some dim) (length <$> labs) keys.
Proof.
  induction keys as [|key keys IH]; intros labs; cbn [foldl]; [done|].
  rewrite IH. f_equal. destruct labs as [labs|]; cbn -[BASE_LABELS BASE_DIMENSIONS PyDict.get]; [|done].
  destruct (flag features key); [|done]. rewrite base_dimension_lookup.
  destruct (PyDict.get key BASE_LABELS) as [l|]; cbn -[BASE_LABELS]; [|done]. by rewrite length_app.
Qed.

Lemma product_labels_length (A B : list string) :
  length (product_labels A B) = (length A * length B)%nat.
Proof.
  unfold product_labels. induction A as [|x A IH]; simpl; [done|].
  by rewrite length_app, length_map, IH.
Qed.

Lemma labels_pairs_over_dim pairs features : forall (labs : option (list string)),
  length <$> foldl (fun acc '(inter_key, (a, b)) =>
                      labs ← acc;
                      if flag features inter_key
                      then A ← PyDict.get a BASE_LABELS; B ← PyDict.get b BASE_LABELS;
                           Some (labs ++ product_labels A B)
                      else Some labs) labs pairs
  = foldl (fun acc '(inter_key, (a, b)) =>
             dim ← acc;
             if flag features inter_key
             then da ← PyDict.get a BASE_DIMENSIONS; db ← PyDict.get b BASE_DIMENSIONS;
                  Some (dim + da * db)%nat
             else Some dim) (length <$> labs) pairs.
Proof.
  induction pairs as [|[key [a b]] pairs IH]; intros labs; cbn [foldl]; [done|].
  rewrite IH. f_equal. destruct labs as [labs|]; cbn -[BASE_LABELS BASE_DIMENSIONS PyDict.get]; [|done].
  destruct (flag features key); [|done]. rewrite !base_dimension_lookup.
  destruct (PyDict.get a BASE_LABELS) as [A|]; cbn -[BASE_LABELS PyDict.get]; [|done].
  destruct (PyDict.get b BASE_LABELS) as [B|]; cbn -[BASE_LABELS PyDict.get]; [|done].
  by rewrite length_app, product_labels_length.
Qed.

Lemma labels_if_length b xs labs :
  length (labels_if b xs labs) = (length labs + b2n b (length xs))%nat.
Proof. destruct b; simpl; [by rewrite length_app | lia]. Qed.

(** X11. Labels and dimension agree: for every table of feature flags,
    [get_intervention_feature_vector_labels] returns as many labels as
    [get_dim_intervention_feature_vector(include_bias=True)] counts
    components, and one raises ([KeyError] on a block name) exactly when the
    other does. *)
Theorem labels_match_dimension (features : list (string * bool)) :
  length <$> get_intervention_feature_vector_labels features
  = get_dim_intervention_feature_vector features true.
Proof.
  unfold get_intervention_feature_vector_labels, get_dim_intervention_feature_vector,
    labels_base_over, dim_base_over, labels_pairs_over, dim_pairs_over.
  pose proof (labels_base_over_dim (PyDict.keys BASE_LABELS) features (Some ["bias"]))
    as Hbase.
  change (length <$> Some ["bias"]) with (Some 1%nat) in Hbase. rewrite <- Hbase.
  destruct (foldl _ (Some ["bias"]) (PyDict.keys BASE_LABELS)) as [labs|];
    cbn [fmap option_fmap option_map mbind option_bind]; [|done].
  rewrite labels_pairs_over_dim. cbn [fmap option_fmap option_map].
  by rewrite !labels_if_length, !length_map.
Qed.
End Encoding.

(** ** [cs_module/utils/recommendation_history_tracker.py] *)
Module HistoryTracker.

(** An entry of [history]: the tuple
    [(timestamp, notification_id, rec_id, mix, mission_id)]. *)
Record entry := Entry {
  sent_ts : Z;
  notification_id : string;
  rec_id : string;
  mix : list Q;
  mission_id : option string
}.

Section Order.
(** [x < y] on two such tuples (Python compares them component by
    component). *)
Variable entry_lt : entry -> entry -> bool.

(** The loop of [bisect_right]: [while lo < hi: mid = (lo + hi) // 2;
    if x < a[mid]: hi = mid else: lo = mid + 1]. Every turn brings [lo] and
    [hi] closer, so [hi - lo] turns are enough. *)
Fixpoint bisect_loop (turns : nat) (x : entry) (a : list entry) (lo hi : nat) : nat :=
  match turns with
  | 0%nat => lo
  | S turns' =>
      if (lo <? hi)%nat then
        let mid := ((lo + hi) / 2)%nat in
        match a !! mid with
        | Some y =>
            if entry_lt x y then bisect_loop turns' x a lo mid
            else bisect_loop turns' x a (S mid) hi
        | None => lo
        end
      else lo
  end.

Definition bisect_right (x : entry) (a : list entry) : nat :=
  bisect_loop (length a) x a 0 (length a).

(** [insort(a, x)]: [a.insert(bisect_right(a, x), x)]. *)
Definition insort (a : list entry) (x : entry) : list entry :=
  take (bisect_right x a) a ++ x :: drop (bisect_right x a) a.

(** [add_recommendation]; [None] when [get_intervention_encoding] raises. *)
Definition add_recommendation (history : list entry) (timestamp : Z)
    (nid rid : string) (intervention_type : option (list string)) (mid : option string)
    : option (list entry) :=
  m ← Encoding.get_intervention_encoding intervention_type;
  Some (insort history
          {| sent_ts := timestamp; notification_id := nid; rec_id := rid; mix := m;
             mission_id := mid |}).
End Order.

(** The condition of [get_count] on one entry. *)
Definition counted (time_window : option (Z * Z)) (rid : option string)
    (single_intv : option Q) (x : entry) : bool :=
  match time_window with
  | None => true
  | Some (t0, t1) => (t0 <=? sent_ts x)%Z && (sent_ts x <? t1)%Z
  end
  && match rid with
     | None => true
     | Some r => bool_decide (rec_id x = r)
     end
  && match single_intv with
     | None => true
     | Some w => existsb (Qeq_bool w) (mix x)
     end.

(** [get_count] *)
Definition get_count (history : list entry) (time_window : option (Z * Z))
    (rid : option string) (single_intv : option Q) : nat :=
  length (filter (fun x => Is_true (counted time_window rid single_intv x)) history).

Lemma midpoint_between (lo hi : nat) :
  (lo < hi)%nat -> (lo <= (lo + hi) / 2 < hi)%nat.
Proof.
  intros Hlt. pose proof (Nat.div_mod_eq (lo + hi) 2) as Hd.
  pose proof (Nat.mod_upper_bound (lo + hi) 2). lia.
Qed.

Lemma bisect_loop_bounds entry_lt x a : forall turns lo hi,
  (lo <= hi)%nat -> (lo <= bisect_loop entry_lt turns x a lo hi <= hi)%nat.
Proof.
  induction turns as [|turns IH]; intros lo hi Hb; cbn [bisect_loop]; [lia|].
  destruct (lo <? hi)%nat eqn:Hlt; [|lia]. apply Nat.ltb_lt in Hlt.
  pose proof (midpoint_between lo hi Hlt) as Hmid.
  destruct (a !! ((lo + hi) / 2)%nat) as [y|]; [|lia].
  destruct (entry_lt x y).
  - specialize (IH lo ((lo + hi) / 2)%nat). lia.
  - specialize (IH (S ((lo + hi) / 2)) hi). lia.
Qed.

(** [hi - lo] turns are enough: more turns give the same index. *)
Lemma bisect_loop_turns entry_lt x a : forall turns turns' lo hi,
  (hi - lo <= turns)%nat -> (hi - lo <= turns')%nat ->
  bisect_loop entry_lt turns x a lo hi = bisect_loop entry_lt turns' x a lo hi.
Proof.
  induction turns as [|turns IH]; intros turns' lo hi Ht Ht'.
  - destruct turns' as [|turns']; cbn [bisect_loop]; [done|].
    by rewrite (proj2 (Nat.ltb_ge lo hi)) by lia.
  - destruct turns' as [|turns']; cbn [bisect_loop].
    + by rewrite (proj2 (Nat.ltb_ge lo hi)) by lia.
    + destruct (lo <? hi)%nat eqn:Hlt; [|done]. apply Nat.ltb_lt in Hlt.
      pose proof (midpoint_between lo hi Hlt) as Hmid.
      destruct (a !! ((lo + hi) / 2)%nat) as [y|]; [|done].
      destruct (entry_lt x y); apply IH; lia.
Qed.

Lemma insort_Permutation entry_lt a x : Permutation (insort entry_lt a x) (x :: a).
Proof.
  unfold insort. rewrite <- Permutation_middle. constructor.
  by rewrite take_drop.
Qed.

Lemma count_insert (P : entry -> Prop) `{!forall x, Decision (P x)} (i : nat)
    (a : list entry) (x : entry) :
  length (filter P (take i a ++ x :: drop i a))
  = (length (filter P a) + if decide (P x) then 1 else 0)%nat.
Proof.
  rewrite <- (take_drop i a) at 3. rewrite !filter_app, filter_cons, !length_app.
  destruct (decide (P x)); simpl; lia.
Qed.

(** X26. [add_recommendation] raises exactly when the intervention types
    are not all recognized, and then stores nothing. Otherwise the new
    history holds the former entries and the new one, nothing else, so every
    [get_count] grows by one when the new entry meets its filters and is
    unchanged when it does not, however the tuples compare. *)
Theorem add_recommendation_counts (entry_lt : entry -> entry -> bool)
    (history : list entry) (timestamp : Z) (nid rid : string)
    (intervention_type : option (list string)) (mid : option string) :
  match add_recommendation entry_lt history timestamp nid rid intervention_type mid with
  | None => Encoding.get_intervention_encoding intervention_type = None
  | Some history' =>
      exists m,
        Encoding.get_intervention_encoding intervention_type = Some m /\
        Permutation history'
          ({| sent_ts := timestamp; notification_id := nid; rec_id := rid; mix := m;
              mission_id := mid |} :: history) /\
        forall time_window r w,
          get_count history' time_window r w
          = (get_count history time_window r w
             + if counted time_window r w
                    {| sent_ts := timestamp; notification_id := nid; rec_id := rid;
                       mix := m; mission_id := mid |}
               then 1 else 0)%nat
  end.
Proof.
  unfold add_recommendation.
  destruct (Encoding.get_intervention_encoding intervention_type) as [m|]; [|done].
  simpl. exists m. split_and!; [done | apply insort_Permutation |].
  intros tw r w. unfold get_count, insort. rewrite count_insert.
  f_equal. by destruct (counted tw r w _).
Qed.

(** *** The history stays in order *)

(** No entry stands before a smaller one. *)
Definition sorted (entry_lt : entry -> entry -> bool) (a : list entry) : Prop :=
  forall i j x y, (i < j)%nat -> a !! i = Some x -> a !! j = Some y -> entry_lt y x = false.

Section Sorted.
Variable entry_lt : entry -> entry -> bool.
Hypothesis lt_asym : forall x y, entry_lt x y = true -> entry_lt y x = false.
Hypothesis lt_between : forall x y z,
  entry_lt x z = true -> entry_lt x y = true \/ entry_lt y z = true.

Lemma bisect_loop_spec x a : sorted entry_lt a -> forall turns lo hi,
  (hi - lo <= turns)%nat -> (lo <= hi <= length a)%nat ->
  (forall j y, (j < lo)%nat -> a !! j = Some y -> entry_lt x y = false) ->
  (forall j y, (hi <= j)%nat -> a !! j = Some y -> entry_lt x y = true) ->
  (forall j y, (j < bisect_loop entry_lt turns x a lo hi)%nat -> a !! j = Some y ->
               entry_lt x y = false) /\
  (forall j y, (bisect_loop entry_lt turns x a lo hi <= j)%nat -> a !! j = Some y ->
               entry_lt x y = true).
Proof using lt_between.
  intros Hs. induction turns as [|turns IH]; intros lo hi Hturns Hb Hlo Hhi;
    cbn [bisect_loop].
  - split; [done|]. intros j y Hj. apply Hhi. lia.
  - destruct (lo <? hi)%nat eqn:Hlt.
    2:{ apply Nat.ltb_ge in Hlt. split; [done|]. intros j y Hj. apply Hhi. lia. }
    apply Nat.ltb_lt in Hlt. pose proof (midpoint_between lo hi Hlt) as Hmid.
    set (mid := ((lo + hi) / 2)%nat) in *.
    destruct (a !! mid) as [y|] eqn:Hy.
    2:{ apply lookup_ge_None in Hy. lia. }
    destruct (entry_lt x y) eqn:Hxy.
    + apply IH; [lia | lia | done |].
      intros j z Hj Hz. destruct (decide (j = mid)) as [->|Hne]; [congruence|].
      destruct (lt_between x z y Hxy) as [Hxz|Hzy]; [done|].
      rewrite (Hs mid j y z) in Hzy; [done | lia | done | done].
    + apply IH; [lia | lia | | done].
      intros j z Hj Hz. destruct (decide (j = mid)) as [->|Hne]; [congruence|].
      destruct (entry_lt x z) eqn:Hxz; [|done].
      destruct (lt_between x y z Hxz) as [Hxy'|Hyz]; [congruence|].
      rewrite (Hs j mid z y) in Hyz; [done | lia | done | done].
Qed.

Lemma bisect_right_spec x a : sorted entry_lt a ->
  (bisect_right entry_lt x a <= length a)%nat /\
  (forall j y, (j < bisect_right entry_lt x a)%nat -> a !! j = Some y ->
               entry_lt x y = false) /\
  (forall j y, (bisect_right entry_lt x a <= j)%nat -> a !! j = Some y ->
               entry_lt x y = true).
Proof using lt_between.
  intros Hs. unfold bisect_right. split.
  - pose proof (bisect_loop_bounds entry_lt x a (length a) 0 (length a)). lia.
  - apply bisect_loop_spec; [done | lia | lia | intros; lia |].
    intros j y Hj Hy. apply lookup_lt_Some in Hy. lia.
Qed.

Lemma insert_lookup (i : nat) (a : list entry) (x : entry) (j : nat) :
  (i <= length a)%nat ->
  (take i a ++ x :: drop i a) !! j
  = if (j <? i)%nat then a !! j else if (j =? i)%nat then Some x else a !! (j - 1)%nat.
Proof.
  intros Hi. destruct (j <? i)%nat eqn:Hlt.
  - apply Nat.ltb_lt in Hlt. rewrite lookup_app_l by (rewrite length_take; lia).
    by rewrite lookup_take_lt.
  - apply Nat.ltb_ge in Hlt. rewrite lookup_app_r by (rewrite length_take; lia).
    rewrite length_take, Nat.min_l by done.
    destruct (j =? i)%nat eqn:Heq.
    + apply Nat.eqb_eq in Heq as ->. by rewrite Nat.sub_diag.
    + apply Nat.eqb_neq in Heq. destruct (j - i)%nat as [|k] eqn:Hk; [lia|].
      simpl. rewrite lookup_drop. f_equal. lia.
Qed.

Lemma insort_sorted a x : sorted entry_lt a -> sorted entry_lt (insort entry_lt a x).
Proof using lt_asym lt_between.
  intros Hs. destruct (bisect_right_spec x a Hs) as (Hlen & Hbefore & Hafter).
  unfold insort. set (i := bisect_right entry_lt x a) in *.
  intros j1 j2 u v Hj. rewrite !insert_lookup by done.
  destruct (Nat.ltb_spec j1 i) as [H1|H1], (Nat.ltb_spec j2 i) as [H2|H2]; try lia.
  - intros Hu Hv. by apply (Hs j1 j2 u v).
  - intros Hu. destruct (j2 =? i)%nat eqn:E2.
    + intros [= <-]. by apply (Hbefore j1 u).
    + apply Nat.eqb_neq in E2. intros Hv. apply (Hs j1 (j2 - 1)%nat u v); [lia | done | done].
  - destruct (j1 =? i)%nat eqn:E1.
    + apply Nat.eqb_eq in E1 as ->. rewrite (proj2 (Nat.eqb_neq j2 i)) by lia.
      intros [= <-] Hv. apply lt_asym. apply (Hafter (j2 - 1)%nat v); [lia | done].
    + apply Nat.eqb_neq in E1. rewrite (proj2 (Nat.eqb_neq j2 i)) by lia.
      intros Hu Hv. apply (Hs (j1 - 1)%nat (j2 - 1)%nat u v); [lia | done | done].
Qed.

(** X27. When the tuple comparison is a strict order in which "neither is
    smaller" is transitive, and the history is in order, [add_recommendation]
    leaves it in order, the new entry standing behind the entries that are
    not greater; and as tuples compare their instants first, the entries
    stay in the order of their instants. *)
Theorem add_recommendation_sorted (history history' : list entry) (timestamp : Z)
    (nid rid : string) (intervention_type : option (list string)) (mid : option string) :
  (forall x y, (sent_ts x < sent_ts y)%Z -> entry_lt x y = true) ->
  sorted entry_lt history ->
  add_recommendation entry_lt history timestamp nid rid intervention_type mid
  = Some history' ->
  sorted entry_lt history' /\
  (forall i j x y, (i < j)%nat -> history' !! i = Some x -> history' !! j = Some y ->
                   (sent_ts x <= sent_ts y)%Z) /\
  exists m i,
    history' !! i = Some {| sent_ts := timestamp; notification_id := nid; rec_id := rid;
                            mix := m; mission_id := mid |} /\
    history' = take i history ++ {| sent_ts := timestamp; notification_id := nid;
                                    rec_id := rid; mix := m; mission_id := mid |}
                 :: drop i history /\
    (forall y, y ∈ take i history ->
       entry_lt {| sent_ts := timestamp; notification_id := nid; rec_id := rid;
                   mix := m; mission_id := mid |} y = false) /\
    (forall y, y ∈ drop i history ->
       entry_lt {| sent_ts := timestamp; notification_id := nid; rec_id := rid;
                   mix := m; mission_id := mid |} y = true).
Proof using lt_asym lt_between.
  intros Hts Hs. unfold add_recommendation.
  destruct (Encoding.get_intervention_encoding intervention_type) as [m|]; [|done].
  simpl. intros [= <-].
  set (x := {| sent_ts := timestamp; notification_id := nid; rec_id := rid; mix := m;
               mission_id := mid |}).
  pose proof (insort_sorted history x Hs) as Hs'.
  destruct (bisect_right_spec x history Hs) as (Hlen & Hbefore & Hafter).
  split_and!; [done | |].
  - intros i j u v Hij Hu Hv. pose proof (Hs' i j u v Hij Hu Hv) as Hn.
    destruct (decide (sent_ts v < sent_ts u)%Z) as [Hlt|]; [|lia].
    rewrite (Hts v u Hlt) in Hn. done.
  - exists m, (bisect_right entry_lt x history). split_and!.
    + unfold insort. rewrite insert_lookup by done.
      by rewrite Nat.ltb_irrefl, Nat.eqb_refl.
    + done.
    + intros y Hy. apply list_elem_of_lookup in Hy as [j Hj].
      pose proof (lookup_lt_Some _ _ _ Hj) as Hlt. rewrite length_take in Hlt.
      rewrite lookup_take_lt in Hj by lia. apply (Hbefore j y); [lia | done].
    + intros y Hy. apply list_elem_of_lookup in Hy as [j Hj].
      rewrite lookup_drop in Hj. apply (Hafter _ y) in Hj; [done | lia].
Qed.
End Sorted.
(** Entries compared by their instant alone, and a history of two sends. *)
Definition by_instant (x y : entry) : bool := (sent_ts x <? sent_ts y)%Z.

Definition example_sent : list entry :=
  [{| sent_ts := 10; notification_id := "n1"; rec_id := "SRc1";
      mix := [1%Q; 0%Q; 0%Q; 0%Q; 0%Q; 0%Q; 0%Q; 0%Q]; mission_id := Some "SM1" |};
   {| sent_ts := 30; notification_id := "n2"; rec_id := "SRc2";
      mix := [0%Q; 0%Q; 0%Q; 0%Q; 0%Q; 1%Q; 0%Q; 0%Q]; mission_id := Some "SM1" |}].

Lemma by_instant_asym x y : by_instant x y = true -> by_instant y x = false.
Proof. unfold by_instant. intros H. apply Z.ltb_lt in H. apply Z.ltb_ge. lia. Qed.

Lemma by_instant_between x y z :
  by_instant x z = true -> by_instant x y = true \/ by_instant y z = true.
Proof.
  unfold by_instant. intros H. apply Z.ltb_lt in H.
  destruct (Z.ltb_spec (sent_ts x) (sent_ts y)) as [|Hge]; [by left|].
  right. apply Z.ltb_lt. lia.
Qed.

Lemma by_instant_first x y : (sent_ts x < sent_ts y)%Z -> by_instant x y = true.
Proof. intros H. by apply Z.ltb_lt. Qed.

Lemma example_sent_sorted : sorted by_instant example_sent.
Proof.
  intros i j x y Hij Hi Hj. destruct i as [|[|i]], j as [|[|j]]; try lia; try done.
  injection Hi as <-. injection Hj as <-. reflexivity.
Qed.

Lemma add_recommendation_sorted_witness :
  exists history',
    add_recommendation by_instant example_sent 20 "n3" "SRc4"
      (Some ["Education"; "Training"]) (Some "SM1") = Some history' /\
    sorted by_instant history' /\
    (forall i j x y, (i < j)%nat -> history' !! i = Some x -> history' !! j = Some y ->
                     (sent_ts x <= sent_ts y)%Z).
Proof.
  eexists. split; [reflexivity|].
  pose proof (add_recommendation_sorted by_instant by_instant_asym by_instant_between
                example_sent _ 20 "n3" "SRc4" (Some ["Education"; "Training"]) (Some "SM1")
                by_instant_first example_sent_sorted eq_refl) as (Hs & Ht & _).
  exact (conj Hs Ht).
Defined.

(** The new entry goes between the two. *)
Example example_sent_instants :
  map sent_ts <$> add_recommendation by_instant example_sent 20 "n3" "SRc4"
                    (Some ["Education"; "Training"]) (Some "SM1")
  = Some [10%Z; 20%Z; 30%Z].
Proof. reflexivity. Qed.
End HistoryTracker.

(** ** [cs_module/content_selection/user.py] and [user_manager.py] *)
Module UserState.

(** A mission-selection record (a dict of the update payload). *)
Record mission := Mission {
  mission_id : string;
  recommendations : list string;
  resources : list string;
  prescribed : bool;
  selection_timestamp : option string;
  plan_required : bool
}.

Definition set_plan_required (b : bool) (m : mission) : mission :=
  {| mission_id := mission_id m; recommendations := recommendations m;
     resources := resources m; prescribed := prescribed m;
     selection_timestamp := selection_timestamp m; plan_required := b |}.

(** The fields of the [User] dataclass that the modelled operations touch. *)
Record user := User {
  user_id : string;
  intervention_start_date : option Z;
  personal_data : list (string * Encoding.pd_value);
  active : bool;
  missions_started : bool;
  new_plan_required : bool;
  selected_missions_and_contents : list mission;
  only_one_rec_already : list string;
  eow_rec_id_to_fv : list (string * option (list Q));
  previous_mission_score : option Q
}.

(** [User(user_id=..., personal_data=..., intervention_start_date=...)] *)
Definition new_user (uid : string) (data : list (string * Encoding.pd_value))
    (start : option Z) : user :=
  {| user_id := uid; intervention_start_date := start; personal_data := data;
     active := true; missions_started := false; new_plan_required := false;
     selected_missions_and_contents := []; only_one_rec_already := [];
     eow_rec_id_to_fv := []; previous_mission_score := Some 0%Q |}.

(** How a call ended. *)
Inductive outcome := Returned | Raised.

(** [l.remove(x)]: drops the first occurrence. *)
Fixpoint list_remove (x : string) (l : list string) : list string :=
  match l with
  | [] => []
  | y :: l' => if decide (y = x) then l' else y :: list_remove x l'
  end.

Definition disable (u : user) : user :=
  {| user_id := user_id u; intervention_start_date := intervention_start_date u;
     personal_data := personal_data u; active := false;
     missions_started := missions_started u; new_plan_required := new_plan_required u;
     selected_missions_and_contents := selected_missions_and_contents u;
     only_one_rec_already := only_one_rec_already u;
     eow_rec_id_to_fv := eow_rec_id_to_fv u;
     previous_mission_score := previous_mission_score u |}.

(** [self.personal_data["level"] = level] *)
Definition update_escalation_level (u : user) (level : Q) : user :=
  {| user_id := user_id u; intervention_start_date := intervention_start_date u;
     personal_data := PyDict.set "level" (Encoding.PNum level) (personal_data u);
     active := active u;
     missions_started := missions_started u; new_plan_required := new_plan_required u;
     selected_missions_and_contents := selected_missions_and_contents u;
     only_one_rec_already := only_one_rec_already u;
     eow_rec_id_to_fv := eow_rec_id_to_fv u;
     previous_mission_score := previous_mission_score u |}.

Definition set_previous_mission_score (u : user) (score : option Q) : user :=
  {| user_id := user_id u; intervention_start_date := intervention_start_date u;
     personal_data := personal_data u; active := active u;
     missions_started := missions_started u; new_plan_required := new_plan_required u;
     selected_missions_and_contents := selected_missions_and_contents u;
     only_one_rec_already := only_one_rec_already u;
     eow_rec_id_to_fv := eow_rec_id_to_fv u;
     previous_mission_score := score |}.

Definition set_missions_plan_to_false (u : user) (mission_ids : list string) : user :=
  {| user_id := user_id u; intervention_start_date := intervention_start_date u;
     personal_data := personal_data u; active := active u;
     missions_started := missions_started u; new_plan_required := new_plan_required u;
     selected_missions_and_contents :=
       map (fun m => if bool_decide (mission_id m ∈ mission_ids)
                     then set_plan_required false m else m)
           (selected_missions_and_contents u);
     only_one_rec_already := only_one_rec_already u;
     eow_rec_id_to_fv := eow_rec_id_to_fv u;
     previous_mission_score := previous_mission_score u |}.

Definition get_new_missions (u : user) : list mission :=
  filter (fun m => Is_true (plan_required m)) (selected_missions_and_contents u).

Section Time.
(** [time_handler.parse_client_ts] (an ISO-8601 parser that raises on a
    malformed or naive string) and [time_handler.now]; instants are
    integers. *)
Variable parse_client_ts : string -> option Z.
Variable now : Z.

(** The body of the [for mission in new_missions] loop of
    [update_missions_and_contents]: the record is appended with
    [plan_required = True]; the first mission ever selected fixes
    [intervention_start_date], and [missions_started] is set before its
    timestamp is parsed. *)
Definition select_mission (u : user) (m : mission) : user * outcome :=
  let missions := selected_missions_and_contents u ++ [set_plan_required true m] in
  if missions_started u then
    ({| user_id := user_id u; intervention_start_date := intervention_start_date u;
        personal_data := personal_data u; active := active u;
        missions_started := true; new_plan_required := new_plan_required u;
        selected_missions_and_contents := missions;
        only_one_rec_already := only_one_rec_already u;
        eow_rec_id_to_fv := eow_rec_id_to_fv u;
        previous_mission_score := previous_mission_score u |}, Returned)
  else
    match selection_timestamp m ≫= parse_client_ts with
    | Some ts =>
        ({| user_id := user_id u; intervention_start_date := Some ts;
            personal_data := personal_data u; active := active u;
            missions_started := true; new_plan_required := new_plan_required u;
            selected_missions_and_contents := missions;
            only_one_rec_already := only_one_rec_already u;
            eow_rec_id_to_fv := eow_rec_id_to_fv u;
            previous_mission_score := previous_mission_score u |}, Returned)
    | None =>
        ({| user_id := user_id u; intervention_start_date := intervention_start_date u;
            personal_data := personal_data u; active := active u;
            missions_started := true; new_plan_required := new_plan_required u;
            selected_missions_and_contents := missions;
            only_one_rec_already := only_one_rec_already u;
            eow_rec_id_to_fv := eow_rec_id_to_fv u;
            previous_mission_score := previous_mission_score u |}, Raised)
    end.

Fixpoint select_missions (u : user) (new_missions : list mission) : user * outcome :=
  match new_missions with
  | [] => (u, Returned)
  | m :: rest =>
      match select_mission u m with
      | (u', Returned) => select_missions u' rest
      | (u', Raised) => (u', Raised)
      end
  end.

(** [User.update_missions_and_contents] *)
Definition update_missions_and_contents (u : user) (new_missions : list mission)
    : user * outcome :=
  match select_missions u new_missions with
  | (u', Returned) =>
      ({| user_id := user_id u'; intervention_start_date := intervention_start_date u';
          personal_data := personal_data u'; active := active u';
          missions_started := missions_started u'; new_plan_required := true;
          selected_missions_and_contents := selected_missions_and_contents u';
          only_one_rec_already := only_one_rec_already u';
          eow_rec_id_to_fv := eow_rec_id_to_fv u';
          previous_mission_score := previous_mission_score u' |}, Returned)
  | r => r
  end.

(** *** [UserManager] *)

Record manager := Manager {
  users : gmap string user;
  active_user_ids : list string
}.

Definition empty_manager : manager := {| users := ∅; active_user_ids := [] |}.

(** One iteration of [add_users]: the record of [user_id] is created or
    replaced by a fresh [User] whose [intervention_start_date] is the parsed
    enrolment date (or [now] when it does not parse). *)
Definition add_user (um : manager) (uid : string) (data : list (string * Encoding.pd_value))
    : manager :=
  let enrol_dt :=
    match PyDict.get "enrolmentDate" data with
    | Some (Encoding.PStr s) => default now (parse_client_ts s)
    | _ => now
    end in
  {| users := <[uid := new_user uid data (Some enrol_dt)]> (users um);
     active_user_ids :=
       if bool_decide (uid ∈ active_user_ids um) then active_user_ids um
       else active_user_ids um ++ [uid] |}.

Definition add_users (um : manager)
    (new_users : list (string * list (string * Encoding.pd_value))) : manager :=
  foldl (fun um '(uid, data) => add_user um uid data) um new_users.

(** [apply_mission_selected]: an unknown user is skipped with a warning. *)
Definition apply_mission_selected (um : manager) (uid : string) (m : mission)
    : manager * outcome :=
  match users um !! uid with
  | None => (um, Returned)
  | Some u =>
      let '(u', out) := update_missions_and_contents u [m] in
      ({| users := <[uid := u']> (users um); active_user_ids := active_user_ids um |}, out)
  end.

Definition apply_mission_accomplished (um : manager) (uid : string) (score : option Q)
    : manager :=
  match users um !! uid with
  | None => um
  | Some u =>
      {| users := <[uid := set_previous_mission_score u score]> (users um);
         active_user_ids := active_user_ids um |}
  end.

(** [disable_users] *)
Definition disable_users (um : manager) (disabled : list string) : manager :=
  foldl (fun um uid =>
           if bool_decide (uid ∈ active_user_ids um) then
             {| users := alter disable uid (users um);
                active_user_ids := list_remove uid (active_user_ids um) |}
           else um)
        um disabled.

(** *** The operations that act on one user record *)

Inductive user_op :=
| MissionsSelected (ms : list mission)
| MissionAccomplished (score : option Q)
| Disabled
| EscalationLevel (level : Q)
| PlansToFalse (ids : list string).

Definition apply_op (u : user) (op : user_op) : user * outcome :=
  match op with
  | MissionsSelected ms => update_missions_and_contents u ms
  | MissionAccomplished score => (set_previous_mission_score u score, Returned)
  | Disabled => (disable u, Returned)
  | EscalationLevel level => (update_escalation_level u level, Returned)
  | PlansToFalse ids => (set_missions_plan_to_false u ids, Returned)
  end.

Fixpoint run_ops (u : user) (ops : list user_op) : user * outcome :=
  match ops with
  | [] => (u, Returned)
  | op :: rest =>
      match apply_op u op with
      | (u', Returned) => run_ops u' rest
      | (u', Raised) => (u', Raised)
      end
  end.

Lemma select_missions_started u ms :
  missions_started u = true ->
  exists u', select_missions u ms = (u', Returned) /\
             missions_started u' = true /\
             intervention_start_date u' = intervention_start_date u.
Proof.
  revert u. induction ms as [|m ms IH]; intros u Hs; simpl; [eauto|].
  unfold select_mission. rewrite Hs.
  destruct (IH {| user_id := user_id u; intervention_start_date := intervention_start_date u;
                  personal_data := personal_data u; active := active u;
                  missions_started := true; new_plan_required := new_plan_required u;
                  selected_missions_and_contents :=
                    selected_missions_and_contents u ++ [set_plan_required true m];
                  only_one_rec_already := only_one_rec_already u;
                  eow_rec_id_to_fv := eow_rec_id_to_fv u;
                  previous_mission_score := previous_mission_score u |} eq_refl)
    as (u' & Hu' & Hs' & Hd'). eauto.
Qed.

Lemma apply_op_started u op :
  missions_started u = true ->
  exists u', apply_op u op = (u', Returned) /\
             missions_started u' = true /\
             intervention_start_date u' = intervention_start_date u.
Proof.
  intros Hs. destruct op as [ms| | | |]; simpl; eauto.
  unfold update_missions_and_contents.
  destruct (select_missions_started u ms Hs) as (u' & -> & Hs' & Hd'). eauto.
Qed.

Lemma run_ops_started ops : forall u,
  missions_started u = true ->
  exists u', run_ops u ops = (u', Returned) /\
             missions_started u' = true /\
             intervention_start_date u' = intervention_start_date u.
Proof.
  induction ops as [|op ops IH]; intros u Hs; simpl; [eauto|].
  destruct (apply_op_started u op Hs) as (u1 & -> & Hs1 & Hd1).
  destruct (IH u1 Hs1) as (u2 & -> & Hs2 & Hd2). exists u2. split_and!; congruence.
Qed.

(** C8 (as the code has it). On a user record whose missions have not
    started, the first mission selection with a parseable timestamp sets
    [intervention_start_date] to that timestamp; afterwards no operation on
    the record (later mission selections, accomplishments, disabling,
    escalation, plan flags) changes it. A user who appears again in the
    new-user records gets a fresh record: [intervention_start_date] is reset
    to the enrolment date and [missions_started] to false. *)
Theorem intervention_start_set_once :
  (forall u m ms t ops,
      missions_started u = false ->
      selection_timestamp m ≫= parse_client_ts = Some t ->
      exists u1 u2,
        update_missions_and_contents u (m :: ms) = (u1, Returned) /\
        intervention_start_date u1 = Some t /\
        run_ops u1 ops = (u2, Returned) /\
        intervention_start_date u2 = Some t) /\
  (forall um uid data,
      users (add_user um uid data) !! uid =
      Some (new_user uid data
              (Some match PyDict.get "enrolmentDate" data with
                    | Some (Encoding.PStr s) => default now (parse_client_ts s)
                    | _ => now
                    end))).
Proof.
  split.
  - intros u m ms t ops Hs Ht.
    unfold update_missions_and_contents. cbn [select_missions].
    unfold select_mission. rewrite Hs, Ht.
    match goal with
    | |- context [select_missions ?u0 ms] =>
        destruct (select_missions_started u0 ms eq_refl) as (u1 & -> & Hs1 & Hd1)
    end.
    cbn [intervention_start_date] in Hd1.
    match goal with
    | |- context [(?u0, Returned) = _] =>
        destruct (run_ops_started ops u0 Hs1) as (u2 & Hr & _ & Hd2)
    end.
    eexists _, u2. split; [reflexivity|]. cbn [intervention_start_date] in *.
    split_and!; congruence.
  - intros um uid data. unfold add_user; simpl. by rewrite lookup_insert_eq.
Qed.
End Time.

(** *** A run in which a user is registered twice *)

(** The parser on the two timestamps of the example (seconds since the epoch). *)
Definition example_parse (s : string) : option Z :=
  if decide (s = "2025-01-01T00:00:00Z") then Some 1735689600%Z
  else if decide (s = "2025-02-01T00:00:00Z") then Some 1738368000%Z
  else None.

Definition example_profile : list (string * Encoding.pd_value) :=
  [("enrolmentDate", Encoding.PStr "2025-01-01T00:00:00Z")].

Definition example_mission : mission :=
  {| mission_id := "SM1"; recommendations := ["SRc1"; "SRc2"]; resources := [];
     prescribed := false; selection_timestamp := Some "2025-02-01T00:00:00Z";
     plan_required := false |}.

Definition enrolled : manager :=
  add_users example_parse 0 empty_manager [("u1", example_profile)].

Definition selected : manager :=
  fst (apply_mission_selected example_parse enrolled "u1" example_mission).

Definition enrolled_again : manager :=
  add_users example_parse 0 selected [("u1", example_profile)].

Lemma intervention_start_set_once_witness :
  exists u1 u2,
    update_missions_and_contents example_parse
      (new_user "u1" example_profile (Some 1735689600%Z)) [example_mission]
      = (u1, Returned) /\
    intervention_start_date u1 = Some 1738368000%Z /\
    run_ops example_parse u1
      [MissionsSelected [set_plan_required false example_mission];
       MissionAccomplished (Some 1%Q); Disabled] = (u2, Returned) /\
    intervention_start_date u2 = Some 1738368000%Z.
Proof.
  destruct (intervention_start_set_once example_parse 0) as [H _].
  apply (H (new_user "u1" example_profile (Some 1735689600%Z)) example_mission []
           1738368000%Z); reflexivity.
Defined.

(** The first mission selection fixed the start at 2025-02-01; when the same
    user arrives again with the new users, the start is back at the
    enrolment date 2025-01-01 and the missions count as not started. *)
Lemma readded_user_loses_start_date :
  intervention_start_date <$> users selected !! "u1" = Some (Some 1738368000%Z) /\
  missions_started <$> users selected !! "u1" = Some true /\
  intervention_start_date <$> users enrolled_again !! "u1" = Some (Some 1735689600%Z) /\
  missions_started <$> users enrolled_again !! "u1" = Some false.
Proof. repeat split; reflexivity. Qed.

(** *** The plan flags *)

Lemma get_new_missions_cleared (u : user) (ids : list string) :
  get_new_missions (set_missions_plan_to_false u ids)
  = filter (fun m => mission_id m ∉ ids) (get_new_missions u).
Proof.
  unfold get_new_missions, set_missions_plan_to_false; simpl.
  induction (selected_missions_and_contents u) as [|m l IH]; [done|].
  simpl. case_bool_decide as Hin.
  - rewrite (filter_cons _ (set_plan_required false m)), decide_False by (by intros ?).
    rewrite IH. rewrite (filter_cons (fun m => Is_true (plan_required m))).
    destruct (decide (Is_true (plan_required m))); [|done].
    rewrite filter_cons. by rewrite decide_False by (by intros ?).
  - rewrite !(filter_cons (fun m => Is_true (plan_required m))).
    destruct (decide (Is_true (plan_required m))); [|done].
    rewrite filter_cons, decide_True by done. by rewrite IH.
Qed.

(** X12. [set_missions_plan_to_false] clears the plan flag of exactly the
    records whose mission id is listed: afterwards [get_new_missions] holds
    the missions that were waiting for a plan and are not listed, in the same
    order, and no record is added, dropped or changed otherwise. *)
Theorem plan_flags_cleared (u : user) (ids : list string) :
  get_new_missions (set_missions_plan_to_false u ids)
  = filter (fun m => mission_id m ∉ ids) (get_new_missions u) /\
  map (set_plan_required false)
      (selected_missions_and_contents (set_missions_plan_to_false u ids))
  = map (set_plan_required false) (selected_missions_and_contents u) /\
  (forall m, m ∈ selected_missions_and_contents u -> mission_id m ∉ ids ->
             m ∈ selected_missions_and_contents (set_missions_plan_to_false u ids)).
Proof.
  split; [apply get_new_missions_cleared|].
  unfold set_missions_plan_to_false; simpl.
  induction (selected_missions_and_contents u) as [|m l (IH2 & IH3)]; [done|].
  simpl. split.
  - rewrite IH2. by destruct (bool_decide _).
  - intros m' Hm' Hnot. apply elem_of_cons in Hm' as [->|Hm'].
    + rewrite bool_decide_eq_false_2 by done. left.
    + right. by apply IH3.
Qed.

Section Missions.
Variable parse_client_ts : string -> option Z.

Lemma select_missions_returned ms : forall u u',
  select_missions parse_client_ts u ms = (u', Returned) ->
  selected_missions_and_contents u'
  = selected_missions_and_contents u ++ map (set_plan_required true) ms /\
  new_plan_required u' = new_plan_required u /\
  (ms ≠ [] -> missions_started u' = true) /\
  active u' = active u /\ personal_data u' = personal_data u /\
  only_one_rec_already u' = only_one_rec_already u /\
  eow_rec_id_to_fv u' = eow_rec_id_to_fv u /\
  previous_mission_score u' = previous_mission_score u /\ user_id u' = user_id u.
Proof.
  induction ms as [|m ms IH]; intros u u'; simpl.
  - intros [= <-]. rewrite app_nil_r. by split_and!.
  - destruct (select_mission parse_client_ts u m) as [u1 [|]] eqn:Hsel; [|done].
    intros Hrest. destruct (IH _ _ Hrest) as (H1 & H2 & H3 & H4 & H5 & H6 & H7 & H8 & H9).
    assert (Hu1 : selected_missions_and_contents u1
                  = selected_missions_and_contents u ++ [set_plan_required true m] /\
                  missions_started u1 = true /\
                  new_plan_required u1 = new_plan_required u /\
                  active u1 = active u /\ personal_data u1 = personal_data u /\
                  only_one_rec_already u1 = only_one_rec_already u /\
                  eow_rec_id_to_fv u1 = eow_rec_id_to_fv u /\
                  previous_mission_score u1 = previous_mission_score u /\
                  user_id u1 = user_id u).
    { unfold select_mission in Hsel. destruct (missions_started u).
      - by injection Hsel as <-.
      - destruct (selection_timestamp m ≫= parse_client_ts); [|done].
        by injection Hsel as <-. }
    destruct Hu1 as (G1 & G2 & G3 & G4 & G5 & G6 & G7 & G8 & G9).
    split_and!; try congruence.
    + rewrite H1, G1, <- app_assoc. done.
    + intros _. destruct ms as [|m' ms']; [|by apply H3].
      simpl in Hrest. by injection Hrest as <-.
Qed.

(** X13. When [update_missions_and_contents] returns, the new missions
    stand at the end of the user's records, in the order of the payload and
    each waiting for a plan, the earlier records are as they were, a new plan
    is required, and nothing else of the user (activity, personal data, the
    once-only list, the cached vectors, the score) has changed. *)
Theorem missions_appended (u u' : user) (ms : list mission) :
  update_missions_and_contents parse_client_ts u ms = (u', Returned) ->
  selected_missions_and_contents u'
  = selected_missions_and_contents u ++ map (set_plan_required true) ms /\
  get_new_missions u' = get_new_missions u ++ map (set_plan_required true) ms /\
  new_plan_required u' = true /\
  active u' = active u /\ personal_data u' = personal_data u /\
  only_one_rec_already u' = only_one_rec_already u /\
  eow_rec_id_to_fv u' = eow_rec_id_to_fv u /\
  previous_mission_score u' = previous_mission_score u.
Proof.
  unfold update_missions_and_contents.
  destruct (select_missions parse_client_ts u ms) as [u1 [|]] eqn:Hsel; [|done].
  intros [= <-]. simpl.
  destruct (select_missions_returned _ _ _ Hsel) as (H1 & H2 & H3 & H4 & H5 & H6 & H7 & H8 & _).
  split_and!; try done.
  unfold get_new_missions. simpl. rewrite H1, filter_app. f_equal.
  induction ms as [|m ms' IH]; [done|]. clear -ms'. simpl.
  rewrite filter_cons, decide_True by done. f_equal.
  induction ms' as [|m' ms'' IH]; [done|]. simpl.
  rewrite filter_cons, decide_True by done. by f_equal.
Qed.

(** X14. A first mission whose selection timestamp does not parse makes
    [update_missions_and_contents] raise after the mission was recorded and
    [missions_started] was set: the start date stays the enrolment date, the
    rest of the payload is not recorded and no plan is requested; since
    [missions_started] is now set, no later call parses a timestamp, so every
    later call returns and the start date is never replaced. *)
Theorem unparsable_first_mission (u : user) (m : mission) (ms later : list mission) :
  missions_started u = false ->
  selection_timestamp m ≫= parse_client_ts = None ->
  exists u1 u2,
    update_missions_and_contents parse_client_ts u (m :: ms) = (u1, Raised) /\
    selected_missions_and_contents u1
    = selected_missions_and_contents u ++ [set_plan_required true m] /\
    missions_started u1 = true /\
    new_plan_required u1 = new_plan_required u /\
    intervention_start_date u1 = intervention_start_date u /\
    update_missions_and_contents parse_client_ts u1 later = (u2, Returned) /\
    intervention_start_date u2 = intervention_start_date u.
Proof.
  intros Hs Hts. unfold update_missions_and_contents at 1. cbn [select_missions].
  unfold select_mission. rewrite Hs, Hts.
  match goal with
  | |- context [(?u0, Raised) = _] =>
      destruct (select_missions_started parse_client_ts u0 later eq_refl)
        as (u2 & Hu2 & _ & Hd2);
      exists u0
  end.
  eexists. split; [reflexivity|]. cbn in Hd2 |- *.
  do 4 (split; [done|]).
  unfold update_missions_and_contents. rewrite Hu2. split; [reflexivity|]. exact Hd2.
Qed.

(** *** [mission_snapshot_at] *)

(** The loop of [mission_snapshot_at]: the record kept so far and its
    instant. *)
Definition snapshot_step (mid : string) (ts : Z) (best : option (mission * Z))
    (rec : mission) : option (mission * Z) :=
  if bool_decide (mission_id rec ≠ mid) then best
  else
    match selection_timestamp rec ≫= parse_client_ts with
    | None => best
    | Some sel_ts =>
        if bool_decide (sel_ts <= ts)%Z
           && match best with
              | None => true
              | Some (_, best_sel) => bool_decide (best_sel < sel_ts)%Z
              end
        then Some (rec, sel_ts)
        else best
    end.

(** [mission_snapshot_at]: the record found and its selection instant (the
    dict returned holds the record, its [prescribed] flag and that instant). *)
Definition mission_snapshot_at (u : user) (mid : string) (ts : Z) : option (mission * Z) :=
  foldl (snapshot_step mid ts) None (selected_missions_and_contents u).

(** [rec] is a selection of mission [mid] made at [t], not after [ts]. *)
Definition selected_at (mid : string) (ts : Z) (rec : mission) (t : Z) : Prop :=
  mission_id rec = mid /\ selection_timestamp rec ≫= parse_client_ts = Some t /\ (t <= ts)%Z.

Lemma snapshot_fold mid ts l : forall best,
  (forall r t, best = Some (r, t) -> selected_at mid ts r t) ->
  let res := foldl (snapshot_step mid ts) best l in
  (forall r t, res = Some (r, t) ->
     selected_at mid ts r t /\ (r ∈ l \/ best = Some (r, t)) /\
     (forall r' t', r' ∈ l -> selected_at mid ts r' t' -> (t' <= t)%Z) /\
     (forall r0 t0, best = Some (r0, t0) -> (t0 <= t)%Z)) /\
  (res = None -> best = None /\ forall r' t', r' ∈ l -> ~ selected_at mid ts r' t').
Proof.
  induction l as [|x l IH]; intros best Hbest; simpl.
  - split.
    + intros r t ->. split_and!; [by apply Hbest | by right | | ].
      * intros r' t' Hin. by apply elem_of_nil in Hin.
      * intros r0 t0 [= <- <-]. lia.
    + intros ->. split; [done|]. intros r' t' Hin. by apply elem_of_nil in Hin.
  - set (b1 := snapshot_step mid ts best x).
    assert (Hb1 : forall r t, b1 = Some (r, t) -> selected_at mid ts r t).
    { intros r t. unfold b1, snapshot_step.
      destruct (bool_decide (mission_id x ≠ mid)) eqn:Hm; [apply Hbest|].
      apply bool_decide_eq_false in Hm. apply dec_stable in Hm.
      destruct (selection_timestamp x ≫= parse_client_ts) as [sel|] eqn:Hsel; [|apply Hbest].
      destruct (bool_decide (sel <= ts)%Z) eqn:Hle; simpl; [|apply Hbest].
      apply bool_decide_eq_true in Hle.
      destruct best as [[rb tb]|]; [destruct (bool_decide (tb < sel)%Z)|];
        try apply Hbest; by intros [= <- <-]. }
    assert (Hstep : (forall r0 t0, best = Some (r0, t0) ->
                       exists r1 t1, b1 = Some (r1, t1) /\ (t0 <= t1)%Z) /\
                    (forall t', selected_at mid ts x t' ->
                       exists r1 t1, b1 = Some (r1, t1) /\ (t' <= t1)%Z) /\
                    (forall r1 t1, b1 = Some (r1, t1) -> r1 = x \/ best = Some (r1, t1))).
    { unfold b1, snapshot_step. split_and!.
      - intros r0 t0 ->.
        destruct (bool_decide (mission_id x ≠ mid)); [exists r0, t0; split; [done | lia]|].
        destruct (selection_timestamp x ≫= parse_client_ts) as [sel|];
          [|exists r0, t0; split; [done | lia]].
        destruct (bool_decide (sel <= ts)%Z); simpl; [|exists r0, t0; split; [done | lia]].
        destruct (bool_decide (t0 < sel)%Z) eqn:Hlt.
        + apply bool_decide_eq_true in Hlt. exists x, sel. split; [done | lia].
        + exists r0, t0. split; [done | lia].
      - intros t' (Hm & Hsel & Hle).
        rewrite bool_decide_eq_false_2 by (by intros ?). rewrite Hsel.
        rewrite (bool_decide_eq_true_2 (t' <= ts)%Z) by done. simpl.
        destruct best as [[rb tb]|]; [|exists x, t'; split; [done | lia]].
        destruct (bool_decide (tb < t')%Z) eqn:Hlt.
        + exists x, t'. split; [done | lia].
        + apply bool_decide_eq_false in Hlt. exists rb, tb. split; [done | lia].
      - intros r1 t1.
        destruct (bool_decide (mission_id x ≠ mid)); [by right|].
        destruct (selection_timestamp x ≫= parse_client_ts) as [sel|]; [|by right].
        destruct (bool_decide (sel <= ts)%Z); simpl; [|by right].
        destruct best as [[rb tb]|]; [destruct (bool_decide (tb < sel)%Z)|];
          try (by right); intros [= <- <-]; by left. }
    destruct Hstep as (Hmono & Hx & Hfrom).
    destruct (IH b1 Hb1) as [IHsome IHnone]. split.
    + intros r t Hres. destruct (IHsome r t Hres) as (Hsel & Hin & Hmax & Hb).
      split_and!; [done | | |].
      * destruct Hin as [Hin|Hin]; [left; by right|].
        destruct (Hfrom r t Hin) as [->|?]; [left; left | by right].
      * intros r' t' Hin' Hsel'. apply elem_of_cons in Hin' as [->|Hin'];
          [|by eapply Hmax].
        destruct (Hx t' Hsel') as (r1 & t1 & Hr1 & Hle). specialize (Hb r1 t1 Hr1). lia.
      * intros r0 t0 Hr0. destruct (Hmono r0 t0 Hr0) as (r1 & t1 & Hr1 & Hle).
        specialize (Hb r1 t1 Hr1). lia.
    + intros Hres. destruct (IHnone Hres) as [Hb1n Hnone].
      assert (Hbn : best = None).
      { destruct best as [[rb tb]|]; [|done].
        destruct (Hmono rb tb eq_refl) as (r1 & t1 & Hr1 & _). congruence. }
      split; [done|]. intros r' t' Hin Hsel. apply elem_of_cons in Hin as [->|Hin].
      * destruct (Hx t' Hsel) as (r1 & t1 & Hr1 & _). congruence.
      * by eapply Hnone.
Qed.

(** X15. [mission_snapshot_at] returns the most recent selection of the
    mission made at or before the given instant: a record of the user for
    that mission whose timestamp parses to an instant not after it, and no
    other such record is later; it returns nothing exactly when the user has
    no such record (records whose timestamp does not parse are skipped). *)
Theorem mission_snapshot_most_recent (u : user) (mid : string) (ts : Z) :
  match mission_snapshot_at u mid ts with
  | Some (r, t) =>
      r ∈ selected_missions_and_contents u /\ selected_at mid ts r t /\
      forall r' t', r' ∈ selected_missions_and_contents u ->
                    selected_at mid ts r' t' -> (t' <= t)%Z
  | None =>
      forall r' t', r' ∈ selected_missions_and_contents u -> ~ selected_at mid ts r' t'
  end.
Proof.
  unfold mission_snapshot_at.
  destruct (snapshot_fold mid ts (selected_missions_and_contents u) None) as [Hsome Hnone];
    [done|].
  destruct (foldl _ None _) as [[r t]|].
  - destruct (Hsome r t eq_refl) as (Hsel & [Hin|?] & Hmax & _); [|done]. by split_and!.
  - by destruct (Hnone eq_refl).
Qed.
End Missions.

Lemma missions_appended_witness :
  exists u',
    update_missions_and_contents example_parse
      (new_user "u1" example_profile (Some 1735689600%Z))
      [example_mission; example_mission] = (u', Returned) /\
    get_new_missions u'
    = [set_plan_required true example_mission; set_plan_required true example_mission] /\
    new_plan_required u' = true.
Proof.
  eexists. split; [reflexivity|].
  match goal with
  | |- context [get_new_missions ?u'] =>
      destruct (missions_appended example_parse
                  (new_user "u1" example_profile (Some 1735689600%Z)) u'
                  [example_mission; example_mission] eq_refl) as (_ & H2 & H3 & _)
  end.
  split; [exact H2 | exact H3].
Defined.

(** A mission whose selection timestamp is not an ISO-8601 string. *)
Definition example_undated_mission : mission :=
  {| mission_id := "SM2"; recommendations := ["SRc3"]; resources := [];
     prescribed := false; selection_timestamp := Some "yesterday";
     plan_required := false |}.

Lemma unparsable_first_mission_witness :
  exists u1 u2,
    update_missions_and_contents example_parse
      (new_user "u1" example_profile (Some 1735689600%Z))
      [example_undated_mission; example_mission] = (u1, Raised) /\
    selected_missions_and_contents u1 = [set_plan_required true example_undated_mission] /\
    missions_started u1 = true /\
    new_plan_required u1 = false /\
    intervention_start_date u1 = Some 1735689600%Z /\
    update_missions_and_contents example_parse u1 [example_mission] = (u2, Returned) /\
    intervention_start_date u2 = Some 1735689600%Z.
Proof.
  exact (unparsable_first_mission example_parse
           (new_user "u1" example_profile (Some 1735689600%Z))
           example_undated_mission [example_mission] [example_mission] eq_refl eq_refl).
Defined.

(** *** The invariant of [UserManager] *)

(** The calls that change a [UserManager]. *)
Inductive manager_op :=
| OpAddUsers (new_users : list (string * list (string * Encoding.pd_value)))
| OpDisableUsers (disabled : list string)
| OpMissionSelected (uid : string) (m : mission)
| OpMissionAccomplished (uid : string) (score : option Q).

(** The active ids are listed once each, they are the ids of the records
    whose [active] flag is set, and every record is stored under its own id. *)
Definition consistent (um : manager) : Prop :=
  NoDup (active_user_ids um) /\
  (forall uid, uid ∈ active_user_ids um <->
               exists u, users um !! uid = Some u /\ active u = true) /\
  (forall uid u, users um !! uid = Some u -> user_id u = uid).

Lemma list_remove_filter x l :
  NoDup l -> list_remove x l = filter (fun y => y ≠ x) l.
Proof.
  induction 1 as [|y l Hy Hl IH]; [done|]. simpl.
  rewrite filter_cons. destruct (decide (y = x)) as [->|Hne].
  - rewrite decide_False by (by intros ?). clear IH Hl.
    induction l as [|z l IH]; [done|].
    rewrite filter_cons, decide_True.
    + f_equal. apply IH. intros Hin. apply Hy. by right.
    + intros ->. apply Hy. left.
  - rewrite decide_True by done. by rewrite IH.
Qed.

Lemma consistent_empty : consistent empty_manager.
Proof.
  split_and!.
  - apply NoDup_nil_2.
  - intros uid. split.
    + intros Hin. by apply elem_of_nil in Hin.
    + intros (u & Hu & _). simpl in Hu. by rewrite lookup_empty in Hu.
  - intros uid u Hu. simpl in Hu. by rewrite lookup_empty in Hu.
Qed.

(** One iteration of the loop of [disable_users]. *)
Definition disable_user (um : manager) (uid : string) : manager :=
  if bool_decide (uid ∈ active_user_ids um) then
    {| users := alter disable uid (users um);
       active_user_ids := list_remove uid (active_user_ids um) |}
  else um.

Lemma disable_users_fold um disabled :
  disable_users um disabled = foldl disable_user um disabled.
Proof. done. Qed.

Lemma consistent_disable_user um uid :
  consistent um -> consistent (disable_user um uid).
Proof.
  intros (Hnd & Hact & Hid). unfold disable_user. case_bool_decide as Hin; [|done].
  split_and!; simpl.
  - rewrite list_remove_filter by done. by apply NoDup_filter.
  - intros uid'. rewrite list_remove_filter by done. rewrite list_elem_of_filter.
    destruct (decide (uid' = uid)) as [->|Hne].
    + rewrite lookup_alter_eq. split; [by intros [? _]|].
      intros (u & Hu & Ha). destruct (users um !! uid); [|done].
      simpl in Hu. injection Hu as <-. done.
    + rewrite lookup_alter_ne by done. rewrite <- Hact.
      split; [by intros [_ ?] | by split].
  - intros uid' u. destruct (decide (uid' = uid)) as [->|Hne].
    + rewrite lookup_alter_eq. destruct (users um !! uid) as [u0|] eqn:Hu0; [|done].
      simpl. intros [= <-]. simpl. by apply Hid.
    + rewrite lookup_alter_ne by done. apply Hid.
Qed.

Lemma consistent_disable_users disabled : forall um,
  consistent um -> consistent (disable_users um disabled).
Proof.
  intros um. rewrite disable_users_fold. revert um.
  induction disabled as [|uid l IH]; intros um Hc; [done|].
  simpl. apply IH. by apply consistent_disable_user.
Qed.

Lemma consistent_replace um uid u u' :
  consistent um -> users um !! uid = Some u ->
  active u' = active u -> user_id u' = user_id u ->
  consistent {| users := <[uid := u']> (users um); active_user_ids := active_user_ids um |}.
Proof.
  intros (Hnd & Hact & Hid) Hu Ha Hi. split_and!; simpl; [done | |].
  - intros uid'. rewrite Hact. destruct (decide (uid' = uid)) as [->|Hne].
    + rewrite lookup_insert_eq, Hu. split; intros (u0 & [= <-] & H0); eexists; split; eauto;
        congruence.
    + by rewrite lookup_insert_ne.
  - intros uid' u0. destruct (decide (uid' = uid)) as [->|Hne].
    + rewrite lookup_insert_eq. intros [= <-]. rewrite Hi. by apply Hid.
    + rewrite lookup_insert_ne by done. apply Hid.
Qed.

Lemma disable_user_spec um x :
  NoDup (active_user_ids um) ->
  active_user_ids (disable_user um x) = filter (fun y => y ≠ x) (active_user_ids um) /\
  forall uid,
    users (disable_user um x) !! uid
    = if bool_decide (uid = x /\ x ∈ active_user_ids um)
      then disable <$> users um !! uid
      else users um !! uid.
Proof.
  intros Hnd. unfold disable_user. destruct (decide (x ∈ active_user_ids um)) as [Hin|Hin].
  - rewrite (bool_decide_eq_true_2 _ Hin). simpl. split; [by apply list_remove_filter|].
    intros uid. destruct (decide (uid = x)) as [->|Hne].
    + by rewrite lookup_alter_eq, bool_decide_eq_true_2.
    + rewrite lookup_alter_ne by done. rewrite bool_decide_eq_false_2; [done | by intros [? _]].
  - rewrite (bool_decide_eq_false_2 _ Hin). split.
    + clear Hnd. induction (active_user_ids um) as [|y l IH]; [done|].
      rewrite filter_cons, decide_True.
      * f_equal. apply IH. intros Hx. apply Hin. by right.
      * intros ->. apply Hin. left.
    + intros uid. rewrite bool_decide_eq_false_2; [done | by intros [_ ?]].
Qed.

(** X17. On a manager whose active ids are listed once each,
    [disable_users] takes exactly the listed ids off the active list, keeping
    the order of the others, and clears the [active] flag of the records of
    the listed ids that were active; the records of all other users, and of
    listed users that were not active, are left as they were. *)
Theorem disable_users_spec (um : manager) (disabled : list string) :
  NoDup (active_user_ids um) ->
  active_user_ids (disable_users um disabled)
  = filter (fun uid => uid ∉ disabled) (active_user_ids um) /\
  forall uid,
    users (disable_users um disabled) !! uid
    = if bool_decide (uid ∈ disabled /\ uid ∈ active_user_ids um)
      then disable <$> users um !! uid
      else users um !! uid.
Proof.
  rewrite disable_users_fold. revert um.
  induction disabled as [|x l IH]; intros um Hnd.
  - simpl. split; [|done].
    symmetry. clear Hnd. induction (active_user_ids um) as [|y l' IH']; [done|].
    rewrite filter_cons, decide_True; [by f_equal|]. intros Hin. by apply elem_of_nil in Hin.
  - destruct (disable_user_spec um x Hnd) as [Ha1 Hu1].
    assert (Hnd1 : NoDup (active_user_ids (disable_user um x))).
    { rewrite Ha1. by apply NoDup_filter. }
    destruct (IH _ Hnd1) as [IHa IHu]. cbn [foldl]. split.
    + rewrite IHa, Ha1, list_filter_filter.
      apply list_filter_iff. intros y. rewrite not_elem_of_cons. tauto.
    + intros uid. rewrite IHu, Hu1, Ha1.
      destruct (decide (uid = x)) as [->|Hne].
      * rewrite (bool_decide_eq_false_2 (x ∈ l /\ _)).
        2:{ intros [_ Hx]. apply list_elem_of_filter in Hx as [Hx _]. done. }
        destruct (decide (x ∈ active_user_ids um)) as [Hin|Hin].
        -- by rewrite !bool_decide_eq_true_2 by (split; [done || left | done]).
        -- by rewrite !bool_decide_eq_false_2 by (by intros [_ ?]).
      * rewrite (bool_decide_eq_false_2 (uid = x /\ _)) by (by intros [? _]).
        rewrite (bool_decide_ext (uid ∈ l /\ _) (uid ∈ x :: l /\ uid ∈ active_user_ids um));
          [done|].
        rewrite list_elem_of_filter, elem_of_cons. tauto.
Qed.

Lemma disable_users_spec_witness :
  NoDup (active_user_ids enrolled_again) /\
  active_user_ids (disable_users enrolled_again ["u1"; "u9"; "u1"])
  = filter (fun uid => uid ∉ ["u1"; "u9"; "u1"]) (active_user_ids enrolled_again).
Proof.
  assert (Hnd : NoDup (active_user_ids enrolled_again)) by apply (NoDup_singleton "u1").
  exact (conj Hnd (proj1 (disable_users_spec enrolled_again ["u1"; "u9"; "u1"] Hnd))).
Defined.

Section Manager.
Variable parse_client_ts : string -> option Z.
Variable now : Z.

(** The manager after one call, whether the call returned or raised. *)
Definition apply_manager_op (um : manager) (op : manager_op) : manager :=
  match op with
  | OpAddUsers new_users => add_users parse_client_ts now um new_users
  | OpDisableUsers disabled => disable_users um disabled
  | OpMissionSelected uid m => fst (apply_mission_selected parse_client_ts um uid m)
  | OpMissionAccomplished uid score => apply_mission_accomplished um uid score
  end.

Definition run_manager_ops (um : manager) (ops : list manager_op) : manager :=
  foldl apply_manager_op um ops.

Lemma select_missions_keeps ms : forall u,
  active (fst (select_missions parse_client_ts u ms)) = active u /\
  user_id (fst (select_missions parse_client_ts u ms)) = user_id u.
Proof.
  induction ms as [|m ms IH]; intros u; [done|]. simpl.
  destruct (select_mission parse_client_ts u m) as [u1 o] eqn:Hsel.
  assert (Hu1 : active u1 = active u /\ user_id u1 = user_id u).
  { unfold select_mission in Hsel. destruct (missions_started u).
    - by injection Hsel as <- _.
    - destruct (selection_timestamp m ≫= parse_client_ts); by injection Hsel as <- _. }
  destruct o; [|done]. destruct (IH u1) as [H1 H2]. split; [rewrite H1 | rewrite H2]; apply Hu1.
Qed.

Lemma update_missions_and_contents_keeps u ms :
  active (fst (update_missions_and_contents parse_client_ts u ms)) = active u /\
  user_id (fst (update_missions_and_contents parse_client_ts u ms)) = user_id u.
Proof.
  unfold update_missions_and_contents.
  pose proof (select_missions_keeps ms u) as Hk.
  by destruct (select_missions parse_client_ts u ms) as [u1 [|]].
Qed.

Lemma consistent_add_user um uid data :
  consistent um -> consistent (add_user parse_client_ts now um uid data).
Proof.
  intros (Hnd & Hact & Hid). unfold add_user. split_and!; simpl.
  - case_bool_decide as Hin; [done|].
    apply NoDup_app. split_and!; [done | | apply NoDup_singleton].
    intros x Hx Hx'. apply list_elem_of_singleton in Hx' as ->. done.
  - intros uid'. destruct (decide (uid' = uid)) as [->|Hne].
    + rewrite lookup_insert_eq. split; [intros _; eauto|]. intros _.
      case_bool_decide; [done|]. apply elem_of_app. right. left.
    + rewrite lookup_insert_ne by done. rewrite <- Hact.
      case_bool_decide; [done|]. rewrite elem_of_app, list_elem_of_singleton.
      split; [by intros [?|?] | by left].
  - intros uid' u. destruct (decide (uid' = uid)) as [->|Hne].
    + rewrite lookup_insert_eq. by intros [= <-].
    + rewrite lookup_insert_ne by done. apply Hid.
Qed.

Lemma consistent_add_users new_users : forall um,
  consistent um -> consistent (add_users parse_client_ts now um new_users).
Proof.
  unfold add_users. induction new_users as [|[uid data] l IH]; intros um Hc; [done|].
  simpl. apply IH. by apply consistent_add_user.
Qed.

Lemma consistent_apply_manager_op um op :
  consistent um -> consistent (apply_manager_op um op).
Proof.
  intros Hc. destruct op as [new_users|disabled|uid m|uid score]; simpl.
  - by apply consistent_add_users.
  - by apply consistent_disable_users.
  - unfold apply_mission_selected. destruct (users um !! uid) as [u|] eqn:Hu; [|done].
    pose proof (update_missions_and_contents_keeps u [m]) as [Ha Hi].
    destruct (update_missions_and_contents parse_client_ts u [m]) as [u' o]. simpl.
    by eapply consistent_replace.
  - unfold apply_mission_accomplished. destruct (users um !! uid) as [u|] eqn:Hu; [|done].
    by eapply consistent_replace.
Qed.

(** X16. Whatever calls a [UserManager] has served since it was created
    (users added or added again, users disabled, missions selected or
    accomplished, calls that raised included), its list of active ids has no
    repeats and holds exactly the ids whose record has [active] set, and
    every record is stored under its own id; so [disable_users] always finds
    the record of an id it takes off the list. *)
Theorem manager_consistent (ops : list manager_op) :
  consistent (run_manager_ops empty_manager ops).
Proof.
  unfold run_manager_ops. generalize consistent_empty. generalize empty_manager.
  induction ops as [|op ops IH]; intros um Hc; [done|].
  simpl. apply IH. by apply consistent_apply_manager_op.
Qed.

End Manager.
End UserState.

(** ** The mission events of [ContentSelection.update] ([core.py]) *)
Module Core.
Import UserState.

(** A merged mission-affecting event: [{"ts", "type": "select", "mission"}]
    or [{"ts", "type": "accomplish", "mission_id", "score"}]. *)
Inductive item :=
| Select (ts : Z) (m : mission)
| Accomplish (ts : Z) (mid : string) (score : option Q).

Definition item_ts (x : item) : Z :=
  match x with Select ts _ => ts | Accomplish ts _ _ => ts end.

(** [order = {"select": 0, "accomplish": 1}] *)
Definition item_order (x : item) : nat :=
  match x with Select _ _ => 0%nat | Accomplish _ _ _ => 1%nat end.

(** The sort key [(x["ts"], order[x["type"]])], compared as tuples. *)
Definition key_le (a b : item) : bool :=
  (item_ts a <? item_ts b)%Z ||
  ((item_ts a =? item_ts b)%Z && (item_order a <=? item_order b)%nat).

(** [items.sort(key=...)] is stable: equal keys keep their order. A stable
    sort has one possible result, given here by insertion from the right. *)
Fixpoint insert (x : item) (l : list item) : list item :=
  match l with
  | [] => [x]
  | y :: l' => if key_le x y then x :: y :: l' else y :: insert x l'
  end.

Fixpoint sort_items (l : list item) : list item :=
  match l with
  | [] => []
  | x :: l' => insert x (sort_items l')
  end.

(** A feedback event of the batch, after [_sort_feedback_events]. *)
Record feedback_event := FeedbackEvent {
  event_name : string;
  timestamp : option string;
  ev_mission_id : string;
  ev_score : option Q
}.

(** An entry of [new_missions_and_contents]. *)
Record nmac_entry := NmacEntry {
  update_timestamp : option string;
  new_missions : list mission
}.

(** [d.setdefault(k, []).append(x)] *)
Definition dict_append (k : string) (x : item) (d : list (string * list item))
    : list (string * list item) :=
  PyDict.set k (default [] (PyDict.get k d) ++ [x]) d.

(** The events of a dictionary of merged events, user by user in the order
    of the dictionary, the events of each user sorted. *)
Fixpoint calls_of (merged : list (string * list item)) : list (string * item) :=
  match merged with
  | [] => []
  | (uid, items) :: rest => (pair uid <$> sort_items items) ++ calls_of rest
  end.

Section Time.
Variable parse_client_ts : string -> option Z.
Variable now : Z.

(** Step 3a: a [mission_accomplished] event whose timestamp parses. *)
Definition accomplish_item (ev : feedback_event) : option item :=
  if decide (event_name ev = "mission_accomplished") then
    ts ← timestamp ev ≫= parse_client_ts;
    Some (Accomplish ts (ev_mission_id ev) (ev_score ev))
  else None.

(** [m.get("selection_timestamp") or container_ts_raw] *)
Definition selection_ts_raw (container : option string) (m : mission) : option string :=
  match selection_timestamp m with
  | Some s => if decide (s = "") then container else Some s
  | None => container
  end.

(** Step 3b: a selected mission; a timestamp that does not parse is [now]. *)
Definition select_item (container : option string) (m : mission) : item :=
  Select (default now (selection_ts_raw container m ≫= parse_client_ts)) m.

Definition merge_feedback (known : string -> bool)
    (feedback : list (string * list feedback_event)) (d : list (string * list item))
    : list (string * list item) :=
  foldl (fun d '(uid, events) =>
           if known uid then
             foldl (fun d ev => match accomplish_item ev with
                                | Some it => dict_append uid it d
                                | None => d
                                end) d events
           else d)
        d feedback.

Definition merge_nmac (known : string -> bool)
    (nmac : list (string * nmac_entry)) (d : list (string * list item))
    : list (string * list item) :=
  foldl (fun d '(uid, entry) =>
           if known uid then
             foldl (fun d m => dict_append uid (select_item (update_timestamp entry) m) d)
                   d (new_missions entry)
           else d)
        d nmac.

(** [merged_by_user] after steps 3a and 3b; only known users are kept. *)
Definition merged_by_user (um : manager) (feedback : list (string * list feedback_event))
    (nmac : list (string * nmac_entry)) : list (string * list item) :=
  let known uid := bool_decide (is_Some (users um !! uid)) in
  merge_nmac known nmac (merge_feedback known feedback []).

(** The order in which the events of one user are applied. *)
Definition application_order (um : manager) (feedback : list (string * list feedback_event))
    (nmac : list (string * nmac_entry)) (uid : string) : list item :=
  sort_items (default [] (PyDict.get uid (merged_by_user um feedback nmac))).

Definition apply_item (um : manager) (uid : string) (x : item) : manager * outcome :=
  match x with
  | Select _ m => apply_mission_selected parse_client_ts um uid m
  | Accomplish _ _ score => (apply_mission_accomplished um uid score, Returned)
  end.

(** [for ev in items: ...], stopping when a call raises. *)
Fixpoint apply_items (um : manager) (uid : string) (items : list item) : manager * outcome :=
  match items with
  | [] => (um, Returned)
  | x :: rest =>
      match apply_item um uid x with
      | (um', Returned) => apply_items um' uid rest
      | r => r
      end
  end.

(** Step 3c: [for user_id, items in merged_by_user.items(): items.sort(...); ...] *)
Fixpoint apply_merged (um : manager) (merged : list (string * list item)) : manager * outcome :=
  match merged with
  | [] => (um, Returned)
  | (uid, items) :: rest =>
      match apply_items um uid (sort_items items) with
      | (um', Returned) => apply_merged um' rest
      | r => r
      end
  end.

(** Step 3 of [ContentSelection.update]. *)
Definition update_missions (um : manager) (feedback : list (string * list feedback_event))
    (nmac : list (string * nmac_entry)) : manager * outcome :=
  apply_merged um (merged_by_user um feedback nmac).

(** The calls that step 3 makes on the user manager, as (user, event)
    pairs from the first to the last: for each user of [merged_by_user] in
    turn, the events of the user, sorted. *)
Definition calls (um : manager) (feedback : list (string * list feedback_event))
    (nmac : list (string * nmac_entry)) : list (string * item) :=
  calls_of (merged_by_user um feedback nmac).

(** A list of calls made one after the other on the user manager,
    [apply_mission_selected] for a selection and [apply_mission_accomplished]
    for an accomplishment, up to the first call that raises. *)
Fixpoint apply_calls (um : manager) (cs : list (string * item)) : manager * outcome :=
  match cs with
  | [] => (um, Returned)
  | (uid, Select _ m) :: rest =>
      match apply_mission_selected parse_client_ts um uid m with
      | (um', Returned) => apply_calls um' rest
      | r => r
      end
  | (uid, Accomplish _ _ score) :: rest =>
      apply_calls (apply_mission_accomplished um uid score) rest
  end.
End Time.

(** *** The sort puts every selection before the accomplishments of its instant *)

Lemma key_le_total a b : key_le a b = false -> key_le b a = true.
Proof.
  unfold key_le. intros H. apply orb_false_iff in H as [H1 H2].
  apply Z.ltb_ge in H1. apply andb_false_iff in H2.
  apply orb_true_iff. destruct (Z.ltb_spec (item_ts b) (item_ts a)); [by left|right].
  assert (Heq : item_ts a = item_ts b) by lia.
  apply andb_true_iff. split; [apply Z.eqb_eq; lia|].
  destruct H2 as [H2|H2]; [apply Z.eqb_neq in H2; lia|].
  apply Nat.leb_gt in H2. apply Nat.leb_le. lia.
Qed.

Lemma key_le_trans a b c : key_le a b = true -> key_le b c = true -> key_le a c = true.
Proof.
  unfold key_le. rewrite !orb_true_iff, !andb_true_iff, !Z.ltb_lt, !Z.eqb_eq, !Nat.leb_le.
  intros [H1|[H1 H1']] [H2|[H2 H2']]; [left; lia | left; lia | left; lia | right; lia].
Qed.

Lemma insert_Permutation x l : Permutation (insert x l) (x :: l).
Proof.
  induction l as [|y l IH]; simpl; [done|].
  destruct (key_le x y); [done|]. rewrite IH. apply perm_swap.
Qed.

Lemma sort_items_Permutation l : Permutation (sort_items l) l.
Proof.
  induction l as [|x l IH]; simpl; [done|]. by rewrite insert_Permutation, IH.
Qed.

Lemma insert_sorted x l :
  StronglySorted (fun a b => key_le a b = true) l ->
  StronglySorted (fun a b => key_le a b = true) (insert x l).
Proof.
  induction 1 as [|y l Hl IH Hy]; simpl.
  - repeat constructor.
  - destruct (key_le x y) eqn:Hxy.
    + constructor; [by constructor|]. constructor; [done|].
      eapply Forall_impl; [exact Hy|]. intros z Hz. by eapply key_le_trans.
    + constructor; [done|].
      rewrite insert_Permutation. constructor; [by apply key_le_total | done].
Qed.

Lemma sort_items_sorted l : StronglySorted (fun a b => key_le a b = true) (sort_items l).
Proof.
  induction l as [|x l IH]; simpl; [constructor | by apply insert_sorted].
Qed.

Lemma sorted_lookup_le (l : list item) (i j : nat) (a b : item) :
  StronglySorted (fun a b => key_le a b = true) l ->
  (i < j)%nat -> l !! i = Some a -> l !! j = Some b -> key_le a b = true.
Proof.
  intros Hs. revert i j. induction Hs as [|y l Hl IH Hy]; intros i j Hij Hi Hj; [done|].
  destruct j as [|j]; [lia|]. destruct i as [|i].
  - injection Hi as ->. simpl in Hj. rewrite Forall_forall in Hy.
    apply Hy. by eapply list_elem_of_lookup_2.
  - simpl in Hi, Hj. apply (IH i j); [lia | done | done].
Qed.

Lemma sorted_select_first (l : list item) (i j : nat) t m mid sc :
  StronglySorted (fun a b => key_le a b = true) l ->
  l !! i = Some (Select t m) -> l !! j = Some (Accomplish t mid sc) -> (i < j)%nat.
Proof.
  intros Hs Hi Hj. destruct (Nat.lt_trichotomy i j) as [Hlt|[->|Hgt]]; [done| |].
  - congruence.
  - pose proof (sorted_lookup_le l j i _ _ Hs Hgt Hj Hi) as Hle.
    unfold key_le in Hle. simpl in Hle.
    rewrite Z.ltb_irrefl, Z.eqb_refl in Hle. discriminate Hle.
Qed.

(** *** What the merge collects for a user *)

Definition items_of (uid : string) (d : list (string * list item)) : list item :=
  default [] (PyDict.get uid d).

Lemma items_of_dict_append uid uid' x d :
  items_of uid' (dict_append uid x d) =
  if decide (uid = uid') then items_of uid' d ++ [x] else items_of uid' d.
Proof.
  unfold items_of, dict_append. destruct (decide (uid = uid')) as [->|Hne].
  - by rewrite PyDict.get_set_eq.
  - by rewrite PyDict.get_set_ne.
Qed.

Lemma items_of_dict_append_mono uid uid' x y d :
  y ∈ items_of uid' d -> y ∈ items_of uid' (dict_append uid x d).
Proof.
  intros Hy. rewrite items_of_dict_append. destruct (decide (uid = uid')); [|done].
  apply elem_of_app. by left.
Qed.

Section Merge.
Variable parse_client_ts : string -> option Z.
Variable now : Z.
Variable known : string -> bool.

Lemma merge_events_mono uid uid' y events : forall d,
  y ∈ items_of uid' d ->
  y ∈ items_of uid'
        (foldl (fun d ev => match accomplish_item parse_client_ts ev with
                            | Some it => dict_append uid it d
                            | None => d
                            end) d events).
Proof.
  induction events as [|ev events IH]; intros d Hy; simpl; [done|].
  apply IH. destruct (accomplish_item parse_client_ts ev); [|done].
  by apply items_of_dict_append_mono.
Qed.

Lemma merge_events_elem uid ev it events : forall d,
  ev ∈ events ->
  accomplish_item parse_client_ts ev = Some it ->
  it ∈ items_of uid
         (foldl (fun d ev => match accomplish_item parse_client_ts ev with
                             | Some it => dict_append uid it d
                             | None => d
                             end) d events).
Proof.
  induction events as [|ev' events IH]; intros d Hev Hit; [by apply elem_of_nil in Hev|].
  simpl. apply elem_of_cons in Hev as [<-|Hev].
  - apply merge_events_mono. rewrite Hit, items_of_dict_append, decide_True by done.
    apply elem_of_app. right. left.
  - by apply IH.
Qed.

Lemma merge_feedback_mono uid' y feedback : forall d,
  y ∈ items_of uid' d ->
  y ∈ items_of uid' (merge_feedback parse_client_ts known feedback d).
Proof.
  unfold merge_feedback.
  induction feedback as [|[uid events] feedback IH]; intros d Hy; simpl; [done|].
  apply IH. destruct (known uid); [|done]. by apply merge_events_mono.
Qed.

Lemma merge_feedback_elem uid events ev it feedback : forall d,
  known uid = true ->
  (uid, events) ∈ feedback ->
  ev ∈ events ->
  accomplish_item parse_client_ts ev = Some it ->
  it ∈ items_of uid (merge_feedback parse_client_ts known feedback d).
Proof.
  unfold merge_feedback.
  induction feedback as [|[uid' events'] feedback IH]; intros d Hk Hin Hev Hit;
    [by apply elem_of_nil in Hin|].
  simpl. apply elem_of_cons in Hin as [[= <- <-]|Hin].
  - rewrite Hk. apply (merge_feedback_mono uid it feedback).
    by apply (merge_events_elem uid ev it events).
  - by apply IH.
Qed.

Lemma merge_missions_mono uid uid' container y ms : forall d,
  y ∈ items_of uid' d ->
  y ∈ items_of uid'
        (foldl (fun d m => dict_append uid (select_item parse_client_ts now container m) d)
               d ms).
Proof.
  induction ms as [|m ms IH]; intros d Hy; simpl; [done|].
  apply IH. by apply items_of_dict_append_mono.
Qed.

Lemma merge_missions_elem uid container m ms : forall d,
  m ∈ ms ->
  select_item parse_client_ts now container m
    ∈ items_of uid
        (foldl (fun d m => dict_append uid (select_item parse_client_ts now container m) d)
               d ms).
Proof.
  induction ms as [|m' ms IH]; intros d Hm; [by apply elem_of_nil in Hm|].
  simpl. apply elem_of_cons in Hm as [<-|Hm].
  - apply merge_missions_mono. rewrite items_of_dict_append, decide_True by done.
    apply elem_of_app. right. left.
  - by apply IH.
Qed.

Lemma merge_nmac_mono uid' y nmac : forall d,
  y ∈ items_of uid' d ->
  y ∈ items_of uid' (merge_nmac parse_client_ts now known nmac d).
Proof.
  unfold merge_nmac.
  induction nmac as [|[uid entry] nmac IH]; intros d Hy; simpl; [done|].
  apply IH. destruct (known uid); [|done]. by apply merge_missions_mono.
Qed.

Lemma merge_nmac_elem uid entry m nmac : forall d,
  known uid = true ->
  (uid, entry) ∈ nmac ->
  m ∈ new_missions entry ->
  select_item parse_client_ts now (update_timestamp entry) m
    ∈ items_of uid (merge_nmac parse_client_ts now known nmac d).
Proof.
  unfold merge_nmac.
  induction nmac as [|[uid' entry'] nmac IH]; intros d Hk Hin Hm;
    [by apply elem_of_nil in Hin|].
  simpl. apply elem_of_cons in Hin as [[= <- <-]|Hin].
  - rewrite Hk. apply (merge_nmac_mono uid _ nmac). by apply merge_missions_elem.
  - by apply IH.
Qed.
End Merge.

(** *** The users a batch touches *)

(** [u'] is [u] with more mission records at the end, and possibly another
    start date, score or plan flag. *)
Definition user_grows (u u' : user) : Prop :=
  user_id u' = user_id u /\ active u' = active u /\ personal_data u' = personal_data u /\
  only_one_rec_already u' = only_one_rec_already u /\
  selected_missions_and_contents u `prefix_of` selected_missions_and_contents u'.

Lemma user_grows_refl u : user_grows u u.
Proof. by split_and!. Qed.

Lemma user_grows_trans u1 u2 u3 : user_grows u1 u2 -> user_grows u2 u3 -> user_grows u1 u3.
Proof.
  intros (? & ? & ? & ? & ?) (? & ? & ? & ? & ?). split_and!; try congruence. by etrans.
Qed.

Lemma select_missions_grows parse_client_ts ms : forall u,
  user_grows u (fst (select_missions parse_client_ts u ms)).
Proof.
  induction ms as [|m ms IH]; intros u; [apply user_grows_refl|]. simpl.
  destruct (select_mission parse_client_ts u m) as [u1 o] eqn:Hsel.
  assert (Hu1 : user_grows u u1).
  { unfold select_mission in Hsel.
    assert (Hp : selected_missions_and_contents u
                 `prefix_of` selected_missions_and_contents u ++ [set_plan_required true m])
      by (by eexists).
    destruct (missions_started u).
    - injection Hsel as <- _. by split_and!.
    - destruct (selection_timestamp m ≫= parse_client_ts); injection Hsel as <- _;
        by split_and!. }
  destruct o; [|done]. eapply user_grows_trans; [exact Hu1 | apply IH].
Qed.

Lemma update_missions_and_contents_grows parse_client_ts u ms :
  user_grows u (fst (update_missions_and_contents parse_client_ts u ms)).
Proof.
  unfold update_missions_and_contents.
  pose proof (select_missions_grows parse_client_ts ms u) as Hg.
  destruct (select_missions parse_client_ts u ms) as [u1 [|]]; [|done].
  destruct Hg as (? & ? & ? & ? & ?). by split_and!.
Qed.

(** From [um] to [um'] no user was added, dropped, enabled or disabled;
    only the records of the users in [touched] may have grown. *)
Definition manager_grows (touched : list string) (um um' : manager) : Prop :=
  active_user_ids um' = active_user_ids um /\
  forall uid,
    match users um !! uid with
    | None => users um' !! uid = None
    | Some u =>
        exists u', users um' !! uid = Some u' /\ user_grows u u' /\
                   (uid ∉ touched -> u' = u)
    end.

Lemma manager_grows_refl touched um : manager_grows touched um um.
Proof.
  split; [done|]. intros uid. destruct (users um !! uid) as [u|] eqn:Hu; [|done].
  exists u. split_and!; [done | apply user_grows_refl | done].
Qed.

Lemma manager_grows_trans touched um1 um2 um3 :
  manager_grows touched um1 um2 -> manager_grows touched um2 um3 ->
  manager_grows touched um1 um3.
Proof.
  intros [Ha1 H1] [Ha2 H2]. split; [congruence|]. intros uid.
  specialize (H1 uid). specialize (H2 uid).
  destruct (users um1 !! uid) as [u1|].
  - destruct H1 as (u2 & Hu2 & Hg1 & Hs1). rewrite Hu2 in H2.
    destruct H2 as (u3 & Hu3 & Hg2 & Hs2). exists u3.
    split_and!; [done | by eapply user_grows_trans |].
    intros Hn. rewrite Hs2, Hs1; done.
  - by rewrite H1 in H2.
Qed.

Lemma manager_grows_mono touched touched' um um' :
  touched ⊆ touched' -> manager_grows touched um um' -> manager_grows touched' um um'.
Proof.
  intros Hsub [Ha H]. split; [done|]. intros uid. specialize (H uid).
  destruct (users um !! uid) as [u|]; [|done].
  destruct H as (u' & Hu' & Hg & Hs). exists u'. split_and!; [done | done |].
  intros Hn. apply Hs. intros Hin. by apply Hn, Hsub.
Qed.

Lemma manager_grows_replace um uid u u' :
  users um !! uid = Some u -> user_grows u u' ->
  manager_grows [uid]
    um {| users := <[uid := u']> (users um); active_user_ids := active_user_ids um |}.
Proof.
  intros Hu Hg. split; [done|]. intros uid'. simpl.
  destruct (decide (uid' = uid)) as [->|Hne].
  - rewrite Hu, lookup_insert_eq. exists u'. split_and!; [done | done |].
    intros Hn. exfalso. apply Hn. left.
  - rewrite lookup_insert_ne by done. destruct (users um !! uid') as [u0|]; [|done].
    exists u0. split_and!; [done | apply user_grows_refl | done].
Qed.

Lemma apply_item_grows parse_client_ts um uid x :
  manager_grows [uid] um (fst (apply_item parse_client_ts um uid x)).
Proof.
  destruct x as [ts m|ts mid score]; simpl.
  - unfold apply_mission_selected.
    destruct (users um !! uid) as [u|] eqn:Hu; [|apply manager_grows_refl].
    pose proof (update_missions_and_contents_grows parse_client_ts u [m]) as Hg.
    destruct (update_missions_and_contents parse_client_ts u [m]) as [u' o]. simpl.
    by apply (manager_grows_replace um uid u u').
  - unfold apply_mission_accomplished.
    destruct (users um !! uid) as [u|] eqn:Hu; [|apply manager_grows_refl].
    apply (manager_grows_replace um uid u); [done|]. by split_and!.
Qed.

Lemma apply_items_grows parse_client_ts uid items : forall um,
  manager_grows [uid] um (fst (apply_items parse_client_ts um uid items)).
Proof.
  induction items as [|x items IH]; intros um; simpl; [apply manager_grows_refl|].
  pose proof (apply_item_grows parse_client_ts um uid x) as Hg.
  destruct (apply_item parse_client_ts um uid x) as [um1 [|]]; [|done].
  eapply manager_grows_trans; [exact Hg | apply IH].
Qed.

Lemma apply_merged_grows parse_client_ts merged : forall um,
  manager_grows (PyDict.keys merged) um (fst (apply_merged parse_client_ts um merged)).
Proof.
  induction merged as [|[uid items] merged IH]; intros um; simpl;
    [apply manager_grows_refl|].
  pose proof (apply_items_grows parse_client_ts uid (sort_items items) um) as Hg.
  assert (Hg' : manager_grows (uid :: PyDict.keys merged) um
                  (fst (apply_items parse_client_ts um uid (sort_items items)))).
  { eapply manager_grows_mono; [|exact Hg]. intros y Hy.
    apply list_elem_of_singleton in Hy as ->. left. }
  destruct (apply_items parse_client_ts um uid (sort_items items)) as [um1 [|]]; [|done].
  eapply manager_grows_trans; [exact Hg'|].
  eapply manager_grows_mono; [|apply IH]. intros y Hy. by right.
Qed.

(** *** Filters *)

Lemma filter_agree {A} (P Q : A -> Prop) `{!forall x, Decision (P x)}
    `{!forall x, Decision (Q x)} (l : list A) :
  (forall x, x ∈ l -> P x <-> Q x) -> filter P l = filter Q l.
Proof.
  induction l as [|x l IH]; intros Hl; [done|]. rewrite !filter_cons.
  rewrite IH by (intros y Hy; apply Hl; by right).
  pose proof (Hl x (list_elem_of_here _ _)) as Hx.
  destruct (decide (P x)), (decide (Q x)); tauto || done.
Qed.

Lemma filter_all {A} (P : A -> Prop) `{!forall x, Decision (P x)} (l : list A) :
  (forall x, x ∈ l -> P x) -> filter P l = l.
Proof.
  induction l as [|x l IH]; intros Hl; [done|].
  rewrite filter_cons, decide_True by (apply Hl; left).
  f_equal. apply IH. intros y Hy. apply Hl. by right.
Qed.

Lemma filter_none {A} (P : A -> Prop) `{!forall x, Decision (P x)} (l : list A) :
  (forall x, x ∈ l -> ~ P x) -> filter P l = [].
Proof.
  induction l as [|x l IH]; intros Hl; [done|].
  rewrite filter_cons, decide_False by (apply Hl; left).
  apply IH. intros y Hy. apply Hl. by right.
Qed.

(** *** Step 3 as a sequence of calls on the user manager *)

Lemma apply_calls_cons parse_client_ts um uid x rest :
  apply_calls parse_client_ts um ((uid, x) :: rest) =
  match apply_item parse_client_ts um uid x with
  | (um', Returned) => apply_calls parse_client_ts um' rest
  | r => r
  end.
Proof. by destruct x. Qed.

Lemma apply_calls_app parse_client_ts l1 : forall um l2,
  apply_calls parse_client_ts um (l1 ++ l2) =
  match apply_calls parse_client_ts um l1 with
  | (um', Returned) => apply_calls parse_client_ts um' l2
  | r => r
  end.
Proof.
  induction l1 as [|[uid x] l1 IH]; intros um l2; [done|].
  rewrite <- app_comm_cons, !apply_calls_cons.
  destruct (apply_item parse_client_ts um uid x) as [um1 [|]]; [apply IH | done].
Qed.

Lemma apply_items_calls parse_client_ts uid items : forall um,
  apply_items parse_client_ts um uid items
  = apply_calls parse_client_ts um (pair uid <$> items).
Proof.
  induction items as [|x items IH]; intros um; [done|].
  rewrite fmap_cons, apply_calls_cons. cbn [apply_items].
  destruct (apply_item parse_client_ts um uid x) as [um1 [|]]; [apply IH | done].
Qed.

Lemma apply_merged_calls parse_client_ts merged : forall um,
  apply_merged parse_client_ts um merged = apply_calls parse_client_ts um (calls_of merged).
Proof.
  induction merged as [|[uid items] merged IH]; intros um; [done|].
  cbn [apply_merged calls_of]. rewrite apply_calls_app, <- apply_items_calls.
  destruct (apply_items parse_client_ts um uid (sort_items items)) as [um1 [|]];
    [apply IH | done].
Qed.

(** Step 3 makes the calls of [calls], one after the other. *)
Lemma update_missions_calls parse_client_ts now um feedback nmac :
  update_missions parse_client_ts now um feedback nmac
  = apply_calls parse_client_ts um (calls parse_client_ts now um feedback nmac).
Proof. apply apply_merged_calls. Qed.

Lemma apply_calls_grows parse_client_ts cs : forall um,
  manager_grows (cs.*1) um (fst (apply_calls parse_client_ts um cs)).
Proof.
  induction cs as [|[uid x] cs IH]; intros um; [apply manager_grows_refl|].
  rewrite apply_calls_cons, fmap_cons. cbn [fst].
  pose proof (apply_item_grows parse_client_ts um uid x) as Hg.
  assert (Hg' : manager_grows (uid :: cs.*1) um (fst (apply_item parse_client_ts um uid x))).
  { eapply manager_grows_mono; [|exact Hg]. intros y Hy.
    apply list_elem_of_singleton in Hy as ->. left. }
  destruct (apply_item parse_client_ts um uid x) as [um1 [|]]; [|done].
  eapply manager_grows_trans; [exact Hg'|].
  eapply manager_grows_mono; [|apply IH]. intros y Hy. by right.
Qed.

(** A call that returns leaves every known user known, with a record that
    still holds the missions it held. *)
Lemma apply_calls_keeps_mission parse_client_ts cs um uid u m :
  users um !! uid = Some u ->
  m ∈ selected_missions_and_contents u ->
  exists u', users (fst (apply_calls parse_client_ts um cs)) !! uid = Some u' /\
             m ∈ selected_missions_and_contents u'.
Proof.
  intros Hu Hm. destruct (apply_calls_grows parse_client_ts cs um) as [_ Hg].
  specialize (Hg uid). rewrite Hu in Hg. destruct Hg as (u' & Hu' & Hgrow & _).
  exists u'. split; [done|]. destruct Hgrow as (_ & _ & _ & _ & Hpre).
  by eapply elem_of_prefix.
Qed.

Lemma apply_mission_selected_records parse_client_ts um uid u m um' :
  users um !! uid = Some u ->
  apply_mission_selected parse_client_ts um uid m = (um', Returned) ->
  exists u', users um' !! uid = Some u' /\
             set_plan_required true m ∈ selected_missions_and_contents u'.
Proof.
  intros Hu. unfold apply_mission_selected. rewrite Hu.
  unfold update_missions_and_contents. cbn [select_missions]. unfold select_mission.
  destruct (missions_started u); [|destruct (selection_timestamp m ≫= parse_client_ts)];
    intros [= <-]; (eexists; split; [apply lookup_insert_eq|]);
    cbn [selected_missions_and_contents]; apply elem_of_app; right; left.
Qed.

(** *** The merged dictionary *)

Lemma foldl_invariant {A B} (P : A -> Prop) (f : A -> B -> A) (l : list B) :
  (forall a b, P a -> P (f a b)) -> forall a, P a -> P (foldl f a l).
Proof.
  intros Hf. induction l as [|b l IH]; intros a Ha; [done|]. simpl. by apply IH, Hf.
Qed.

(** Every key is held once, and every key is a known user. *)
Definition merged_ok (known : string -> bool) (d : list (string * list item)) : Prop :=
  PyDict.wf d /\ forall k, k ∈ PyDict.keys d -> known k = true.

Lemma dict_append_ok known uid x d :
  known uid = true -> merged_ok known d -> merged_ok known (dict_append uid x d).
Proof.
  intros Hk [Hwf Hkeys]. split; [by apply PyDict.wf_set|].
  intros k. unfold dict_append. destruct (decide (uid ∈ PyDict.keys d)) as [Hin|Hn].
  - rewrite PyDict.keys_set_mem by done. apply Hkeys.
  - rewrite PyDict.keys_set_fresh by done. intros [Hd|Hd]%elem_of_app; [by apply Hkeys|].
    by apply list_elem_of_singleton in Hd as ->.
Qed.

Lemma merge_feedback_ok parse_client_ts known feedback d :
  merged_ok known d -> merged_ok known (merge_feedback parse_client_ts known feedback d).
Proof.
  unfold merge_feedback. apply foldl_invariant. intros a [uid events] Ha.
  destruct (known uid) eqn:Hk; [|done]. revert a Ha. apply foldl_invariant.
  intros a ev Ha. destruct (accomplish_item parse_client_ts ev); [|done].
  by apply dict_append_ok.
Qed.

Lemma merge_nmac_ok parse_client_ts now known nmac d :
  merged_ok known d -> merged_ok known (merge_nmac parse_client_ts now known nmac d).
Proof.
  unfold merge_nmac. apply foldl_invariant. intros a [uid entry] Ha.
  destruct (known uid) eqn:Hk; [|done]. revert a Ha. apply foldl_invariant.
  intros a m Ha. by apply dict_append_ok.
Qed.

Lemma merged_by_user_ok parse_client_ts now um feedback nmac :
  PyDict.wf (merged_by_user parse_client_ts now um feedback nmac) /\
  forall uid, uid ∈ PyDict.keys (merged_by_user parse_client_ts now um feedback nmac) ->
              is_Some (users um !! uid).
Proof.
  unfold merged_by_user.
  set (known := fun uid : string => bool_decide (is_Some (users um !! uid))).
  destruct (merge_nmac_ok parse_client_ts now known nmac
              (merge_feedback parse_client_ts known feedback [])) as [Hwf Hk].
  { apply merge_feedback_ok. split; [apply NoDup_nil_2|]. by intros k ?%elem_of_nil. }
  split; [done|]. intros uid Hin. specialize (Hk uid Hin).
  by apply bool_decide_eq_true in Hk.
Qed.

(** *** Where the calls of one user stand *)

Lemma calls_of_keys merged c : c ∈ calls_of merged -> c.1 ∈ PyDict.keys merged.
Proof.
  induction merged as [|[uid items] merged IH]; cbn [calls_of]; [by intros ?%elem_of_nil|].
  intros [Hc|Hc]%elem_of_app.
  - apply list_elem_of_fmap in Hc as (x & -> & _). left.
  - right. by apply IH.
Qed.

(** The calls of a user form one block: the sorted events of the user. *)
Lemma calls_of_block merged uid :
  PyDict.wf merged ->
  exists l1 l2,
    calls_of merged = l1 ++ (pair uid <$> sort_items (items_of uid merged)) ++ l2 /\
    Forall (fun c => c.1 ≠ uid) l1 /\ Forall (fun c => c.1 ≠ uid) l2.
Proof.
  unfold PyDict.wf.
  induction merged as [|[u0 items] merged IH]; intros Hwf.
  - exists [], []. by split_and!.
  - cbn [PyDict.keys map fst] in Hwf. apply NoDup_cons in Hwf as [Hn Hwf].
    cbn [calls_of]. unfold items_of. cbn [PyDict.get].
    destruct (decide (u0 = uid)) as [->|Hne].
    + exists [], (calls_of merged). split_and!; [done | constructor |].
      apply Forall_forall. intros c Hc Heq. apply Hn. rewrite <- Heq.
      by apply calls_of_keys.
    + destruct (IH Hwf) as (l1 & l2 & Heq & H1 & H2).
      exists ((pair u0 <$> sort_items items) ++ l1), l2.
      split_and!; [by rewrite Heq, <- app_assoc | | done].
      apply Forall_app. split; [|done]. apply Forall_fmap, Forall_forall. by intros x _.
Qed.

Lemma block_lookup (uid : string) (l1 l2 : list (string * item)) (b : list item)
    (i : nat) (a : item) :
  Forall (fun c => c.1 ≠ uid) l1 -> Forall (fun c => c.1 ≠ uid) l2 ->
  (l1 ++ (pair uid <$> b) ++ l2) !! i = Some (uid, a) <->
  exists k, i = (length l1 + k)%nat /\ b !! k = Some a.
Proof.
  intros H1 H2. rewrite Forall_forall in H1. rewrite Forall_forall in H2. split.
  - intros Hi. destruct (decide (i < length l1)%nat) as [Hlt|Hge].
    + rewrite lookup_app_l in Hi by done. exfalso.
      by apply (H1 (uid, a)); [eapply list_elem_of_lookup_2|].
    + rewrite lookup_app_r in Hi by lia. exists (i - length l1)%nat. split; [lia|].
      destruct (decide (i - length l1 < length b)%nat) as [Hlt|Hge'].
      * rewrite lookup_app_l in Hi by (by rewrite length_fmap).
        rewrite list_lookup_fmap in Hi.
        destruct (b !! (i - length l1)%nat) as [a'|]; [|done]. by injection Hi as ->.
      * rewrite lookup_app_r in Hi by (rewrite length_fmap; lia). exfalso.
        by apply (H2 (uid, a)); [eapply list_elem_of_lookup_2|].
  - intros (k & -> & Hk). rewrite lookup_app_r by lia.
    replace (length l1 + k - length l1)%nat with k by lia.
    rewrite lookup_app_l by (rewrite length_fmap; by eapply lookup_lt_Some).
    by rewrite list_lookup_fmap, Hk.
Qed.

(** The calls of step 3 for one user, in the order in which they are made. *)
Definition user_calls (uid : string) (cs : list (string * item)) : list item :=
  (filter (fun c => c.1 = uid) cs).*2.

Lemma block_user_calls (uid : string) (l1 l2 : list (string * item)) (b : list item) :
  Forall (fun c => c.1 ≠ uid) l1 -> Forall (fun c => c.1 ≠ uid) l2 ->
  user_calls uid (l1 ++ (pair uid <$> b) ++ l2) = b.
Proof.
  intros H1 H2. rewrite Forall_forall in H1. rewrite Forall_forall in H2.
  unfold user_calls. rewrite !filter_app.
  rewrite (filter_none _ l1) by done. rewrite (filter_none _ l2) by done.
  rewrite filter_all by (by intros c (x & -> & _)%list_elem_of_fmap).
  rewrite app_nil_r. cbn [app]. rewrite <- list_fmap_compose.
  rewrite <- (list_fmap_id b) at 2. done.
Qed.

Section Calls.
Variable parse_client_ts : string -> option Z.
Variable now : Z.
Variable um : manager.
Variable feedback : list (string * list feedback_event).
Variable nmac : list (string * nmac_entry).

(** The calls for a user stand at the positions [n, n + 1, ...], in the
    order [application_order]. *)
Lemma calls_lookup uid :
  exists n, forall i a,
    calls parse_client_ts now um feedback nmac !! i = Some (uid, a) <->
    exists k, i = (n + k)%nat /\
              application_order parse_client_ts now um feedback nmac uid !! k = Some a.
Proof.
  destruct (merged_by_user_ok parse_client_ts now um feedback nmac) as [Hwf _].
  destruct (calls_of_block _ uid Hwf) as (l1 & l2 & Heq & H1 & H2).
  exists (length l1). intros i a. unfold calls. rewrite Heq.
  by apply block_lookup.
Qed.

Lemma calls_user_calls uid :
  user_calls uid (calls parse_client_ts now um feedback nmac)
  = application_order parse_client_ts now um feedback nmac uid.
Proof.
  destruct (merged_by_user_ok parse_client_ts now um feedback nmac) as [Hwf _].
  destruct (calls_of_block _ uid Hwf) as (l1 & l2 & Heq & H1 & H2).
  unfold calls. rewrite Heq. by apply block_user_calls.
Qed.

Lemma calls_known i uid a :
  calls parse_client_ts now um feedback nmac !! i = Some (uid, a) ->
  is_Some (users um !! uid).
Proof.
  intros Hi. destruct (merged_by_user_ok parse_client_ts now um feedback nmac) as [_ Hk].
  apply Hk. apply (calls_of_keys _ (uid, a)). by eapply list_elem_of_lookup_2.
Qed.

Lemma calls_select_first i j uid t m mid sc :
  calls parse_client_ts now um feedback nmac !! i = Some (uid, Select t m) ->
  calls parse_client_ts now um feedback nmac !! j = Some (uid, Accomplish t mid sc) ->
  (i < j)%nat.
Proof.
  destruct (calls_lookup uid) as [n Hn]. intros Hi Hj.
  apply Hn in Hi as (ki & -> & Hi). apply Hn in Hj as (kj & -> & Hj).
  pose proof (sorted_select_first _ ki kj t m mid sc (sort_items_sorted _) Hi Hj). lia.
Qed.

(** Both events of a tie are among the calls. *)
Lemma calls_tie uid events ev entry m t :
  is_Some (users um !! uid) ->
  (uid, events) ∈ feedback -> ev ∈ events ->
  event_name ev = "mission_accomplished" ->
  timestamp ev ≫= parse_client_ts = Some t ->
  (uid, entry) ∈ nmac -> m ∈ new_missions entry ->
  selection_ts_raw (update_timestamp entry) m ≫= parse_client_ts = Some t ->
  exists i j,
    calls parse_client_ts now um feedback nmac !! i = Some (uid, Select t m) /\
    calls parse_client_ts now um feedback nmac !! j
      = Some (uid, Accomplish t (ev_mission_id ev) (ev_score ev)).
Proof.
  intros Hknown Hfb Hev Hname Hts Hnm Hm Hsts.
  set (known := fun u => bool_decide (is_Some (users um !! u))).
  assert (Hk : known uid = true) by (by apply bool_decide_eq_true).
  assert (Hacc : Accomplish t (ev_mission_id ev) (ev_score ev)
                   ∈ application_order parse_client_ts now um feedback nmac uid).
  { unfold application_order. rewrite sort_items_Permutation.
    apply (merge_nmac_mono parse_client_ts now known uid).
    apply (merge_feedback_elem parse_client_ts known uid events ev); try done.
    unfold accomplish_item. rewrite decide_True by done. by rewrite Hts. }
  assert (Hs : Select t m ∈ application_order parse_client_ts now um feedback nmac uid).
  { unfold application_order. rewrite sort_items_Permutation.
    pose proof (merge_nmac_elem parse_client_ts now known uid entry m nmac
                  (merge_feedback parse_client_ts known feedback []) Hk Hnm Hm) as Hin.
    unfold select_item in Hin. rewrite Hsts in Hin. exact Hin. }
  apply list_elem_of_lookup in Hacc as [kj Hj]. apply list_elem_of_lookup in Hs as [ki Hi].
  destruct (calls_lookup uid) as [n Hn].
  exists (n + ki)%nat, (n + kj)%nat. split; apply Hn; eauto.
Qed.

(** When the call at position [j] is reached, the mission of every
    selection made before it for the same user is in the user's record. *)
Lemma calls_selection_recorded i j uid t m um_j :
  (i < j)%nat ->
  calls parse_client_ts now um feedback nmac !! i = Some (uid, Select t m) ->
  apply_calls parse_client_ts um (take j (calls parse_client_ts now um feedback nmac))
    = (um_j, Returned) ->
  exists u, users um_j !! uid = Some u /\
            set_plan_required true m ∈ selected_missions_and_contents u.
Proof.
  intros Hij Hi Hrun. destruct (calls_known i uid _ Hi) as [u0 Hu0].
  set (cs := calls parse_client_ts now um feedback nmac) in *.
  assert (Hsplit : take j cs = take i cs ++ (uid, Select t m) :: take (j - S i) (drop (S i) cs)).
  { rewrite <- (take_drop_middle cs i _ Hi) at 1.
    assert (Hlen : length (take i cs) = i).
    { rewrite length_take. apply lookup_lt_Some in Hi. lia. }
    replace j with (length (take i cs) + S (j - S i))%nat at 1 by lia.
    by rewrite take_app_add. }
  rewrite Hsplit, apply_calls_app in Hrun.
  pose proof (apply_calls_grows parse_client_ts (take i cs) um) as [_ Hg].
  specialize (Hg uid). rewrite Hu0 in Hg. destruct Hg as (u_i & Hu_i & _).
  destruct (apply_calls parse_client_ts um (take i cs)) as [um_i [|]]; [|done].
  cbn [fst] in Hu_i. cbn [apply_calls] in Hrun.
  destruct (apply_mission_selected parse_client_ts um_i uid m) as [um_s [|]] eqn:Hsel;
    [|done].
  destruct (apply_mission_selected_records _ _ _ _ _ _ Hu_i Hsel) as (u_s & Hu_s & Hm).
  destruct (apply_calls_keeps_mission parse_client_ts (take (j - S i) (drop (S i) cs))
              um_s uid u_s _ Hu_s Hm) as (u & Hu & Hin).
  rewrite Hrun in Hu. by exists u.
Qed.

(** A selection that raises ends step 3: no later call is made. *)
Lemma calls_raise i uid t m um_i um' :
  calls parse_client_ts now um feedback nmac !! i = Some (uid, Select t m) ->
  apply_calls parse_client_ts um (take i (calls parse_client_ts now um feedback nmac))
    = (um_i, Returned) ->
  apply_mission_selected parse_client_ts um_i uid m = (um', Raised) ->
  update_missions parse_client_ts now um feedback nmac = (um', Raised).
Proof.
  intros Hi Hrun Hsel. rewrite update_missions_calls.
  rewrite <- (take_drop_middle _ i _ Hi) at 1.
  rewrite apply_calls_app, Hrun. cbn [apply_calls]. by rewrite Hsel.
Qed.
End Calls.

(** C9. Step 3 of [ContentSelection.update] acts on the user manager by
    the calls of [calls], made one after the other from the first to the
    last ([apply_calls]). Among them a selection stands before every
    accomplishment of the same user and the same timestamp; whenever the
    batch holds, for a known user, a [mission_accomplished] event and a
    selected mission whose timestamps parse to the same instant, both are
    among the calls, the selection first; if the calls before the
    accomplishment return, they leave a state in which the user's record
    already holds the selected mission, and the result of step 3 is the
    accomplishment applied to that state, followed by the remaining calls;
    and if the selection raises, step 3 raises in the state the selection
    left and the accomplishment is not applied. *)
Theorem select_applied_before_accomplish (parse_client_ts : string -> option Z) (now : Z)
    (um : manager) (feedback : list (string * list feedback_event))
    (nmac : list (string * nmac_entry)) :
  update_missions parse_client_ts now um feedback nmac
  = apply_calls parse_client_ts um (calls parse_client_ts now um feedback nmac) /\
  (forall i j uid t m mid sc,
     calls parse_client_ts now um feedback nmac !! i = Some (uid, Select t m) ->
     calls parse_client_ts now um feedback nmac !! j = Some (uid, Accomplish t mid sc) ->
     (i < j)%nat) /\
  (forall uid events ev entry m t,
     is_Some (users um !! uid) ->
     (uid, events) ∈ feedback -> ev ∈ events ->
     event_name ev = "mission_accomplished" ->
     timestamp ev ≫= parse_client_ts = Some t ->
     (uid, entry) ∈ nmac -> m ∈ new_missions entry ->
     selection_ts_raw (update_timestamp entry) m ≫= parse_client_ts = Some t ->
     exists i j,
       calls parse_client_ts now um feedback nmac !! i = Some (uid, Select t m) /\
       calls parse_client_ts now um feedback nmac !! j
         = Some (uid, Accomplish t (ev_mission_id ev) (ev_score ev)) /\
       (i < j)%nat) /\
  (forall i j uid t m mid sc um_j,
     calls parse_client_ts now um feedback nmac !! i = Some (uid, Select t m) ->
     calls parse_client_ts now um feedback nmac !! j = Some (uid, Accomplish t mid sc) ->
     apply_calls parse_client_ts um (take j (calls parse_client_ts now um feedback nmac))
       = (um_j, Returned) ->
     (exists u, users um_j !! uid = Some u /\
                set_plan_required true m ∈ selected_missions_and_contents u) /\
     update_missions parse_client_ts now um feedback nmac
     = apply_calls parse_client_ts (apply_mission_accomplished um_j uid sc)
         (drop (S j) (calls parse_client_ts now um feedback nmac))) /\
  (forall i j uid t m mid sc um_i um',
     calls parse_client_ts now um feedback nmac !! i = Some (uid, Select t m) ->
     calls parse_client_ts now um feedback nmac !! j = Some (uid, Accomplish t mid sc) ->
     apply_calls parse_client_ts um (take i (calls parse_client_ts now um feedback nmac))
       = (um_i, Returned) ->
     apply_mission_selected parse_client_ts um_i uid m = (um', Raised) ->
     update_missions parse_client_ts now um feedback nmac = (um', Raised) /\
     apply_calls parse_client_ts um (take j (calls parse_client_ts now um feedback nmac))
       = (um', Raised)).
Proof.
  split_and!.
  - apply update_missions_calls.
  - apply calls_select_first.
  - intros uid events ev entry m t Hknown Hfb Hev Hname Hts Hnm Hm Hsts.
    destruct (calls_tie parse_client_ts now um feedback nmac uid events ev entry m t)
      as (i & j & Hi & Hj); try done.
    exists i, j. split_and!; [done | done |]. by eapply calls_select_first.
  - intros i j uid t m mid sc um_j Hi Hj Hrun.
    pose proof (calls_select_first _ _ _ _ _ _ _ _ _ _ _ _ Hi Hj) as Hij. split.
    + by eapply calls_selection_recorded.
    + rewrite update_missions_calls.
      rewrite <- (take_drop (S j) (calls parse_client_ts now um feedback nmac)) at 1.
      by rewrite apply_calls_app, (take_S_r _ j _ Hj), apply_calls_app, Hrun.
  - intros i j uid t m mid sc um_i um' Hi Hj Hrun Hsel.
    pose proof (calls_select_first _ _ _ _ _ _ _ _ _ _ _ _ Hi Hj) as Hij.
    split; [by eapply calls_raise|].
    set (cs := calls parse_client_ts now um feedback nmac) in *.
    assert (Hsplit : take j cs
                     = take i cs ++ (uid, Select t m) :: take (j - S i) (drop (S i) cs)).
    { rewrite <- (take_drop_middle cs i _ Hi) at 1.
      assert (Hlen : length (take i cs) = i).
      { rewrite length_take. apply lookup_lt_Some in Hi. lia. }
      replace j with (length (take i cs) + S (j - S i))%nat at 1 by lia.
      by rewrite take_app_add. }
    rewrite Hsplit, apply_calls_app, Hrun. cbn [apply_calls]. by rewrite Hsel.
Qed.

(** A batch in which user "u1" selects mission "SM1" and accomplishes the
    previous mission "SM0" at the same instant. *)
Definition example_accomplished : feedback_event :=
  {| event_name := "mission_accomplished"; timestamp := Some "2025-02-01T00:00:00Z";
     ev_mission_id := "SM0"; ev_score := Some 1%Q |}.

Definition example_feedback : list (string * list feedback_event) :=
  [("u1", [example_accomplished])].

Definition example_nmac : list (string * nmac_entry) :=
  [("u1", {| update_timestamp := None; new_missions := [example_mission] |})].

Lemma select_applied_before_accomplish_witness :
  update_missions example_parse 0 enrolled example_feedback example_nmac
  = apply_calls example_parse enrolled
      (calls example_parse 0 enrolled example_feedback example_nmac) /\
  exists i j,
    calls example_parse 0 enrolled example_feedback example_nmac !! i
      = Some ("u1", Select 1738368000 example_mission) /\
    calls example_parse 0 enrolled example_feedback example_nmac !! j
      = Some ("u1", Accomplish 1738368000 "SM0" (Some 1%Q)) /\
    (i < j)%nat.
Proof.
  destruct (select_applied_before_accomplish example_parse 0 enrolled example_feedback
              example_nmac) as (Hrun & _ & H & _).
  split; [exact Hrun|].
  apply (H "u1" [example_accomplished] example_accomplished
           {| update_timestamp := None; new_missions := [example_mission] |}
           example_mission 1738368000%Z).
  - eexists. reflexivity.
  - left.
  - left.
  - reflexivity.
  - reflexivity.
  - left.
  - left.
  - reflexivity.
Defined.

(** The accomplishment is merged first (step 3a) and applied second; at
    the end the record of "u1" holds the mission and the score. *)
Example example_application_order :
  items_of "u1" (merged_by_user example_parse 0 enrolled example_feedback example_nmac)
    = [Accomplish 1738368000 "SM0" (Some 1%Q); Select 1738368000 example_mission] /\
  calls example_parse 0 enrolled example_feedback example_nmac
    = [("u1", Select 1738368000 example_mission);
       ("u1", Accomplish 1738368000 "SM0" (Some 1%Q))] /\
  snd (update_missions example_parse 0 enrolled example_feedback example_nmac) = Returned /\
  (users (fst (update_missions example_parse 0 enrolled example_feedback example_nmac))
     !! "u1") ≫= (fun u => Some (mission_id <$> selected_missions_and_contents u,
                                 previous_mission_score u))
    = Some (["SM1"], Some 1%Q).
Proof. vm_compute. done. Qed.

(** The same batch with a mission that carries no timestamp of its own: the
    merge dates it by the container, the tie is as before, but the first
    selection of a user raises on such a mission, so that the update raises
    and the score of the accomplishment is never recorded. *)
Definition example_undated_mission : mission :=
  {| mission_id := "SM1"; recommendations := ["SRc1"; "SRc2"]; resources := [];
     prescribed := false; selection_timestamp := None; plan_required := false |}.

Definition example_undated_nmac : list (string * nmac_entry) :=
  [("u1", {| update_timestamp := Some "2025-02-01T00:00:00Z";
             new_missions := [example_undated_mission] |})].

Example example_selection_raises :
  calls example_parse 0 enrolled example_feedback example_undated_nmac
    = [("u1", Select 1738368000 example_undated_mission);
       ("u1", Accomplish 1738368000 "SM0" (Some 1%Q))] /\
  snd (update_missions example_parse 0 enrolled example_feedback example_undated_nmac)
    = Raised /\
  (users (fst (update_missions example_parse 0 enrolled example_feedback
                 example_undated_nmac)) !! "u1") ≫= previous_mission_score
    = Some 0%Q.
Proof. vm_compute. done. Qed.

(** *** The order of application is chronological, ties in arrival order *)

(** The events with sort key [(t, k)]. *)
Definition with_key (t : Z) (k : nat) (x : item) : Prop :=
  item_ts x = t /\ item_order x = k.

#[local] Instance with_key_dec t k x : Decision (with_key t k x).
Proof. unfold with_key. apply _. Defined.

Lemma insert_with_key t k x l :
  filter (with_key t k) (insert x l)
  = if decide (with_key t k x) then x :: filter (with_key t k) l
    else filter (with_key t k) l.
Proof.
  induction l as [|y l IH]; simpl.
  - rewrite filter_cons, filter_nil. done.
  - destruct (key_le x y) eqn:Hxy.
    + by rewrite (filter_cons _ x).
    + assert (Hy : with_key t k x -> ~ with_key t k y).
      { intros [Ht Hk] [Ht' Hk']. unfold key_le in Hxy. rewrite Ht, Ht', Hk, Hk' in Hxy.
        rewrite Z.eqb_refl, Nat.leb_refl, orb_true_r in Hxy. discriminate Hxy. }
      rewrite (filter_cons _ y), IH.
      destruct (decide (with_key t k x)) as [Hx|Hx]; rewrite (filter_cons _ y);
        repeat case_decide; try done.
      all: exfalso; by eapply Hy.
Qed.

Lemma sort_items_with_key t k l :
  filter (with_key t k) (sort_items l) = filter (with_key t k) l.
Proof.
  induction l as [|x l IH]; simpl; [done|].
  rewrite insert_with_key, IH, filter_cons. done.
Qed.

(** X22. Step 3 of [ContentSelection.update] makes the calls of [calls]
    one after the other, and the calls of a user are made in chronological
    order: between two calls for one user the timestamp never decreases, and
    the events of one user, one instant and one type (selections, or
    accomplishments) are applied in the order in which the merge collected
    them. *)
Theorem application_order_chronological (parse_client_ts : string -> option Z) (now : Z)
    (um : manager) (feedback : list (string * list feedback_event))
    (nmac : list (string * nmac_entry)) :
  update_missions parse_client_ts now um feedback nmac
  = apply_calls parse_client_ts um (calls parse_client_ts now um feedback nmac) /\
  (forall uid i j a b, (i < j)%nat ->
     calls parse_client_ts now um feedback nmac !! i = Some (uid, a) ->
     calls parse_client_ts now um feedback nmac !! j = Some (uid, b) ->
     (item_ts a <= item_ts b)%Z) /\
  (forall uid t k,
     filter (with_key t k) (user_calls uid (calls parse_client_ts now um feedback nmac))
     = filter (with_key t k)
         (items_of uid (merged_by_user parse_client_ts now um feedback nmac))).
Proof.
  split_and!.
  - apply update_missions_calls.
  - intros uid i j a b Hij Hi Hj.
    destruct (calls_lookup parse_client_ts now um feedback nmac uid) as [n Hn].
    apply Hn in Hi as (ki & -> & Hi). apply Hn in Hj as (kj & -> & Hj).
    assert (Hk : (ki < kj)%nat) by lia.
    pose proof (sorted_lookup_le _ ki kj a b (sort_items_sorted _) Hk Hi Hj) as Hle.
    unfold key_le in Hle. apply orb_true_iff in Hle as [Hlt|Heq].
    + apply Z.ltb_lt in Hlt. lia.
    + apply andb_true_iff in Heq as [Heq _]. apply Z.eqb_eq in Heq. lia.
  - intros uid t k. rewrite calls_user_calls. apply sort_items_with_key.
Qed.

(** X23. Step 3 of an update adds, drops, enables and disables no user,
    whether it returns or raises: the list of active ids is unchanged, a user
    keeps its id, activity and personal data, its mission records are only
    extended at the end, and the record of a user for whom the batch holds no
    mission event is not touched. *)
Theorem update_missions_keeps_users (parse_client_ts : string -> option Z) (now : Z)
    (um : manager) (feedback : list (string * list feedback_event))
    (nmac : list (string * nmac_entry)) :
  active_user_ids (fst (update_missions parse_client_ts now um feedback nmac))
  = active_user_ids um /\
  forall uid,
    match users um !! uid with
    | None => users (fst (update_missions parse_client_ts now um feedback nmac)) !! uid = None
    | Some u =>
        exists u',
          users (fst (update_missions parse_client_ts now um feedback nmac)) !! uid = Some u' /\
          user_id u' = user_id u /\ active u' = active u /\
          personal_data u' = personal_data u /\
          selected_missions_and_contents u `prefix_of` selected_missions_and_contents u' /\
          (uid ∉ PyDict.keys (merged_by_user parse_client_ts now um feedback nmac) -> u' = u)
    end.
Proof.
  unfold update_missions.
  destruct (apply_merged_grows parse_client_ts
              (merged_by_user parse_client_ts now um feedback nmac) um) as [Ha Hu].
  split; [done|]. intros uid. specialize (Hu uid).
  destruct (users um !! uid) as [u|]; [|done].
  destruct Hu as (u' & Hu' & (Hid & Hact & Hpd & _ & Hpre) & Hsame).
  by exists u'.
Qed.

(** *** The mission that [_select_contents] plans *)

Definition set_new_plan_required (b : bool) (u : user) : user :=
  {| user_id := user_id u; intervention_start_date := intervention_start_date u;
     personal_data := personal_data u; active := active u;
     missions_started := missions_started u; new_plan_required := b;
     selected_missions_and_contents := selected_missions_and_contents u;
     only_one_rec_already := only_one_rec_already u;
     eow_rec_id_to_fv := eow_rec_id_to_fv u;
     previous_mission_score := previous_mission_score u |}.

(** How [_select_contents] treats a user: passed over, or planned for one
    mission. *)
Inductive plan_choice :=
| Skipped
| Planned (u : user) (m : mission).

Section Plan.
Variable parse_client_ts : string -> option Z.

(** [max(new_missions, key=lambda m: parse_client_ts(m["selection_timestamp"]))]:
    the first mission with the latest instant; a timestamp that does not
    parse raises. *)
Fixpoint latest_from (best : mission) (best_ts : Z) (ms : list mission) : option mission :=
  match ms with
  | [] => Some best
  | m :: rest =>
      match selection_timestamp m ≫= parse_client_ts with
      | Some ts =>
          if (best_ts <? ts)%Z then latest_from m ts rest else latest_from best best_ts rest
      | None => None
      end
  end.

Definition latest_mission (ms : list mission) : option mission :=
  match ms with
  | [] => None
  | m :: rest =>
      match selection_timestamp m ≫= parse_client_ts with
      | Some ts => latest_from m ts rest
      | None => None
      end
  end.

(** The start of the loop body of [_select_contents] for one user: the most
    recent of the missions that wait for a plan is chosen, and the plan flag
    of the others is cleared. [None] when the call raises. *)
Definition choose_mission (u : user) : option plan_choice :=
  if new_plan_required u then
    match get_new_missions u with
    | [] => Some Skipped
    | new_missions =>
        match latest_mission new_missions with
        | Some m =>
            let older_ids :=
              map mission_id
                  (filter (fun x => mission_id x ≠ mission_id m) new_missions) in
            Some (Planned (match older_ids with
                           | [] => u
                           | _ => set_missions_plan_to_false u older_ids
                           end) m)
        | None => None
        end
    end
  else Some Skipped.

(** The end of the loop body: [user.new_plan_required = False;
    user.set_missions_plan_to_false([mission_id])]. *)
Definition close_plan (u : user) (mid : string) : user :=
  set_missions_plan_to_false (set_new_plan_required false u) [mid].

Lemma latest_from_spec ms : forall best best_ts m,
  selection_timestamp best ≫= parse_client_ts = Some best_ts ->
  latest_from best best_ts ms = Some m ->
  m ∈ best :: ms /\
  exists t, selection_timestamp m ≫= parse_client_ts = Some t /\ (best_ts <= t)%Z /\
    forall m', m' ∈ ms ->
      exists t', selection_timestamp m' ≫= parse_client_ts = Some t' /\ (t' <= t)%Z.
Proof.
  induction ms as [|x ms IH]; intros best best_ts m Hbest; simpl.
  - intros [= <-]. split; [left|]. exists best_ts. split_and!; [done | lia |].
    intros m' Hin. by apply elem_of_nil in Hin.
  - destruct (selection_timestamp x ≫= parse_client_ts) as [ts|] eqn:Hx; [|done].
    destruct (best_ts <? ts)%Z eqn:Hlt.
    + apply Z.ltb_lt in Hlt. intros Hl.
      destruct (IH _ _ _ Hx Hl) as (Hin & t & Ht & Hle & Hall).
      split; [by right|]. exists t. split_and!; [done | lia |].
      intros m' Hm'. apply elem_of_cons in Hm' as [->|Hm']; [|by apply Hall].
      exists ts. by split.
    + apply Z.ltb_ge in Hlt. intros Hl.
      destruct (IH _ _ _ Hbest Hl) as (Hin & t & Ht & Hle & Hall).
      split.
      * apply elem_of_cons in Hin as [->|Hin]; [left | right; by right].
      * exists t. split_and!; [done | done |].
        intros m' Hm'. apply elem_of_cons in Hm' as [->|Hm']; [|by apply Hall].
        exists ts. split; [done | lia].
Qed.

Lemma latest_mission_spec ms m :
  latest_mission ms = Some m ->
  m ∈ ms /\
  exists t, selection_timestamp m ≫= parse_client_ts = Some t /\
    forall m', m' ∈ ms ->
      exists t', selection_timestamp m' ≫= parse_client_ts = Some t' /\ (t' <= t)%Z.
Proof.
  destruct ms as [|x ms]; simpl; [done|].
  destruct (selection_timestamp x ≫= parse_client_ts) as [ts|] eqn:Hx; [|done].
  intros Hl. destruct (latest_from_spec _ _ _ _ Hx Hl) as (Hin & t & Ht & Hle & Hall).
  split; [done|]. exists t. split; [done|].
  intros m' Hm'. apply elem_of_cons in Hm' as [->|Hm']; [|by apply Hall].
  exists ts. by split.
Qed.

(** X25. When [_select_contents] plans for a user, the mission it takes is
    one of the missions that wait for a plan and none of them was selected
    later; the missions left waiting are the records of that mission alone;
    and once the plan is closed no mission waits, whatever the planning did
    to the rest of the user record. *)
Theorem plans_most_recent_mission (u u' : user) (m : mission) :
  choose_mission u = Some (Planned u' m) ->
  m ∈ get_new_missions u /\
  (exists t, selection_timestamp m ≫= parse_client_ts = Some t /\
     forall m', m' ∈ get_new_missions u ->
       exists t', selection_timestamp m' ≫= parse_client_ts = Some t' /\ (t' <= t)%Z) /\
  get_new_missions u'
  = filter (fun x => mission_id x = mission_id m) (get_new_missions u) /\
  (forall u'', selected_missions_and_contents u'' = selected_missions_and_contents u' ->
     get_new_missions (close_plan u'' (mission_id m)) = []).
Proof.
  unfold choose_mission. destruct (new_plan_required u); [|done].
  destruct (get_new_missions u) as [|m0 ms] eqn:Hnew; [done|]. rewrite <- Hnew.
  destruct (latest_mission (get_new_missions u)) as [m1|] eqn:Hlatest; [|by rewrite Hnew].
  intros Hc. assert (m1 = m /\
    u' = match map mission_id (filter (fun x => mission_id x ≠ mission_id m)
                                 (get_new_missions u)) with
         | [] => u
         | _ => set_missions_plan_to_false u
                  (map mission_id (filter (fun x => mission_id x ≠ mission_id m)
                                     (get_new_missions u)))
         end) as [-> ->].
  { rewrite Hnew in Hc |- *. by injection Hc as <- <-. }
  clear Hc. destruct (latest_mission_spec _ _ Hlatest) as (Hin & Hmax).
  set (older := map mission_id (filter (fun x => mission_id x ≠ mission_id m)
                                  (get_new_missions u))).
  assert (Holder : forall x, x ∈ get_new_missions u ->
            mission_id x ∉ older <-> mission_id x = mission_id m).
  { intros x Hx. split.
    - intros Hn. destruct (decide (mission_id x = mission_id m)) as [|Hne]; [done|].
      exfalso. apply Hn. apply list_elem_of_fmap. exists x. split; [done|].
      by apply list_elem_of_filter.
    - intros Heq Hold. apply list_elem_of_fmap in Hold as (y & Hy & Hyin).
      apply list_elem_of_filter in Hyin as [Hne _]. congruence. }
  assert (Hleft : get_new_missions
                    (match older with [] => u | _ => set_missions_plan_to_false u older end)
                  = filter (fun x => mission_id x = mission_id m) (get_new_missions u)).
  { transitivity (filter (fun x => mission_id x ∉ older) (get_new_missions u)).
    - destruct older as [|o os] eqn:Hold; [|by rewrite get_new_missions_cleared].
      symmetry. apply filter_all. intros x _. apply not_elem_of_nil.
    - by apply filter_agree. }
  split_and!; [done | done | done |].
  intros u'' Hsame. unfold close_plan. rewrite get_new_missions_cleared.
  replace (get_new_missions (set_new_plan_required false u''))
    with (filter (fun x => mission_id x = mission_id m) (get_new_missions u)).
  2:{ rewrite <- Hleft. unfold get_new_missions. simpl. by rewrite Hsame. }
  apply filter_none. intros x Hx Hn. apply list_elem_of_filter in Hx as [Hx _].
  apply Hn. rewrite Hx. left.
Qed.
End Plan.

(** A user for whom two missions wait, "SM0" selected a month before "SM1". *)
Definition example_earlier_mission : mission :=
  {| mission_id := "SM0"; recommendations := ["SRc3"]; resources := [];
     prescribed := false; selection_timestamp := Some "2025-01-01T00:00:00Z";
     plan_required := false |}.

Definition example_waiting : user :=
  fst (update_missions_and_contents example_parse
         (new_user "u1" example_profile (Some 1735689600%Z))
         [example_earlier_mission; example_mission]).

Lemma plans_most_recent_mission_witness :
  choose_mission example_parse example_waiting
  = Some (Planned (set_missions_plan_to_false example_waiting ["SM0"])
            (set_plan_required true example_mission)) /\
  get_new_missions (set_missions_plan_to_false example_waiting ["SM0"])
  = filter (fun x => mission_id x = mission_id (set_plan_required true example_mission))
      (get_new_missions example_waiting).
Proof.
  exact (conj eq_refl
           (proj1 (proj2 (proj2
              (plans_most_recent_mission example_parse example_waiting
                 (set_missions_plan_to_false example_waiting ["SM0"])
                 (set_plan_required true example_mission) eq_refl))))).
Defined.
End Core.

(** ** [frequency_updaters.py], [feature_builders.py], [selector.py], [engine.py] *)
Module Engine.
Import UserState.

(** What a slate-generation call reads from its surroundings. The feature
    pipeline and the bandits' draws are taken as they come: the quota logic
    is proved for every feature function and every sequence of draws. *)
Record env := Env {
  (** [recommendations[rec_id]["intervention_type"]] of the catalog *)
  recommendations : gmap string (option (list string));
  (** the feature pipeline call of [get_mission_to_feature_vec_to_rec_ids] for
      one (mission, item) under the given offsets and prompted flag; [None]
      when it raises *)
  feature_vector : bool -> nat -> list (string * Q) -> list (string * nat) ->
                   string -> string -> option (list Q);
  (** [INTERVENTION_MAB_CONFIG["type"]], [RECOMMENDATION_MAB_CONFIG["type"]] *)
  intervention_cfg : string;
  recommendation_cfg : string;
  (** [LogisticLaplaceTS.select_action] at the [n]-th draw: the index of the
      chosen feature vector and its estimated reward *)
  intervention_select : nat -> list (list string) -> list (list Q) -> nat * Q;
  (** [RecommendationOptimalBandit] / [RandomBandit] [select_action] at the
      [n]-th draw: the index of the chosen item among all candidates and
      its estimated reward *)
  recommendation_select : nat -> list (list string) -> list (list Q) -> nat * Q;
  (** [np.random.beta] of [BernoulliBetaTS] *)
  random_beta : nat -> Q -> Q -> Q;
  parse_client_ts : string -> option Z;
  now : Z;
  (** [time_handler.now.month] *)
  month : nat
}.

(** The objects a call mutates. *)
Record state := State {
  user : UserState.user;
  binder : ProcessBinder.t;
  recommendation_mab : BernoulliBetaTS.t;
  tick : nat;
  plan_id : string;
  content_count : nat
}.

(** The local variables of [get_recommendations_to_send]; a slate entry is
    [(id, mission_id)], its type being always "recommendation". *)
Record locals := Locals {
  selected_recs : list (string * string);
  total_freq_offset : nat;
  intv_to_freq_offset : list (string * Q);
  rec_to_freq_offset : list (string * nat);
  mission_to_selected_rec_to_count : list (string * list (string * nat));
  mission_to_available_recs : list (string * list string)
}.

Definition is_winter (e : env) : bool := bool_decide (month e ∈ [12; 1; 2]%nat).
Definition is_spring (e : env) : bool := bool_decide (month e ∈ [3; 4; 5]%nat).

(** [if x in l and not season: l.remove(x)] *)
Definition remove_unless (season : bool) (x : string) (l : list string) : list string :=
  if bool_decide (x ∈ l) && negb season then list_remove x l else l.

(** [User.get_available_recommendations]: the list of the first record of
    the mission, without the items that are out of season. *)
Definition get_available_recommendations (e : env) (u : UserState.user) (mid : string)
    : list string :=
  match List.find (fun m => bool_decide (mission_id m = mid))
                  (selected_missions_and_contents u) with
  | Some m =>
      remove_unless (is_spring e) "ERc110"
        (remove_unless (is_winter e) "ERc66"
           (remove_unless (is_winter e) "ERc65" (UserState.recommendations m)))
  | None => []
  end.

(** *** [update_frequency_offsets] *)

(** [for itype, w in zip(INTERVENTION_TYPES, mix): if w: d[itype] = d.get(itype, 0.0) + w] *)
Definition add_mixture (mix : list Q) (d : list (string * Q)) : list (string * Q) :=
  foldl (fun d '(itype, w) =>
           if Qeq_bool w 0 then d
           else PyDict.set itype (default 0%Q (PyDict.get itype d) + w)%Q d)
        d (zip Encoding.INTERVENTION_TYPES mix).

(** [list(set(curr) & set(used))]; the order of the result is the one of the
    set's elements. *)
Definition set_intersection (curr used : list string) : list string :=
  elements ((list_to_set curr : gset string) ∩ list_to_set used).

Definition update_frequency_offsets (e : env) (sel_rec_id mid : string) (loc : locals)
    : option locals :=
  let counts := default [] (PyDict.get mid (mission_to_selected_rec_to_count loc)) in
  let c := S (default 0%nat (PyDict.get sel_rec_id counts)) in
  let counts' := PyDict.set sel_rec_id c counts in
  intervention_type ← recommendations e !! sel_rec_id;
  mix ← Encoding.get_intervention_encoding intervention_type;
  let intv := add_mixture mix (intv_to_freq_offset loc) in
  let recf := PyDict.set sel_rec_id
                (S (default 0%nat (PyDict.get sel_rec_id (rec_to_freq_offset loc))))
                (rec_to_freq_offset loc) in
  avail1 ←
    (if (Encoding.MAX_SAME_REC_SENT_PER_MISSION <=? c)%nat then
       recs ← PyDict.get mid (mission_to_available_recs loc);
       if bool_decide (sel_rec_id ∈ recs)
       then Some (PyDict.set mid (list_remove sel_rec_id recs) (mission_to_available_recs loc))
       else None
     else Some (mission_to_available_recs loc));
  avail2 ←
    (if (Encoding.MAX_DISTINCT_REC_PER_MISSION <=? length counts')%nat then
       curr ← PyDict.get mid avail1;
       Some (PyDict.set mid (set_intersection curr (PyDict.keys counts')) avail1)
     else Some avail1);
  Some {| selected_recs := selected_recs loc;
          total_freq_offset := S (total_freq_offset loc);
          intv_to_freq_offset := intv;
          rec_to_freq_offset := recf;
          mission_to_selected_rec_to_count :=
            PyDict.set mid counts' (mission_to_selected_rec_to_count loc);
          mission_to_available_recs := avail2 |}.

(** *** [User.update_avail_recommendations] *)

(** [if sel_rec_id in {"SRc100", "SRc101"} and sel_rec_id in recs: ...] *)
Definition prune_exclusive (sel_rec_id : string) (recs : list string) : list string :=
  if bool_decide (sel_rec_id ∈ ["SRc100"; "SRc101"]) && bool_decide (sel_rec_id ∈ recs)
  then let other := if bool_decide (sel_rec_id = "SRc100") then "SRc101" else "SRc100" in
       if bool_decide (other ∈ recs) then list_remove other recs else recs
  else recs.

(** The body of the loop for one mission's list; [only_one] is
    [user.only_one_rec_already]. *)
Definition prune_recs (sel_rec_id : string) (only_one recs : list string)
    : list string * list string :=
  if bool_decide (sel_rec_id = "SRc52") && bool_decide (sel_rec_id ∈ recs)
     && negb (bool_decide ("SRc52" ∈ only_one))
  then (only_one ++ ["SRc52"], prune_exclusive sel_rec_id (list_remove "SRc52" recs))
  else (only_one, prune_exclusive sel_rec_id recs).

Fixpoint prune_all (sel_rec_id : string) (only_one : list string)
    (m2r : list (string * list string)) : list string * list (string * list string) :=
  match m2r with
  | [] => (only_one, [])
  | (mid, recs) :: rest =>
      let '(only_one1, recs1) := prune_recs sel_rec_id only_one recs in
      let '(only_one2, rest') := prune_all sel_rec_id only_one1 rest in
      (only_one2, (mid, recs1) :: rest')
  end.

Definition set_only_one (u : UserState.user) (l : list string) : UserState.user :=
  {| user_id := user_id u; intervention_start_date := intervention_start_date u;
     personal_data := personal_data u; active := active u;
     missions_started := missions_started u; new_plan_required := new_plan_required u;
     selected_missions_and_contents := selected_missions_and_contents u;
     only_one_rec_already := l;
     eow_rec_id_to_fv := eow_rec_id_to_fv u;
     previous_mission_score := previous_mission_score u |}.

Definition set_eow (u : UserState.user) (d : list (string * option (list Q)))
    : UserState.user :=
  {| user_id := user_id u; intervention_start_date := intervention_start_date u;
     personal_data := personal_data u; active := active u;
     missions_started := missions_started u; new_plan_required := new_plan_required u;
     selected_missions_and_contents := selected_missions_and_contents u;
     only_one_rec_already := only_one_rec_already u;
     eow_rec_id_to_fv := d;
     previous_mission_score := previous_mission_score u |}.

Definition update_avail_recommendations (u : UserState.user)
    (m2r : list (string * list string)) (sel_rec_id : string)
    : UserState.user * list (string * list string) :=
  let '(only_one, m2r') := prune_all sel_rec_id (only_one_rec_already u) m2r in
  (set_only_one u only_one, m2r').

(** *** [get_mission_to_feature_vec_to_rec_ids] *)

(** Equality of two feature vectors as dict keys (tuples of floats). *)
Fixpoint fv_eqb (a b : list Q) : bool :=
  match a, b with
  | [], [] => true
  | x :: a', y :: b' => Qeq_bool x y && fv_eqb a' b'
  | _, _ => false
  end.

(** [d.setdefault(fv, []).append(rec_id)] on a dict keyed by feature vector. *)
Fixpoint group_add (fv : list Q) (rec_id : string) (groups : list (list Q * list string))
    : list (list Q * list string) :=
  match groups with
  | [] => [(fv, [rec_id])]
  | (k, ids) :: rest =>
      if fv_eqb k fv then (k, ids ++ [rec_id]) :: rest
      else (k, ids) :: group_add fv rec_id rest
  end.

(** The inner loop over the available items of one mission. *)
Definition add_mission_recs (e : env) (prompted : bool) (loc : locals) (mid : string)
    (recs : list string) (d : option (list (string * list (list Q * list string))))
    : option (list (string * list (list Q * list string))) :=
  foldl (fun acc rec_id =>
           d ← acc;
           _ ← recommendations e !! rec_id;
           fv ← feature_vector e prompted (total_freq_offset loc) (intv_to_freq_offset loc)
                  (rec_to_freq_offset loc) mid rec_id;
           groups ← PyDict.get mid d;
           Some (PyDict.set mid (group_add fv rec_id groups) d))
        d recs.

Definition get_mission_to_feature_vec_to_rec_ids (e : env) (u : UserState.user)
    (avail : list (string * list string)) (loc : locals) (prompted : bool)
    : option (list (string * list (list Q * list string))) :=
  match get_new_missions u with
  | [] => Some []
  | (m0 :: _) as user_missions =>
      let d0 := foldl (fun d m => PyDict.set (mission_id m) [] d) [] user_missions in
      _ ← selection_timestamp m0 ≫= parse_client_ts e;
      foldl (fun acc '(mid, recs) => add_mission_recs e prompted loc mid recs acc)
            (Some d0) avail
  end.

(** *** [select_recommendation] *)

(** The special case of "SRc52": alone when it was never selected, removed
    otherwise (groups left empty are dropped). *)
Definition s52_candidates (only_one : list string) (fmap : list (list Q * list string))
    : list (list Q * list string) :=
  match List.find (fun g => bool_decide ("SRc52" ∈ snd g)) fmap with
  | Some (fv_with_s52, _) =>
      if bool_decide ("SRc52" ∈ only_one) then
        omap (fun g =>
                let new_ids := filter (fun rid => rid ≠ "SRc52") (snd g) in
                match new_ids with [] => None | _ => Some (fst g, new_ids) end)
             fmap
      else [(fv_with_s52, ["SRc52"])]
  | None => fmap
  end.

(** [not select_anyway and sampled["estimated_reward"] <= 0.5] *)
Definition rejected (select_anyway : bool) (estimated_reward : Q) : bool :=
  negb select_anyway && Qle_bool estimated_reward (1 # 2).

Definition next_tick (st : state) (n : nat) : state :=
  {| user := user st; binder := binder st; recommendation_mab := recommendation_mab st;
     tick := n; plan_id := plan_id st; content_count := content_count st |}.

(** [handle_recommendation_mab_only] *)
Definition handle_recommendation_mab_only (e : env) (st : state)
    (fmap : list (list Q * list string)) (select_anyway : bool)
    : option (state * option (string * option (list Q))) :=
  let rec_ids := concat (map snd fmap) in
  if bool_decide (recommendation_cfg e = "RecommendationOptimalBandit")
     || bool_decide (recommendation_cfg e = "RandomBandit") then
    let '(best_idx, est) := recommendation_select e (tick st) (map snd fmap) (map fst fmap) in
    sel ← rec_ids !! best_idx;
    if rejected select_anyway est then Some (next_tick st (S (tick st)), None)
    else Some (next_tick st (S (tick st)), Some (sel, None))
  else None.

(** [handle_intervention_mab], with [handle_recommendation_mab] inlined. *)
Definition handle_intervention_mab (e : env) (st : state)
    (fmap : list (list Q * list string)) (select_anyway : bool)
    : option (state * option (string * option (list Q))) :=
  if bool_decide (intervention_cfg e = "LogisticLaplaceTS") then
    let '(best_idx, est) := intervention_select e (tick st) (map snd fmap) (map fst fmap) in
    selected_rec_ids ← map snd fmap !! best_idx;
    selected_feature_vector ← map fst fmap !! best_idx;
    if rejected select_anyway est then Some (next_tick st (S (tick st)), None)
    else if bool_decide (recommendation_cfg e = "BernoulliBetaTS") then
      '(mab, n, sel, _) ← BernoulliBetaTS.select_action (random_beta e)
                             (recommendation_mab st) (S (tick st)) selected_rec_ids;
      Some ({| user := user st; binder := binder st; recommendation_mab := mab;
               tick := n; plan_id := plan_id st; content_count := content_count st |},
            Some (sel, Some selected_feature_vector))
    else None
  else None.

Definition select_recommendation (e : env) (st : state)
    (feature_vec_to_rec_ids : list (list Q * list string)) (select_anyway : bool)
    : option (state * option (string * option (list Q))) :=
  match feature_vec_to_rec_ids with
  | [] => Some (st, None)
  | _ =>
      let fmap := s52_candidates (only_one_rec_already (user st)) feature_vec_to_rec_ids in
      if bool_decide (intervention_cfg e = "None")
      then handle_recommendation_mab_only e st fmap select_anyway
      else handle_intervention_mab e st fmap select_anyway
  end.

(** *** [RecommendationEngine.get_recommendations_to_send] *)

(** The end of one iteration of the slot loop: the loop ends ([break], or
    no slot left) or goes on with the given [count]. *)
Inductive step_result :=
| Stop (st : state) (loc : locals)
| Next (count : nat) (st : state) (loc : locals).

Definition add_selected (loc : locals) (sel_rec_id mid : string) : locals :=
  {| selected_recs := selected_recs loc ++ [(sel_rec_id, mid)];
     total_freq_offset := total_freq_offset loc;
     intv_to_freq_offset := intv_to_freq_offset loc;
     rec_to_freq_offset := rec_to_freq_offset loc;
     mission_to_selected_rec_to_count := mission_to_selected_rec_to_count loc;
     mission_to_available_recs := mission_to_available_recs loc |}.

Definition set_available (loc : locals) (avail : list (string * list string)) : locals :=
  {| selected_recs := selected_recs loc;
     total_freq_offset := total_freq_offset loc;
     intv_to_freq_offset := intv_to_freq_offset loc;
     rec_to_freq_offset := rec_to_freq_offset loc;
     mission_to_selected_rec_to_count := mission_to_selected_rec_to_count loc;
     mission_to_available_recs := avail |}.

(** What follows an accepted choice: the decision is enqueued, the slate and
    the offsets are updated, the end-of-week vector is cached, the
    availability is pruned. *)
Definition accept (e : env) (unchanged : list (string * list string)) (mid : string)
    (count : nat) (st : state) (loc : locals) (sel_rec_id : string) (sel_fv : option (list Q))
    : option step_result :=
  let binder' :=
    ProcessBinder.enqueue_decision (binder st) (user_id (user st)) (plan_id st)
      {| ProcessBinder.content_count := Some (content_count st);
         ProcessBinder.rec_id := sel_rec_id;
         ProcessBinder.mission_id := Some mid;
         ProcessBinder.feature_vector := sel_fv;
         ProcessBinder.selection_time := Some (now e) |} in
  loc2 ← update_frequency_offsets e sel_rec_id mid (add_selected loc sel_rec_id mid);
  fmaps ← get_mission_to_feature_vec_to_rec_ids e (user st) unchanged loc2 true;
  groups ← PyDict.get mid fmaps;
  let u3 :=
    match List.find (fun g => bool_decide (sel_rec_id ∈ snd g)) groups with
    | Some (eow_fv, _) =>
        set_eow (user st) (PyDict.set sel_rec_id (Some eow_fv) (eow_rec_id_to_fv (user st)))
    | None => user st
    end in
  let '(u4, avail') := update_avail_recommendations u3 (mission_to_available_recs loc2)
                         sel_rec_id in
  let st' := {| user := u4; binder := binder'; recommendation_mab := recommendation_mab st;
                tick := tick st; plan_id := plan_id st;
                content_count := S (content_count st) |} in
  recs ← PyDict.get mid avail';
  match recs with
  | [] => Some (Stop st' (set_available loc2 avail'))
  | _ => Some (Next (S count) st' (set_available loc2 avail'))
  end.

(** One iteration of [for _ in range(num_slots)]. *)
Definition slot_step (e : env) (unchanged : list (string * list string)) (mid : string)
    (count : nat) (st : state) (loc : locals) : option step_result :=
  fmaps ← get_mission_to_feature_vec_to_rec_ids e (user st)
             (mission_to_available_recs loc) loc false;
  match PyDict.get mid fmaps with
  | None | Some [] => Some (Stop st loc)
  | Some fv_map =>
      '(st1, choice) ← select_recommendation e st fv_map
                          (count <=? Encoding.MIN_NUM_REC_PER_MISSION)%nat;
      match choice with
      | None => Some (Next count st1 loc)
      | Some (sel_rec_id, sel_fv) => accept e unchanged mid count st1 loc sel_rec_id sel_fv
      end
  end.

Fixpoint fill_slots (e : env) (unchanged : list (string * list string)) (num_slots : nat)
    (mid : string) (count : nat) (st : state) (loc : locals) : option (state * locals) :=
  match num_slots with
  | 0%nat => Some (st, loc)
  | S n =>
      r ← slot_step e unchanged mid count st loc;
      match r with
      | Stop st' loc' => Some (st', loc')
      | Next count' st' loc' => fill_slots e unchanged n mid count' st' loc'
      end
  end.

(** [{m["mission"]: f(m) for m in user_missions}] *)
Definition by_mission {V : Type} (f : mission -> V) (user_missions : list mission)
    : list (string * V) :=
  foldl (fun d m => PyDict.set (mission_id m) (f m) d) [] user_missions.

Definition initial_locals (avail : list (string * list string)) : locals :=
  {| selected_recs := []; total_freq_offset := 0; intv_to_freq_offset := [];
     rec_to_freq_offset := []; mission_to_selected_rec_to_count := [];
     mission_to_available_recs := avail |}.

(** [for mission_id, num_slots in mission_to_num_slots.items(): count = 1; ...] *)
Fixpoint plan_missions (e : env) (unchanged : list (string * list string))
    (slots : list (string * nat)) (st : state) (loc : locals) : option (state * locals) :=
  match slots with
  | [] => Some (st, loc)
  | (mid, num_slots) :: rest =>
      '(st', loc') ← fill_slots e unchanged num_slots mid 1 st loc;
      plan_missions e unchanged rest st' loc'
  end.

Definition get_recommendations_to_send (e : env) (st : state)
    : option (list (string * string) * state) :=
  let user_missions := get_new_missions (user st) in
  let avail :=
    by_mission (fun m => get_available_recommendations e (user st) (mission_id m))
               user_missions in
  let slots :=
    by_mission (fun _ => (Encoding.MAX_NUM_REC_PER_MISSION / length user_missions)%nat)
               user_missions in
  '(st', loc) ← plan_missions e avail slots st (initial_locals avail);
  Some (selected_recs loc, st').

(** *** Counting in a slate *)

(** The number of times item [r] stands in the slate for mission [m]. *)
Definition occurrences (r m : string) (slate : list (string * string)) : nat :=
  length (filter (fun y => y = (r, m)) slate).

(** The number of slate entries of mission [m]. *)
Definition mission_total (m : string) (slate : list (string * string)) : nat :=
  length (filter (fun y => snd y = m) slate).

(** The items of the slate for mission [m]. *)
Definition mission_ids (m : string) (slate : list (string * string)) : list string :=
  map fst (filter (fun y => snd y = m) slate).

(** The number of times item [r] stands in the slate, whatever the mission. *)
Definition item_total (r : string) (slate : list (string * string)) : nat :=
  length (filter (fun y => fst y = r) slate).

Lemma occurrences_snoc r m slate r' m' :
  occurrences r m (slate ++ [(r', m')]) =
  (occurrences r m slate + if decide ((r', m') = (r, m)) then 1 else 0)%nat.
Proof.
  unfold occurrences. rewrite filter_app, length_app. f_equal.
  rewrite filter_cons, filter_nil. by destruct (decide ((r', m') = (r, m))).
Qed.

Lemma mission_total_snoc m slate r' m' :
  mission_total m (slate ++ [(r', m')]) =
  (mission_total m slate + if decide (m' = m) then 1 else 0)%nat.
Proof.
  unfold mission_total. rewrite filter_app, length_app. f_equal.
  rewrite filter_cons, filter_nil. simpl. by destruct (decide (m' = m)).
Qed.

Lemma item_total_snoc r slate r' m' :
  item_total r (slate ++ [(r', m')]) =
  (item_total r slate + if decide (r' = r) then 1 else 0)%nat.
Proof.
  unfold item_total. rewrite filter_app, length_app. f_equal.
  rewrite filter_cons, filter_nil. simpl. by destruct (decide (r' = r)).
Qed.

Lemma mission_ids_snoc m slate r' m' :
  mission_ids m (slate ++ [(r', m')]) =
  mission_ids m slate ++ if decide (m' = m) then [r'] else [].
Proof.
  unfold mission_ids. rewrite filter_app, map_app. f_equal.
  rewrite filter_cons, filter_nil. simpl. by destruct (decide (m' = m)).
Qed.

Lemma occurrences_le_item_total r m slate :
  (occurrences r m slate <= item_total r slate)%nat.
Proof.
  unfold occurrences, item_total. induction slate as [|[r' m'] slate IH]; [done|].
  rewrite !filter_cons. simpl.
  destruct (decide ((r', m') = (r, m))) as [[= -> ->]|Hne].
  - rewrite decide_True by done. simpl. lia.
  - destruct (decide (r' = r)); simpl; lia.
Qed.

Lemma occurrences_pos_mission_ids r m slate :
  r ∈ mission_ids m slate <-> (0 < occurrences r m slate)%nat.
Proof.
  unfold occurrences, mission_ids. induction slate as [|[r' m'] slate IH].
  - simpl. split; [intros H; by apply elem_of_nil in H | lia].
  - rewrite !filter_cons. simpl.
    destruct (decide (m' = m)) as [->|Hm].
    + destruct (decide ((r', m) = (r, m))) as [[= ->]|Hne]; simpl.
      * split; [lia | intros _; left].
      * rewrite <- IH. rewrite elem_of_cons. split; [|by right].
        intros [->|H]; [done | done].
    + rewrite decide_False by congruence. exact IH.
Qed.

(** *** Removing from a list *)

Lemma list_remove_sublist x l : list_remove x l `sublist_of` l.
Proof.
  induction l as [|y l IH]; simpl; [done|].
  destruct (decide (y = x)); [by apply sublist_cons | by apply sublist_skip].
Qed.

Lemma list_remove_NoDup_notin x l : NoDup l -> x ∉ list_remove x l.
Proof.
  induction l as [|y l IH]; simpl; intros Hnd; [apply not_elem_of_nil|].
  apply NoDup_cons in Hnd as [Hn Hnd]. destruct (decide (y = x)) as [->|Hne]; [done|].
  apply not_elem_of_cons. split; [congruence | by apply IH].
Qed.

Lemma list_remove_elem_ne x y l : y ≠ x -> y ∈ l -> y ∈ list_remove x l.
Proof.
  intros Hne. induction l as [|z l IH]; simpl; [done|].
  intros Hy. destruct (decide (z = x)) as [->|Hzx].
  - apply elem_of_cons in Hy as [->|Hy]; [done | done].
  - apply elem_of_cons in Hy as [->|Hy]; [left | right; by apply IH].
Qed.

(** *** Availability only shrinks *)

(** [a'] has the missions of [a], each with a list that holds only items of
    the former list and repeats none if the former repeated none. *)
Definition shrinks (a' a : list (string * list string)) : Prop :=
  PyDict.keys a' = PyDict.keys a /\
  forall m recs', PyDict.get m a' = Some recs' ->
    exists recs, PyDict.get m a = Some recs /\ recs' ⊆ recs /\ (NoDup recs -> NoDup recs').

Lemma shrinks_refl a : shrinks a a.
Proof. split; [done|]. intros m recs Hm. exists recs. by split_and!. Qed.

Lemma shrinks_trans a b c : shrinks a b -> shrinks b c -> shrinks a c.
Proof.
  intros [Hk1 H1] [Hk2 H2]. split; [congruence|].
  intros m ra Ha. destruct (H1 m ra Ha) as (rb & Hb & Hsub1 & Hnd1).
  destruct (H2 m rb Hb) as (rc & Hc & Hsub2 & Hnd2).
  exists rc. split_and!; [done | by etrans | auto].
Qed.

Lemma shrinks_set m recs recs' a :
  PyDict.get m a = Some recs -> recs' ⊆ recs -> (NoDup recs -> NoDup recs') ->
  shrinks (PyDict.set m recs' a) a.
Proof.
  intros Hm Hsub Hnd. split.
  - apply PyDict.keys_set_mem. by eapply PyDict.get_Some_keys.
  - intros m' r' Hr'. destruct (decide (m = m')) as [<-|Hne].
    + rewrite PyDict.get_set_eq in Hr'. injection Hr' as <-. by exists recs.
    + rewrite PyDict.get_set_ne in Hr' by done. exists r'. by split_and!.
Qed.

Lemma shrinks_wf a' a : shrinks a' a -> PyDict.wf a -> PyDict.wf a'.
Proof. intros [Hk _]. unfold PyDict.wf. by rewrite Hk. Qed.

Lemma prune_exclusive_sublist sel recs : prune_exclusive sel recs `sublist_of` recs.
Proof.
  unfold prune_exclusive. destruct (_ && _); [|done].
  destruct (bool_decide _); [apply list_remove_sublist | done].
Qed.

Lemma prune_recs_spec sel oo recs oo' recs' :
  prune_recs sel oo recs = (oo', recs') ->
  recs' `sublist_of` recs /\
  (oo' = oo \/ (oo' = oo ++ ["SRc52"] /\ sel = "SRc52" /\ "SRc52" ∉ oo)) /\
  (sel = "SRc52" -> "SRc52" ∈ recs -> "SRc52" ∈ oo').
Proof.
  unfold prune_recs.
  destruct (bool_decide (sel = "SRc52") && bool_decide (sel ∈ recs)
            && negb (bool_decide ("SRc52" ∈ oo))) eqn:H52.
  - apply andb_true_iff in H52 as [H52 Hoo]. apply andb_true_iff in H52 as [Hsel Hin].
    apply bool_decide_eq_true in Hsel. apply negb_true_iff, bool_decide_eq_false in Hoo.
    intros [= <- <-]. split_and!.
    + etrans; [apply prune_exclusive_sublist | apply list_remove_sublist].
    + right. by split_and!.
    + intros _ _. apply elem_of_app. right. left.
  - intros [= <- <-]. split_and!.
    + apply prune_exclusive_sublist.
    + by left.
    + intros -> Hin. apply andb_false_iff in H52 as [H52|H52].
      * apply andb_false_iff in H52 as [H52|H52].
        -- by apply bool_decide_eq_false in H52.
        -- by apply bool_decide_eq_false in H52.
      * apply negb_false_iff in H52. by apply bool_decide_eq_true in H52.
Qed.

Lemma prune_all_spec sel m2r : forall oo oo' m2r',
  prune_all sel oo m2r = (oo', m2r') ->
  Forall2 (fun x' x => fst x' = fst x /\ snd x' `sublist_of` snd x) m2r' m2r /\
  oo ⊆ oo' /\
  (forall x, x ∈ oo' -> x ∈ oo \/ (x = "SRc52" /\ sel = "SRc52" /\ "SRc52" ∉ oo)) /\
  (sel = "SRc52" -> (exists m recs, (m, recs) ∈ m2r /\ "SRc52" ∈ recs) -> "SRc52" ∈ oo').
Proof.
  induction m2r as [|[m recs] m2r IH]; intros oo oo' m2r'; simpl.
  - intros [= <- <-]. split_and!; [constructor | done | by left |].
    intros _ (m & recs & Hin & _). by apply elem_of_nil in Hin.
  - destruct (prune_recs sel oo recs) as [oo1 recs1] eqn:Hp.
    destruct (prune_all sel oo1 m2r) as [oo2 rest'] eqn:Hr.
    intros [= <- <-].
    destruct (prune_recs_spec _ _ _ _ _ Hp) as (Hsub & Hoo1 & H52).
    destruct (IH _ _ _ Hr) as (Hall & Hoo2 & Hback & H52').
    assert (Hoo : oo ⊆ oo1).
    { destruct Hoo1 as [->|(-> & _)]; [done|]. intros x Hx. apply elem_of_app. by left. }
    split_and!.
    + constructor; [by split | done].
    + by etrans.
    + intros x Hx. destruct (Hback x Hx) as [Hx1|(-> & -> & Hn)].
      * destruct Hoo1 as [->|(-> & -> & Hn)]; [by left|].
        apply elem_of_app in Hx1 as [Hx1|Hx1]; [by left|].
        apply list_elem_of_singleton in Hx1 as ->. by right.
      * right. split_and!; try done. intros Hin. apply Hn. by apply Hoo.
    + intros Hsel (m' & recs' & Hin & Hs). apply elem_of_cons in Hin as [[= -> ->]|Hin].
      * apply Hoo2. by apply H52.
      * apply H52'; [done|]. by exists m', recs'.
Qed.

Lemma Forall2_sublist_shrinks (a' a : list (string * list string)) :
  Forall2 (fun x' x => fst x' = fst x /\ snd x' `sublist_of` snd x) a' a -> shrinks a' a.
Proof.
  intros Hall. split.
  - unfold PyDict.keys. induction Hall as [|[m' r'] [m r] a' a [Hm _] _ IH]; simpl; [done|].
    simpl in Hm. by rewrite Hm, IH.
  - induction Hall as [|[m' r'] [m r] a' a [Hm Hs] _ IH]; intros k recs'; simpl; [done|].
    simpl in Hm, Hs. subst m'. destruct (decide (m = k)) as [->|Hne].
    + intros [= <-]. exists r. split_and!; [done | |].
      * intros x Hx. by eapply elem_of_sublist.
      * intros Hnd. by eapply sublist_NoDup.
    + apply IH.
Qed.

Lemma update_avail_recommendations_spec u m2r sel u' m2r' :
  update_avail_recommendations u m2r sel = (u', m2r') ->
  shrinks m2r' m2r /\
  only_one_rec_already u ⊆ only_one_rec_already u' /\
  (forall x, x ∈ only_one_rec_already u' ->
     x ∈ only_one_rec_already u \/
     (x = "SRc52" /\ sel = "SRc52" /\ "SRc52" ∉ only_one_rec_already u)) /\
  (sel = "SRc52" -> (exists m recs, (m, recs) ∈ m2r /\ "SRc52" ∈ recs) ->
   "SRc52" ∈ only_one_rec_already u') /\
  selected_missions_and_contents u' = selected_missions_and_contents u.
Proof.
  unfold update_avail_recommendations.
  destruct (prune_all sel (only_one_rec_already u) m2r) as [oo' a'] eqn:Hp.
  intros [= <- <-]. destruct (prune_all_spec _ _ _ _ _ Hp) as (Hall & Hoo & Hback & H52).
  split_and!; try done. by apply Forall2_sublist_shrinks.
Qed.

(** *** The candidates are available items *)

(** The items of a feature-vector map. *)
Definition group_ids (groups : list (list Q * list string)) : list string :=
  concat (map snd groups).

Lemma elem_of_group_ids x groups :
  x ∈ group_ids groups <-> exists g, g ∈ groups /\ x ∈ snd g.
Proof.
  unfold group_ids. induction groups as [|g groups IH]; simpl.
  - split; [intros H; by apply elem_of_nil in H|].
    intros (g & Hg & _). by apply elem_of_nil in Hg.
  - rewrite elem_of_app, IH. split.
    + intros [Hx|(g' & Hg' & Hx)]; [exists g; split; [left | done]|].
      exists g'. split; [by right | done].
    + intros (g' & Hg' & Hx). apply elem_of_cons in Hg' as [->|Hg']; [by left|].
      right. by exists g'.
Qed.

Lemma group_add_ids fv r groups x :
  x ∈ group_ids (group_add fv r groups) <-> x = r \/ x ∈ group_ids groups.
Proof.
  unfold group_ids. induction groups as [|[k ids] groups IH]; simpl.
  - rewrite list_elem_of_singleton. split; [by left|].
    intros [->|H]; [done | by apply elem_of_nil in H].
  - destruct (fv_eqb k fv); simpl.
    + rewrite !elem_of_app, list_elem_of_singleton. tauto.
    + rewrite !elem_of_app, IH. tauto.
Qed.

Lemma add_mission_recs_ids e pr loc mid recs : forall acc d',
  add_mission_recs e pr loc mid recs acc = Some d' ->
  exists d, acc = Some d /\
    forall m groups' x, PyDict.get m d' = Some groups' -> x ∈ group_ids groups' ->
      (exists groups, PyDict.get m d = Some groups /\ x ∈ group_ids groups) \/
      (m = mid /\ x ∈ recs).
Proof.
  unfold add_mission_recs.
  induction recs as [|r recs IH]; intros acc d'; simpl.
  - intros ->. exists d'. split; [done|]. intros m groups' x Hm Hx. left. eauto.
  - intros Hfold. destruct (IH _ _ Hfold) as (d1 & Hd1 & Hids).
    destruct acc as [d|]; [|done]. exists d. split; [done|].
    simpl in Hd1. destruct (recommendations e !! r); [|done]. simpl in Hd1.
    destruct (feature_vector e pr _ _ _ mid r) as [fv|]; [|done]. simpl in Hd1.
    destruct (PyDict.get mid d) as [groups|] eqn:Hg; [|done]. simpl in Hd1.
    injection Hd1 as <-.
    intros m groups' x Hm Hx. destruct (Hids m groups' x Hm Hx) as [(g1 & Hg1 & Hx1)|[-> Hx1]].
    + destruct (decide (mid = m)) as [<-|Hne].
      * rewrite PyDict.get_set_eq in Hg1. injection Hg1 as <-.
        apply group_add_ids in Hx1 as [->|Hx1]; [right; split; [done | left]|].
        left. eauto.
      * rewrite PyDict.get_set_ne in Hg1 by done. left. eauto.
    + right. split; [done | by right].
Qed.

Lemma empty_groups_get (ms : list mission) : forall d m (groups : list (list Q * list string)),
  (forall m g, PyDict.get m d = Some g -> g = []) ->
  PyDict.get m (foldl (fun d m => PyDict.set (mission_id m) [] d) d ms) = Some groups ->
  groups = [].
Proof.
  induction ms as [|m0 ms IH]; intros d m groups Hd; simpl; [apply Hd|].
  apply IH. intros m' g. destruct (decide (mission_id m0 = m')) as [<-|Hne].
  - rewrite PyDict.get_set_eq. by intros [= <-].
  - rewrite PyDict.get_set_ne by done. apply Hd.
Qed.

Lemma feature_map_ids_fold e pr loc avail : forall acc d',
  foldl (fun acc '(mid, recs) => add_mission_recs e pr loc mid recs acc) acc avail = Some d' ->
  exists d, acc = Some d /\
    forall m groups' x, PyDict.get m d' = Some groups' -> x ∈ group_ids groups' ->
      (exists groups, PyDict.get m d = Some groups /\ x ∈ group_ids groups) \/
      (exists recs, (m, recs) ∈ avail /\ x ∈ recs).
Proof.
  induction avail as [|[mid recs] avail IH]; intros acc d'; simpl.
  - intros ->. exists d'. split; [done|]. intros m groups' x Hm Hx. left. eauto.
  - intros Hfold. destruct (IH _ _ Hfold) as (d1 & Hd1 & Hids).
    destruct (add_mission_recs_ids _ _ _ _ _ _ _ Hd1) as (d & -> & Hids1).
    exists d. split; [done|]. intros m groups' x Hm Hx.
    destruct (Hids m groups' x Hm Hx) as [(g1 & Hg1 & Hx1)|(recs' & Hin & Hx1)].
    + destruct (Hids1 m g1 x Hg1 Hx1) as [?|[-> Hx2]]; [by left|].
      right. exists recs. split; [left | done].
    + right. exists recs'. split; [by right | done].
Qed.

Lemma feature_map_ids e u avail loc pr fmaps mid groups x :
  get_mission_to_feature_vec_to_rec_ids e u avail loc pr = Some fmaps ->
  PyDict.get mid fmaps = Some groups ->
  x ∈ group_ids groups ->
  exists recs, (mid, recs) ∈ avail /\ x ∈ recs.
Proof.
  unfold get_mission_to_feature_vec_to_rec_ids.
  destruct (get_new_missions u) as [|m0 ms] eqn:Hms; [by intros [= <-]|].
  destruct (selection_timestamp m0 ≫= parse_client_ts e); [|done]. simpl.
  intros Hfold Hg Hx.
  destruct (feature_map_ids_fold _ _ _ _ _ _ Hfold) as (d & [= <-] & Hids).
  destruct (Hids mid groups x Hg Hx) as [(g0 & Hg0 & Hx0)|?]; [|done].
  apply (empty_groups_get (m0 :: ms) []) in Hg0 as ->; [|done].
  by apply elem_of_nil in Hx0.
Qed.

(** *** The choice is a candidate *)

Lemma s52_candidates_ids oo fmap :
  (forall x, x ∈ group_ids (s52_candidates oo fmap) -> x ∈ group_ids fmap) /\
  ("SRc52" ∈ group_ids (s52_candidates oo fmap) -> "SRc52" ∉ oo).
Proof.
  unfold s52_candidates.
  destruct (List.find _ fmap) as [[fv52 ids52]|] eqn:Hfind.
  - apply find_some in Hfind as [Hin H52]. apply bool_decide_eq_true in H52. simpl in H52.
    apply list_elem_of_In in Hin.
    destruct (bool_decide ("SRc52" ∈ oo)) eqn:Hoo.
    + split.
      * intros x Hx. apply elem_of_group_ids in Hx as (g & Hg & Hx).
        apply list_elem_of_omap in Hg as (g0 & Hg0 & Hsome).
        destruct (filter _ (snd g0)) as [|y ys] eqn:Hf; [done|]. injection Hsome as <-.
        simpl in Hx. rewrite <- Hf in Hx. apply list_elem_of_filter in Hx as [_ Hx].
        apply elem_of_group_ids. eauto.
      * intros Hx. exfalso. apply elem_of_group_ids in Hx as (g & Hg & Hx).
        apply list_elem_of_omap in Hg as (g0 & Hg0 & Hsome).
        destruct (filter _ (snd g0)) as [|y ys] eqn:Hf; [done|]. injection Hsome as <-.
        simpl in Hx. rewrite <- Hf in Hx. by apply list_elem_of_filter in Hx as [Hne _].
    + apply bool_decide_eq_false in Hoo. split; [|done].
      intros x Hx. unfold group_ids in Hx. simpl in Hx.
      apply list_elem_of_singleton in Hx as ->. apply elem_of_group_ids.
      exists (fv52, ids52). by split.
  - split; [done|]. intros Hx. exfalso. apply elem_of_group_ids in Hx as (g & Hg & Hx).
    apply list_elem_of_In in Hg. pose proof (find_none _ _ Hfind g Hg) as Hn.
    by apply bool_decide_eq_false in Hn.
Qed.

Lemma select_action_elem rb s n actions s' n' best sampled :
  BernoulliBetaTS.select_action rb s n actions = Some (s', n', best, sampled) ->
  best ∈ actions.
Proof.
  unfold BernoulliBetaTS.select_action.
  destruct (BernoulliBetaTS.sample_loop rb s n actions []) as [[[s1 n1] smp]|] eqn:Hloop;
    [|done]. simpl.
  destruct (BernoulliBetaTS.max_sampled smp) as [b|] eqn:Hmax; [|done]. simpl.
  intros [= <- <- <- <-]. apply BernoulliBetaTS.max_sampled_key in Hmax.
  destruct (BernoulliBetaTS.sample_loop_keys _ _ _ _ _ _ _ _ Hloop b Hmax) as [Hk|Hk]; [|done].
  by apply elem_of_nil in Hk.
Qed.

Lemma map_lookup_Some {A B : Type} (f : A -> B) (l : list A) : forall (i : nat) (y : B),
  map f l !! i = Some y -> exists x, l !! i = Some x /\ y = f x.
Proof.
  induction l as [|a l IH]; intros [|i] y; simpl; try done.
  - intros [= <-]. by exists a.
  - apply IH.
Qed.

(** The objects a selection leaves alone. *)
Definition same_user (st' st : state) : Prop :=
  user st' = user st /\ binder st' = binder st /\ plan_id st' = plan_id st /\
  content_count st' = content_count st.

Lemma select_recommendation_spec e st fmap anyway st' choice :
  select_recommendation e st fmap anyway = Some (st', choice) ->
  same_user st' st /\
  forall sel fv, choice = Some (sel, fv) ->
    sel ∈ group_ids fmap /\ (sel = "SRc52" -> "SRc52" ∉ only_one_rec_already (user st)).
Proof.
  unfold select_recommendation. destruct fmap as [|g fmap]; [by intros [= <- <-]|].
  set (full := g :: fmap).
  destruct (s52_candidates_ids (only_one_rec_already (user st)) full) as [Hsub H52].
  set (cands := s52_candidates (only_one_rec_already (user st)) full) in *.
  assert (Hres : forall sel, sel ∈ group_ids cands ->
            sel ∈ group_ids full /\
            (sel = "SRc52" -> "SRc52" ∉ only_one_rec_already (user st))).
  { intros sel Hsel. split; [by apply Hsub|]. intros ->. by apply H52. }
  destruct (bool_decide (intervention_cfg e = "None")).
  - unfold handle_recommendation_mab_only.
    destruct (_ || _); [|done].
    destruct (recommendation_select e (tick st) _ _) as [idx est].
    destruct (concat (map snd cands) !! idx) as [sel|] eqn:Hsel; [|done]. simpl.
    destruct (rejected anyway est); intros [= <- <-]; (split; [done|]); [done|].
    intros sel' fv [= <- <-]. apply Hres. by eapply list_elem_of_lookup_2.
  - unfold handle_intervention_mab.
    destruct (bool_decide (intervention_cfg e = "LogisticLaplaceTS")); [|done].
    destruct (intervention_select e (tick st) _ _) as [idx est].
    destruct (map snd cands !! idx) as [ids|] eqn:Hids; [|done]. simpl.
    destruct (map fst cands !! idx) as [sfv|] eqn:Hfv; [|done]. simpl.
    destruct (rejected anyway est); [intros [= <- <-]; by split|].
    destruct (bool_decide (recommendation_cfg e = "BernoulliBetaTS")); [|done].
    destruct (BernoulliBetaTS.select_action _ _ _ ids) as [[[[mab n] sel] smp]|] eqn:Hsel;
      [|done]. simpl.
    intros [= <- <-]. split; [done|]. intros sel' fv [= <- <-].
    apply select_action_elem in Hsel. apply Hres.
    apply map_lookup_Some in Hids as (g0 & Hg0 & ->).
    apply elem_of_group_ids. exists g0. split; [by eapply list_elem_of_lookup_2 | done].
Qed.

(** *** The counters of [update_frequency_offsets] *)

(** [mission_to_selected_rec_to_count.get(m, {})] *)
Definition counts_of (loc : locals) (m : string) : list (string * nat) :=
  default [] (PyDict.get m (mission_to_selected_rec_to_count loc)).

(** [mission_to_selected_rec_to_count.get(m, {}).get(r, 0)] *)
Definition cnt (loc : locals) (r m : string) : nat :=
  default 0%nat (PyDict.get r (counts_of loc m)).

Lemma set_intersection_spec curr used x :
  x ∈ set_intersection curr used <-> x ∈ curr /\ x ∈ used.
Proof.
  unfold set_intersection. rewrite elem_of_elements, elem_of_intersection.
  by rewrite !elem_of_list_to_set.
Qed.

Lemma set_intersection_NoDup curr used : NoDup (set_intersection curr used).
Proof. apply NoDup_elements. Qed.

Lemma update_frequency_offsets_spec e sel mid loc loc2 :
  update_frequency_offsets e sel mid loc = Some loc2 ->
  selected_recs loc2 = selected_recs loc /\
  counts_of loc2 mid = PyDict.set sel (S (cnt loc sel mid)) (counts_of loc mid) /\
  (forall m, m ≠ mid -> counts_of loc2 m = counts_of loc m) /\
  shrinks (mission_to_available_recs loc2) (mission_to_available_recs loc) /\
  ((3 <= S (cnt loc sel mid))%nat -> forall recs recs2,
     PyDict.get mid (mission_to_available_recs loc) = Some recs -> NoDup recs ->
     PyDict.get mid (mission_to_available_recs loc2) = Some recs2 -> sel ∉ recs2) /\
  ((4 <= length (counts_of loc2 mid))%nat -> forall recs2,
     PyDict.get mid (mission_to_available_recs loc2) = Some recs2 ->
     recs2 ⊆ PyDict.keys (counts_of loc2 mid)) /\
  ((S (cnt loc sel mid) < 3)%nat -> forall recs,
     PyDict.get mid (mission_to_available_recs loc) = Some recs -> sel ∈ recs ->
     exists recs2, PyDict.get mid (mission_to_available_recs loc2) = Some recs2 /\
                   sel ∈ recs2).
Proof.
  unfold update_frequency_offsets. fold (counts_of loc mid). fold (cnt loc sel mid).
  set (c := S (cnt loc sel mid)). set (counts' := PyDict.set sel c (counts_of loc mid)).
  set (avail := mission_to_available_recs loc).
  remember (Encoding.MAX_SAME_REC_SENT_PER_MISSION <=? c)%nat as same eqn:Hsame.
  remember (Encoding.MAX_DISTINCT_REC_PER_MISSION <=? length counts')%nat as dis eqn:Hdis.
  symmetry in Hsame, Hdis.
  destruct (recommendations e !! sel) as [ity|]; [|done]. simpl.
  destruct (Encoding.get_intervention_encoding ity) as [mix|]; [|done]. simpl.
  intros Hupd.
  assert (exists avail1 avail2,
    loc2 = {| selected_recs := selected_recs loc;
              total_freq_offset := S (total_freq_offset loc);
              intv_to_freq_offset := add_mixture mix (intv_to_freq_offset loc);
              rec_to_freq_offset :=
                PyDict.set sel
                  (S (default 0%nat (PyDict.get sel (rec_to_freq_offset loc))))
                  (rec_to_freq_offset loc);
              mission_to_selected_rec_to_count :=
                PyDict.set mid counts' (mission_to_selected_rec_to_count loc);
              mission_to_available_recs := avail2 |} /\
    shrinks avail1 avail /\
    ((3 <= c)%nat -> forall recs recs1, PyDict.get mid avail = Some recs -> NoDup recs ->
        PyDict.get mid avail1 = Some recs1 -> sel ∉ recs1) /\
    ((c < 3)%nat -> avail1 = avail) /\
    shrinks avail2 avail1 /\
    ((4 <= length counts')%nat -> forall recs2, PyDict.get mid avail2 = Some recs2 ->
        recs2 ⊆ PyDict.keys counts') /\
    (forall recs1, PyDict.get mid avail1 = Some recs1 -> sel ∈ recs1 ->
        exists recs2, PyDict.get mid avail2 = Some recs2 /\ sel ∈ recs2))
    as (avail1 & avail2 & -> & Hs1 & Hrem & Hkeep & Hs2 & Hdist & Hstay).
  { assert (Hinter : forall curr a, PyDict.get mid a = Some curr ->
      shrinks (PyDict.set mid (set_intersection curr (PyDict.keys counts')) a) a /\
      (forall recs2,
         PyDict.get mid (PyDict.set mid (set_intersection curr (PyDict.keys counts')) a)
           = Some recs2 -> recs2 ⊆ PyDict.keys counts') /\
      (forall recs1, PyDict.get mid a = Some recs1 -> sel ∈ recs1 ->
         exists recs2,
           PyDict.get mid (PyDict.set mid (set_intersection curr (PyDict.keys counts')) a)
             = Some recs2 /\ sel ∈ recs2)).
    { intros curr a Hcurr. split_and!.
      - apply (shrinks_set mid curr); [done | |].
        + intros x Hx. by apply set_intersection_spec in Hx as [? _].
        + intros _. apply set_intersection_NoDup.
      - intros recs2. rewrite PyDict.get_set_eq. intros [= <-] x Hx.
        by apply set_intersection_spec in Hx as [_ ?].
      - intros recs1 Hr1 Hsel. rewrite Hcurr in Hr1. injection Hr1 as <-.
        eexists. rewrite PyDict.get_set_eq. split; [done|].
        apply set_intersection_spec. split; [done | apply PyDict.keys_set_elem]. }
    assert (Hsecond : forall a a2,
      (if dis
       then PyDict.get mid a ≫= fun curr =>
              Some (PyDict.set mid (set_intersection curr (PyDict.keys counts')) a)
       else Some a) = Some a2 ->
      shrinks a2 a /\
      ((4 <= length counts')%nat -> forall recs2, PyDict.get mid a2 = Some recs2 ->
          recs2 ⊆ PyDict.keys counts') /\
      (forall recs1, PyDict.get mid a = Some recs1 -> sel ∈ recs1 ->
          exists recs2, PyDict.get mid a2 = Some recs2 /\ sel ∈ recs2)).
    { intros a a2. destruct dis.
      - destruct (PyDict.get mid a) as [curr|] eqn:Hcurr; [|done]. simpl.
        intros [= <-]. destruct (Hinter curr a Hcurr) as (H1 & H2 & H3).
        split_and!; [done | by intros _ | ].
        intros recs1 [= <-]. by apply H3.
      - intros [= <-]. apply Nat.leb_gt in Hdis.
        unfold Encoding.MAX_DISTINCT_REC_PER_MISSION in Hdis.
        split_and!; [apply shrinks_refl | lia |]. intros recs1 Hr1 Hsel. by exists recs1. }
    destruct same.
    - apply Nat.leb_le in Hsame. unfold Encoding.MAX_SAME_REC_SENT_PER_MISSION in Hsame.
      destruct (PyDict.get mid avail) as [recs|] eqn:Hrecs; [|done]. simpl in Hupd.
      destruct (bool_decide (sel ∈ recs)) eqn:Hin; [|done]. simpl in Hupd.
      set (avail1 := PyDict.set mid (list_remove sel recs) avail) in *.
      destruct (if dis then _ else _) as [avail2|] eqn:H2; [|done]. simpl in Hupd.
      injection Hupd as <-. destruct (Hsecond _ _ H2) as (Hs2 & Hd & Hst).
      exists avail1, avail2. split; [reflexivity|]. split_and!.
      + apply (shrinks_set mid recs); [done | |].
        * intros x Hx. eapply elem_of_sublist; [done | apply list_remove_sublist].
        * intros Hnd. eapply sublist_NoDup; [done | apply list_remove_sublist].
      + intros _ recs0 recs1 [= <-] Hnd. unfold avail1. rewrite PyDict.get_set_eq.
        intros [= <-]. by apply list_remove_NoDup_notin.
      + lia.
      + done.
      + done.
      + done.
    - apply Nat.leb_gt in Hsame. unfold Encoding.MAX_SAME_REC_SENT_PER_MISSION in Hsame.
      simpl in Hupd.
      destruct (if dis then _ else _) as [avail2|] eqn:H2; [|done]. simpl in Hupd.
      injection Hupd as <-. destruct (Hsecond _ _ H2) as (Hs2 & Hd & Hst).
      exists avail, avail2. split; [reflexivity|]. split_and!.
      + apply shrinks_refl.
      + lia.
      + done.
      + done.
      + done.
      + done. }
  assert (Hc2 : counts_of
            {| selected_recs := selected_recs loc;
               total_freq_offset := S (total_freq_offset loc);
               intv_to_freq_offset := add_mixture mix (intv_to_freq_offset loc);
               rec_to_freq_offset :=
                 PyDict.set sel
                   (S (default 0%nat (PyDict.get sel (rec_to_freq_offset loc))))
                   (rec_to_freq_offset loc);
               mission_to_selected_rec_to_count :=
                 PyDict.set mid counts' (mission_to_selected_rec_to_count loc);
               mission_to_available_recs := avail2 |} mid = counts').
  { unfold counts_of. simpl. by rewrite PyDict.get_set_eq. }
  rewrite Hc2. simpl. split_and!; try done.
  - intros m Hne. unfold counts_of. simpl. by rewrite PyDict.get_set_ne.
  - by eapply shrinks_trans.
  - intros Hc recs recs2 Hr Hnd Hr2.
    destruct Hs2 as [_ Hs2]. destruct (Hs2 mid recs2 Hr2) as (recs1 & Hr1 & Hsub & _).
    intros Hsel. by apply (Hrem Hc recs recs1 Hr Hnd Hr1), Hsub.
  - intros Hc recs Hr Hsel. apply (Hstay recs); [|done]. by rewrite (Hkeep Hc).
Qed.

(** *** One iteration of the slot loop *)

Definition result_state (r : step_result) : state :=
  match r with Stop st _ | Next _ st _ => st end.

Definition result_locals (r : step_result) : locals :=
  match r with Stop _ loc | Next _ _ loc => loc end.

(** The loop either ends or goes on with [count]. *)
Definition continues (count : nat) (r : step_result) : Prop :=
  match r with Stop _ _ => True | Next c _ _ => c = count end.

Lemma accept_inversion e unchanged mid count st loc sel fv r :
  accept e unchanged mid count st loc sel fv = Some r ->
  exists loc2 u3 avail',
    update_frequency_offsets e sel mid (add_selected loc sel mid) = Some loc2 /\
    only_one_rec_already u3 = only_one_rec_already (user st) /\
    update_avail_recommendations u3 (mission_to_available_recs loc2) sel
      = (user (result_state r), avail') /\
    result_locals r = set_available loc2 avail' /\
    continues (S count) r.
Proof.
  unfold accept.
  destruct (update_frequency_offsets e sel mid (add_selected loc sel mid)) as [loc2|];
    [|done]. simpl.
  destruct (get_mission_to_feature_vec_to_rec_ids _ _ _ _ _) as [fmaps|]; [|done]. simpl.
  destruct (PyDict.get mid fmaps) as [groups|]; [|done]. simpl.
  set (u3 := match List.find _ groups with Some _ => _ | None => _ end).
  assert (Hu3 : only_one_rec_already u3 = only_one_rec_already (user st)).
  { unfold u3. by destruct (List.find _ groups) as [[]|]. }
  destruct (update_avail_recommendations u3 _ sel) as [u4 avail'] eqn:Hua.
  destruct (PyDict.get mid avail') as [[|x recs]|]; [| |done]; simpl; intros [= <-];
    by exists loc2, u3, avail'.
Qed.

(** *** The invariant of the slot loop *)

(** [init] is the availability and [known] the list
    [user.only_one_rec_already] at the start of the call. *)
Record inv (init : list (string * list string)) (known : list string)
    (st : state) (loc : locals) : Prop := {
  inv_shrinks : shrinks (mission_to_available_recs loc) init;
  inv_counts : forall r m, cnt loc r m = occurrences r m (selected_recs loc);
  inv_counts_wf : forall m, PyDict.wf (counts_of loc m);
  inv_distinct : forall m,
    (length (counts_of loc m) <= 4)%nat /\
    ((4 <= length (counts_of loc m))%nat -> forall recs,
       PyDict.get m (mission_to_available_recs loc) = Some recs ->
       recs ⊆ PyDict.keys (counts_of loc m));
  inv_same : forall m recs0, PyDict.get m init = Some recs0 -> NoDup recs0 ->
    forall r, (occurrences r m (selected_recs loc) <= 3)%nat /\
      ((3 <= occurrences r m (selected_recs loc))%nat -> forall recs,
         PyDict.get m (mission_to_available_recs loc) = Some recs -> r ∉ recs);
  inv_s52 : "SRc52" ∉ only_one_rec_already (user st) ->
    item_total "SRc52" (selected_recs loc) = 0%nat;
  inv_s52_once : (item_total "SRc52" (selected_recs loc) <= 1)%nat;
  inv_known : known ⊆ only_one_rec_already (user st);
  inv_s52_known : "SRc52" ∈ known -> item_total "SRc52" (selected_recs loc) = 0%nat
}.

Lemma inv_same_user init known st st' loc :
  user st' = user st -> inv init known st loc -> inv init known st' loc.
Proof. intros Hu [? ? ? ? ? ? ? ? ?]. split; try done; by rewrite Hu. Qed.

Lemma get_default_keys (k : string) (d : list (string * nat)) :
  (0 < default 0 (PyDict.get k d))%nat -> k ∈ PyDict.keys d.
Proof.
  destruct (PyDict.get k d) as [v|] eqn:Hk; simpl; [|lia].
  intros _. by eapply PyDict.get_Some_keys.
Qed.

Lemma accept_spec e init known unchanged mid count st loc sel fv r recs :
  inv init known st loc ->
  PyDict.get mid (mission_to_available_recs loc) = Some recs -> sel ∈ recs ->
  (sel = "SRc52" -> "SRc52" ∉ only_one_rec_already (user st)) ->
  accept e unchanged mid count st loc sel fv = Some r ->
  selected_recs (result_locals r) = selected_recs loc ++ [(sel, mid)] /\
  continues (S count) r /\
  inv init known (result_state r) (result_locals r) /\
  only_one_rec_already (user st) ⊆ only_one_rec_already (user (result_state r)).
Proof.
  intros [Hshr Hcnt Hwf Hdis Hsame Hs52 Honce Hoo0 Hknown] Hrecs Hsel H52 Hacc.
  destruct (accept_inversion _ _ _ _ _ _ _ _ _ Hacc)
    as (loc2 & u3 & avail' & Hupd & Hoo3 & Hua & Hloc & Hcont).
  destruct (update_frequency_offsets_spec _ _ _ _ _ Hupd)
    as (Hsl & Hcm & Hco & Hsh2 & Hrem & Hdist & Hstay).
  change (selected_recs (add_selected loc sel mid))
    with (selected_recs loc ++ [(sel, mid)]) in Hsl.
  change (cnt (add_selected loc sel mid) sel mid) with (cnt loc sel mid) in *.
  change (counts_of (add_selected loc sel mid)) with (counts_of loc) in *.
  change (mission_to_available_recs (add_selected loc sel mid))
    with (mission_to_available_recs loc) in *.
  destruct (update_avail_recommendations_spec _ _ _ _ _ Hua)
    as (Hsh3 & Hoo & Hback & H52in & _).
  rewrite Hoo3 in Hoo, Hback.
  set (st' := result_state r) in *. set (loc' := result_locals r) in *.
  assert (Hslate : selected_recs loc' = selected_recs loc ++ [(sel, mid)]).
  { by rewrite Hloc. }
  assert (Hcm' : counts_of loc' mid
                 = PyDict.set sel (S (cnt loc sel mid)) (counts_of loc mid)).
  { by rewrite Hloc. }
  assert (Hco' : forall m, m ≠ mid -> counts_of loc' m = counts_of loc m).
  { rewrite Hloc. exact Hco. }
  assert (Hav : mission_to_available_recs loc' = avail') by by rewrite Hloc.
  assert (Hfrom2 : forall m recs', PyDict.get m avail' = Some recs' ->
            exists recs2, PyDict.get m (mission_to_available_recs loc2) = Some recs2 /\
                          recs' ⊆ recs2).
  { intros m recs' Hm. destruct Hsh3 as [_ Hsh3].
    destruct (Hsh3 m recs' Hm) as (recs2 & ? & ? & _). eauto. }
  assert (Hfrom : forall m recs', PyDict.get m avail' = Some recs' ->
            exists recs1, PyDict.get m (mission_to_available_recs loc) = Some recs1 /\
                          recs' ⊆ recs1).
  { intros m recs' Hm. destruct (Hfrom2 m recs' Hm) as (recs2 & Hm2 & Hsub2).
    destruct Hsh2 as [_ Hsh2]. destruct (Hsh2 m recs2 Hm2) as (recs1 & ? & ? & _).
    exists recs1. split; [done | by etrans]. }
  assert (Hocc : forall r0 m, occurrences r0 m (selected_recs loc') =
            (occurrences r0 m (selected_recs loc)
             + if decide ((sel, mid) = (r0, m)) then 1 else 0)%nat).
  { intros r0 m. rewrite Hslate. apply occurrences_snoc. }
  split_and!; [done | done | | done].
  split.
  - rewrite Hav. eapply shrinks_trans; [done|]. by eapply shrinks_trans.
  - intros r0 m. rewrite Hocc. unfold cnt. destruct (decide (m = mid)) as [->|Hm].
    + rewrite Hcm'. destruct (decide (sel = r0)) as [->|Hr].
      * rewrite PyDict.get_set_eq, decide_True by done. simpl.
        rewrite (Hcnt r0 mid). lia.
      * rewrite PyDict.get_set_ne, decide_False by congruence.
        fold (cnt loc r0 mid). rewrite Hcnt. lia.
    + rewrite Hco', decide_False by congruence. fold (cnt loc r0 m). rewrite Hcnt. lia.
  - intros m. destruct (decide (m = mid)) as [->|Hm].
    + rewrite Hcm'. by apply PyDict.wf_set.
    + by rewrite Hco'.
  - intros m. destruct (decide (m = mid)) as [->|Hm].
    + split.
      * rewrite Hcm'. destruct (decide (sel ∈ PyDict.keys (counts_of loc mid))) as [Hk|Hk].
        -- rewrite PyDict.length_set_mem by done. apply Hdis.
        -- rewrite PyDict.length_set_fresh by done.
           destruct (Hdis mid) as [Hle Hfull].
           destruct (decide (4 <= length (counts_of loc mid))%nat) as [H4|H4]; [|lia].
           exfalso. apply Hk. by apply (Hfull H4 recs).
      * intros H4 recs'. rewrite Hav. intros Hm.
        destruct (Hfrom2 mid recs' Hm) as (recs2 & Hm2 & Hsub).
        etrans; [done|]. rewrite Hloc.
        change (counts_of (set_available loc2 avail') mid) with (counts_of loc2 mid).
        apply Hdist; [|done]. by rewrite Hloc in H4.
    + rewrite Hco' by done. split; [apply Hdis|].
      intros H4 recs'. rewrite Hav. intros Hm'.
      destruct (Hfrom m recs' Hm') as (recs1 & Hm1 & Hsub).
      etrans; [done|]. by apply (Hdis m).
  - intros m recs0 Hinit Hnd r0. rewrite Hocc, Hav.
    destruct (Hsame m recs0 Hinit Hnd r0) as [Hle Hgone].
    destruct (decide ((sel, mid) = (r0, m))) as [[= <- <-]|Hne].
    + split.
      * destruct (decide (3 <= occurrences sel mid (selected_recs loc))%nat) as [H3|H3];
          [|lia].
        exfalso. by apply (Hgone H3 recs).
      * intros H3 recs' Hm. destruct (Hfrom2 mid recs' Hm) as (recs2 & Hm2 & Hsub).
        intros Hin. apply Hsub in Hin. revert Hin.
        apply (Hrem ltac:(rewrite Hcnt; lia) recs recs2); [done | | done].
        destruct Hshr as [_ Hshr]. destruct (Hshr mid recs Hrecs) as (r1 & Hr1 & _ & Hnd1).
        rewrite Hinit in Hr1. injection Hr1 as <-. by apply Hnd1.
    + split; [lia|]. intros H3 recs' Hm.
      destruct (Hfrom m recs' Hm) as (recs1 & Hm1 & Hsub).
      intros Hin. apply Hsub in Hin. revert Hin. apply Hgone; [lia | done].
  - intros Hnot. rewrite Hslate, item_total_snoc.
    assert (Hnot0 : "SRc52" ∉ only_one_rec_already (user st)).
    { intros Hin. apply Hnot. by apply Hoo. }
    rewrite (Hs52 Hnot0). destruct (decide (sel = "SRc52")) as [->|Hne]; [|done].
    exfalso. apply Hnot. apply H52in; [done|].
    assert (Hlt : (S (cnt loc "SRc52" mid) < 3)%nat).
    { rewrite Hcnt. pose proof (occurrences_le_item_total "SRc52" mid (selected_recs loc)).
      rewrite (Hs52 Hnot0) in H. lia. }
    destruct (Hstay Hlt recs Hrecs Hsel) as (recs2 & Hm2 & Hin2).
    exists mid, recs2. split; [by apply PyDict.get_elem_of | done].
  - rewrite Hslate, item_total_snoc. destruct (decide (sel = "SRc52")) as [->|Hne]; [|lia].
    rewrite (Hs52 (H52 eq_refl)). lia.
  - by etrans.
  - intros Hk. rewrite Hslate, item_total_snoc, (Hknown Hk).
    destruct (decide (sel = "SRc52")) as [->|Hne]; [|done].
    exfalso. apply (H52 eq_refl). by apply Hoo0.
Qed.

Lemma accept_shape e unchanged mid count st loc sel fv r :
  accept e unchanged mid count st loc sel fv = Some r ->
  selected_recs (result_locals r) = selected_recs loc ++ [(sel, mid)] /\
  continues (S count) r.
Proof.
  intros Hacc. destruct (accept_inversion _ _ _ _ _ _ _ _ _ Hacc)
    as (loc2 & u3 & avail' & Hupd & _ & _ & Hloc & Hcont).
  destruct (update_frequency_offsets_spec _ _ _ _ _ Hupd) as (Hsl & _).
  split; [|done]. by rewrite Hloc.
Qed.

Lemma slot_step_spec e init known unchanged mid count st loc r :
  PyDict.wf init -> inv init known st loc ->
  slot_step e unchanged mid count st loc = Some r ->
  (selected_recs (result_locals r) = selected_recs loc \/
   exists sel, selected_recs (result_locals r) = selected_recs loc ++ [(sel, mid)]) /\
  inv init known (result_state r) (result_locals r) /\
  only_one_rec_already (user st) ⊆ only_one_rec_already (user (result_state r)).
Proof.
  intros Hwf Hinv. unfold slot_step.
  destruct (get_mission_to_feature_vec_to_rec_ids _ _ _ _ _) as [fmaps|] eqn:Hf; [|done].
  simpl.
  destruct (PyDict.get mid fmaps) as [[|g gs]|] eqn:Hg;
    [intros [= <-]; split_and!; [by left | done | done] |
     | intros [= <-]; split_and!; [by left | done | done]].
  destruct (select_recommendation e st (g :: gs) _) as [[st1 choice]|] eqn:Hsel; [|done].
  simpl. destruct (select_recommendation_spec _ _ _ _ _ _ Hsel) as [(Hu & _) Hchoice].
  destruct choice as [[sel fv]|].
  - intros Hacc. destruct (Hchoice sel fv eq_refl) as [Hin H52].
    destruct (feature_map_ids _ _ _ _ _ _ _ _ _ Hf Hg Hin) as (recs & Hrecs & Hsel_in).
    apply PyDict.elem_of_get in Hrecs; [|by eapply shrinks_wf, Hwf; apply Hinv].
    rewrite <- Hu in *.
    destruct (accept_spec e init known unchanged mid count st1 loc sel fv r recs)
      as (Hslate & _ & Hinv' & Hoo); try done.
    + by apply (inv_same_user init known st).
    + split_and!; [right; by exists sel | done | done].
  - intros [= <-]. simpl. split_and!; [by left | by apply (inv_same_user init known st) |].
    by rewrite Hu.
Qed.

Lemma fill_slots_spec e init known unchanged mid (n : nat) : forall count st loc st' loc',
  PyDict.wf init -> inv init known st loc ->
  fill_slots e unchanged n mid count st loc = Some (st', loc') ->
  inv init known st' loc' /\
  only_one_rec_already (user st) ⊆ only_one_rec_already (user st') /\
  (mission_total mid (selected_recs loc') <= mission_total mid (selected_recs loc) + n)%nat /\
  (forall m, m ≠ mid ->
     mission_total m (selected_recs loc') = mission_total m (selected_recs loc)).
Proof.
  induction n as [|n IH]; intros count st loc st' loc' Hwf Hinv; simpl.
  - intros [= <- <-]. split_and!; [done | done | lia | done].
  - destruct (slot_step e unchanged mid count st loc) as [r|] eqn:Hstep; [|done]. simpl.
    destruct (slot_step_spec _ _ _ _ _ _ _ _ _ Hwf Hinv Hstep) as (Hslate & Hinv1 & Hoo1).
    assert (Hone : (mission_total mid (selected_recs (result_locals r))
                    <= mission_total mid (selected_recs loc) + 1)%nat /\
                   forall m, m ≠ mid ->
                     mission_total m (selected_recs (result_locals r))
                     = mission_total m (selected_recs loc)).
    { destruct Hslate as [->|[sel ->]]; [split; [lia | done]|].
      split; [rewrite mission_total_snoc, decide_True by done; lia|].
      intros m Hm. rewrite mission_total_snoc, decide_False by done. lia. }
    destruct Hone as [Hmid Hother]. destruct r as [st1 loc1|c1 st1 loc1]; simpl in *.
    + intros [= <- <-]. split_and!; [done | done | lia | done].
    + intros Hfill. destruct (IH _ _ _ _ _ Hwf Hinv1 Hfill) as (Hinv' & Hoo' & Hmid' & Ho').
      split_and!; [done | by etrans | lia |].
      intros m Hm. rewrite Ho' by done. by apply Hother.
Qed.

Lemma plan_missions_spec e init known unchanged slots : forall st loc st' loc',
  PyDict.wf init -> PyDict.wf slots -> inv init known st loc ->
  plan_missions e unchanged slots st loc = Some (st', loc') ->
  inv init known st' loc' /\
  only_one_rec_already (user st) ⊆ only_one_rec_already (user st') /\
  (forall m n, (m, n) ∈ slots ->
     (mission_total m (selected_recs loc') <= mission_total m (selected_recs loc) + n)%nat) /\
  (forall m, m ∉ PyDict.keys slots ->
     mission_total m (selected_recs loc') = mission_total m (selected_recs loc)).
Proof.
  induction slots as [|[mid n] slots IH]; intros st loc st' loc' Hwf Hnd Hinv; simpl.
  - intros [= <- <-]. split_and!; [done | done | | done].
    intros m n Hin. by apply elem_of_nil in Hin.
  - destruct (fill_slots e unchanged n mid 1 st loc) as [[st1 loc1]|] eqn:Hfill; [|done].
    simpl. intros Hplan. apply NoDup_cons in Hnd as [Hmid Hnd].
    destruct (fill_slots_spec _ _ _ _ _ _ _ _ _ _ _ Hwf Hinv Hfill)
      as (Hinv1 & Hoo1 & Htot1 & Hoth1).
    destruct (IH _ _ _ _ Hwf Hnd Hinv1 Hplan) as (Hinv' & Hoo' & Htot' & Hoth').
    split_and!; [done | by etrans | |].
    + intros m k Hin. apply elem_of_cons in Hin as [[= -> ->]|Hin].
      * rewrite Hoth' by done. done.
      * assert (m ≠ mid).
        { intros ->. apply Hmid. apply list_elem_of_fmap. by exists (mid, k). }
        rewrite <- (Hoth1 m) by done. by apply Htot'.
    + intros m Hm. apply not_elem_of_cons in Hm as [Hne Hm].
      rewrite Hoth' by done. by apply Hoth1.
Qed.

(** *** The dictionaries built at the start of a call *)

Lemma set_elem_of {V : Type} (k : string) (v : V) (d : list (string * V)) x :
  x ∈ PyDict.set k v d -> x = (k, v) \/ x ∈ d.
Proof.
  induction d as [|[k' v'] d IH]; simpl.
  - intros Hx. apply list_elem_of_singleton in Hx. by left.
  - destruct (decide (k' = k)) as [->|Hne].
    + intros Hx. apply elem_of_cons in Hx as [->|Hx]; [by left | right; by right].
    + intros Hx. apply elem_of_cons in Hx as [->|Hx]; [right; left|].
      destruct (IH Hx) as [->|Hd]; [by left | right; by right].
Qed.

Lemma by_mission_fold_wf {V : Type} (f : mission -> V) ms : forall d,
  PyDict.wf d -> PyDict.wf (foldl (fun d m => PyDict.set (mission_id m) (f m) d) d ms).
Proof.
  induction ms as [|m ms IH]; intros d Hd; simpl; [done|]. by apply IH, PyDict.wf_set.
Qed.

Lemma by_mission_wf {V : Type} (f : mission -> V) ms : PyDict.wf (by_mission f ms).
Proof. apply by_mission_fold_wf. apply NoDup_nil_2. Qed.

Lemma by_mission_fold_elem {V : Type} (f : mission -> V) ms : forall d k v,
  (k, v) ∈ foldl (fun d m => PyDict.set (mission_id m) (f m) d) d ms ->
  (k, v) ∈ d \/ exists m, k = mission_id m /\ v = f m.
Proof.
  induction ms as [|m ms IH]; intros d k v; simpl; [by left|].
  intros Hin. destruct (IH _ _ _ Hin) as [Hd|?]; [|by right].
  apply set_elem_of in Hd as [[= -> ->]|Hd]; [right; by exists m | by left].
Qed.

Lemma by_mission_elem {V : Type} (f : mission -> V) ms k v :
  (k, v) ∈ by_mission f ms -> exists m, k = mission_id m /\ v = f m.
Proof.
  intros Hin. destruct (by_mission_fold_elem f ms [] k v Hin) as [Hd|?]; [|done].
  by apply elem_of_nil in Hd.
Qed.

Lemma keys_set_determined {V W : Type} (k : string) (v : V) (w : W)
    (d : list (string * V)) (d' : list (string * W)) :
  PyDict.keys d = PyDict.keys d' ->
  PyDict.keys (PyDict.set k v d) = PyDict.keys (PyDict.set k w d').
Proof.
  intros Hk. destruct (decide (k ∈ PyDict.keys d)) as [Hin|Hin].
  - rewrite !PyDict.keys_set_mem; [done | by rewrite <- Hk | done].
  - rewrite !PyDict.keys_set_fresh; [by rewrite Hk | by rewrite <- Hk | done].
Qed.

Lemma by_mission_fold_keys {V W : Type} (f : mission -> V) (g : mission -> W) ms :
  forall d d', PyDict.keys d = PyDict.keys d' ->
  PyDict.keys (foldl (fun d m => PyDict.set (mission_id m) (f m) d) d ms) =
  PyDict.keys (foldl (fun d m => PyDict.set (mission_id m) (g m) d) d' ms).
Proof.
  induction ms as [|m ms IH]; intros d d' Hk; simpl; [done|].
  by apply IH, keys_set_determined.
Qed.

Lemma by_mission_keys {V W : Type} (f : mission -> V) (g : mission -> W) ms :
  PyDict.keys (by_mission f ms) = PyDict.keys (by_mission g ms).
Proof. by apply by_mission_fold_keys. Qed.

Lemma initial_inv init known st :
  known ⊆ only_one_rec_already (user st) -> inv init known st (initial_locals init).
Proof.
  intros Hk. split; simpl; try done.
  - apply shrinks_refl.
  - intros m. apply NoDup_nil_2.
  - intros m. unfold counts_of. simpl. split; [lia|]. lia.
  - intros m recs0 _ _ r. unfold occurrences. simpl. split; lia.
  - unfold item_total. simpl. lia.
Qed.

Lemma occurrences_le_mission_total r m slate :
  (occurrences r m slate <= mission_total m slate)%nat.
Proof.
  unfold occurrences, mission_total. induction slate as [|[r' m'] slate IH]; [done|].
  rewrite !filter_cons. simpl.
  destruct (decide ((r', m') = (r, m))) as [[= -> ->]|Hne].
  - rewrite decide_True by done. simpl. lia.
  - destruct (decide (m' = m)); simpl; lia.
Qed.

Lemma distinct_le_counts (ids : list string) (counts : list (string * nat)) :
  PyDict.wf counts -> ids ⊆ PyDict.keys counts ->
  (length (remove_dups ids) <= length counts)%nat.
Proof.
  intros Hwf Hsub. replace (length counts) with (length (PyDict.keys counts))
    by apply length_map.
  apply submseteq_length, NoDup_submseteq; [apply NoDup_remove_dups|].
  intros x Hx. apply Hsub. by apply elem_of_remove_dups.
Qed.

(** The four quotas on one completed call. *)
Lemma get_recommendations_to_send_spec e st slate st' :
  get_recommendations_to_send e st = Some (slate, st') ->
  (forall m,
     (length (remove_dups (mission_ids m slate))
      <= Encoding.MAX_DISTINCT_REC_PER_MISSION)%nat /\
     (mission_total m slate
      <= Encoding.MAX_NUM_REC_PER_MISSION / length (get_new_missions (user st)))%nat /\
     (NoDup (get_available_recommendations e (user st) m) ->
      forall r, (occurrences r m slate <= Encoding.MAX_SAME_REC_SENT_PER_MISSION)%nat)) /\
  (item_total "SRc52" slate <= 1)%nat /\
  ("SRc52" ∈ only_one_rec_already (user st) -> item_total "SRc52" slate = 0%nat) /\
  ((0 < item_total "SRc52" slate)%nat -> "SRc52" ∈ only_one_rec_already (user st')) /\
  only_one_rec_already (user st) ⊆ only_one_rec_already (user st').
Proof.
  unfold get_recommendations_to_send.
  set (ms := get_new_missions (user st)).
  set (init := by_mission (fun m => get_available_recommendations e (user st) (mission_id m))
                 ms).
  set (budget := (Encoding.MAX_NUM_REC_PER_MISSION / length ms)%nat).
  set (slots := by_mission (fun _ => budget) ms).
  destruct (plan_missions e init slots st (initial_locals init)) as [[st1 loc]|] eqn:Hplan;
    [|done]. simpl. intros [= <- <-].
  destruct (plan_missions_spec e init (only_one_rec_already (user st)) init slots
              st (initial_locals init) st1 loc) as (Hinv & Hoo & Htot & Hoth); try done.
  { apply by_mission_wf. }
  { apply by_mission_wf. }
  { by apply initial_inv. }
  destruct Hinv as [Hshr Hcnt Hwf Hdis Hsame Hs52 Honce Hoo0 Hknown].
  assert (Htotal : forall m, (mission_total m (selected_recs loc) <= budget)%nat).
  { intros m. destruct (decide (m ∈ PyDict.keys slots)) as [Hin|Hin].
    - apply list_elem_of_fmap in Hin as ([m' n] & -> & Hin). simpl.
      pose proof (Htot _ _ Hin) as Hle. apply by_mission_elem in Hin as (x & _ & ->).
      change (mission_total m' (selected_recs (initial_locals init))) with 0%nat in Hle.
      lia.
    - rewrite (Hoth m Hin). change (mission_total m (selected_recs (initial_locals init)))
        with 0%nat. lia. }
  split_and!; [|done | done | | done].
  - intros m. split_and!.
    + etrans; [|apply (Hdis m)]. apply distinct_le_counts; [apply Hwf|].
      intros r Hr. apply occurrences_pos_mission_ids in Hr. rewrite <- Hcnt in Hr.
      by apply get_default_keys.
    + apply Htotal.
    + intros Hnd r. destruct (PyDict.get m init) as [recs0|] eqn:Hinit.
      * assert (Hnd0 : NoDup recs0).
        { apply PyDict.get_elem_of, by_mission_elem in Hinit as (x & -> & ->). done. }
        apply (Hsame m recs0 Hinit Hnd0 r).
      * apply PyDict.get_None_keys in Hinit.
        etrans; [apply occurrences_le_mission_total|].
        rewrite (Hoth m);
          [change (mission_total m (selected_recs (initial_locals init))) with 0%nat; lia|].
        unfold slots. by rewrite (by_mission_keys _
          (fun m => get_available_recommendations e (user st) (mission_id m))).
  - intros Hpos. destruct (decide ("SRc52" ∈ only_one_rec_already (user st1))); [done|].
    rewrite Hs52 in Hpos by done. lia.
Qed.

(** *** A user's history of completed calls *)

(** One completed call: its environment, the objects at its start, the
    slate it returned and the objects at its end. *)
Record completed_call := Call {
  call_env : env;
  call_state : state;
  call_slate : list (string * string);
  call_result : state
}.

Definition completes (c : completed_call) : Prop :=
  get_recommendations_to_send (call_env c) (call_state c)
  = Some (call_slate c, call_result c).

(** The user's record is kept from one call to the next: what
    [only_one_rec_already] holds at the end of a call (or [known], before
    the first call) it still holds at the start of the next. *)
Fixpoint record_kept (known : list string) (calls : list completed_call) : Prop :=
  match calls with
  | [] => True
  | c :: rest =>
      known ⊆ only_one_rec_already (user (call_state c)) /\
      record_kept (only_one_rec_already (user (call_result c))) rest
  end.

(** The number of times item [r] was selected over the history. *)
Definition sent_in_history (r : string) (calls : list completed_call) : nat :=
  sum_list (map (fun c => item_total r (call_slate c)) calls).

Lemma sent_in_history_once calls : forall known,
  Forall completes calls -> record_kept known calls ->
  (sent_in_history "SRc52" calls <= 1)%nat /\
  ("SRc52" ∈ known -> sent_in_history "SRc52" calls = 0%nat).
Proof.
  unfold sent_in_history.
  induction calls as [|c calls IH]; intros known Hall Hkept; simpl; [split; [lia | done]|].
  apply Forall_cons in Hall as [Hc Hall]. destruct Hkept as [Hknown Hkept].
  destruct (get_recommendations_to_send_spec _ _ _ _ Hc) as (_ & Hone & Hzero & Hrec & _).
  destruct (IH _ Hall Hkept) as [Hrest Hrest0].
  destruct (decide (0 < item_total "SRc52" (call_slate c))%nat) as [Hpos|Hpos].
  - rewrite (Hrest0 (Hrec Hpos)). split; [lia|].
    intros Hk. rewrite Hzero in Hpos by by apply Hknown. lia.
  - split; [lia|]. intros Hk. rewrite Hrest0; [lia|].
    destruct (get_recommendations_to_send_spec _ _ _ _ Hc) as (_ & _ & _ & _ & Hgrow).
    by apply Hgrow, Hknown.
Qed.

(** *** Examples *)

Definition example_catalogue : gmap string (option (list string)) :=
  list_to_map [("SRc1", Some ["Education"]); ("SRc2", Some ["Training"]);
               ("SRc3", None); ("SRc4", Some ["Education"; "Training"]);
               ("SRc5", Some []); ("SRc52", Some ["Persuasion"])].

(** An environment whose intervention bandit always takes the first group
    with estimated reward [est]. *)
Definition example_env (est : Q) : env :=
  {| recommendations := example_catalogue;
     feature_vector := fun _ total _ _ _ _ => Some [1%Q; inject_Z (Z.of_nat total)];
     intervention_cfg := "LogisticLaplaceTS";
     recommendation_cfg := "BernoulliBetaTS";
     intervention_select := fun _ _ _ => (0%nat, est);
     recommendation_select := fun _ _ _ => (0%nat, est);
     random_beta := fun n _ _ => inject_Z (Z.of_nat ((n * 3) mod 7));
     parse_client_ts := UserState.example_parse;
     now := 1738368000%Z;
     month := 6 |}.

(** A user who selected mission "SM1" with the recommendations [recs]. *)
Definition example_user (recs : list string) : UserState.user :=
  fst (update_missions_and_contents UserState.example_parse
         (new_user "u1" [] (Some 1735689600%Z))
         [{| mission_id := "SM1"; UserState.recommendations := recs; resources := [];
             prescribed := false; selection_timestamp := Some "2025-02-01T00:00:00Z";
             plan_required := false |}]).

Definition example_state (recs : list string) : state :=
  {| user := example_user recs; binder := ProcessBinder.init None 200000;
     recommendation_mab := BernoulliBetaTS.init 1 1; tick := 0; plan_id := "plan-1";
     content_count := 1 |}.

(** The call of [get_recommendations_to_send] from [st], when it completes. *)
Definition run (e : env) (st : state) : completed_call :=
  {| call_env := e; call_state := st;
     call_slate := match get_recommendations_to_send e st with
                   | Some (slate, _) => slate
                   | None => []
                   end;
     call_result := match get_recommendations_to_send e st with
                    | Some (_, st') => st'
                    | None => st
                    end |}.

(** Two calls in a row for a user whose mission offers "SRc52". *)
Definition example_first : completed_call :=
  run (example_env (6 # 10)) (example_state ["SRc1"; "SRc52"; "SRc2"]).

Definition example_second : completed_call :=
  run (example_env (1 # 2)) (call_result example_first).

Definition example_history : list completed_call := [example_first; example_second].

Lemma example_first_completes : completes example_first.
Proof. vm_compute. reflexivity. Qed.

Lemma example_second_completes : completes example_second.
Proof. vm_compute. reflexivity. Qed.

(** *** The quotas of a slate *)

(** X28. Over a history of completed calls of
    [get_recommendations_to_send] between which the user's record is kept,
    every slate holds, for every mission, at most
    [MAX_DISTINCT_REC_PER_MISSION] distinct items and at most
    [MAX_NUM_REC_PER_MISSION // len(user_missions)] items, and no item more
    than [MAX_SAME_REC_SENT_PER_MISSION] times when the mission's list of
    available recommendations repeats no item; and "SRc52" is selected at
    most once over the whole history. *)
Theorem quota_invariants (calls : list completed_call) :
  Forall completes calls -> record_kept [] calls ->
  (forall c m, c ∈ calls ->
     (length (remove_dups (mission_ids m (call_slate c)))
      <= Encoding.MAX_DISTINCT_REC_PER_MISSION)%nat /\
     (mission_total m (call_slate c)
      <= Encoding.MAX_NUM_REC_PER_MISSION
         / length (get_new_missions (user (call_state c))))%nat /\
     (NoDup (get_available_recommendations (call_env c) (user (call_state c)) m) ->
      forall r, (occurrences r m (call_slate c)
                 <= Encoding.MAX_SAME_REC_SENT_PER_MISSION)%nat)) /\
  (sent_in_history "SRc52" calls <= 1)%nat.
Proof.
  intros Hall Hkept. split.
  - intros c m Hc. rewrite Forall_forall in Hall.
    destruct (get_recommendations_to_send_spec _ _ _ _ (Hall c Hc)) as (Hm & _).
    apply Hm.
  - by apply (sent_in_history_once calls []).
Qed.

Lemma quota_invariants_witness :
  (forall c m, c ∈ example_history ->
     (length (remove_dups (mission_ids m (call_slate c)))
      <= Encoding.MAX_DISTINCT_REC_PER_MISSION)%nat /\
     (mission_total m (call_slate c)
      <= Encoding.MAX_NUM_REC_PER_MISSION
         / length (get_new_missions (user (call_state c))))%nat /\
     (NoDup (get_available_recommendations (call_env c) (user (call_state c)) m) ->
      forall r, (occurrences r m (call_slate c)
                 <= Encoding.MAX_SAME_REC_SENT_PER_MISSION)%nat)) /\
  (sent_in_history "SRc52" example_history <= 1)%nat.
Proof.
  apply quota_invariants.
  - exact (Forall_cons_2 _ _ _ example_first_completes
             (Forall_cons_2 _ _ _ example_second_completes (Forall_nil_2 _))).
  - exact (conj (list_subseteq_nil _) (conj (fun x Hx => Hx) I)).
Defined.

(** In the example history "SRc52" is selected, once. *)
Example example_history_sends_once :
  map call_slate example_history
  = [[("SRc52", "SM1"); ("SRc2", "SM1"); ("SRc1", "SM1"); ("SRc1", "SM1");
      ("SRc2", "SM1"); ("SRc2", "SM1"); ("SRc1", "SM1")];
     [("SRc1", "SM1"); ("SRc1", "SM1"); ("SRc2", "SM1")]] /\
  sent_in_history "SRc52" example_history = 1%nat.
Proof. split; vm_compute; reflexivity. Qed.

(** *** The cap on one item is missed when a mission lists it twice *)

(** The call for a user whose mission "SM1" lists "SRc1" twice. *)
Definition example_repeated : completed_call :=
  run (example_env (6 # 10)) (example_state ["SRc1"; "SRc1"]).

(** C1 (the code misses the cap on one item). [update_frequency_offsets]
    enforces [MAX_SAME_REC_SENT_PER_MISSION] by [recs.remove(sel_rec_id)],
    which drops one occurrence of the item. For a mission whose list of
    available recommendations is ["SRc1"; "SRc1"] the item is therefore
    still available after its third selection, and the completed call
    returns a slate that holds "SRc1" four times for that mission, one more
    than the cap of three. *)
Theorem repeated_item_selected_four_times :
  completes example_repeated /\
  get_available_recommendations (call_env example_repeated)
    (user (call_state example_repeated)) "SM1" = ["SRc1"; "SRc1"] /\
  list_remove "SRc1" ["SRc1"; "SRc1"] = ["SRc1"] /\
  option_map fst (get_recommendations_to_send (example_env (6 # 10))
                    (example_state ["SRc1"; "SRc1"]))
  = Some [("SRc1", "SM1"); ("SRc1", "SM1"); ("SRc1", "SM1"); ("SRc1", "SM1")] /\
  occurrences "SRc1" "SM1"
    [("SRc1", "SM1"); ("SRc1", "SM1"); ("SRc1", "SM1"); ("SRc1", "SM1")] = 4%nat /\
  (Encoding.MAX_SAME_REC_SENT_PER_MISSION
   < occurrences "SRc1" "SM1" (call_slate example_repeated))%nat.
Proof. split_and!; vm_compute; (reflexivity || lia). Qed.

(** *** The threshold on the estimated reward *)

(** [sampled["estimated_reward"]] of the bandit choice among the candidates
    [fv_map] of a slot. *)
Definition estimated_reward (e : env) (st : state) (fv_map : list (list Q * list string))
    : Q :=
  let fmap := s52_candidates (only_one_rec_already (user st)) fv_map in
  if bool_decide (intervention_cfg e = "None")
  then snd (recommendation_select e (tick st) (map snd fmap) (map fst fmap))
  else snd (intervention_select e (tick st) (map snd fmap) (map fst fmap)).

Lemma select_recommendation_threshold e st fv_map anyway st' choice :
  fv_map ≠ [] ->
  select_recommendation e st fv_map anyway = Some (st', choice) ->
  if rejected anyway (estimated_reward e st fv_map)
  then choice = None /\ st' = next_tick st (S (tick st))
  else exists sel fv, choice = Some (sel, fv).
Proof.
  unfold select_recommendation, estimated_reward.
  destruct fv_map as [|g fv_map]; [done|]. intros _.
  set (cands := s52_candidates (only_one_rec_already (user st)) (g :: fv_map)).
  destruct (bool_decide (intervention_cfg e = "None")).
  - unfold handle_recommendation_mab_only. destruct (_ || _); [|done].
    destruct (recommendation_select e (tick st) _ _) as [idx est]. simpl.
    destruct (concat (map snd cands) !! idx) as [sel|]; [|done]. simpl.
    destruct (rejected anyway est); intros [= <- <-]; [done | by eexists _, _].
  - unfold handle_intervention_mab.
    destruct (bool_decide (intervention_cfg e = "LogisticLaplaceTS")); [|done].
    destruct (intervention_select e (tick st) _ _) as [idx est]. simpl.
    destruct (map snd cands !! idx) as [ids|]; [|done]. simpl.
    destruct (map fst cands !! idx) as [sfv|]; [|done]. simpl.
    destruct (rejected anyway est); [by intros [= <- <-]|].
    destruct (bool_decide (recommendation_cfg e = "BernoulliBetaTS")); [|done].
    destruct (BernoulliBetaTS.select_action _ _ _ ids) as [[[[mab n] sel] smp]|]; [|done].
    simpl. intros [= <- <-]. by eexists _, _.
Qed.

Lemma slot_step_shape e unchanged mid count st loc r :
  slot_step e unchanged mid count st loc = Some r ->
  (selected_recs (result_locals r) = selected_recs loc /\ continues count r) \/
  (exists sel, selected_recs (result_locals r) = selected_recs loc ++ [(sel, mid)] /\
               continues (S count) r).
Proof.
  unfold slot_step.
  destruct (get_mission_to_feature_vec_to_rec_ids _ _ _ _ _) as [fmaps|]; [|done]. simpl.
  destruct (PyDict.get mid fmaps) as [[|g gs]|];
    [intros [= <-]; by left | | intros [= <-]; by left].
  destruct (select_recommendation e st (g :: gs) _) as [[st1 [[sel fv]|]]|]; [| |done]; simpl.
  - intros Hacc. right. exists sel. by eapply accept_shape.
  - intros [= <-]. by left.
Qed.

Lemma slot_step_threshold e unchanged mid count st loc fmaps fv_map r :
  get_mission_to_feature_vec_to_rec_ids e (user st) (mission_to_available_recs loc)
    loc false = Some fmaps ->
  PyDict.get mid fmaps = Some fv_map -> fv_map ≠ [] ->
  slot_step e unchanged mid count st loc = Some r ->
  if rejected (count <=? Encoding.MIN_NUM_REC_PER_MISSION)%nat (estimated_reward e st fv_map)
  then r = Next count (next_tick st (S (tick st))) loc
  else exists sel, selected_recs (result_locals r) = selected_recs loc ++ [(sel, mid)].
Proof.
  intros Hf Hg Hne. unfold slot_step. rewrite Hf. simpl. rewrite Hg.
  destruct fv_map as [|g gs]; [done|].
  destruct (select_recommendation e st (g :: gs) _) as [[st1 choice]|] eqn:Hsel; [|done].
  simpl. pose proof (select_recommendation_threshold _ _ _ _ _ _ Hne Hsel) as Hthr.
  destruct (rejected _ _).
  - destruct Hthr as [-> ->]. by intros [= <-].
  - destruct Hthr as (sel & fv & ->). intros Hacc. exists sel. by eapply accept_shape.
Qed.

Lemma fill_slots_others e unchanged mid (n : nat) : forall count st loc st' loc',
  fill_slots e unchanged n mid count st loc = Some (st', loc') ->
  forall m, m ≠ mid ->
    mission_total m (selected_recs loc') = mission_total m (selected_recs loc).
Proof.
  induction n as [|n IH]; intros count st loc st' loc'; simpl; [by intros [= <- <-]|].
  destruct (slot_step e unchanged mid count st loc) as [r|] eqn:Hstep; [|done]. simpl.
  intros Hfill m Hm.
  assert (Hr : mission_total m (selected_recs (result_locals r))
               = mission_total m (selected_recs loc)).
  { destruct (slot_step_shape _ _ _ _ _ _ _ Hstep) as [[-> _]|(sel & -> & _)]; [done|].
    rewrite mission_total_snoc, decide_False by done. lia. }
  destruct r as [st1 loc1|c1 st1 loc1]; simpl in *.
  - by injection Hfill as <- <-.
  - rewrite <- Hr. by eapply IH.
Qed.

(** The iterations of the slot loop of mission [mid] that follow the one
    started with [count], [st] and [loc], however many slots the mission
    has. *)
Inductive slot_reach (e : env) (unchanged : list (string * list string)) (mid : string)
    (count : nat) (st : state) (loc : locals) : nat -> state -> locals -> Prop :=
| reach_start : slot_reach e unchanged mid count st loc count st loc
| reach_step c1 st1 loc1 c2 st2 loc2 :
    slot_reach e unchanged mid count st loc c1 st1 loc1 ->
    slot_step e unchanged mid c1 st1 loc1 = Some (Next c2 st2 loc2) ->
    slot_reach e unchanged mid count st loc c2 st2 loc2.

(** The iterations of the loop over [mission_to_num_slots.items()]: those of
    the first mission, started with [count = 1], and, once its slots are
    filled, those of the missions that follow. *)
Inductive plan_reach (e : env) (unchanged : list (string * list string))
    : list (string * nat) -> state -> locals -> string -> nat -> state -> locals -> Prop :=
| reach_first mid n rest st0 loc0 c st loc :
    slot_reach e unchanged mid 1 st0 loc0 c st loc ->
    plan_reach e unchanged ((mid, n) :: rest) st0 loc0 mid c st loc
| reach_rest mid0 n rest st0 loc0 st1 loc1 mid c st loc :
    fill_slots e unchanged n mid0 1 st0 loc0 = Some (st1, loc1) ->
    plan_reach e unchanged rest st1 loc1 mid c st loc ->
    plan_reach e unchanged ((mid0, n) :: rest) st0 loc0 mid c st loc.

(** [mission_to_available_recs] and [mission_to_num_slots] at the start of a
    call. *)
Definition available_at_start (e : env) (st : state) : list (string * list string) :=
  by_mission (fun m => get_available_recommendations e (user st) (mission_id m))
             (get_new_missions (user st)).

Definition slots_at_start (st : state) : list (string * nat) :=
  by_mission (fun _ => (Encoding.MAX_NUM_REC_PER_MISSION
                        / length (get_new_missions (user st)))%nat)
             (get_new_missions (user st)).

(** An iteration of the slot loop of mission [mid] in the call
    [get_recommendations_to_send] started from [st0]: it begins with the
    counter [count], the objects [st] and the local variables [loc]. *)
Definition iteration (e : env) (st0 : state) (mid : string) (count : nat)
    (st : state) (loc : locals) : Prop :=
  plan_reach e (available_at_start e st0) (slots_at_start st0) st0
    (initial_locals (available_at_start e st0)) mid count st loc.

Lemma get_recommendations_to_send_plan e st :
  get_recommendations_to_send e st =
  '(st', loc) ← plan_missions e (available_at_start e st) (slots_at_start st) st
                  (initial_locals (available_at_start e st));
  Some (selected_recs loc, st').
Proof. reflexivity. Qed.

Lemma slot_reach_count e unchanged mid c0 st0 loc0 c st loc :
  slot_reach e unchanged mid c0 st0 loc0 c st loc ->
  (c + mission_total mid (selected_recs loc0)
   = c0 + mission_total mid (selected_recs loc))%nat.
Proof.
  induction 1 as [|c1 st1 loc1 c2 st2 loc2 _ IH Hstep]; [done|].
  destruct (slot_step_shape _ _ _ _ _ _ _ Hstep) as [[Hs Hc]|(sel & Hs & Hc)];
    simpl in Hs, Hc; rewrite Hs, Hc.
  - done.
  - rewrite mission_total_snoc, decide_True by done. lia.
Qed.

Lemma plan_reach_count e unchanged slots : forall st0 loc0 mid c st loc,
  PyDict.wf slots ->
  (forall m, m ∈ PyDict.keys slots -> mission_total m (selected_recs loc0) = 0%nat) ->
  plan_reach e unchanged slots st0 loc0 mid c st loc ->
  c = S (mission_total mid (selected_recs loc)).
Proof.
  intros st0 loc0 mid c st loc Hwf Hzero Hreach. revert Hwf Hzero.
  induction Hreach as [mid n rest st0 loc0 c st loc Hslot
                      |mid0 n rest st0 loc0 st1 loc1 mid c st loc Hfill _ IH];
    intros Hwf Hzero.
  - apply slot_reach_count in Hslot. rewrite Hzero in Hslot by left. lia.
  - apply NoDup_cons in Hwf as [Hfresh Hwf]. apply IH; [done|].
    intros m Hm. rewrite (fill_slots_others _ _ _ _ _ _ _ _ _ Hfill).
    + apply Hzero. by right.
    + by intros ->.
Qed.

Lemma iteration_count e st0 mid c st loc :
  iteration e st0 mid c st loc -> c = S (mission_total mid (selected_recs loc)).
Proof.
  apply plan_reach_count; [apply by_mission_wf | done].
Qed.

(** The [k]-th iteration after the one started with [count], [st] and
    [loc], when the loop gets that far. *)
Fixpoint nth_iteration (e : env) (unchanged : list (string * list string)) (mid : string)
    (k : nat) (count : nat) (st : state) (loc : locals) : option (nat * state * locals) :=
  match k with
  | 0%nat => Some (count, st, loc)
  | S k' =>
      r ← slot_step e unchanged mid count st loc;
      match r with
      | Next c st' loc' => nth_iteration e unchanged mid k' c st' loc'
      | Stop _ _ => None
      end
  end.

Lemma slot_reach_first e unchanged mid c st loc c1 st1 loc1 c2 st2 loc2 :
  slot_step e unchanged mid c st loc = Some (Next c1 st1 loc1) ->
  slot_reach e unchanged mid c1 st1 loc1 c2 st2 loc2 ->
  slot_reach e unchanged mid c st loc c2 st2 loc2.
Proof.
  intros Hstep Hreach. induction Hreach as [|c3 st3 loc3 c4 st4 loc4 _ IH Hstep'].
  - eapply reach_step; [apply reach_start | done].
  - eapply reach_step; [exact IH | done].
Qed.

Lemma nth_iteration_reach e unchanged mid (k : nat) : forall c st loc c' st' loc',
  nth_iteration e unchanged mid k c st loc = Some (c', st', loc') ->
  slot_reach e unchanged mid c st loc c' st' loc'.
Proof.
  induction k as [|k IH]; intros c st loc c' st' loc'; simpl.
  - intros [= <- <- <-]. apply reach_start.
  - destruct (slot_step e unchanged mid c st loc) as [[|c1 st1 loc1]|] eqn:Hstep;
      [done | | done]. simpl.
    intros Hk. eapply slot_reach_first; [done | by apply IH].
Qed.

Lemma iteration_nth e st0 mid budget rest (k : nat) c st loc :
  slots_at_start st0 = (mid, budget) :: rest ->
  nth_iteration e (available_at_start e st0) mid k 1 st0
    (initial_locals (available_at_start e st0)) = Some (c, st, loc) ->
  iteration e st0 mid c st loc.
Proof.
  intros Hslots Hk. unfold iteration. rewrite Hslots.
  by apply reach_first, (nth_iteration_reach _ _ _ k).
Qed.

(** C2 (as the code has it). In every slot-filling iteration of
    [get_recommendations_to_send] that has candidates, the counter is one
    more than the number of recommendations already selected for the mission
    in this slate; the choice is accepted, whatever its estimated reward,
    when fewer than [MIN_NUM_REC_PER_MISSION] are already selected; once
    [MIN_NUM_REC_PER_MISSION] or more are selected, a choice whose estimated
    reward is at or below 0.5 is rejected (nothing is added and the loop goes
    on with the same counter) and one above 0.5 is accepted. *)
Theorem reward_threshold e st0 mid count st loc fmaps fv_map r :
  iteration e st0 mid count st loc ->
  get_mission_to_feature_vec_to_rec_ids e (user st) (mission_to_available_recs loc)
    loc false = Some fmaps ->
  PyDict.get mid fmaps = Some fv_map -> fv_map ≠ [] ->
  slot_step e (available_at_start e st0) mid count st loc = Some r ->
  let already := mission_total mid (selected_recs loc) in
  let est := estimated_reward e st fv_map in
  count = S already /\
  ((already < Encoding.MIN_NUM_REC_PER_MISSION)%nat ->
   exists sel, selected_recs (result_locals r) = selected_recs loc ++ [(sel, mid)]) /\
  ((Encoding.MIN_NUM_REC_PER_MISSION <= already)%nat -> (est <= 1 # 2)%Q ->
   r = Next count (next_tick st (S (tick st))) loc) /\
  ((Encoding.MIN_NUM_REC_PER_MISSION <= already)%nat -> ~ (est <= 1 # 2)%Q ->
   exists sel, selected_recs (result_locals r) = selected_recs loc ++ [(sel, mid)]).
Proof.
  intros Hit Hf Hg Hne Hstep already est.
  pose proof (iteration_count _ _ _ _ _ _ Hit) as Hc. fold already in Hc.
  pose proof (slot_step_threshold _ _ _ _ _ _ _ _ _ Hf Hg Hne Hstep) as Hthr.
  fold est in Hthr. unfold rejected in Hthr. split; [done|].
  unfold Encoding.MIN_NUM_REC_PER_MISSION in *.
  destruct (count <=? 3)%nat eqn:Hle; simpl in Hthr.
  - apply Nat.leb_le in Hle. split_and!; [by intros _ | lia | lia].
  - apply Nat.leb_gt in Hle. destruct (Qle_bool est (1 # 2)) eqn:Hq.
    + apply Qle_bool_iff in Hq. split_and!; [lia | by intros _ _ | by intros _ ?].
    + assert (~ (est <= 1 # 2)%Q).
      { intros Hq'. apply Qle_bool_iff in Hq'. congruence. }
      split_and!; [lia | by intros _ ? | by intros _ _].
Qed.

(** The fourth iteration of a call in which every estimated reward is 0.5 and
    five recommendations are offered. *)
Definition example_threshold_state : state :=
  example_state ["SRc1"; "SRc2"; "SRc3"; "SRc4"; "SRc5"].

Definition example_fourth : nat * state * locals :=
  default (1%nat, example_threshold_state,
           initial_locals (available_at_start (example_env (1 # 2)) example_threshold_state))
    (nth_iteration (example_env (1 # 2))
       (available_at_start (example_env (1 # 2)) example_threshold_state) "SM1" 3 1
       example_threshold_state
       (initial_locals (available_at_start (example_env (1 # 2)) example_threshold_state))).

Definition example_fourth_state : state := snd (fst example_fourth).
Definition example_fourth_locals : locals := snd example_fourth.

Definition example_fourth_candidates : list (string * list (list Q * list string)) :=
  default []
    (get_mission_to_feature_vec_to_rec_ids (example_env (1 # 2))
       (user example_fourth_state) (mission_to_available_recs example_fourth_locals)
       example_fourth_locals false).

Definition example_fourth_result : step_result :=
  default (Stop example_fourth_state example_fourth_locals)
    (slot_step (example_env (1 # 2))
       (available_at_start (example_env (1 # 2)) example_threshold_state) "SM1" 4
       example_fourth_state example_fourth_locals).

Lemma reward_threshold_witness :
  mission_total "SM1" (selected_recs example_fourth_locals) = 3%nat /\
  example_fourth_result
  = Next 4 (next_tick example_fourth_state (S (tick example_fourth_state)))
      example_fourth_locals.
Proof.
  split; [vm_compute; reflexivity|].
  destruct (reward_threshold (example_env (1 # 2)) example_threshold_state "SM1" 4
              example_fourth_state example_fourth_locals example_fourth_candidates
              (default [] (PyDict.get "SM1" example_fourth_candidates))
              example_fourth_result) as (_ & _ & Hrejected & _).
  - apply (iteration_nth _ _ _ 10 [] 3); vm_compute; reflexivity.
  - vm_compute; reflexivity.
  - vm_compute; reflexivity.
  - vm_compute; discriminate.
  - vm_compute; reflexivity.
  - apply Hrejected.
    + vm_compute. apply le_n.
    + apply Qle_bool_iff. vm_compute. reflexivity.
Defined.

(** With three recommendations already selected for the mission, a choice
    whose estimated reward is 0.5 is rejected: the slot adds nothing, and the
    call returns three recommendations for its ten slots. *)
Lemma choice_rejected_at_minimum :
  mission_total "SM1" (selected_recs example_fourth_locals) = 3%nat /\
  Qeq_bool
    (estimated_reward (example_env (1 # 2)) example_fourth_state
       (default [] (PyDict.get "SM1" example_fourth_candidates))) (1 # 2) = true /\
  option_map (fun r => selected_recs (result_locals r))
    (slot_step (example_env (1 # 2))
       (available_at_start (example_env (1 # 2)) example_threshold_state) "SM1" 4
       example_fourth_state example_fourth_locals)
  = Some [("SRc2", "SM1"); ("SRc3", "SM1"); ("SRc4", "SM1")] /\
  option_map fst (get_recommendations_to_send (example_env (1 # 2)) example_threshold_state)
  = Some [("SRc2", "SM1"); ("SRc3", "SM1"); ("SRc4", "SM1")].
Proof. split_and!; vm_compute; reflexivity. Qed.

(** *** The items in season *)

(** "ERc65" and "ERc66" are winter items, "ERc110" is a spring item. *)
Definition in_season (e : env) (r : string) : Prop :=
  (r ∈ ["ERc65"; "ERc66"] -> is_winter e = true) /\ (r = "ERc110" -> is_spring e = true).

#[local] Instance in_season_dec e r : Decision (in_season e r).
Proof. unfold in_season. apply _. Defined.

Lemma remove_unless_filter season x l :
  NoDup l -> remove_unless season x l = filter (fun r => r = x -> season = true) l.
Proof.
  intros Hnd. unfold remove_unless. destruct season; simpl.
  - rewrite andb_false_r. symmetry. induction l as [|y l IH]; [done|].
    apply NoDup_cons in Hnd as [_ Hnd]. rewrite filter_cons, decide_True by done.
    f_equal. by apply IH.
  - rewrite andb_true_r. case_bool_decide as Hx.
    + rewrite list_remove_filter by done. apply list_filter_iff. intros y.
      split; [intros Hne ->; done | intros Hy ->; by specialize (Hy eq_refl)].
    + symmetry. clear Hnd. induction l as [|y l IH]; [done|].
      apply not_elem_of_cons in Hx as [Hne Hx].
      rewrite filter_cons, decide_True by (by intros ->).
      f_equal. by apply IH.
Qed.

(** X18. [get_available_recommendations] reads the first record of the
    mission: it returns a sublist of that record's recommendations that
    keeps every item other than the three seasonal ones, and nothing for a
    mission without record. When the record names no item twice, the result
    is exactly the record's items that are in season ("ERc65" and "ERc66"
    only in winter, "ERc110" only in spring). *)
Theorem available_recommendations_in_season (e : env) (u : UserState.user) (mid : string) :
  match List.find (fun m => bool_decide (mission_id m = mid))
                  (selected_missions_and_contents u) with
  | None => get_available_recommendations e u mid = []
  | Some m =>
      get_available_recommendations e u mid `sublist_of` UserState.recommendations m /\
      (forall r, r ∈ UserState.recommendations m -> r ∉ ["ERc65"; "ERc66"; "ERc110"] ->
                 r ∈ get_available_recommendations e u mid) /\
      (NoDup (UserState.recommendations m) ->
       get_available_recommendations e u mid
       = filter (in_season e) (UserState.recommendations m))
  end.
Proof.
  unfold get_available_recommendations.
  destruct (List.find _ (selected_missions_and_contents u)) as [m|]; [|done].
  set (l0 := UserState.recommendations m).
  set (l1 := remove_unless (is_winter e) "ERc65" l0).
  set (l2 := remove_unless (is_winter e) "ERc66" l1).
  assert (Hsub : forall b x l, remove_unless b x l `sublist_of` l).
  { intros b x l. unfold remove_unless. destruct (_ && _); [apply list_remove_sublist | done]. }
  assert (Hkeep : forall b x l r, r ≠ x -> r ∈ l -> r ∈ remove_unless b x l).
  { intros b x l r Hne Hr. unfold remove_unless.
    destruct (_ && _); [by apply list_remove_elem_ne | done]. }
  split_and!.
  - etrans; [apply Hsub|]. etrans; apply Hsub.
  - intros r Hr Hn. apply not_elem_of_cons in Hn as [H65 Hn].
    apply not_elem_of_cons in Hn as [H66 Hn]. apply not_elem_of_cons in Hn as [H110 _].
    by do 3 (apply Hkeep; [done|]).
  - intros Hnd. assert (Hnd1 : NoDup l1) by (eapply sublist_NoDup; [done | apply Hsub]).
    assert (Hnd2 : NoDup l2) by (eapply sublist_NoDup; [done | apply Hsub]).
    rewrite (remove_unless_filter _ _ l2 Hnd2). unfold l2.
    rewrite (remove_unless_filter _ _ l1 Hnd1). unfold l1.
    rewrite (remove_unless_filter _ _ l0 Hnd). rewrite !list_filter_filter.
    apply list_filter_iff. intros r. unfold in_season.
    rewrite !elem_of_cons, elem_of_nil. split.
    + intros [[H110 H66] H65]. split; [intros [->|[->|[]]]; auto | done].
    + intros [Hw Hs]. split_and!; [done | intros ->; apply Hw; auto | intros ->; apply Hw; auto].
Qed.

(** *** Where the items of a slate come from *)

(** The two items of which a mission gets one only. *)
Definition exclusive (a b : string) : Prop :=
  (a = "SRc100" /\ b = "SRc101") \/ (a = "SRc101" /\ b = "SRc100").

Lemma exclusive_sym a b : exclusive a b -> exclusive b a.
Proof. unfold exclusive. tauto. Qed.

Lemma prune_exclusive_other sel other recs :
  exclusive sel other -> sel ∈ recs -> NoDup recs -> other ∉ prune_exclusive sel recs.
Proof.
  intros Hex Hsel Hnd. unfold prune_exclusive.
  rewrite (bool_decide_eq_true_2 (sel ∈ recs)) by done.
  destruct Hex as [[-> ->]|[-> ->]]; simpl.
  - case_bool_decide; [by apply list_remove_NoDup_notin | done].
  - case_bool_decide; [by apply list_remove_NoDup_notin | done].
Qed.

Lemma prune_all_get sel m2r : forall oo oo' m2r' m recs',
  prune_all sel oo m2r = (oo', m2r') -> PyDict.get m m2r' = Some recs' ->
  exists oo1 recs, PyDict.get m m2r = Some recs /\ recs' = snd (prune_recs sel oo1 recs).
Proof.
  induction m2r as [|[m0 recs0] m2r IH]; intros oo oo' m2r' m recs'; simpl.
  - by intros [= <- <-].
  - destruct (prune_recs sel oo recs0) as [oo1 recs1] eqn:Hp.
    destruct (prune_all sel oo1 m2r) as [oo2 rest'] eqn:Hr.
    intros [= <- <-]. simpl. destruct (decide (m0 = m)) as [->|Hne].
    + intros [= <-]. exists oo, recs0. by rewrite Hp.
    + intros Hget. by eapply IH.
Qed.

Lemma update_frequency_offsets_catalogue e sel mid loc loc2 :
  update_frequency_offsets e sel mid loc = Some loc2 ->
  exists ity mix, recommendations e !! sel = Some ity /\
                  Encoding.get_intervention_encoding ity = Some mix.
Proof.
  unfold update_frequency_offsets.
  destruct (recommendations e !! sel) as [ity|]; [|done]. simpl.
  destruct (Encoding.get_intervention_encoding ity) as [mix|] eqn:Hmix; [|done].
  intros _. eauto.
Qed.

Lemma by_mission_fold_from {V : Type} (f : mission -> V) ms : forall d k v,
  (k, v) ∈ foldl (fun d m => PyDict.set (mission_id m) (f m) d) d ms ->
  (k, v) ∈ d \/ exists m, m ∈ ms /\ k = mission_id m /\ v = f m.
Proof.
  induction ms as [|m ms IH]; intros d k v; simpl; [by left|].
  intros Hin. destruct (IH _ _ _ Hin) as [Hd|(m' & Hm' & ? & ?)].
  - apply set_elem_of in Hd as [[= -> ->]|Hd]; [|by left].
    right. exists m. split; [left | done].
  - right. exists m'. split; [by right | done].
Qed.

(** What the slate of a call holds, beside the quotas: items that were
    offered for their mission and stand in the catalogue, and of two
    exclusive items one only. *)
Record offered (e : env) (init : list (string * list string)) (loc : locals) : Prop := {
  off_items : forall r m, (r, m) ∈ selected_recs loc ->
    (exists recs0, PyDict.get m init = Some recs0 /\ r ∈ recs0) /\
    exists ity mix, recommendations e !! r = Some ity /\
                    Encoding.get_intervention_encoding ity = Some mix;
  off_pruned : forall m recs0 a b, PyDict.get m init = Some recs0 -> NoDup recs0 ->
    exclusive a b -> (0 < occurrences a m (selected_recs loc))%nat ->
    forall recs, PyDict.get m (mission_to_available_recs loc) = Some recs -> b ∉ recs;
  off_one : forall m recs0 a b, PyDict.get m init = Some recs0 -> NoDup recs0 ->
    exclusive a b ->
    occurrences a m (selected_recs loc) = 0%nat \/ occurrences b m (selected_recs loc) = 0%nat
}.

Lemma initial_offered e init : offered e init (initial_locals init).
Proof.
  split; simpl.
  - intros r m Hin. by apply elem_of_nil in Hin.
  - intros m recs0 a b _ _ _ Hpos. unfold occurrences in Hpos. simpl in Hpos. lia.
  - intros. by left.
Qed.

Lemma accept_offered e init known unchanged mid count st loc sel fv r recs :
  inv init known st loc -> offered e init loc ->
  PyDict.get mid (mission_to_available_recs loc) = Some recs -> sel ∈ recs ->
  accept e unchanged mid count st loc sel fv = Some r ->
  offered e init (result_locals r).
Proof.
  intros [Hshr Hcnt _ _ _ _ _ _ _] [Hitems Hpruned Hone] Hrecs Hsel Hacc.
  destruct (accept_inversion _ _ _ _ _ _ _ _ _ Hacc)
    as (loc2 & u3 & avail' & Hupd & _ & Hua & Hloc & _).
  destruct (update_frequency_offsets_catalogue _ _ _ _ _ Hupd) as (ity & mix & Hity & Hmix).
  destruct (update_frequency_offsets_spec _ _ _ _ _ Hupd)
    as (Hsl & _ & _ & Hsh2 & _ & _ & Hstay).
  change (selected_recs (add_selected loc sel mid))
    with (selected_recs loc ++ [(sel, mid)]) in Hsl.
  change (cnt (add_selected loc sel mid) sel mid) with (cnt loc sel mid) in *.
  change (mission_to_available_recs (add_selected loc sel mid))
    with (mission_to_available_recs loc) in *.
  destruct (update_avail_recommendations_spec _ _ _ _ _ Hua) as (Hsh3 & _).
  unfold update_avail_recommendations in Hua.
  destruct (prune_all sel (only_one_rec_already u3) (mission_to_available_recs loc2))
    as [oo' a'] eqn:Hprune. injection Hua as _ <-.
  rewrite Hloc. clear Hloc Hacc.
  assert (Hsh : shrinks a' (mission_to_available_recs loc))
    by (eapply shrinks_trans; [exact Hsh3 | exact Hsh2]).
  destruct (proj2 Hshr mid recs Hrecs) as (recs0 & Hinit & Hsub0 & Hnd0).
  split; simpl; rewrite Hsl.
  - intros r' m Hin. apply elem_of_app in Hin as [Hin|Hin]; [by apply Hitems|].
    apply list_elem_of_singleton in Hin as [= -> ->]. split; [|by eauto].
    exists recs0. split; [done | by apply Hsub0].
  - intros m recs1 a b Hm Hnd Hex Hpos recs' Hrecs'.
    destruct (proj2 Hsh m recs' Hrecs') as (recs_m & Hrm & Hsubm & _).
    rewrite occurrences_snoc in Hpos.
    destruct (decide (0 < occurrences a m (selected_recs loc))%nat) as [Hold|Hold].
    { intros Hb. by apply (Hpruned m recs1 a b Hm Hnd Hex Hold recs_m Hrm), Hsubm. }
    destruct (decide ((sel, mid) = (a, m))) as [[= -> ->]|Hne]; [|lia].
    assert (Hc : (S (cnt loc a m) < 3)%nat) by (rewrite Hcnt; lia).
    destruct (Hstay Hc recs Hrecs Hsel) as (recs2 & Hrecs2 & Hsel2).
    destruct (prune_all_get _ _ _ _ _ _ _ Hprune Hrecs') as (oo1 & recs2' & Hget & ->).
    rewrite Hrecs2 in Hget. injection Hget as <-.
    assert (Hnd2 : NoDup recs2).
    { destruct (proj2 Hsh2 m recs2 Hrecs2) as (recs_l & Hl & _ & Hndl).
      rewrite Hrecs in Hl. injection Hl as <-. apply Hndl, Hnd0.
      rewrite Hinit in Hm. by injection Hm as ->. }
    assert (Hne52 : a ≠ "SRc52") by (by destruct Hex as [[-> _]|[-> _]]).
    unfold prune_recs. rewrite (bool_decide_eq_false_2 (a = "SRc52")) by done. simpl.
    by apply prune_exclusive_other.
  - intros m recs1 a b Hm Hnd Hex. rewrite !occurrences_snoc.
    destruct (decide ((sel, mid) = (a, m))) as [[= -> ->]|Hna].
    + right. rewrite decide_False.
      2:{ intros [= ->]. by destruct Hex as [[-> ?]|[-> ?]]. }
      destruct (decide (0 < occurrences b m (selected_recs loc))%nat) as [Hb|Hb]; [|lia].
      exfalso. by apply (Hpruned m recs1 b a Hm Hnd (exclusive_sym _ _ Hex) Hb recs Hrecs).
    + destruct (decide ((sel, mid) = (b, m))) as [[= -> ->]|Hnb].
      * left. destruct (decide (0 < occurrences a m (selected_recs loc))%nat) as [Ha|Ha]; [|lia].
        exfalso. by apply (Hpruned m recs1 a b Hm Hnd Hex Ha recs Hrecs).
      * destruct (Hone m recs1 a b Hm Hnd Hex) as [->| ->]; [by left | by right].
Qed.

Lemma slot_step_offered e init known unchanged mid count st loc r :
  PyDict.wf init -> inv init known st loc -> offered e init loc ->
  slot_step e unchanged mid count st loc = Some r ->
  offered e init (result_locals r).
Proof.
  intros Hwf Hinv Hoff. unfold slot_step.
  destruct (get_mission_to_feature_vec_to_rec_ids _ _ _ _ _) as [fmaps|] eqn:Hf; [|done].
  simpl.
  destruct (PyDict.get mid fmaps) as [[|g gs]|] eqn:Hg;
    [by intros [= <-] | | by intros [= <-]].
  destruct (select_recommendation e st (g :: gs) _) as [[st1 choice]|] eqn:Hsel; [|done].
  simpl. destruct (select_recommendation_spec _ _ _ _ _ _ Hsel) as [(Hu & _) Hchoice].
  destruct choice as [[sel fv]|]; [|by intros [= <-]].
  intros Hacc. destruct (Hchoice sel fv eq_refl) as [Hin _].
  destruct (feature_map_ids _ _ _ _ _ _ _ _ _ Hf Hg Hin) as (recs & Hrecs & Hsel_in).
  apply PyDict.elem_of_get in Hrecs; [|by eapply shrinks_wf, Hwf; apply Hinv].
  eapply (accept_offered e init known unchanged mid count st1 loc sel fv r recs); try done.
  by apply (inv_same_user init known st).
Qed.

Lemma fill_slots_offered e init known unchanged mid (n : nat) : forall count st loc st' loc',
  PyDict.wf init -> inv init known st loc -> offered e init loc ->
  fill_slots e unchanged n mid count st loc = Some (st', loc') ->
  offered e init loc'.
Proof.
  induction n as [|n IH]; intros count st loc st' loc' Hwf Hinv Hoff; simpl.
  - by intros [= <- <-].
  - destruct (slot_step e unchanged mid count st loc) as [r|] eqn:Hstep; [|done]. simpl.
    destruct (slot_step_spec _ _ _ _ _ _ _ _ _ Hwf Hinv Hstep) as (_ & Hinv1 & _).
    pose proof (slot_step_offered _ _ _ _ _ _ _ _ _ Hwf Hinv Hoff Hstep) as Hoff1.
    destruct r as [st1 loc1|c1 st1 loc1]; simpl in *; [by intros [= <- <-]|].
    intros Hfill. by eapply IH.
Qed.

Lemma plan_missions_offered e init known unchanged slots : forall st loc st' loc',
  PyDict.wf init -> inv init known st loc -> offered e init loc ->
  plan_missions e unchanged slots st loc = Some (st', loc') ->
  offered e init loc'.
Proof.
  induction slots as [|[mid n] slots IH]; intros st loc st' loc' Hwf Hinv Hoff; simpl.
  - by intros [= <- <-].
  - destruct (fill_slots e unchanged n mid 1 st loc) as [[st1 loc1]|] eqn:Hfill; [|done].
    simpl. destruct (fill_slots_spec _ _ _ _ _ _ _ _ _ _ _ Hwf Hinv Hfill) as (Hinv1 & _).
    intros Hplan. eapply IH; [done | exact Hinv1 | | exact Hplan].
    exact (fill_slots_offered _ _ _ _ _ _ _ _ _ _ _ Hwf Hinv Hoff Hfill).
Qed.

Lemma get_recommendations_to_send_offered e st slate st' :
  get_recommendations_to_send e st = Some (slate, st') ->
  exists loc, selected_recs loc = slate /\
    offered e (by_mission (fun m => get_available_recommendations e (user st) (mission_id m))
                 (get_new_missions (user st))) loc.
Proof.
  unfold get_recommendations_to_send.
  set (init := by_mission _ (get_new_missions (user st))).
  destruct (plan_missions e init _ st (initial_locals init)) as [[st1 loc]|] eqn:Hplan;
    [|done]. simpl. intros [= <- <-]. exists loc. split; [done|].
  eapply (plan_missions_offered e init (only_one_rec_already (user st))); [| | |exact Hplan].
  - apply by_mission_wf.
  - by apply initial_inv.
  - apply initial_offered.
Qed.

(** X19. Every entry of the slate of a completed call is an item that
    [get_available_recommendations] offered for its mission at the start of
    the call, the mission is one of the user's missions that wait for a
    plan, and the item stands in the catalogue with recognized intervention
    types. *)
Theorem slate_items_offered (c : completed_call) :
  completes c ->
  forall r m, (r, m) ∈ call_slate c ->
    (exists mi, mi ∈ get_new_missions (user (call_state c)) /\ mission_id mi = m) /\
    r ∈ get_available_recommendations (call_env c) (user (call_state c)) m /\
    exists ity mix, recommendations (call_env c) !! r = Some ity /\
                    Encoding.get_intervention_encoding ity = Some mix.
Proof.
  intros Hc r m Hin.
  destruct (get_recommendations_to_send_offered _ _ _ _ Hc) as (loc & Hslate & [Hitems _ _]).
  rewrite <- Hslate in Hin. destruct (Hitems r m Hin) as [(recs0 & Hinit & Hr) Hcat].
  apply PyDict.get_elem_of, by_mission_fold_from in Hinit as [Hnil|(mi & Hmi & -> & ->)];
    [by apply elem_of_nil in Hnil|].
  split_and!; [by exists mi | done | done].
Qed.

Lemma example_first_plans_s52 : ("SRc52", "SM1") ∈ call_slate example_first.
Proof. vm_compute. apply list_elem_of_here. Qed.

Lemma slate_items_offered_witness :
  (exists mi, mi ∈ get_new_missions (user (call_state example_first)) /\
              mission_id mi = "SM1") /\
  "SRc52" ∈ get_available_recommendations (call_env example_first)
              (user (call_state example_first)) "SM1" /\
  exists ity mix, recommendations (call_env example_first) !! "SRc52" = Some ity /\
                  Encoding.get_intervention_encoding ity = Some mix.
Proof.
  exact (slate_items_offered example_first example_first_completes "SRc52" "SM1"
           example_first_plans_s52).
Defined.

Lemma occurrences_pos_elem r m slate :
  (0 < occurrences r m slate)%nat -> (r, m) ∈ slate.
Proof.
  unfold occurrences. intros Hpos.
  destruct (filter (fun y => y = (r, m)) slate) as [|y l] eqn:Hf; [simpl in Hpos; lia|].
  assert (Hy : y ∈ filter (fun y => y = (r, m)) slate) by (rewrite Hf; left).
  apply list_elem_of_filter in Hy as [-> Hy]. done.
Qed.

(** X20. "SRc100" and "SRc101" exclude each other: when the list of
    recommendations offered for a mission names no item twice, the slate of
    a completed call holds at most one of the two for that mission. *)
Theorem exclusive_items_one_per_mission (c : completed_call) (m : string) :
  completes c ->
  NoDup (get_available_recommendations (call_env c) (user (call_state c)) m) ->
  occurrences "SRc100" m (call_slate c) = 0%nat \/
  occurrences "SRc101" m (call_slate c) = 0%nat.
Proof.
  intros Hc Hnd.
  destruct (get_recommendations_to_send_offered _ _ _ _ Hc)
    as (loc & Hslate & [Hitems _ Hone]).
  rewrite <- Hslate.
  set (init := by_mission _ (get_new_missions (user (call_state c)))) in *.
  destruct (PyDict.get m init) as [recs0|] eqn:Hinit.
  - apply (Hone m recs0 "SRc100" "SRc101" Hinit); [|by left].
    apply PyDict.get_elem_of, by_mission_fold_from in Hinit as [Hnil|(mi & _ & -> & ->)];
      [by apply elem_of_nil in Hnil | done].
  - left. destruct (decide (0 < occurrences "SRc100" m (selected_recs loc))%nat)
      as [Hpos|Hpos]; [|lia].
    apply occurrences_pos_elem, Hitems in Hpos as [(recs0 & Hget & _) _]. congruence.
Qed.

(** A catalogue with the two exclusive items, and a mission that offers both. *)
Definition example_pair_env : env :=
  {| recommendations :=
       <["SRc100" := Some ["Education"]]> (<["SRc101" := Some ["Training"]]> example_catalogue);
     feature_vector := feature_vector (example_env (6 # 10));
     intervention_cfg := "LogisticLaplaceTS";
     recommendation_cfg := "BernoulliBetaTS";
     intervention_select := intervention_select (example_env (6 # 10));
     recommendation_select := recommendation_select (example_env (6 # 10));
     random_beta := random_beta (example_env (6 # 10));
     parse_client_ts := UserState.example_parse;
     now := 1738368000%Z;
     month := 6 |}.

Definition example_pair : completed_call :=
  run example_pair_env (example_state ["SRc100"; "SRc101"; "SRc1"]).

Lemma example_pair_completes : completes example_pair.
Proof. vm_compute. reflexivity. Qed.

Lemma example_pair_offers_once :
  NoDup (get_available_recommendations (call_env example_pair)
           (user (call_state example_pair)) "SM1").
Proof.
  replace (get_available_recommendations _ _ _) with ["SRc100"; "SRc101"; "SRc1"]
    by (vm_compute; reflexivity).
  apply (NoDup_ListNoDup). repeat constructor; simpl; intros H; decompose [or] H; done.
Qed.

Lemma exclusive_items_one_per_mission_witness :
  occurrences "SRc100" "SM1" (call_slate example_pair) = 0%nat \/
  occurrences "SRc101" "SM1" (call_slate example_pair) = 0%nat.
Proof.
  exact (exclusive_items_one_per_mission example_pair "SM1" example_pair_completes
           example_pair_offers_once).
Defined.

(** In that call the mission gets "SRc101" and "SRc1", never "SRc100". *)
Example example_pair_slate :
  call_slate example_pair
  = [("SRc101", "SM1"); ("SRc1", "SM1"); ("SRc1", "SM1"); ("SRc101", "SM1");
     ("SRc1", "SM1"); ("SRc101", "SM1")].
Proof. vm_compute. reflexivity. Qed.

(** *** The decisions a call enqueues *)

(** What a snapshot records beside the feature vector. *)
Definition decision_of (s : ProcessBinder.snapshot)
    : string * option string * option nat * option Z :=
  (ProcessBinder.rec_id s, ProcessBinder.mission_id s, ProcessBinder.content_count s,
   ProcessBinder.selection_time s).

(** The decisions that stand for a slate planned from content count [cc]. *)
Definition decisions_for (e : env) (cc : nat) (slate : list (string * string))
    : list (string * option string * option nat * option Z) :=
  imap (fun i x => (fst x, Some (snd x), Some (cc + i)%nat, Some (now e))) slate.

(** From [st0] to [st], the entries of [loc]'s slate were enqueued, in
    order, on the queue of the user's plan, and nothing else of the binder
    or of the plan changed. *)
Record enqueued (e : env) (st0 st : state) (loc : locals) : Prop := {
  enq_plan : plan_id st = plan_id st0;
  enq_user : user_id (user st) = user_id (user st0);
  enq_count : content_count st = (content_count st0 + length (selected_recs loc))%nat;
  enq_proc : ProcessBinder.proc_map (binder st) = ProcessBinder.proc_map (binder st0) /\
             ProcessBinder._cap (binder st) = ProcessBinder._cap (binder st0);
  enq_other : forall k, k ≠ (user_id (user st0), plan_id st0) ->
    ProcessBinder.pending (binder st) !! k = ProcessBinder.pending (binder st0) !! k;
  enq_queue : exists snaps,
    ProcessBinder.pending_queue (binder st) (user_id (user st0)) (plan_id st0)
    = ProcessBinder.pending_queue (binder st0) (user_id (user st0)) (plan_id st0) ++ snaps /\
    map decision_of snaps = decisions_for e (content_count st0) (selected_recs loc)
}.

Lemma enqueued_start e st loc : selected_recs loc = [] -> enqueued e st st loc.
Proof.
  intros Hnil. split; try done.
  - rewrite Hnil. simpl. lia.
  - exists []. rewrite Hnil. by rewrite app_nil_r.
Qed.

Lemma enqueued_same_user e st0 st st' loc :
  same_user st' st -> enqueued e st0 st loc -> enqueued e st0 st' loc.
Proof.
  intros (Hu & Hb & Hp & Hc) [? ? ? ? ? ?]. split; by rewrite ?Hu, ?Hb, ?Hp, ?Hc.
Qed.

Lemma accept_state e unchanged mid count st loc sel fv r :
  accept e unchanged mid count st loc sel fv = Some r ->
  binder (result_state r)
  = ProcessBinder.enqueue_decision (binder st) (user_id (user st)) (plan_id st)
      {| ProcessBinder.content_count := Some (content_count st);
         ProcessBinder.rec_id := sel;
         ProcessBinder.mission_id := Some mid;
         ProcessBinder.feature_vector := fv;
         ProcessBinder.selection_time := Some (now e) |} /\
  plan_id (result_state r) = plan_id st /\
  content_count (result_state r) = S (content_count st) /\
  user_id (user (result_state r)) = user_id (user st) /\
  tick (result_state r) = tick st /\
  recommendation_mab (result_state r) = recommendation_mab st.
Proof.
  unfold accept.
  destruct (update_frequency_offsets e sel mid (add_selected loc sel mid)) as [loc2|];
    [|done]. simpl.
  destruct (get_mission_to_feature_vec_to_rec_ids _ _ _ _ _) as [fmaps|]; [|done]. simpl.
  destruct (PyDict.get mid fmaps) as [groups|]; [|done]. simpl.
  set (u3 := match List.find _ groups with Some _ => _ | None => _ end).
  assert (Hu3 : user_id u3 = user_id (user st)).
  { unfold u3. by destruct (List.find _ groups) as [[]|]. }
  unfold update_avail_recommendations.
  destruct (prune_all sel (only_one_rec_already u3) (mission_to_available_recs loc2))
    as [oo' avail'].
  destruct (PyDict.get mid avail') as [[|x recs]|]; [| |done]; simpl; intros [= <-];
    by split_and!.
Qed.

Lemma accept_enqueued e st0 unchanged mid count st loc sel fv r :
  enqueued e st0 st loc ->
  accept e unchanged mid count st loc sel fv = Some r ->
  enqueued e st0 (result_state r) (result_locals r).
Proof.
  intros [Hplan Huser Hcount [Hproc Hcap] Hother (snaps & Hq & Hdec)] Hacc.
  destruct (accept_shape _ _ _ _ _ _ _ _ _ Hacc) as [Hsl _].
  destruct (accept_state _ _ _ _ _ _ _ _ _ Hacc) as (Hb & Hp & Hc & Hu & _).
  rewrite Huser, Hplan in Hb.
  split; rewrite ?Hsl, ?Hb, ?Hp, ?Hc, ?Hu; simpl; try done.
  - rewrite length_app. simpl. lia.
  - intros k Hk. rewrite lookup_insert_ne by done. by apply Hother.
  - exists (snaps ++ [{| ProcessBinder.content_count := Some (content_count st);
                         ProcessBinder.rec_id := sel;
                         ProcessBinder.mission_id := Some mid;
                         ProcessBinder.feature_vector := fv;
                         ProcessBinder.selection_time := Some (now e) |}]).
    split.
    + unfold ProcessBinder.pending_queue at 1. simpl. rewrite lookup_insert_eq. simpl.
      by rewrite Hq, app_assoc.
    + unfold decisions_for in *. rewrite map_app, imap_app, Hdec. simpl.
      unfold decision_of. simpl. by rewrite Hcount, Nat.add_0_r.
Qed.

Lemma slot_step_enqueued e st0 unchanged mid count st loc r :
  enqueued e st0 st loc ->
  slot_step e unchanged mid count st loc = Some r ->
  enqueued e st0 (result_state r) (result_locals r).
Proof.
  intros Henq. unfold slot_step.
  destruct (get_mission_to_feature_vec_to_rec_ids _ _ _ _ _) as [fmaps|]; [|done]. simpl.
  destruct (PyDict.get mid fmaps) as [[|g gs]|];
    [by intros [= <-] | | by intros [= <-]].
  destruct (select_recommendation e st (g :: gs) _) as [[st1 choice]|] eqn:Hsel; [|done].
  simpl. destruct (select_recommendation_spec _ _ _ _ _ _ Hsel) as [Hsame _].
  pose proof (enqueued_same_user _ _ _ _ _ Hsame Henq) as Henq1.
  destruct choice as [[sel fv]|]; [|by intros [= <-]].
  by apply accept_enqueued.
Qed.

Lemma fill_slots_enqueued e st0 unchanged mid (n : nat) : forall count st loc st' loc',
  enqueued e st0 st loc ->
  fill_slots e unchanged n mid count st loc = Some (st', loc') ->
  enqueued e st0 st' loc'.
Proof.
  induction n as [|n IH]; intros count st loc st' loc' Henq; simpl.
  - by intros [= <- <-].
  - destruct (slot_step e unchanged mid count st loc) as [r|] eqn:Hstep; [|done]. simpl.
    pose proof (slot_step_enqueued _ _ _ _ _ _ _ _ Henq Hstep) as Henq1.
    destruct r as [st1 loc1|c1 st1 loc1]; simpl in *; [by intros [= <- <-]|].
    intros Hfill. by eapply IH.
Qed.

Lemma plan_missions_enqueued e st0 unchanged slots : forall st loc st' loc',
  enqueued e st0 st loc ->
  plan_missions e unchanged slots st loc = Some (st', loc') ->
  enqueued e st0 st' loc'.
Proof.
  induction slots as [|[mid n] slots IH]; intros st loc st' loc' Henq; simpl.
  - by intros [= <- <-].
  - destruct (fill_slots e unchanged n mid 1 st loc) as [[st1 loc1]|] eqn:Hfill; [|done].
    simpl. intros Hplan. eapply IH; [|exact Hplan].
    exact (fill_slots_enqueued _ _ _ _ _ _ _ _ _ _ Henq Hfill).
Qed.

Lemma get_recommendations_to_send_enqueued e st slate st' :
  get_recommendations_to_send e st = Some (slate, st') ->
  exists loc, selected_recs loc = slate /\ enqueued e st st' loc.
Proof.
  unfold get_recommendations_to_send.
  set (init := by_mission _ (get_new_missions (user st))).
  destruct (plan_missions e init _ st (initial_locals init)) as [[st1 loc]|] eqn:Hplan;
    [|done]. simpl. intros [= <- <-]. exists loc. split; [done|].
  eapply plan_missions_enqueued; [|exact Hplan]. by apply enqueued_start.
Qed.

(** X21. A completed call enqueues one decision per slate entry on the
    pending queue of the user's plan, behind what was pending, in the order
    of the slate: each with the entry's item and mission, the instant of the
    call, and content counts that run on from the plan's count, which ends
    advanced by the length of the slate. The other queues, the bound
    snapshots, the plan id and the user id are unchanged. *)
Theorem slate_decisions_enqueued (c : completed_call) :
  completes c ->
  (exists snaps,
     ProcessBinder.pending_queue (binder (call_result c))
       (user_id (user (call_state c))) (plan_id (call_state c))
     = ProcessBinder.pending_queue (binder (call_state c))
         (user_id (user (call_state c))) (plan_id (call_state c)) ++ snaps /\
     map decision_of snaps
     = decisions_for (call_env c) (content_count (call_state c)) (call_slate c)) /\
  content_count (call_result c)
  = (content_count (call_state c) + length (call_slate c))%nat /\
  (forall k, k ≠ (user_id (user (call_state c)), plan_id (call_state c)) ->
     ProcessBinder.pending (binder (call_result c)) !! k
     = ProcessBinder.pending (binder (call_state c)) !! k) /\
  ProcessBinder.proc_map (binder (call_result c))
  = ProcessBinder.proc_map (binder (call_state c)) /\
  plan_id (call_result c) = plan_id (call_state c) /\
  user_id (user (call_result c)) = user_id (user (call_state c)).
Proof.
  intros Hc. destruct (get_recommendations_to_send_enqueued _ _ _ _ Hc)
    as (loc & <- & [Hplan Huser Hcount [Hproc _] Hother Hq]).
  by split_and!.
Qed.

Lemma slate_decisions_enqueued_witness :
  (exists snaps,
     ProcessBinder.pending_queue (binder (call_result example_second))
       (user_id (user (call_state example_second))) (plan_id (call_state example_second))
     = ProcessBinder.pending_queue (binder (call_state example_second))
         (user_id (user (call_state example_second))) (plan_id (call_state example_second))
       ++ snaps /\
     map decision_of snaps
     = decisions_for (call_env example_second) (content_count (call_state example_second))
         (call_slate example_second)) /\
  content_count (call_result example_second)
  = (content_count (call_state example_second) + length (call_slate example_second))%nat.
Proof.
  exact (conj (proj1 (slate_decisions_enqueued example_second example_second_completes))
              (proj1 (proj2 (slate_decisions_enqueued example_second
                                example_second_completes)))).
Defined.

(** The second call of the example starts from seven pending decisions and
    count 8, and adds three. *)
Example example_second_queue :
  map decision_of
    (drop 7 (ProcessBinder.pending_queue (binder (call_result example_second)) "u1" "plan-1"))
  = [("SRc1", Some "SM1", Some 8%nat, Some 1738368000%Z);
     ("SRc1", Some "SM1", Some 9%nat, Some 1738368000%Z);
     ("SRc2", Some "SM1", Some 10%nat, Some 1738368000%Z)].
Proof. vm_compute. reflexivity. Qed.

(** *** [select_resource] and [get_resources_to_send] *)

(** What [select_resource] changes: the resource bandit (a
    [BernoulliBetaTS], [RESOURCE_MAB_CONFIG]) with its draw counter, and
    [user.received_resources]. *)
Record resource_state := ResourceState {
  resource_mab : BernoulliBetaTS.t;
  resource_tick : nat;
  received_resources : list string
}.

(** [User.add_received_resource] *)
Definition add_received_resource (received : list string) (rid : string) : list string :=
  if bool_decide (rid ∈ received) then received else received ++ [rid].

(** The loop of [select_resource] over the missions that wait for a plan;
    a slate entry is [(id, mission_id)], its type being "resource". *)
Fixpoint select_resource_loop (rb : nat -> Q -> Q -> Q) (missions : list mission)
    (rs : resource_state) (selected : list (string * string))
    : option (list (string * string) * resource_state) :=
  match missions with
  | [] => Some (selected, rs)
  | m :: rest =>
      match filter (fun r => r ∉ received_resources rs) (resources m) with
      | [] => select_resource_loop rb rest rs selected
      | rids =>
          match BernoulliBetaTS.select_action rb (resource_mab rs) (resource_tick rs) rids with
          | Some (mab, n, sel, _) =>
              select_resource_loop rb rest
                {| resource_mab := mab; resource_tick := n;
                   received_resources := add_received_resource (received_resources rs) sel |}
                (selected ++ [(sel, mission_id m)])
          | None => None
          end
      end
  end.

Definition select_resource (rb : nat -> Q -> Q -> Q) (u : UserState.user)
    (rs : resource_state) : option (list (string * string) * resource_state) :=
  select_resource_loop rb (get_new_missions u) rs [].

(** [get_resources_to_send]: the content count of the plan ends at the
    number of resources selected. *)
Definition get_resources_to_send (e : env) (st : state) (rs : resource_state)
    : option (list (string * string) * state * resource_state) :=
  match select_resource (random_beta e) (user st) rs with
  | Some (slate, rs') =>
      Some (slate,
            {| user := user st; binder := binder st;
               recommendation_mab := recommendation_mab st;
               tick := tick st; plan_id := plan_id st; content_count := length slate |},
            rs')
  | None => None
  end.

Lemma select_resource_loop_spec rb missions : forall rs selected,
  BernoulliBetaTS.wf (resource_mab rs) ->
  exists new rs',
    select_resource_loop rb missions rs selected = Some (selected ++ new, rs') /\
    BernoulliBetaTS.wf (resource_mab rs') /\
    received_resources rs' = received_resources rs ++ map fst new /\
    (NoDup (received_resources rs) -> NoDup (received_resources rs')) /\
    map snd new `sublist_of` map mission_id missions /\
    (forall r mid, (r, mid) ∈ new ->
       (r ∉ received_resources rs) /\
       exists m, m ∈ missions /\ mission_id m = mid /\ r ∈ resources m) /\
    (forall m, m ∈ missions -> mission_id m ∉ map snd new ->
       resources m ⊆ received_resources rs').
Proof.
  induction missions as [|m rest IH]; intros rs selected Hwf; simpl.
  - exists [], rs. rewrite !app_nil_r. split_and!; try done.
    + intros r mid Hin. by apply elem_of_nil in Hin.
    + intros m Hin. by apply elem_of_nil in Hin.
  - destruct (filter (fun r => r ∉ received_resources rs) (resources m))
      as [|r0 rids] eqn:Hf.
    + destruct (IH rs selected Hwf)
        as (new & rs' & Hloop & Hwf' & Hrec & Hnd & Hsub & Hnew & Hall).
      exists new, rs'. split_and!; try done.
      * by apply sublist_cons.
      * intros r mid Hin. destruct (Hnew r mid Hin) as (Hr & m' & Hm' & Hid & Hres).
        split; [done|]. exists m'. split_and!; [by right | done | done].
      * intros m' Hin Hnot. apply elem_of_cons in Hin as [->|Hin]; [|by apply Hall].
        intros r Hr. rewrite Hrec. apply elem_of_app. left.
        destruct (decide (r ∈ received_resources rs)) as [|Hn]; [done|].
        assert (Hin : r ∈ filter (fun r => r ∉ received_resources rs) (resources m))
          by (by apply list_elem_of_filter).
        rewrite Hf in Hin. by apply elem_of_nil in Hin.
    + destruct (BernoulliBetaTS.sample_loop_frame rb (r0 :: rids) (resource_mab rs)
                  (resource_tick rs) [] Hwf)
        as (mab & sampled & Hloop & Hwf1 & _ & _ & _ & _ & Hkeys).
      unfold BernoulliBetaTS.select_action. rewrite Hloop. simpl.
      destruct (BernoulliBetaTS.max_sampled sampled) as [sel|] eqn:Hmax.
      2:{ destruct sampled; [|done]. specialize (Hkeys r0 (list_elem_of_here _ _)).
          by apply elem_of_nil in Hkeys. }
      simpl.
      assert (Hsel : sel ∈ r0 :: rids).
      { apply BernoulliBetaTS.max_sampled_key in Hmax.
        destruct (BernoulliBetaTS.sample_loop_keys _ _ _ _ _ _ _ _ Hloop sel Hmax) as [Hk|Hk];
          [by apply elem_of_nil in Hk | done]. }
      rewrite <- Hf in Hsel. apply list_elem_of_filter in Hsel as [Hfresh Hres].
      match goal with
      | |- context [select_resource_loop rb rest ?r ?s] =>
          set (rs1 := r);
          destruct (IH rs1 s Hwf1)
            as (new & rs' & Hloop' & Hwf' & Hrec & Hnd & Hsub & Hnew & Hall)
      end.
      assert (Hrec1 : received_resources rs1 = received_resources rs ++ [sel]).
      { unfold rs1, add_received_resource. simpl. by rewrite bool_decide_eq_false_2. }
      exists ((sel, mission_id m) :: new), rs'.
      split_and!.
      * rewrite Hloop'. by rewrite <- app_assoc.
      * done.
      * rewrite Hrec, Hrec1. simpl. by rewrite <- app_assoc.
      * intros Hnd0. apply Hnd. rewrite Hrec1. apply NoDup_app. split_and!; [done | |].
        -- intros x Hx Hx'. apply list_elem_of_singleton in Hx' as ->. done.
        -- apply NoDup_singleton.
      * simpl. by apply sublist_skip.
      * intros r mid Hin. apply elem_of_cons in Hin as [[= -> ->]|Hin].
        -- split; [done|]. exists m. split_and!; [left | done | done].
        -- destruct (Hnew r mid Hin) as (Hr & m' & Hm' & Hid & Hres').
           split.
           ++ intros Hr0. apply Hr. rewrite Hrec1. apply elem_of_app. by left.
           ++ exists m'. split_and!; [by right | done | done].
      * intros m' Hin Hnot. simpl in Hnot. apply not_elem_of_cons in Hnot as [Hne Hnot].
        apply elem_of_cons in Hin as [->|Hin]; [done | by apply Hall].
Qed.

(** X24. On a bandit whose two tables hold the same actions,
    [select_resource] always returns. It gives at most one resource per
    mission that waits for a plan, in the order of the missions; each is a
    resource of its mission that the user had not received, no resource is
    given twice, a mission is passed over only when the user has received all
    its resources, and the resources given are appended to the received ones.
    [get_resources_to_send] leaves the plan's content count at the number of
    resources given. *)
Theorem select_resource_fresh (e : env) (st : state) (rs : resource_state) :
  BernoulliBetaTS.wf (resource_mab rs) -> NoDup (received_resources rs) ->
  exists slate st' rs',
    get_resources_to_send e st rs = Some (slate, st', rs') /\
    content_count st' = length slate /\
    user st' = user st /\ binder st' = binder st /\ plan_id st' = plan_id st /\
    received_resources rs' = received_resources rs ++ map fst slate /\
    NoDup (map fst slate) /\
    map snd slate `sublist_of` map mission_id (get_new_missions (user st)) /\
    (forall r mid, (r, mid) ∈ slate ->
       (r ∉ received_resources rs) /\
       exists m, m ∈ get_new_missions (user st) /\ mission_id m = mid /\ r ∈ resources m) /\
    (forall m, m ∈ get_new_missions (user st) -> mission_id m ∉ map snd slate ->
       resources m ⊆ received_resources rs').
Proof.
  intros Hwf Hnd. unfold get_resources_to_send, select_resource.
  destruct (select_resource_loop_spec (random_beta e) (get_new_missions (user st)) rs [] Hwf)
    as (slate & rs' & -> & _ & Hrec & Hnd' & Hsub & Hnew & Hall).
  simpl. eexists slate, _, rs'. split; [reflexivity|]. simpl.
  split_and!; try done.
  specialize (Hnd' Hnd). rewrite Hrec in Hnd'. by apply NoDup_app in Hnd' as (_ & _ & ?).
Qed.

(** A user with two missions that share the resource "R1". *)
Definition example_resource_user : UserState.user :=
  fst (update_missions_and_contents UserState.example_parse
         (new_user "u1" [] (Some 1735689600%Z))
         [{| mission_id := "SM1"; UserState.recommendations := []; resources := ["R1"];
             prescribed := false; selection_timestamp := Some "2025-02-01T00:00:00Z";
             plan_required := false |};
          {| mission_id := "SM2"; UserState.recommendations := []; resources := ["R1"; "R2"];
             prescribed := false; selection_timestamp := Some "2025-02-01T00:00:00Z";
             plan_required := false |};
          {| mission_id := "SM3"; UserState.recommendations := []; resources := ["R2"; "R1"];
             prescribed := false; selection_timestamp := Some "2025-02-01T00:00:00Z";
             plan_required := false |}]).

Definition example_resource_state : state :=
  {| user := example_resource_user; binder := ProcessBinder.init None 200000;
     recommendation_mab := BernoulliBetaTS.init 1 1; tick := 0; plan_id := "plan-1";
     content_count := 5 |}.

Definition example_resources : resource_state :=
  {| resource_mab := BernoulliBetaTS.init 1 1; resource_tick := 0;
     received_resources := [] |}.

Lemma select_resource_fresh_witness :
  exists slate st' rs',
    get_resources_to_send (example_env (6 # 10)) example_resource_state example_resources
      = Some (slate, st', rs') /\
    content_count st' = length slate /\
    user st' = user example_resource_state /\ binder st' = binder example_resource_state /\
    plan_id st' = plan_id example_resource_state /\
    received_resources rs' = received_resources example_resources ++ map fst slate /\
    NoDup (map fst slate) /\
    map snd slate `sublist_of`
      map mission_id (get_new_missions (user example_resource_state)) /\
    (forall r mid, (r, mid) ∈ slate ->
       (r ∉ received_resources example_resources) /\
       exists m, m ∈ get_new_missions (user example_resource_state) /\
                 mission_id m = mid /\ r ∈ resources m) /\
    (forall m, m ∈ get_new_missions (user example_resource_state) ->
       mission_id m ∉ map snd slate ->
       resources m ⊆ received_resources rs').
Proof.
  exact (select_resource_fresh (example_env (6 # 10)) example_resource_state
           example_resources (BernoulliBetaTS.wf_init 1 1) (NoDup_nil_2 (A := string))).
Defined.

(** The third mission offers nothing new and is passed over; the count of
    the plan, 5 before the call, ends at 2. *)
Example example_resources_sent :
  (fun r => (fst (fst r), content_count (snd (fst r)), received_resources (snd r)))
    <$> get_resources_to_send (example_env (6 # 10)) example_resource_state example_resources
  = Some ([("R1", "SM1"); ("R2", "SM2")], 2%nat, ["R1"; "R2"]).
Proof. vm_compute. reflexivity. Qed.
End Engine.
